(** * VisualEditor data-model core: Surface and Converter

    A shallow embedding of [ve.dm.Surface] (selection, transaction
    application, history, staging) and of the DOM-to-linear-data half of
    [ve.dm.Converter], with the properties of the design notes proved
    about the embedded code. *)

From Stdlib Require Import ZArith List String Ascii Bool Lia.
From stdpp Require Import base list strings.

Open Scope Z_scope.
Open Scope list_scope.

(** ** JavaScript values and arrays *)

(** A reference-typed JavaScript value that may also be [undefined] or
    [null]; the two are different under [!==]. *)
Inductive JsVal (A : Type) : Type :=
| Undefined : JsVal A
| Null : JsVal A
| Obj : A -> JsVal A.
Arguments Undefined {A}.
Arguments Null {A}.
Arguments Obj {A} _.

Definition jsval_same {A} (eqb : A -> A -> bool) (x y : JsVal A) : bool :=
  match x, y with
  | Undefined, Undefined => true
  | Null, Null => true
  | Obj a, Obj b => eqb a b
  | _, _ => false
  end.

(** An operation either completes or throws. *)
Inductive Outcome (A : Type) : Type :=
| Done : A -> Outcome A
| Thrown : string -> Outcome A.
Arguments Done {A} _.
Arguments Thrown {A} _.

Module JsArray.

  (** [arr.slice( 0, e )]: a negative [e] counts from the end. *)
Definition slice0 {A} (arr : list A) (e : Z) : list A :=
    let len := Z.of_nat (length arr) in
    let e' := if e <? 0 then Z.max (len + e) 0 else Z.min e len in
    firstn (Z.to_nat e') arr.

  (** [arr[ i ]], [undefined] out of range. *)
Definition get {A} (arr : list A) (i : Z) : option A :=
    if (i <? 0) then None else nth_error arr (Z.to_nat i).

  (** [arr[ arr.length - 1 ]] *)
Definition top {A} (arr : list A) : option A := last arr.

  (** [arr.pop()] on the array itself: what remains. *)
Definition popped {A} (arr : list A) : list A := removelast arr.

  (** Replace the top entry (an in-place update of the object
      [arr[ arr.length - 1 ]]). *)
Definition updTop {A} (f : A -> A) (arr : list A) : list A :=
    match last arr with
    | Some x => removelast arr ++ [f x]
    | None => arr
    end.

  (** [arr.splice( i, n )]: what remains in the array. *)
Definition spliceOut {A} (arr : list A) (i n : nat) : list A :=
    firstn i arr ++ skipn (i + n) arr.

  (** [ve.batchSplice( arr, i, 0, ins )] *)
Definition spliceIn {A} (arr : list A) (i : nat) (ins : list A) : list A :=
    firstn i arr ++ ins ++ skipn i arr.

End JsArray.

(** ** ve.Range *)

(** Modelled from the spec: [ve.Range] is not among the sources. A range
    has a direction ([from], [to]); [start] and [end] are its lower and
    upper offsets, and it is collapsed iff they coincide. *)
Module Range.

Record t : Type := mk { from : Z; to : Z }.

Definition start (r : t) : Z := Z.min (from r) (to r).
Definition end_ (r : t) : Z := Z.max (from r) (to r).
Definition isCollapsed (r : t) : bool := from r =? to r.
Definition isBackwards (r : t) : bool := to r <? from r.
Definition equals (a b : t) : bool := (from a =? from b) && (to a =? to b).
Definition equalsSelection (a b : t) : bool :=
    (start a =? start b) && (end_ a =? end_ b).

End Range.

(** ** ve.dm.AnnotationSet *)

(** Modelled from the spec: [ve.dm.AnnotationSet] is not among the
    sources. A set is an ordered sequence of store indices; [clone] is an
    independent copy, [equalsInOrder] compares the sequences,
    [compareTo] compares the contents whatever the order. *)
Module AnnotationSet.

Definition t : Type := list nat.

Definition empty : t := [].
Definition isEmpty (s : t) : bool := match s with [] => true | _ => false end.
Definition getLength (s : t) : nat := length s.
Definition getIndex (s : t) (i : nat) : option nat := nth_error s i.
Definition getIndexes (s : t) : list nat := s.
Definition containsIndex (s : t) (x : nat) : bool := existsb (Nat.eqb x) s.
Fixpoint removeIndex (s : t) (x : nat) : t :=
    match s with
    | [] => []
    | y :: r => if Nat.eqb x y then r else y :: removeIndex r x
    end.
Definition removeAt (s : t) (i : nat) : t := firstn i s ++ skipn (S i) s.
Definition pushIndex (s : t) (x : nat) : t := s ++ [x].
Definition addIndex (s : t) (x : nat) : t :=
    if containsIndex s x then s else s ++ [x].
Definition addSet (s other : t) : t := fold_left addIndex other s.
Definition removeSet (s other : t) : t := fold_left removeIndex other s.
Definition diffWith (s other : t) : t :=
    List.filter (fun x => negb (containsIndex other x)) s.
Definition intersectWith (s other : t) : t :=
    List.filter (fun x => containsIndex other x) s.
Definition equalsInOrder (a b : t) : bool :=
    bool_decide (a = b).
Definition compareTo (a b : t) : bool :=
    forallb (containsIndex b) a && forallb (containsIndex a) b.

End AnnotationSet.

(** ** ve.dm.Surface *)

Module Surface.

(** *** Collaborators of the surface

    The transaction class, the document's content and its queries and
    the table selection are not among the sources; the surface only
    calls them, so they are the fields of an interface. *)
Class Collaborators : Type := {
  Transaction : Type;
  reversed : Transaction -> Transaction;
  isNoOp : Transaction -> bool;
  hasElementAttributeOperations : Transaction -> bool;
  (** content of the document, and what committing a transaction does
      to it *)
  Data : Type;
  applyTransaction : Transaction -> Data -> Data;
  Node : Type;
  node_same : Node -> Node -> bool;
  TableSel : Type;
  table_equals : TableSel -> TableSel -> bool;
  getBranchNodeFromOffset : Data -> Z -> JsVal Node;
  getNodeFromOffset : Data -> Z -> JsVal Node;
  getOuterRange : Data -> Node -> Range.t;
  firstMatrixCellNode : Data -> TableSel -> JsVal Node;
  getLength : Data -> Z;
  getAnnotationsFromOffset : Data -> Z -> AnnotationSet.t;
  getAnnotationsFromRange : Data -> Range.t -> bool -> AnnotationSet.t;
  getInsertionAnnotationsFromRange : Data -> Range.t -> AnnotationSet.t;
  (** [store.value( index ).name] *)
  annotationName : Data -> nat -> string;
  Annotation : Type;
  (** [store.index( annotation )] *)
  storeIndex : Data -> Annotation -> nat
}.

Inductive Selection `{Collaborators} : Type :=
| LinearSelection : Range.t -> Selection
| TableSelection : TableSel -> Selection
| NullSelection : Selection.

(** Selections are immutable values; how a transaction moves one is the
    selection classes' business. *)
Class SelectionOps `{Collaborators} : Type := {
  translateByTransaction : Transaction -> Selection -> Selection
}.

Section Model.

Context `{SelectionOps}.

Definition sel_isNull (s : Selection) : bool :=
    match s with NullSelection => true | _ => false end.

Definition sel_equals (a b : Selection) : bool :=
    match a, b with
    | LinearSelection r1, LinearSelection r2 => Range.equals r1 r2
    | TableSelection t1, TableSelection t2 => table_equals t1 t2
    | NullSelection, NullSelection => true
    | _, _ => false
    end.

  (** *** State *)

Inductive Event : Type :=
  | EvSelect : Selection -> Event
  | EvFocus : Event
  | EvBlur : Event
  | EvDocumentUpdate : Transaction -> Event
  | EvContextChange : Event
  | EvInsertionAnnotationsChange : nat -> Event
  | EvHistory : Event.

Record Staging : Type := mkStaging {
    st_transactions : list Transaction;
    st_selectionBefore : Selection;
    st_allowUndo : bool
  }.

Record UndoItem : Type := mkUndoItem {
    ui_transactions : list Transaction;
    ui_selection : Selection;
    ui_selectionBefore : Selection
  }.

Record BranchNodes : Type := mkBranchNodes {
    bn_start : JsVal Node;
    bn_end : JsVal Node
  }.

  (** The fields of the constructor, in its order, then the objects
      the surface shares with its callers: [sets] is the store of
      AnnotationSet objects (a reference is an index into it) and
      [events] the events emitted so far, oldest first.
      [historyTrackingInterval] is [true] when the field holds a timer
      and [false] when it is [null]. *)
Record t : Type := mk {
    documentModel : Data;
    selection : Selection;
    selectionBefore : Selection;
    translatedSelection : option Selection;
    branchNodes : BranchNodes;
    selectedNode : JsVal Node;
    newTransactions : list Transaction;
    stagingStack : list Staging;
    undoStack : list UndoItem;
    undoIndex : Z;
    historyTrackingInterval : bool;
    insertionAnnotations : nat;
    selectedAnnotations : AnnotationSet.t;
    isCollapsed : option bool;
    enabled : bool;
    transacting : bool;
    queueingContextChanges : bool;
    contextChangeQueued : bool;
    sets : list AnnotationSet.t;
    events : list Event
  }.

Definition set_documentModel v s := mk v (selection s) (selectionBefore s) (translatedSelection s) (branchNodes s) (selectedNode s) (newTransactions s) (stagingStack s) (undoStack s) (undoIndex s) (historyTrackingInterval s) (insertionAnnotations s) (selectedAnnotations s) (isCollapsed s) (enabled s) (transacting s) (queueingContextChanges s) (contextChangeQueued s) (sets s) (events s).
Definition set_selection v s := mk (documentModel s) v (selectionBefore s) (translatedSelection s) (branchNodes s) (selectedNode s) (newTransactions s) (stagingStack s) (undoStack s) (undoIndex s) (historyTrackingInterval s) (insertionAnnotations s) (selectedAnnotations s) (isCollapsed s) (enabled s) (transacting s) (queueingContextChanges s) (contextChangeQueued s) (sets s) (events s).
Definition set_selectionBefore v s := mk (documentModel s) (selection s) v (translatedSelection s) (branchNodes s) (selectedNode s) (newTransactions s) (stagingStack s) (undoStack s) (undoIndex s) (historyTrackingInterval s) (insertionAnnotations s) (selectedAnnotations s) (isCollapsed s) (enabled s) (transacting s) (queueingContextChanges s) (contextChangeQueued s) (sets s) (events s).
Definition set_translatedSelection v s := mk (documentModel s) (selection s) (selectionBefore s) v (branchNodes s) (selectedNode s) (newTransactions s) (stagingStack s) (undoStack s) (undoIndex s) (historyTrackingInterval s) (insertionAnnotations s) (selectedAnnotations s) (isCollapsed s) (enabled s) (transacting s) (queueingContextChanges s) (contextChangeQueued s) (sets s) (events s).
Definition set_branchNodes v s := mk (documentModel s) (selection s) (selectionBefore s) (translatedSelection s) v (selectedNode s) (newTransactions s) (stagingStack s) (undoStack s) (undoIndex s) (historyTrackingInterval s) (insertionAnnotations s) (selectedAnnotations s) (isCollapsed s) (enabled s) (transacting s) (queueingContextChanges s) (contextChangeQueued s) (sets s) (events s).
Definition set_selectedNode v s := mk (documentModel s) (selection s) (selectionBefore s) (translatedSelection s) (branchNodes s) v (newTransactions s) (stagingStack s) (undoStack s) (undoIndex s) (historyTrackingInterval s) (insertionAnnotations s) (selectedAnnotations s) (isCollapsed s) (enabled s) (transacting s) (queueingContextChanges s) (contextChangeQueued s) (sets s) (events s).
Definition set_newTransactions v s := mk (documentModel s) (selection s) (selectionBefore s) (translatedSelection s) (branchNodes s) (selectedNode s) v (stagingStack s) (undoStack s) (undoIndex s) (historyTrackingInterval s) (insertionAnnotations s) (selectedAnnotations s) (isCollapsed s) (enabled s) (transacting s) (queueingContextChanges s) (contextChangeQueued s) (sets s) (events s).
Definition set_stagingStack v s := mk (documentModel s) (selection s) (selectionBefore s) (translatedSelection s) (branchNodes s) (selectedNode s) (newTransactions s) v (undoStack s) (undoIndex s) (historyTrackingInterval s) (insertionAnnotations s) (selectedAnnotations s) (isCollapsed s) (enabled s) (transacting s) (queueingContextChanges s) (contextChangeQueued s) (sets s) (events s).
Definition set_undoStack v s := mk (documentModel s) (selection s) (selectionBefore s) (translatedSelection s) (branchNodes s) (selectedNode s) (newTransactions s) (stagingStack s) v (undoIndex s) (historyTrackingInterval s) (insertionAnnotations s) (selectedAnnotations s) (isCollapsed s) (enabled s) (transacting s) (queueingContextChanges s) (contextChangeQueued s) (sets s) (events s).
Definition set_undoIndex v s := mk (documentModel s) (selection s) (selectionBefore s) (translatedSelection s) (branchNodes s) (selectedNode s) (newTransactions s) (stagingStack s) (undoStack s) v (historyTrackingInterval s) (insertionAnnotations s) (selectedAnnotations s) (isCollapsed s) (enabled s) (transacting s) (queueingContextChanges s) (contextChangeQueued s) (sets s) (events s).
Definition set_historyTrackingInterval v s := mk (documentModel s) (selection s) (selectionBefore s) (translatedSelection s) (branchNodes s) (selectedNode s) (newTransactions s) (stagingStack s) (undoStack s) (undoIndex s) v (insertionAnnotations s) (selectedAnnotations s) (isCollapsed s) (enabled s) (transacting s) (queueingContextChanges s) (contextChangeQueued s) (sets s) (events s).
Definition set_insertionAnnotations v s := mk (documentModel s) (selection s) (selectionBefore s) (translatedSelection s) (branchNodes s) (selectedNode s) (newTransactions s) (stagingStack s) (undoStack s) (undoIndex s) (historyTrackingInterval s) v (selectedAnnotations s) (isCollapsed s) (enabled s) (transacting s) (queueingContextChanges s) (contextChangeQueued s) (sets s) (events s).
Definition set_selectedAnnotations v s := mk (documentModel s) (selection s) (selectionBefore s) (translatedSelection s) (branchNodes s) (selectedNode s) (newTransactions s) (stagingStack s) (undoStack s) (undoIndex s) (historyTrackingInterval s) (insertionAnnotations s) v (isCollapsed s) (enabled s) (transacting s) (queueingContextChanges s) (contextChangeQueued s) (sets s) (events s).
Definition set_isCollapsed v s := mk (documentModel s) (selection s) (selectionBefore s) (translatedSelection s) (branchNodes s) (selectedNode s) (newTransactions s) (stagingStack s) (undoStack s) (undoIndex s) (historyTrackingInterval s) (insertionAnnotations s) (selectedAnnotations s) v (enabled s) (transacting s) (queueingContextChanges s) (contextChangeQueued s) (sets s) (events s).
Definition set_enabled v s := mk (documentModel s) (selection s) (selectionBefore s) (translatedSelection s) (branchNodes s) (selectedNode s) (newTransactions s) (stagingStack s) (undoStack s) (undoIndex s) (historyTrackingInterval s) (insertionAnnotations s) (selectedAnnotations s) (isCollapsed s) v (transacting s) (queueingContextChanges s) (contextChangeQueued s) (sets s) (events s).
Definition set_transacting v s := mk (documentModel s) (selection s) (selectionBefore s) (translatedSelection s) (branchNodes s) (selectedNode s) (newTransactions s) (stagingStack s) (undoStack s) (undoIndex s) (historyTrackingInterval s) (insertionAnnotations s) (selectedAnnotations s) (isCollapsed s) (enabled s) v (queueingContextChanges s) (contextChangeQueued s) (sets s) (events s).
Definition set_queueingContextChanges v s := mk (documentModel s) (selection s) (selectionBefore s) (translatedSelection s) (branchNodes s) (selectedNode s) (newTransactions s) (stagingStack s) (undoStack s) (undoIndex s) (historyTrackingInterval s) (insertionAnnotations s) (selectedAnnotations s) (isCollapsed s) (enabled s) (transacting s) v (contextChangeQueued s) (sets s) (events s).
Definition set_contextChangeQueued v s := mk (documentModel s) (selection s) (selectionBefore s) (translatedSelection s) (branchNodes s) (selectedNode s) (newTransactions s) (stagingStack s) (undoStack s) (undoIndex s) (historyTrackingInterval s) (insertionAnnotations s) (selectedAnnotations s) (isCollapsed s) (enabled s) (transacting s) (queueingContextChanges s) v (sets s) (events s).
Definition set_sets v s := mk (documentModel s) (selection s) (selectionBefore s) (translatedSelection s) (branchNodes s) (selectedNode s) (newTransactions s) (stagingStack s) (undoStack s) (undoIndex s) (historyTrackingInterval s) (insertionAnnotations s) (selectedAnnotations s) (isCollapsed s) (enabled s) (transacting s) (queueingContextChanges s) (contextChangeQueued s) v (events s).
Definition set_events v s := mk (documentModel s) (selection s) (selectionBefore s) (translatedSelection s) (branchNodes s) (selectedNode s) (newTransactions s) (stagingStack s) (undoStack s) (undoIndex s) (historyTrackingInterval s) (insertionAnnotations s) (selectedAnnotations s) (isCollapsed s) (enabled s) (transacting s) (queueingContextChanges s) (contextChangeQueued s) (sets s) v.

  (** [this.emit( ... )] *)
Definition emit (e : Event) (s : t) : t := set_events (events s ++ [e]) s.

  (** The AnnotationSet object behind a reference. *)
Definition deref (s : t) (r : nat) : AnnotationSet.t :=
    default AnnotationSet.empty (sets s !! r).

  (** A new AnnotationSet object; its reference and the new state. *)
Definition alloc (v : AnnotationSet.t) (s : t) : nat * t :=
    (length (sets s), set_sets (sets s ++ [v]) s).

  (** An in-place change of the object behind a reference. *)
Definition mutate (r : nat) (v : AnnotationSet.t) (s : t) : t :=
    set_sets (<[r := v]> (sets s)) s.

  (** *** Methods, in the order of the source *)

Definition stopHistoryTracking (s : t) : t :=
    if negb (enabled s) then s
    else if historyTrackingInterval s then set_historyTrackingInterval false s
    else s.

Definition startHistoryTracking (s : t) : t :=
    if negb (enabled s) then s
    else if negb (historyTrackingInterval s) then set_historyTrackingInterval true s
    else s.

Definition disable (s : t) : t :=
    emit EvHistory (set_enabled false (stopHistoryTracking s)).

Definition enable (s : t) : t :=
    emit EvHistory (startHistoryTracking (set_enabled true s)).

Definition initialize (s : t) : t :=
    emit EvContextChange (startHistoryTracking s).

Definition resetHistoryTrackingInterval (s : t) : t :=
    startHistoryTracking (stopHistoryTracking s).

Definition getHistory (s : t) : list (list Transaction) :=
    let appliedUndoStack :=
      map ui_transactions
        (JsArray.slice0 (undoStack s) (Z.of_nat (length (undoStack s)) - undoIndex s)) in
    if (0 <? length (newTransactions s))%nat
    then appliedUndoStack ++ [newTransactions s]
    else appliedUndoStack.

Definition isStaging (s : t) : bool := (0 <? length (stagingStack s))%nat.

Definition getStaging (s : t) : option Staging := JsArray.top (stagingStack s).

  (** [staging && staging.allowUndo], as a condition *)
Definition doesStagingAllowUndo (s : t) : bool :=
    match getStaging s with Some f => st_allowUndo f | None => false end.

Definition getStagingTransactions (s : t) : option (list Transaction) :=
    option_map st_transactions (getStaging s).

Definition breakpoint (s : t) : bool * t :=
    if negb (enabled s) then (false, s) else
    let s := resetHistoryTrackingInterval s in
    if (0 <? length (newTransactions s))%nat then
      let s := set_undoStack
                 (undoStack s ++ [mkUndoItem (newTransactions s) (selection s) (selectionBefore s)]) s in
      (true, set_newTransactions [] s)
    else if sel_isNull (selectionBefore s) && negb (sel_isNull (selection s)) then
      (false, set_selectionBefore (selection s) s)
    else (false, s).

Definition pushStaging (allowUndo : bool) (s : t) : t :=
    let s := if negb (isStaging s)
             then emit EvHistory (stopHistoryTracking (snd (breakpoint s)))
             else s in
    set_stagingStack (stagingStack s ++ [mkStaging [] NullSelection allowUndo]) s.

Definition getInsertionAnnotations (s : t) : nat * t :=
    alloc (deref s (insertionAnnotations s)) s.

Definition setInsertionAnnotations (annotations : option nat) (s : t) : t :=
    if negb (enabled s) then s else
    let '(r, s) := match annotations with
                   | Some a => alloc (deref s a) s
                   | None => alloc AnnotationSet.empty s
                   end in
    let s := set_insertionAnnotations r s in
    let s := emit (EvInsertionAnnotationsChange (insertionAnnotations s)) s in
    emit EvContextChange s.

  (** The argument of [addInsertionAnnotations] and
      [removeInsertionAnnotations]: an annotation, a set, or anything
      else. *)
Inductive AnnotationsArg : Type :=
  | ArgAnnotation : Annotation -> AnnotationsArg
  | ArgAnnotationSet : nat -> AnnotationsArg
  | ArgOther : AnnotationsArg.

Definition addInsertionAnnotations (annotations : AnnotationsArg) (s : t) : Outcome t :=
    if negb (enabled s) then Done s else
    let cur := insertionAnnotations s in
    let r := match annotations with
             | ArgAnnotation a =>
                 Done (mutate cur (AnnotationSet.pushIndex (deref s cur)
                                     (storeIndex (documentModel s) a)) s)
             | ArgAnnotationSet o =>
                 Done (mutate cur (AnnotationSet.addSet (deref s cur) (deref s o)) s)
             | ArgOther => Thrown "Invalid annotations"
             end in
    match r with
    | Done s =>
        Done (emit EvContextChange
                (emit (EvInsertionAnnotationsChange (insertionAnnotations s)) s))
    | Thrown m => Thrown m
    end.

Definition removeInsertionAnnotations (annotations : AnnotationsArg) (s : t) : Outcome t :=
    if negb (enabled s) then Done s else
    let cur := insertionAnnotations s in
    let r := match annotations with
             | ArgAnnotation a =>
                 Done (mutate cur (AnnotationSet.removeIndex (deref s cur)
                                     (storeIndex (documentModel s) a)) s)
             | ArgAnnotationSet o =>
                 Done (mutate cur (AnnotationSet.removeSet (deref s cur) (deref s o)) s)
             | ArgOther => Thrown "Invalid annotations"
             end in
    match r with
    | Done s =>
        Done (emit EvContextChange
                (emit (EvInsertionAnnotationsChange (insertionAnnotations s)) s))
    | Thrown m => Thrown m
    end.

Definition canRedo (s : t) : bool := (0 <? undoIndex s) && enabled s.

Definition hasBeenModified (s : t) : bool :=
    (0 <? Z.of_nat (length (undoStack s)) - undoIndex s)
    || negb ((length (newTransactions s) =? 0)%nat).

Definition canUndo (s : t) : bool :=
    hasBeenModified s && enabled s && (negb (isStaging s) || doesStagingAllowUndo s).

Definition getSelection (s : t) : Selection := selection s.

Definition getTranslatedSelection (s : t) : Selection :=
    match translatedSelection s with Some x => x | None => selection s end.

Definition truncateUndoStack (s : t) : t :=
    if negb (undoIndex s =? 0) then
      let s := set_undoStack
                 (JsArray.slice0 (undoStack s)
                    (Z.of_nat (length (undoStack s)) - undoIndex s)) s in
      set_undoIndex 0 s
    else s.

Definition startQueueingContextChanges (s : t) : t :=
    if negb (queueingContextChanges s)
    then set_contextChangeQueued false (set_queueingContextChanges true s)
    else s.

Definition emitContextChange (s : t) : t :=
    if queueingContextChanges s then set_contextChangeQueued true s
    else emit EvContextChange s.

Definition stopQueueingContextChanges (s : t) : t :=
    if queueingContextChanges s then
      let s := set_queueingContextChanges false s in
      if contextChangeQueued s
      then emit EvContextChange (set_contextChangeQueued false s)
      else s
    else s.

  (** A walk of [fixupRangeForLinks]: [while ( start > 0 && ... ) start--]. *)
Fixpoint walkDown (covers : Z -> bool) (n : nat) (start : Z) : Z :=
    match n with
    | O => start
    | S n' =>
        if (0 <? start) && covers (start - 1)
        then walkDown covers n' (start - 1)
        else start
    end.

  (** [while ( end < length && ... ) end++]; [n] bounds the distance to
      the end of the data. *)
Fixpoint walkUp (covers : Z -> bool) (len : Z) (n : nat) (e : Z) : Z :=
    match n with
    | O => e
    | S n' =>
        if (e <? len) && covers e
        then walkUp covers len n' (e + 1)
        else e
    end.

Definition getLinks (linearData : Data) (offset : Z) : AnnotationSet.t :=
    List.filter (fun ann => String.eqb (annotationName linearData ann) "link")
      (getAnnotationsFromOffset linearData offset).

Definition fixupRangeForLinks (range : Range.t) (s : t) : Range.t :=
    let linearData := documentModel s in
    let start := Range.start range in
    let end_ := Range.end_ range in
    if Range.isCollapsed range then range else
    let rangeAnnotations := getAnnotationsFromRange linearData range false in
    let startLink :=
      AnnotationSet.getIndex
        (AnnotationSet.diffWith (getLinks linearData start) rangeAnnotations) 0 in
    let endLink :=
      AnnotationSet.getIndex
        (AnnotationSet.diffWith (getLinks linearData end_) rangeAnnotations) 0 in
    match startLink, endLink with
    | None, None => range
    | _, _ =>
        let start :=
          match startLink with
          | Some l =>
              walkDown (fun o => AnnotationSet.containsIndex (getLinks linearData o) l)
                (Z.to_nat start) start
          | None => start
          end in
        let end_ :=
          match endLink with
          | Some l =>
              walkUp (fun o => AnnotationSet.containsIndex (getLinks linearData o) l)
                (getLength linearData) (Z.to_nat (getLength linearData - end_)) end_
          | None => end_
          end in
        if Range.isBackwards range
        then Range.mk end_ start
        else Range.mk start end_
    end.

Definition getSelectedNodeFromSelection (sel : Selection) (s : t) : JsVal Node :=
    match sel with
    | LinearSelection range =>
        if negb (Range.isCollapsed range) then
          match getNodeFromOffset (documentModel s) (Range.start range + 1) with
          | Obj startNode =>
              if Range.equalsSelection (getOuterRange (documentModel s) startNode) range
              then Obj startNode else Null
          | _ => Null
          end
        else Null
    | _ => Null
    end.

  (** [a !== b] for [isCollapsed], which is [null] or a boolean *)
Definition collapsed_differs (now : bool) (field : option bool) : bool :=
    match field with
    | Some b => negb (Bool.eqb now b)
    | None => true
    end.

Definition setSelection (sel : Selection) (s : t) : t :=
    let oldSelection := selection s in
    let linearData := documentModel s in
    if negb (enabled s) then s else
    let s := set_translatedSelection None s in
    if transacting s then set_selection sel s else
    let selectionChange := negb (sel_equals oldSelection sel) in
    let s := if selectionChange then set_selection sel s else s in
    let '(s, branchNodes', selectedNode', range, contextChange) :=
      match sel with
      | LinearSelection range =>
          let bstart := getBranchNodeFromOffset linearData (Range.start range) in
          let bend := if negb (Range.isCollapsed range)
                      then getBranchNodeFromOffset linearData (Range.end_ range)
                      else bstart in
          let selectedNode' := getSelectedNodeFromSelection sel s in
          let '(ia, s) := alloc (getInsertionAnnotationsFromRange linearData range) s in
          let s := if negb (AnnotationSet.equalsInOrder (deref s ia)
                              (deref s (insertionAnnotations s)))
                   then setInsertionAnnotations (Some ia) s else s in
          let selectedAnnotations' :=
            if Range.isCollapsed range
            then getAnnotationsFromOffset linearData (Range.start range)
            else getAnnotationsFromRange linearData range true in
          if negb (AnnotationSet.compareTo selectedAnnotations' (selectedAnnotations s))
          then (set_selectedAnnotations selectedAnnotations' s,
                mkBranchNodes bstart bend, selectedNode', Some range, true)
          else (s, mkBranchNodes bstart bend, selectedNode', Some range, false)
      | TableSelection tsel =>
          (s, mkBranchNodes Undefined Undefined,
           firstMatrixCellNode linearData tsel, None, true)
      | NullSelection =>
          (s, mkBranchNodes Undefined Undefined, Undefined, None, true)
      end in
    let '(s, contextChange) :=
      match range with
      | Some r =>
          if collapsed_differs (Range.isCollapsed r) (isCollapsed s)
          then (set_isCollapsed (Some (Range.isCollapsed r)) s, true)
          else (s, contextChange)
      | None => (s, contextChange)
      end in
    let '(s, contextChange) :=
      if negb (jsval_same node_same selectedNode' (selectedNode s))
         || negb (jsval_same node_same (bn_start branchNodes') (bn_start (branchNodes s)))
         || negb (jsval_same node_same (bn_end branchNodes') (bn_end (branchNodes s)))
      then (set_selectedNode selectedNode' (set_branchNodes branchNodes' s), true)
      else (s, contextChange) in
    let s :=
      if selectionChange then
        let s := emit (EvSelect (selection s)) s in
        let s := if sel_isNull oldSelection then emit EvFocus s else s in
        if sel_isNull sel then emit EvBlur s else s
      else s in
    if contextChange then emitContextChange s else s.

Definition setLinearSelection (range : Range.t) (s : t) : t :=
    setSelection (LinearSelection range) s.

Definition setNullSelection (s : t) : t := setSelection NullSelection s.

Definition onDocumentTransact (tx : Transaction) (s : t) : t :=
    emit (EvDocumentUpdate tx)
      (setSelection (translateByTransaction tx (getSelection s)) s).

Definition onDocumentPreCommit (s : t) : t :=
    set_translatedSelection (Some (selection s)) s.

Definition onDocumentPreSynchronize (tx : Transaction) (s : t) : t :=
    match translatedSelection s with
    | Some ts => set_translatedSelection (Some (translateByTransaction tx ts)) s
    | None => s
    end.

  (** Modelled from the spec: [ve.dm.Document.prototype.commit] is not
      among the sources. Committing applies the transaction to the
      document's content and, as a side effect, pushes a selection update
      to the surface; the surface receives the document's [precommit],
      [presynchronize] and [transact] events through the handlers its
      constructor connects. *)
Definition commit (tx : Transaction) (staging : bool) (s : t) : t :=
    let s := onDocumentPreCommit s in
    let s := set_documentModel (applyTransaction tx (documentModel s)) s in
    let s := onDocumentPreSynchronize tx s in
    onDocumentTransact tx s.

  (** The branch of the transaction loop that records a transaction:
      into the staging frame on top when staging, else into
      [newTransactions] after cutting the redo history. *)
Definition recordTransaction (selectionBefore' : Selection)
      (tx : Transaction) (s : t) : t :=
    if isStaging s then
      let s :=
        match getStagingTransactions s with
        | Some [] =>
            set_stagingStack
              (JsArray.updTop
                 (fun f => mkStaging (st_transactions f) selectionBefore' (st_allowUndo f))
                 (stagingStack s)) s
        | _ => s
        end in
      set_stagingStack
        (JsArray.updTop
           (fun f => mkStaging (st_transactions f ++ [tx]) (st_selectionBefore f)
                       (st_allowUndo f))
           (stagingStack s)) s
    else
      let s := truncateUndoStack s in
      let s := if (length (newTransactions s) =? 0)%nat
               then set_selectionBefore selectionBefore' s else s in
      set_newTransactions (newTransactions s ++ [tx]) s.

  (** The body of the transaction loop of [changeInternal] for one
      transaction. *)
Definition changeStep (skipUndoStack : bool) (selectionBefore' : Selection)
      (tx : Transaction) (acc : bool * t) : bool * t :=
    let '(contextChange, s) := acc in
    if negb (isNoOp tx) then
      let s := if negb skipUndoStack then recordTransaction selectionBefore' tx s else s in
      let s := commit tx (isStaging s) s in
      (contextChange || hasElementAttributeOperations tx, s)
    else (contextChange, s).

Definition changeLoop (skipUndoStack : bool) (selectionBefore' : Selection)
      (transactions : list Transaction) (acc : bool * t) : bool * t :=
    fold_left (fun a tx => changeStep skipUndoStack selectionBefore' tx a) transactions acc.

  (** [transactions] is [null] ([None]) or an array; a single
      transaction is the one-element array the code turns it into. *)
Definition changeInternal (transactions : option (list Transaction))
      (sel : option Selection) (skipUndoStack : bool) (s : t) : t :=
    let selectionBefore' := selection s in
    if negb (enabled s) then s else
    let s := startQueueingContextChanges s in
    let '(contextChange, s) :=
      match transactions with
      | Some txs =>
          let s := set_transacting true s in
          let '(contextChange, s) := changeLoop skipUndoStack selectionBefore' txs (false, s) in
          let s := set_transacting false s in
          (contextChange, emit EvHistory s)
      | None => (false, s)
      end in
    let selectionAfter := selection s in
    let s :=
      match sel, transactions with
      | Some sel', _ => setSelection sel' s
      | None, Some _ => setSelection (selection s) s
      | None, None => s
      end in
    let s :=
      if negb (sel_equals selectionBefore' selectionAfter)
         && sel_equals selectionAfter (selection s)
      then emit (EvSelect (selection s)) s else s in
    let s := if contextChange then emitContextChange s else s in
    stopQueueingContextChanges s.

Definition change (transactions : option (list Transaction))
      (sel : option Selection) (s : t) : t :=
    changeInternal transactions sel false s.

Definition popStaging (s : t) : option (list Transaction) * t :=
    if negb (isStaging s) then (None, s) else
    match JsArray.top (stagingStack s) with
    | None => (None, s)
    | Some staging =>
        let s := set_stagingStack (JsArray.popped (stagingStack s)) s in
        let transactions := st_transactions staging in
        let reverseTransactions := map reversed (rev transactions) in
        let s := changeInternal (Some reverseTransactions) None true s in
        let s := if negb (isStaging s)
                 then emit EvHistory (startHistoryTracking s) else s in
        (Some transactions, s)
    end.

Definition applyStaging (s : t) : t :=
    if negb (isStaging s) then s else
    match JsArray.top (stagingStack s) with
    | None => s
    | Some staging =>
        let s := set_stagingStack (JsArray.popped (stagingStack s)) s in
        let s :=
          if isStaging s then
            let s := set_stagingStack
                       (JsArray.updTop
                          (fun f => mkStaging (st_transactions f ++ st_transactions staging)
                                      (st_selectionBefore f) (st_allowUndo f))
                          (stagingStack s)) s in
            match getStaging s with
            | Some f =>
                if sel_isNull (st_selectionBefore f) then
                  set_stagingStack
                    (JsArray.updTop
                       (fun f => mkStaging (st_transactions f) (st_selectionBefore staging)
                                   (st_allowUndo f))
                       (stagingStack s)) s
                else s
            | None => s
            end
          else
            let s := truncateUndoStack s in
            let s := set_newTransactions (st_transactions staging) s in
            let s := set_selectionBefore (st_selectionBefore staging) s in
            snd (breakpoint s) in
        if negb (isStaging s) then emit EvHistory (startHistoryTracking s) else s
    end.

  (** [while ( this.isStaging() ) ...]; every round pops one frame, so
      the depth of the stack bounds the rounds. *)
Fixpoint popAllStagingLoop (n : nat) (transactions : list Transaction) (s : t)
    : list Transaction * t :=
    match n with
    | O => (transactions, s)
    | S n' =>
        if isStaging s then
          let '(popped, s) := popStaging s in
          popAllStagingLoop n' (default [] popped ++ transactions) s
        else (transactions, s)
    end.

Definition popAllStaging (s : t) : option (list Transaction) * t :=
    if negb (isStaging s) then (None, s) else
    let '(transactions, s) := popAllStagingLoop (length (stagingStack s)) [] s in
    (Some transactions, s).

Fixpoint applyAllStagingLoop (n : nat) (s : t) : t :=
    match n with
    | O => s
    | S n' => if isStaging s then applyAllStagingLoop n' (applyStaging s) else s
    end.

Definition applyAllStaging (s : t) : t :=
    applyAllStagingLoop (length (stagingStack s)) s.

Definition undo (s : t) : t :=
    if negb (canUndo s) then s else
    let s := if isStaging s then snd (popAllStaging s) else s in
    let s := snd (breakpoint s) in
    let s := set_undoIndex (undoIndex s + 1) s in
    match JsArray.get (undoStack s) (Z.of_nat (length (undoStack s)) - undoIndex s) with
    | Some item =>
        changeInternal (Some (map reversed (rev (ui_transactions item))))
          (Some (ui_selectionBefore item)) true s
    | None => s
    end.

Definition redo (s : t) : t :=
    if negb (canRedo s) then s else
    let s := snd (breakpoint s) in
    match JsArray.get (undoStack s) (Z.of_nat (length (undoStack s)) - undoIndex s) with
    | Some item =>
        let s := set_undoIndex (undoIndex s - 1) s in
        changeInternal (Some (ui_transactions item)) (Some (ui_selection item)) true s
    | None => s
    end.

End Model.

End Surface.


(** ** ve.dm.Converter, from DOM to linear data *)

Module Converter.

(** A conversion returns, throws, or is [Unfinished] when its recursion
    was given too small a bound on its depth. *)
Inductive Result (A : Type) : Type :=
| Returned : A -> Result A
| Threw : string -> Result A
| Unfinished : Result A.
Arguments Returned {A} _.
Arguments Threw {A} _.
Arguments Unfinished {A}.

(** A JavaScript string, as its UTF-16 code units. *)
Definition JsString : Type := list Z.

(** [\s] of a regular expression. *)
Definition isSpace (c : Z) : bool :=
  ((9 <=? c) && (c <=? 13)) || (c =? 32) || (c =? 160) || (c =? 5760)
  || ((8192 <=? c) && (c <=? 8202)) || (c =? 8232) || (c =? 8233)
  || (c =? 8239) || (c =? 8287) || (c =? 12288) || (c =? 65279).

Fixpoint takeSpaces (s : JsString) : JsString :=
  match s with
  | c :: r => if isSpace c then c :: takeSpaces r else []
  | [] => []
  end.

Fixpoint dropSpaces (s : JsString) : JsString :=
  match s with
  | c :: r => if isSpace c then dropSpaces r else s
  | [] => []
  end.

(** [text.match( /^\s+$/ )], as a condition *)
Definition isAllSpace (s : JsString) : bool :=
  match s with
  | [] => false
  | _ => forallb isSpace s
  end.

(** [text.match( /^\s+/ )]: the leading white space, if there is any *)
Definition leadingSpace (s : JsString) : option JsString :=
  match takeSpaces s with
  | [] => None
  | w => Some w
  end.

(** [text.match( /\s+$/ )]: the trailing white space, if there is any *)
Definition trailingSpace (s : JsString) : option JsString :=
  match takeSpaces (rev s) with
  | [] => None
  | w => Some (rev w)
  end.

(** The match that separates the real text from the white space
    around it: groups 1 (leading white space), 2 (the text, as short as
    possible) and 3 (trailing white space). *)
Definition splitSpace (s : JsString) : JsString * JsString * JsString :=
  let lead := takeSpaces s in
  let rest := dropSpaces s in
  let trail := rev (takeSpaces (rev rest)) in
  let mid := firstn (length rest - length trail) rest in
  (lead, mid, trail).

(** *** DOM nodes *)

#[warnings="-register-all"]
Inductive DomNode : Type :=
| ElementNode : string -> list (string * string) -> list DomNode -> DomNode
| CommentNode : string -> DomNode
| TextNode : JsString -> DomNode
| OtherNode : Z -> DomNode.

(** [node.getAttribute( name )], [null] when the attribute is absent *)
Fixpoint attributeOf (attrs : list (string * string)) (name : string) : option string :=
  match attrs with
  | [] => None
  | (k, v) :: r => if String.eqb k name then Some v else attributeOf r name
  end.

Definition getAttribute (n : DomNode) (name : string) : option string :=
  match n with
  | ElementNode _ attrs _ => attributeOf attrs name
  | _ => None
  end.

Definition isElementNode (n : DomNode) : bool :=
  match n with ElementNode _ _ _ => true | _ => false end.

Definition childNodesOf (n : DomNode) : list DomNode :=
  match n with ElementNode _ _ c => c | _ => [] end.

(** *** Linear data *)

(** [internal.whitespace], an array with slots 0 to 3 *)
Record Whitespace : Type := mkWhitespace {
  outerPre : option JsString;
  innerPre : option JsString;
  innerPost : option JsString;
  outerPost : option JsString
}.

Definition noWhitespace : Whitespace := mkWhitespace None None None None.

Definition whitespaceAt (w : Whitespace) (index : nat) : option JsString :=
  match index with
  | 0%nat => outerPre w
  | 1%nat => innerPre w
  | 2%nat => innerPost w
  | 3%nat => outerPost w
  | _ => None
  end.

Definition setWhitespaceAt (w : Whitespace) (index : nat) (v : JsString) : Whitespace :=
  match index with
  | 0%nat => mkWhitespace (Some v) (innerPre w) (innerPost w) (outerPost w)
  | 1%nat => mkWhitespace (outerPre w) (Some v) (innerPost w) (outerPost w)
  | 2%nat => mkWhitespace (outerPre w) (innerPre w) (Some v) (outerPost w)
  | 3%nat => mkWhitespace (outerPre w) (innerPre w) (innerPost w) (Some v)
  | _ => w
  end.

Record Internal : Type := mkInternal {
  generated : option string;
  whitespace : option Whitespace
}.

(** An element object of the linear model. *)
Record Element : Type := mkElement {
  type : string;
  attributes : list (string * string);
  internal : option Internal;
  annotations : option (list nat);
  originalDomElements : option (list DomNode)
}.

(** An item of linear data as a model class hands it over: a
    character, an annotated character or an element. *)
Inductive ItemValue : Type :=
| VChr : Z -> ItemValue
| VAnnChr : Z -> list nat -> ItemValue
| VElem : Element -> ItemValue.

(** An item of the data array under construction; an element is a
    reference to its object, which the converter goes on changing after
    it has put it in the array. *)
Inductive Item : Type :=
| Chr : Z -> Item
| AnnChr : Z -> list nat -> Item
| Ref : nat -> Item.

(** What [toDataElement] returns: nothing, one element or an array. *)
Inductive ToData : Type :=
| TdNull : ToData
| TdOne : Element -> ToData
| TdMany : list ItemValue -> ToData.

(** The recursion state of [getDataFromDomSubtree]. *)
Record Context : Type := mkContext {
  cx_annotations : AnnotationSet.t;
  branchType : string;
  branchHasContent : bool;
  originallyExpectingContent : bool;
  expectingContent : bool;
  inWrapper : bool;
  canCloseWrapper : bool
}.

(** A model class, as far as the converter looks at it: its place in
    the class hierarchy (the names of the classes it extends), whether
    it groups by [about], and its [toDataElement], which is given the
    DOM nodes and sees the converter through its context stack. *)
Record ModelClass : Type := mkModelClass {
  className : string;
  ancestors : list string;
  enableAboutGrouping : bool;
  toDataElement : list DomNode -> list Context -> ToData
}.

(** [c.prototype instanceof base] *)
Definition extends (c : ModelClass) (base : string) : bool :=
  existsb (String.eqb base) (ancestors c).

(** [c.prototype === base.prototype || c.prototype instanceof base] *)
Definition isOrExtends (c : ModelClass) (base : string) : bool :=
  String.eqb (className c) base || extends c base.

(** *** Collaborators of the converter

    The model registry, the node factory, the annotation factory, the
    store and the alien classes are not among the sources. *)
Class Registry : Type := {
  (** [modelRegistry.matchElement( node, forceAboutGrouping )] *)
  matchElement : DomNode -> bool -> option string;
  (** [modelRegistry.lookup( name )] *)
  lookup : option string -> option ModelClass;
  AlienNode : ModelClass;
  AlienMetaItem : ModelClass;
  canNodeContainContent : string -> bool;
  isNodeContent : option string -> bool;
  canNodeHaveChildren : option string -> bool;
  doesNodeHandleOwnChildren : option string -> bool;
  doesNodeHaveSignificantWhitespace : string -> bool;
  (** [null] when any child type is allowed *)
  getChildNodeTypes : string -> option (list string);
  Annotation : Type;
  annotation_equal : Annotation -> Annotation -> bool;
  (** [annotationFactory.createFromElement( element )] *)
  createFromElement : Element -> Annotation;
  (** the two annotations at these store indexes are comparable for
      serialization *)
  comparableForSerialization : nat -> nat -> bool
}.

Definition AnnotationClass : string := "ve.dm.Annotation".
Definition MetaItemClass : string := "ve.dm.MetaItem".

(** *** State of a conversion *)

Section Conversion.

Context `{Registry}.

(** What lives outside one call of [getDataFromDomSubtree]: the element
    objects (a reference is an index into [heap]) and the
    index-value store of annotations. *)
Record World : Type := mkWorld {
  heap : list Element;
  store : list Annotation
}.

(** The variables of one call of [getDataFromDomSubtree] that its inner
    functions share. *)
Record Locals : Type := mkLocals {
  data : list Item;
  nextWhitespace : JsString;
  wrappedWhitespace : JsString;
  wrappedWhitespaceIndex : nat;
  wrappedMetaItems : list Item;
  wrappingParagraph : option nat;
  prevElement : option Item;
  context : Context
}.

Definition set_data v l := mkLocals v (nextWhitespace l) (wrappedWhitespace l) (wrappedWhitespaceIndex l) (wrappedMetaItems l) (wrappingParagraph l) (prevElement l) (context l).
Definition set_nextWhitespace v l := mkLocals (data l) v (wrappedWhitespace l) (wrappedWhitespaceIndex l) (wrappedMetaItems l) (wrappingParagraph l) (prevElement l) (context l).
Definition set_wrappedWhitespace v l := mkLocals (data l) (nextWhitespace l) v (wrappedWhitespaceIndex l) (wrappedMetaItems l) (wrappingParagraph l) (prevElement l) (context l).
Definition set_wrappedWhitespaceIndex v l := mkLocals (data l) (nextWhitespace l) (wrappedWhitespace l) v (wrappedMetaItems l) (wrappingParagraph l) (prevElement l) (context l).
Definition set_wrappedMetaItems v l := mkLocals (data l) (nextWhitespace l) (wrappedWhitespace l) (wrappedWhitespaceIndex l) v (wrappingParagraph l) (prevElement l) (context l).
Definition set_wrappingParagraph v l := mkLocals (data l) (nextWhitespace l) (wrappedWhitespace l) (wrappedWhitespaceIndex l) (wrappedMetaItems l) v (prevElement l) (context l).
Definition set_prevElement v l := mkLocals (data l) (nextWhitespace l) (wrappedWhitespace l) (wrappedWhitespaceIndex l) (wrappedMetaItems l) (wrappingParagraph l) v (context l).
Definition set_context v l := mkLocals (data l) (nextWhitespace l) (wrappedWhitespace l) (wrappedWhitespaceIndex l) (wrappedMetaItems l) (wrappingParagraph l) (prevElement l) v.

Definition set_expectingContent v c := mkContext (cx_annotations c) (branchType c) (branchHasContent c) (originallyExpectingContent c) v (inWrapper c) (canCloseWrapper c).
Definition set_inWrapper v c := mkContext (cx_annotations c) (branchType c) (branchHasContent c) (originallyExpectingContent c) (expectingContent c) v (canCloseWrapper c).
Definition set_canCloseWrapper v c := mkContext (cx_annotations c) (branchType c) (branchHasContent c) (originallyExpectingContent c) (expectingContent c) (inWrapper c) v.

(** A step of the function: it reads and changes the variables and the
    world, and completes with a value or throws. *)
Definition Step (A : Type) : Type := Locals -> World -> Result (A * Locals * World).

Definition ret {A} (a : A) : Step A := fun l w => Returned (a, l, w).

Definition bind {A B} (m : Step A) (k : A -> Step B) : Step B :=
  fun l w =>
    match m l w with
    | Returned (a, l', w') => k a l' w'
    | Threw e => Threw e
    | Unfinished => Unfinished
    end.

Definition throw {A} (e : string) : Step A := fun _ _ => Threw e.

#[export] Instance step_ret : MRet Step := @ret.
#[export] Instance step_bind : MBind Step := fun A B k m => bind m k.

Definition getLocals : Step Locals := fun l w => Returned (l, l, w).
Definition getWorld : Step World := fun l w => Returned (w, l, w).
Definition update (f : Locals -> Locals) : Step unit := fun l w => Returned (tt, f l, w).
Definition updateWorld (f : World -> World) : Step unit := fun l w => Returned (tt, l, f w).
Definition updateContext (f : Context -> Context) : Step unit :=
  update (fun l => set_context (f (context l)) l).

(** *** The inner functions of [getDataFromDomSubtree] *)

(** [new ve.dm.IndexValueStore().index( value )]. Modelled from the
    spec: the store is an interning table, an equal value gets the index
    it already has. *)
Fixpoint indexOf (a : Annotation) (st : list Annotation) (i : nat) : option nat :=
  match st with
  | [] => None
  | b :: r => if annotation_equal a b then Some i else indexOf a r (S i)
  end.

Definition storeIndex (a : Annotation) : Step nat :=
  w ← getWorld;
  match indexOf a (store w) 0 with
  | Some i => mret i
  | None =>
      updateWorld (fun w => mkWorld (heap w) (store w ++ [a]));;
      mret (length (store w))
  end.

(** A new element object. *)
Definition allocElement (e : Element) : Step nat :=
  w ← getWorld;
  updateWorld (fun w => mkWorld (heap w ++ [e]) (store w));;
  mret (length (heap w)).

(** An in-place change of an element object. *)
Definition mutateElement (r : nat) (f : Element -> Element) : Step unit :=
  updateWorld (fun w => mkWorld (alter f r (heap w)) (store w)).

Definition readElement (r : nat) : Step (option Element) :=
  w ← getWorld; mret (heap w !! r).

(** [item.type], [undefined] for what is not an element *)
Definition typeOfItem (w : World) (it : Item) : option string :=
  match it with
  | Ref r => type <$> (heap w !! r)
  | _ => None
  end.

Definition itemType (it : option Item) : Step (option string) :=
  w ← getWorld; mret (it ≫= typeOfItem w).

(** ['/' + x] for an [x] that may be [undefined] *)
Definition closingType (t : option string) : string :=
  String.append "/" (default "undefined" t).

(** [t.charAt( 0 ) !== '/'] *)
Definition notClosing (t : string) : bool :=
  match t with
  | String c _ => negb (Ascii.eqb c "/"%char)
  | EmptyString => true
  end.

Definition isEmptyString (t : string) : bool :=
  match t with EmptyString => true | _ => false end.

(** [ve.dm.Converter.static.getDataContentFromText] *)
Definition getDataContentFromText (text : JsString) (annotations : option AnnotationSet.t)
  : list Item :=
  match annotations with
  | None => map Chr text
  | Some a =>
      if AnnotationSet.isEmpty a then map Chr text
      else map (fun c => AnnChr c (AnnotationSet.getIndexes a)) text
  end.

Definition addWhitespaceTo (index : nat) (ws : JsString) (e : Element) : Element :=
  let i := default (mkInternal None None) (internal e) in
  let w := default noWhitespace (whitespace i) in
  mkElement (type e) (attributes e)
    (Some (mkInternal (generated i) (Some (setWhitespaceAt w index ws))))
    (annotations e) (originalDomElements e).

(** [addWhitespace( element, index, whitespace )]. The element may be
    [undefined] and so may the white space. An element that is a string
    cannot take the property and reading it back throws; one that is an
    array (an annotated character) takes it, and nothing reads it. *)
Definition addWhitespace (element : option Item) (index : nat)
    (ws : option JsString) : Step unit :=
  match ws with
  | None => mret tt
  | Some [] => mret tt
  | Some ws =>
      match element with
      | None => throw "TypeError"
      | Some (Chr _) => throw "TypeError"
      | Some (AnnChr _ _) => mret tt
      | Some (Ref r) => mutateElement r (addWhitespaceTo index ws)
      end
  end.

Definition processNextWhitespace (element : option Item) : Step unit :=
  l ← getLocals;
  match nextWhitespace l with
  | [] => mret tt
  | ws =>
      addWhitespace element 0 (Some ws);;
      update (set_nextWhitespace [])
  end.

Inductive WhitespaceTreatment : Type := Restore | Fixup.

(** The loop of [outputWrappedMetaItems] over the queued items:
    [toInsert] and [prev] are its variables. *)
Fixpoint outputWrappedLoop (treatment : WhitespaceTreatment) (items : list Item)
    (toInsert : list Item) (prev : option Item) : Step (list Item) :=
  match items with
  | [] => mret toInsert
  | it :: rest =>
      w ← getWorld;
      l ← getLocals;
      let isOpen :=
        match typeOfItem w it with
        | Some t => negb (isEmptyString t) && notClosing t
        | None => false
        end in
      if isOpen then
        let e := match it with Ref r => heap w !! r | _ => None end in
        let ws := (e ≫= internal) ≫= whitespace in
        toInsert' ←
          match ws with
          | Some ws =>
              match treatment with
              | Restore =>
                  match outerPre ws with
                  | None => throw "TypeError"
                  | Some text =>
                      match it with
                      | Ref r =>
                          mutateElement r (fun e =>
                            mkElement (type e) (attributes e) None (annotations e)
                              (originalDomElements e))
                      | _ => mret tt
                      end;;
                      mret (toInsert
                              ++ getDataContentFromText text
                                   (Some (cx_annotations (context l))))
                  end
              | Fixup =>
                  addWhitespace prev 3 (outerPre ws);;
                  mret toInsert
              end
          | None => mret toInsert
          end;
        outputWrappedLoop treatment rest (toInsert' ++ [it]) (Some it)
      else
        outputWrappedLoop treatment rest (toInsert ++ [it]) prev
  end.

Definition outputWrappedMetaItems (treatment : WhitespaceTreatment) : Step unit :=
  l ← getLocals;
  toInsert ← outputWrappedLoop treatment (wrappedMetaItems l) []
                (Ref <$> wrappingParagraph l);
  l ← getLocals;
  (match wrappedWhitespace l, treatment with
   | _ :: _, Restore =>
       update (set_data (JsArray.spliceIn (data l) (wrappedWhitespaceIndex l) toInsert))
   | _, _ => update (set_data (data l ++ toInsert))
   end);;
  update (set_wrappedMetaItems []).

Definition wrapperParagraphElement : Element :=
  mkElement "paragraph" [] (Some (mkInternal (Some "wrapper") None)) None None.

Definition emptyParagraphElement : Element :=
  mkElement "paragraph" [] (Some (mkInternal (Some "empty") None)) None None.

Definition closeElement (t : string) : Element := mkElement t [] None None None.

Definition startWrapping : Step unit :=
  r ← allocElement wrapperParagraphElement;
  update (set_wrappingParagraph (Some r));;
  update (fun l => set_data (data l ++ [Ref r]) l);;
  updateContext (set_inWrapper true);;
  updateContext (set_canCloseWrapper true);;
  updateContext (set_expectingContent true);;
  processNextWhitespace (Some (Ref r)).

(** The first part of [stopWrapping]: the white space written last
    leaves the data and goes to the last sibling, the last meta item or
    the wrapper paragraph. *)
Definition takeBackWrappedWhitespace : Step unit :=
  l ← getLocals;
  match wrappedWhitespace l with
  | [] => mret tt
  | ws =>
      update (set_data (JsArray.spliceOut (data l) (wrappedWhitespaceIndex l) (length ws)));;
      addWhitespace
        (if (0 <? length (wrappedMetaItems l))%nat
         then JsArray.get (wrappedMetaItems l) (Z.of_nat (length (wrappedMetaItems l)) - 2)
         else Ref <$> wrappingParagraph l)
        3 (Some ws);;
      update (set_nextWhitespace ws)
  end.

Definition stopWrapping : Step unit :=
  takeBackWrappedWhitespace;;
  r ← allocElement (closeElement "/paragraph");
  update (fun l => set_data (data l ++ [Ref r]) l);;
  outputWrappedMetaItems Fixup;;
  update (set_wrappingParagraph None);;
  updateContext (set_inWrapper false);;
  updateContext (set_canCloseWrapper false);;
  updateContext (fun c => set_expectingContent (originallyExpectingContent c) c).

(** The siblings after [node] that share its [about] attribute. *)
Fixpoint aboutSiblings (about : string) (siblings : list DomNode) : list DomNode :=
  match siblings with
  | n :: r =>
      if isElementNode n
         && match getAttribute n "about" with
            | Some a => String.eqb a about
            | None => false
            end
      then n :: aboutSiblings about r
      else []
  | [] => []
  end.

Definition getAboutGroup (node : DomNode) (siblings : list DomNode) : list DomNode :=
  match node with
  | ElementNode _ _ _ =>
      match getAttribute node "about" with
      | None => [node]
      | Some about => node :: aboutSiblings about siblings
      end
  | _ => [node]
  end.

(** [ve.dm.LinearData.static.getType( item )]. Modelled from the spec:
    the static helpers of the linear data are not among the sources; the
    type of a close marker is the type of its element, without the
    slash. *)
Definition getType (w : World) (it : Item) : option string :=
  match typeOfItem w it with
  | Some (String c t) => if Ascii.eqb c "/"%char then Some t else Some (String c t)
  | o => o
  end.

Definition isAllInstanceOf (w : World) (items : list Item) (targetClass : string) : bool :=
  forallb
    (fun it =>
       match getType w it with
       | Some t =>
           if isEmptyString t then false
           else isOrExtends (default AlienNode (lookup (Some t))) targetClass
       | None => false
       end)
    items.

(** *** [ve.dm.Converter.static.openAndCloseAnnotations] *)

(** A call of one of the two callbacks, with the store index of the
    annotation it is passed. *)
Inductive AnnotationCall : Type :=
| CloseCall : nat -> AnnotationCall
| OpenCall : nat -> AnnotationCall.

(** [set.containsComparableForSerialization( store.value( index ) )] *)
Definition containsComparableForSerialization (s : AnnotationSet.t) (index : nat) : bool :=
  existsb (fun other => comparableForSerialization other index) s.

(** The first loop: the offset of the first annotation of the current
    set that is not in the target set, [targetSetOpen] being what is left
    of the target set. *)
Fixpoint findStartClosingAt (current : list nat) (i : nat)
    (targetSetOpen : AnnotationSet.t) : option nat :=
  match current with
  | [] => None
  | index :: rest =>
      if AnnotationSet.containsIndex targetSetOpen index
         || containsComparableForSerialization targetSetOpen index
      then findStartClosingAt rest (S i) (AnnotationSet.removeIndex targetSetOpen index)
      else Some i
  end.

(** The closing loop, [n] rounds from offset [i] downwards. *)
Fixpoint closeAnnotations (n i : nat) (currentSet : AnnotationSet.t)
    (calls : list AnnotationCall) : list AnnotationCall * AnnotationSet.t :=
  match n with
  | O => (calls, currentSet)
  | S n' =>
      let calls :=
        match AnnotationSet.getIndex currentSet i with
        | Some index => calls ++ [CloseCall index]
        | None => calls
        end in
      closeAnnotations n' (i - 1) (AnnotationSet.removeAt currentSet i) calls
  end.

(** The opening loop over the target set. *)
Fixpoint openAnnotations (target : list nat) (currentSetOpen currentSet : AnnotationSet.t)
    (calls : list AnnotationCall) : list AnnotationCall * AnnotationSet.t :=
  match target with
  | [] => (calls, currentSet)
  | index :: rest =>
      if AnnotationSet.containsIndex currentSetOpen index
         || containsComparableForSerialization currentSetOpen index
      then openAnnotations rest (AnnotationSet.removeIndex currentSetOpen index)
             currentSet calls
      else openAnnotations rest currentSetOpen
             (AnnotationSet.pushIndex currentSet index) (calls ++ [OpenCall index])
  end.

(** The calls of [close] and [open], in order, and [currentSet] as the
    function leaves it. *)
Definition openAndCloseAnnotations (currentSet targetSet : AnnotationSet.t)
  : list AnnotationCall * AnnotationSet.t :=
  let '(calls, currentSet) :=
    match findStartClosingAt currentSet 0 targetSet with
    | Some startClosingAt =>
        closeAnnotations (AnnotationSet.getLength currentSet - startClosingAt)
          (AnnotationSet.getLength currentSet - 1) currentSet []
    | None => ([], currentSet)
    end in
  openAnnotations targetSet currentSet currentSet calls.

(** *** [createDataElements] *)

Definition withOriginalDomElements (domElements : list DomNode) (e : Element) : Element :=
  mkElement (type e) (attributes e) (internal e) (annotations e) (Some domElements).

Fixpoint allocValues (vs : list ItemValue) : Step (list Item) :=
  match vs with
  | [] => mret []
  | VChr c :: r => items ← allocValues r; mret (Chr c :: items)
  | VAnnChr c a :: r => items ← allocValues r; mret (AnnChr c a :: items)
  | VElem e :: r => x ← allocElement e; items ← allocValues r; mret (Ref x :: items)
  end.

(** What [toDataElement] returned, as [createDataElements] goes on
    with it: [null] is [None] and one element is an array of one. *)
Definition valuesOf (td : ToData) : option (list ItemValue) :=
  match td with
  | TdNull => None
  | TdOne e => Some [VElem e]
  | TdMany vs => Some vs
  end.

(** [dataElements[ 0 ].originalDomElements = domElements], kept by a
    first item that is an element. *)
Definition markFirst (domElements : list DomNode) (vs : list ItemValue) : list ItemValue :=
  match vs with
  | VElem e :: r => VElem (withOriginalDomElements domElements e) :: r
  | _ => vs
  end.

Definition createDataElements (modelClass : ModelClass) (domElements : list DomNode)
    (stack : list Context) : Step (option (list Item)) :=
  l ← getLocals;
  match valuesOf (toDataElement modelClass domElements (stack ++ [context l])) with
  | None => mret None
  | Some vs =>
      items ← allocValues (markFirst domElements vs);
      mret (Some items)
  end.

(** [item.annotations = indexes], for an item that may be [undefined];
    only an element object keeps the property in a place that is read. *)
Definition setAnnotations (it : option Item) (indexes : list nat) : Step unit :=
  match it with
  | None => throw "TypeError"
  | Some (Ref r) =>
      mutateElement r (fun e =>
        mkElement (type e) (attributes e) (internal e) (Some indexes)
          (originalDomElements e))
  | Some _ => mret tt
  end.

(** [items.push( { type: '/' + items[ 0 ].type } )] *)
Definition pushClosing (items : list Item) : Step (list Item) :=
  match head items with
  | None => throw "TypeError"
  | Some first =>
      t ← itemType (Some first);
      x ← allocElement (closeElement (closingType t));
      mret (items ++ [Ref x])
  end.

(** [items[ 0 ].type], which throws when there is no first item *)
Definition firstType (items : list Item) : Step (option string) :=
  match head items with
  | None => throw "TypeError"
  | Some first => itemType (Some first)
  end.

Definition appendData (items : list Item) : Step unit :=
  update (fun l => set_data (data l ++ items) l).

(** The white space before an element, stored with the element before
    it or, for a first child, inside the parent. *)
Definition storeLeadingWhitespace (wrapperElement : option nat) (ws : JsString)
  : Step unit :=
  l ← getLocals;
  match prevElement l with
  | None =>
      match wrapperElement with
      | Some x => addWhitespace (Some (Ref x)) 1 (Some ws)
      | None => mret tt
      end
  | Some p => addWhitespace (Some p) 3 (Some ws)
  end.

Section Recursion.

(** The recursive call: the DOM node, the wrapper element, the
    annotation set and the context stack at the time of the call. *)
Variable recurse :
  DomNode -> option nat -> option AnnotationSet.t -> list Context ->
  World -> Result (list Item * World).

Definition callRecurse (node : DomNode) (wrapperElement : option nat)
    (annotationSet : option AnnotationSet.t) (stack : list Context)
  : Step (list Item) :=
  fun l w =>
    match recurse node wrapperElement annotationSet (stack ++ [context l]) w with
    | Returned (items, w') => Returned (items, l, w')
    | Threw e => Threw e
    | Unfinished => Unfinished
    end.

(** The branch of an annotation. *)
Definition convertAnnotation (stack : list Context) (childNode : DomNode)
    (childNodes : list DomNode) (childDataElements : list Item) : Step nat :=
  w ← getWorld;
  match head childDataElements with
  | Some (Ref x) =>
      match heap w !! x with
      | Some e =>
          let annotation := createFromElement e in
          l ← getLocals;
          (if negb (inWrapper (context l)) && negb (expectingContent (context l))
           then
             startWrapping;;
             l ← getLocals;
             update (set_prevElement (Ref <$> wrappingParagraph l))
           else mret tt);;
          l ← getLocals;
          index ← storeIndex annotation;
          let childAnnotations :=
            AnnotationSet.pushIndex (cx_annotations (context l)) index in
          childDataElements ←
            callRecurse childNode None (Some childAnnotations) stack;
          w ← getWorld;
          childDataElements ←
            (if (length childDataElements =? 0)%nat
                || isAllInstanceOf w childDataElements (className AlienMetaItem)
             then
               created ← createDataElements AlienMetaItem childNodes stack;
               match created with
               | None => throw "TypeError"
               | Some created =>
                   created ← pushClosing created;
                   (if negb (AnnotationSet.isEmpty (cx_annotations (context l)))
                    then setAnnotations (head created)
                           (AnnotationSet.getIndexes (cx_annotations (context l)))
                    else mret tt);;
                   mret created
               end
             else mret childDataElements);
          outputWrappedMetaItems Restore;;
          appendData childDataElements;;
          update (set_wrappedWhitespace []);;
          mret O
      | None => throw "TypeError"
      end
  | _ => throw "TypeError"
  end.

(** The branch of a meta item. *)
Definition convertMetaItem (childNodes : list DomNode) (childDataElements : list Item)
  : Step nat :=
  childDataElements ←
    (if (length childDataElements =? 1)%nat
     then pushClosing childDataElements else mret childDataElements);
  l ← getLocals;
  (if negb (AnnotationSet.isEmpty (cx_annotations (context l)))
   then setAnnotations (head childDataElements)
          (AnnotationSet.getIndexes (cx_annotations (context l)))
   else mret tt);;
  (if inWrapper (context l) && canCloseWrapper (context l) then
     update (fun l => set_wrappedMetaItems (wrappedMetaItems l ++ childDataElements) l);;
     match wrappedWhitespace l with
     | [] => mret tt
     | ws =>
         update (fun l =>
           set_data (JsArray.spliceOut (data l) (wrappedWhitespaceIndex l) (length ws)) l);;
         addWhitespace (head childDataElements) 0 (Some ws);;
         update (set_nextWhitespace ws);;
         update (set_wrappedWhitespace [])
     end
   else
     outputWrappedMetaItems Restore;;
     appendData childDataElements;;
     processNextWhitespace (head childDataElements);;
     update (set_prevElement (head childDataElements)));;
  mret (length childNodes - 1)%nat.

(** The branch of a node. *)
Definition convertChildNode (stack : list Context) (childNode : DomNode)
    (aboutGroup childNodes : list DomNode) (childDataElements : list Item)
  : Step nat :=
  t ← firstType childDataElements;
  let childIsContent := isNodeContent t in
  l ← getLocals;
  '(childNodes, childDataElements, childIsContent) ←
    (if negb (expectingContent (context l)) && childIsContent then
       startWrapping;;
       l ← getLocals;
       update (set_prevElement (Ref <$> wrappingParagraph l));;
       mret (childNodes, childDataElements, childIsContent)
     else if expectingContent (context l) && negb childIsContent then
       if inWrapper (context l) && canCloseWrapper (context l) then
         stopWrapping;;
         mret (childNodes, childDataElements, childIsContent)
       else
         let childNodes :=
           if enableAboutGrouping AlienNode then aboutGroup else [childNode] in
         created ← createDataElements AlienNode childNodes stack;
         match created with
         | None => throw "TypeError"
         | Some created =>
             t ← firstType created;
             mret (childNodes, created, isNodeContent t)
         end
     else mret (childNodes, childDataElements, childIsContent));
  l ← getLocals;
  (if inWrapper (context l) && childIsContent then
     outputWrappedMetaItems Restore;;
     update (set_wrappedWhitespace []);;
     update (set_nextWhitespace [])
   else mret tt);;
  (if childIsContent && negb (AnnotationSet.isEmpty (cx_annotations (context l)))
   then setAnnotations (head childDataElements)
          (AnnotationSet.getIndexes (cx_annotations (context l)))
   else mret tt);;
  t ← firstType childDataElements;
  (if (length childDataElements =? 1)%nat && (length childNodes =? 1)%nat
      && canNodeHaveChildren t && negb (doesNodeHandleOwnChildren t)
   then
     outputWrappedMetaItems Restore;;
     match head childDataElements with
     | Some (Ref x) =>
         items ← callRecurse childNode (Some x) (Some AnnotationSet.empty) stack;
         appendData items
     | _ => throw "TypeError"
     end
   else
     childDataElements ←
       (if (length childDataElements =? 1)%nat
        then pushClosing childDataElements else mret childDataElements);
     outputWrappedMetaItems Restore;;
     appendData childDataElements);;
  processNextWhitespace (head childDataElements);;
  update (set_prevElement (head childDataElements));;
  mret (length childNodes - 1)%nat.

(** An element or a comment among the children; the result is how many
    of the following siblings were consumed with it. *)
Definition convertElement (stack : list Context) (childNode : DomNode)
    (siblings : list DomNode) : Step nat :=
  if match getAttribute childNode "data-ve-ignore" with
     | Some v => negb (isEmptyString v)
     | None => false
     end
  then mret O
  else
    let aboutGroup := getAboutGroup childNode siblings in
    let modelName := matchElement childNode (1 <? length aboutGroup)%nat in
    let modelClass := default AlienNode (lookup modelName) in
    let childNodes :=
      if extends modelClass AnnotationClass then [childNode]
      else if enableAboutGrouping modelClass then aboutGroup else [childNode] in
    created ← createDataElements modelClass childNodes stack;
    match created with
    | Some [] => mret O
    | _ =>
        '(modelClass, childNodes, childDataElements) ←
          match created with
          | None =>
              let childNodes :=
                if enableAboutGrouping AlienNode then aboutGroup else [childNode] in
              created ← createDataElements AlienNode childNodes stack;
              match created with
              | None => throw "TypeError"
              | Some created => mret (Some AlienNode, childNodes, created)
              end
          | Some created =>
              t ← firstType created;
              mret (lookup t, childNodes, created)
          end;
        match modelClass with
        | None => throw "TypeError"
        | Some modelClass =>
            if extends modelClass AnnotationClass
            then convertAnnotation stack childNode childNodes childDataElements
            else if extends modelClass MetaItemClass
            then convertMetaItem childNodes childDataElements
            else convertChildNode stack childNode aboutGroup childNodes childDataElements
        end
    end.

(** [wrapperElement.type] *)
Definition wrapperType (wrapperElement : nat) : Step string :=
  e ← readElement wrapperElement;
  mret (default "" (type <$> e)).

(** A text node among the children, [i] its index and [count] the
    number of children. *)
Definition convertText (wrapperElement : option nat) (i count : nat) (text : JsString)
  : Step unit :=
  match text with
  | [] => mret tt
  | _ =>
      l ← getLocals;
      let annotations := cx_annotations (context l) in
      if negb (originallyExpectingContent (context l)) then
        if isAllSpace text then
          if inWrapper (context l) then
            update (set_wrappedWhitespace text);;
            update (set_wrappedWhitespaceIndex (length (data l)));;
            appendData (getDataContentFromText text (Some annotations))
          else
            storeLeadingWhitespace wrapperElement text;;
            update (set_nextWhitespace text);;
            update (set_wrappedWhitespace []);;
            outputWrappedMetaItems Restore
        else
          let '(m1, m2, m3) := splitSpace text in
          (if negb (inWrapper (context l)) then
             startWrapping;;
             match m1 with
             | [] => mret tt
             | _ =>
                 storeLeadingWhitespace wrapperElement m1;;
                 l ← getLocals;
                 addWhitespace (Ref <$> wrappingParagraph l) 0 (Some m1)
             end
           else
             outputWrappedMetaItems Restore;;
             appendData (getDataContentFromText m1 (Some annotations)));;
          appendData (getDataContentFromText m2 (Some annotations));;
          update (set_wrappedWhitespace m3);;
          l ← getLocals;
          update (set_wrappedWhitespaceIndex (length (data l)));;
          appendData (getDataContentFromText m3 (Some annotations));;
          update (set_prevElement (Ref <$> wrappingParagraph l))
      else
        text ←
          match wrapperElement with
          | Some x =>
              t ← wrapperType x;
              if AnnotationSet.isEmpty annotations && (i =? 0)%nat
                 && negb (doesNodeHaveSignificantWhitespace t)
              then
                match leadingSpace text with
                | Some ws =>
                    addWhitespace (Some (Ref x)) 1 (Some ws);;
                    mret (skipn (length ws) text)
                | None => mret text
                end
              else mret text
          | None => mret text
          end;
        text ←
          match wrapperElement with
          | Some x =>
              t ← wrapperType x;
              if AnnotationSet.isEmpty annotations && (i =? count - 1)%nat
                 && negb (doesNodeHaveSignificantWhitespace t)
              then
                match trailingSpace text with
                | Some ws =>
                    addWhitespace (Some (Ref x)) 2 (Some ws);;
                    mret (firstn (length text - length ws) text)
                | None => mret text
                end
              else mret text
          | None => mret text
          end;
        appendData (getDataContentFromText text (Some annotations))
  end.

(** One child of the subtree; the result is how many of the following
    siblings it consumed. *)
Definition convertChild (wrapperElement : option nat) (stack : list Context)
    (i count : nat) (childNode : DomNode) (siblings : list DomNode) : Step nat :=
  match childNode with
  | ElementNode _ _ _ | CommentNode _ => convertElement stack childNode siblings
  | TextNode text => convertText wrapperElement i count text;; mret O
  | OtherNode _ => mret O
  end.

(** The loop over the children: [skip] counts the siblings an about
    group has consumed already. *)
Fixpoint convertChildren (wrapperElement : option nat) (stack : list Context)
    (i count skip : nat) (children : list DomNode) : Step unit :=
  match children with
  | [] => mret tt
  | childNode :: siblings =>
      match skip with
      | S skip' => convertChildren wrapperElement stack (S i) count skip' siblings
      | O =>
          consumed ← convertChild wrapperElement stack i count childNode siblings;
          convertChildren wrapperElement stack (S i) count consumed siblings
      end
  end.

(** [this.isValidChildNodeType( nodeType )] *)
Definition isValidChildNodeType (c : Context) (nodeType : string) : bool :=
  match getChildNodeTypes (branchType c) with
  | None => true
  | Some childTypes => existsb (String.eqb nodeType) childTypes
  end.

(** [data[ data.length - 1 ] === wrapperElement] *)
Definition lastIsWrapper (l : Locals) (wrapperElement : nat) : bool :=
  match last (data l) with
  | Some (Ref x) => (x =? wrapperElement)%nat
  | _ => false
  end.

Definition pushEmptyParagraph : Step unit :=
  x ← allocElement emptyParagraphElement;
  processNextWhitespace (Some (Ref x));;
  appendData [Ref x];;
  y ← allocElement (closeElement "/paragraph");
  appendData [Ref y].

(** What follows the loop over the children. *)
Definition closeSubtree (wrapperElement : option nat)
    (annotationSet : option AnnotationSet.t) : Step unit :=
  l ← getLocals;
  (if inWrapper (context l) && canCloseWrapper (context l)
   then stopWrapping;; updateContext (set_inWrapper true)
   else mret tt);;
  l ← getLocals;
  match wrapperElement with
  | Some x =>
      (if negb (String.eqb (branchType (context l)) "paragraph")
          && lastIsWrapper l x
          && negb (inWrapper (context l))
          && negb (canNodeContainContent (branchType (context l)))
          && negb (isNodeContent (Some (branchType (context l))))
          && isValidChildNodeType (context l) "paragraph"
       then pushEmptyParagraph else mret tt);;
      l ← getLocals;
      (match nextWhitespace l with
       | [] => mret tt
       | ws =>
           if negb (lastIsWrapper l x)
           then addWhitespace (Some (Ref x)) 2 (Some ws);;
                update (set_nextWhitespace [])
           else mret tt
       end);;
      t ← wrapperType x;
      y ← allocElement (closeElement (String.append "/" t));
      appendData [Ref y]
  | None => mret tt
  end;;
  l ← getLocals;
  w ← getWorld;
  if String.eqb (branchType (context l)) "document"
     && isAllInstanceOf w (data l) MetaItemClass
     && match annotationSet with Some _ => false | None => true end
  then pushEmptyParagraph
  else mret tt.

(** The context a call starts with, from the one on top of the stack. *)
Definition initialContext (wrapperType : option string)
    (annotationSet : option AnnotationSet.t) (stack : list Context) : Context :=
  let prevContext := last stack in
  let annotations :=
    match annotationSet, prevContext with
    | Some a, _ => a
    | None, Some p => cx_annotations p
    | None, None => AnnotationSet.empty
    end in
  let branchType' :=
    match wrapperType, prevContext with
    | Some t, _ => t
    | None, Some p => branchType p
    | None, None => "document"
    end in
  let branchHasContent' := canNodeContainContent branchType' in
  let expecting := branchHasContent' || negb (AnnotationSet.isEmpty annotations) in
  mkContext annotations branchType' branchHasContent' expecting expecting
    (match prevContext with Some p => inWrapper p | None => false end)
    false.

(** The body of [getDataFromDomSubtree], for the children of the DOM
    element. *)
Definition convertSubtree (children : list DomNode) (wrapperElement : option nat)
    (annotationSet : option AnnotationSet.t) (stack : list Context) (w : World)
  : Result (list Item * World) :=
  let wrapperType := wrapperElement ≫= (fun x => type <$> (heap w !! x)) in
  let cx := initialContext wrapperType annotationSet stack in
  let l0 :=
    mkLocals (match wrapperElement with Some x => [Ref x] | None => [] end)
      [] [] O [] None None cx in
  match convertChildren wrapperElement stack O (length children) O children l0 w with
  | Returned (_, l1, w1) =>
      match closeSubtree wrapperElement annotationSet l1 w1 with
      | Returned (_, l2, w2) => Returned (data l2, w2)
      | Threw e => Threw e
      | Unfinished => Unfinished
      end
  | Threw e => Threw e
  | Unfinished => Unfinished
  end.

End Recursion.

(** The recursion of [getDataFromDomSubtree] with a bound on how deep
    it goes. *)
Fixpoint getDataFromDomSubtreeWithin (depth : nat) (domElement : DomNode)
    (wrapperElement : option nat) (annotationSet : option AnnotationSet.t)
    (stack : list Context) (w : World) : Result (list Item * World) :=
  match depth with
  | O => Unfinished
  | S depth' =>
      convertSubtree (getDataFromDomSubtreeWithin depth') (childNodesOf domElement)
        wrapperElement annotationSet stack w
  end.

(** The height of a DOM tree: the recursion goes as deep as the tree. *)
Fixpoint height (n : DomNode) : nat :=
  match n with
  | ElementNode _ _ children =>
      S ((fix heights (l : list DomNode) : nat :=
            match l with
            | [] => O
            | c :: r => Nat.max (height c) (heights r)
            end) children)
  | _ => 1%nat
  end.

(** [ve.dm.Converter.prototype.getDataFromDomSubtree]: the context stack
    is a parameter, and the store and the element objects are in the
    world. *)
Definition getDataFromDomSubtree (domElement : DomNode) (wrapperElement : option nat)
    (annotationSet : option AnnotationSet.t) (stack : list Context) (w : World)
  : Result (list Item * World) :=
  getDataFromDomSubtreeWithin (height domElement) domElement
    wrapperElement annotationSet stack w.

End Conversion.

End Converter.

(** ** ve.dm.Converter.static.renderHtmlAttributeList *)

Module Render.

Import Converter.

(** [ve.dm.Converter.static.computedAttributes] *)
Definition computedAttributes : list string := ["href"; "src"].

(** The [filter] argument: left out, a boolean, or a function of the
    attribute name. *)
Inductive AttributeFilter : Type :=
| FilterUndefined : AttributeFilter
| FilterBool : bool -> AttributeFilter
| FilterFunction : (string -> bool) -> AttributeFilter.

(** [filter === true || filter( name )], once [undefined] has become
    [true] and [false] has returned. *)
Definition filterPasses (filter : AttributeFilter) (name : string) : bool :=
  match filter with
  | FilterUndefined => true
  | FilterBool b => b
  | FilterFunction f => f name
  end.

(** [element.hasAttribute( name )] *)
Definition hasAttribute (attrs : list (string * string)) (name : string) : bool :=
  match attributeOf attrs name with
  | Some _ => true
  | None => false
  end.

(** [node.children]: the child nodes that are elements. *)
Definition elementChildren (childNodes : list DomNode) : list DomNode :=
  List.filter isElementNode childNodes.

(** The first element among child nodes, with the nodes before it and
    the nodes after it. *)
Fixpoint nextElement (childNodes : list DomNode)
  : option (list DomNode * DomNode * list DomNode) :=
  match childNodes with
  | [] => None
  | n :: rest =>
      if isElementNode n then Some ([], n, rest)
      else
        match nextElement rest with
        | Some (before, t, after) => Some (n :: before, t, after)
        | None => None
        end
  end.

Section Rendering.

(** [element[ name ]]: the DOM property of an element that has the name
    of an attribute, as the browser computes it. *)
Variable domProperty : DomNode -> string -> string.

(** The loop over the attributes of one original element: [attrs] are
    the attributes still to go, [targetAttrs] those the target element
    has by now. [setAttribute] is only called for a name the target does
    not have, so it adds the attribute at the end. *)
Fixpoint copyAttributes (filter : AttributeFilter) (computed : bool)
    (original : DomNode) (attrs targetAttrs : list (string * string))
  : list (string * string) :=
  match attrs with
  | [] => targetAttrs
  | (name, value) :: rest =>
      let targetAttrs :=
        if negb (hasAttribute targetAttrs name) && filterPasses filter name
        then
          targetAttrs
          ++ [(name,
               if computed && existsb (String.eqb name) computedAttributes
               then domProperty original name
               else value)]
        else targetAttrs in
      copyAttributes filter computed original rest targetAttrs
  end.

(** One round of the loop of [renderHtmlAttributeList], for an original
    node and the target node at the same index: the target as the round
    leaves it. An original that is not an element has no [attributes]
    and is skipped. A target that is not an element has neither
    [hasAttribute] nor [children]: the round throws when it calls the
    one or, in the recursive call, indexes the other. The recursive call
    on the [children] of the two elements is the inner loop: it pairs the
    child elements in order and leaves the other child nodes where they
    are. *)
Fixpoint renderNode (filter : AttributeFilter) (computed deep : bool)
    (original target : DomNode) {struct original} : Outcome DomNode :=
  match original with
  | ElementNode _ attrs originalChildNodes =>
      match target with
      | ElementNode targetTag targetAttrs targetChildNodes =>
          let targetAttrs := copyAttributes filter computed original attrs targetAttrs in
          if deep && (0 <? length (elementChildren originalChildNodes))%nat then
            match
              (fix children (originals targets : list DomNode) {struct originals}
                 : Outcome (list DomNode) :=
                 match originals with
                 | [] => Done targets
                 | o :: originals' =>
                     if isElementNode o then
                       match nextElement targets with
                       | Some (before, t, after) =>
                           match renderNode filter computed true o t with
                           | Done t' =>
                               match children originals' after with
                               | Done after' => Done (before ++ t' :: after')
                               | Thrown m => Thrown m
                               end
                           | Thrown m => Thrown m
                           end
                       | None => Done targets
                       end
                     else children originals' targets
                 end) originalChildNodes targetChildNodes
            with
            | Done targetChildNodes =>
                Done (ElementNode targetTag targetAttrs targetChildNodes)
            | Thrown m => Thrown m
            end
          else Done (ElementNode targetTag targetAttrs targetChildNodes)
      | _ =>
          match attrs with
          | _ :: _ => Thrown "TypeError"
          | [] =>
              if deep && (0 <? length (elementChildren originalChildNodes))%nat
              then Thrown "TypeError"
              else Done target
          end
      end
  | _ => Done target
  end.

(** The loop over the original nodes: a round for every index that has
    a target. *)
Fixpoint renderAll (filter : AttributeFilter) (computed deep : bool)
    (originals targets : list DomNode) : Outcome (list DomNode) :=
  match originals, targets with
  | o :: originals', t :: targets' =>
      match renderNode filter computed deep o t with
      | Done t' =>
          match renderAll filter computed deep originals' targets' with
          | Done targets'' => Done (t' :: targets'')
          | Thrown m => Thrown m
          end
      | Thrown m => Thrown m
      end
  | _, _ => Done targets
  end.

(** [ve.dm.Converter.static.renderHtmlAttributeList]: the target
    elements as the call leaves them. [computed] and [deep] are [false]
    when they are left out. *)
Definition renderHtmlAttributeList (originalDomElements targetDomElements : list DomNode)
    (filter : AttributeFilter) (computed deep : bool) : Outcome (list DomNode) :=
  match filter with
  | FilterBool false => Done targetDomElements
  | _ => renderAll filter computed deep originalDomElements targetDomElements
  end.

End Rendering.

(** *** Vocabulary of the properties *)

(** The child nodes with their element nodes replaced, in order, by
    [elements]. *)
Fixpoint putElements (childNodes elements : list DomNode) : list DomNode :=
  match childNodes with
  | [] => []
  | n :: rest =>
      if isElementNode n then
        match elements with
        | e :: elements' => e :: putElements rest elements'
        | [] => n :: rest
        end
      else n :: putElements rest elements
  end.

(** A node as [renderHtmlAttributeList] may leave it: an element with
    attributes added after those it had, and child nodes that are as
    they were or changed in the same way. *)
#[warnings="-register-all"]
Inductive Enriched : DomNode -> DomNode -> Prop :=
| Enriched_element tag attrs more children children' :
    Forall2 Enriched children children' ->
    (forall name, hasAttribute attrs name = true ->
                  hasAttribute more name = false) ->
    Enriched (ElementNode tag attrs children) (ElementNode tag (attrs ++ more) children')
| Enriched_comment c : Enriched (CommentNode c) (CommentNode c)
| Enriched_text t : Enriched (TextNode t) (TextNode t)
| Enriched_other k : Enriched (OtherNode k) (OtherNode k).

End Render.

(** ** A small document model to run the surface on

    Modelled from the spec: the linear data, the store and the
    transaction classes are not among the sources. The document is a
    sequence of annotated characters; the annotations "across a range"
    are those present at every offset of the range (all of them when the
    caller asks for all), the insertion annotations are those of the
    character left of a collapsed selection (of the first selected
    character otherwise); index 0 of the store is a link, the others are
    text styles. A transaction shifts every character code by a constant
    and is undone by the opposite shift; shifting by zero is the no-op. *)
Module Toy.

Definition Slot : Type := (Z * AnnotationSet.t)%type.

Definition annotationsAt (d : list Slot) (o : Z) : AnnotationSet.t :=
    match JsArray.get d o with
    | Some sl => snd sl
    | None => AnnotationSet.empty
    end.

Definition annotationsOver (d : list Slot) (r : Range.t) (all : bool)
    : AnnotationSet.t :=
    let covered :=
      firstn (Z.to_nat (Range.end_ r - Range.start r))
        (skipn (Z.to_nat (Range.start r)) d) in
    match map snd covered with
    | [] => AnnotationSet.empty
    | a :: rest =>
        fold_left
          (if all then AnnotationSet.addSet else AnnotationSet.intersectWith)
          rest a
    end.

Definition insertionAnnotationsOver (d : list Slot) (r : Range.t)
    : AnnotationSet.t :=
    if Range.isCollapsed r
    then annotationsAt d (Range.start r - 1)
    else annotationsAt d (Range.start r).

Definition nameOf (i : nat) : string :=
    match i with
    | O => "link"
    | _ => "textStyle"
    end.

Definition shift (k : Z) (d : list Slot) : list Slot :=
    map (fun sl => (fst sl + k, snd sl)) d.

#[export] Instance collaborators : Surface.Collaborators := {|
    Surface.Transaction := Z;
    Surface.reversed := Z.opp;
    Surface.isNoOp := fun k => k =? 0;
    Surface.hasElementAttributeOperations := fun _ => false;
    Surface.Data := list Slot;
    Surface.applyTransaction := shift;
    Surface.Node := nat;
    Surface.node_same := Nat.eqb;
    Surface.TableSel := unit;
    Surface.table_equals := fun _ _ => true;
    Surface.getBranchNodeFromOffset := fun _ _ => Obj 0%nat;
    Surface.getNodeFromOffset := fun _ _ => Null;
    Surface.getOuterRange := fun d _ => Range.mk 0 (Z.of_nat (length d));
    Surface.firstMatrixCellNode := fun _ _ => Null;
    Surface.getLength := fun d => Z.of_nat (length d);
    Surface.getAnnotationsFromOffset := annotationsAt;
    Surface.getAnnotationsFromRange := annotationsOver;
    Surface.getInsertionAnnotationsFromRange := insertionAnnotationsOver;
    Surface.annotationName := fun _ => nameOf;
    Surface.Annotation := nat;
    Surface.storeIndex := fun _ a => a
  |}.

#[export] Instance selectionOps : Surface.SelectionOps := {|
    Surface.translateByTransaction := fun _ sel => sel
  |}.

  (** The surface as its constructor leaves it, over a given document. *)
Definition fresh (d : list Slot) : Surface.t :=
    Surface.mk d Surface.NullSelection Surface.NullSelection None
      (Surface.mkBranchNodes Undefined Undefined) Null [] [] [] 0 false
      0%nat AnnotationSet.empty None true false false false
      [AnnotationSet.empty] [].

  (** Twelve characters, "0123456789:;", with a link (store index 0) on
      offsets 5 to 9. *)
Definition linked : list Slot :=
    [(48, []); (49, []); (50, []); (51, []); (52, []);
     (53, [0%nat]); (54, [0%nat]); (55, [0%nat]); (56, [0%nat]); (57, [0%nat]);
     (58, []); (59, [])].

  (** "ab" with a text style (store index 1) on both characters. *)
Definition styled : list Slot := [(97, [1%nat]); (98, [1%nat])].

  (** A surface with two checkpoints in its undo stack, the later one
      undone. *)
Definition undone : Surface.t :=
    Surface.mk [(98, [])] Surface.NullSelection Surface.NullSelection None
      (Surface.mkBranchNodes Undefined Undefined) Null [] []
      [Surface.mkUndoItem [1] Surface.NullSelection Surface.NullSelection;
       Surface.mkUndoItem [2] Surface.NullSelection Surface.NullSelection]
      1 false 0%nat AnnotationSet.empty None true false false false
      [AnnotationSet.empty] [].

  (** A surface in the middle of a transaction loop. *)
Definition midTransaction : Surface.t :=
    Surface.set_transacting true (fresh styled).

  (** A disabled surface. *)
Definition disabled : Surface.t := Surface.disable (fresh styled).

  (** A surface that was disabled while staging, after a transaction
      was committed into the staging frame. *)
Definition disabledStaging : Surface.t :=
    Surface.disable
      (Surface.change (Some [3]) None (Surface.pushStaging false (fresh styled))).

  (** A surface that was disabled while a transaction was waiting for
      its checkpoint. *)
Definition disabledPending : Surface.t :=
    Surface.disable (Surface.change (Some [3]) None (fresh styled)).

End Toy.

(** ** A small registry to run the converter on

    Modelled from the spec: the registries and the model classes are not
    among the sources. [<p>] is a paragraph (it can contain content),
    [<ul>] and [<li>] a list and its items, [<div>] a block that takes
    any child, [<img>] an inline node, [<b>] and [<i>] text-style
    annotations, [<meta>] a meta item; anything else has no model and is
    alienated, inline where content is expected and as a block
    elsewhere. *)
Module ToyHtml.

Import Converter.

Definition plain (t : string) : Element := mkElement t [] None None None.

Definition one (name : string) (extended : list string) (t : string) : ModelClass :=
    mkModelClass name extended false (fun _ _ => TdOne (plain t)).

Definition paragraph : ModelClass := one "ve.dm.ParagraphNode" [] "paragraph".
Definition list_ : ModelClass := one "ve.dm.ListNode" [] "list".
Definition listItem : ModelClass := one "ve.dm.ListItemNode" [] "listItem".
Definition division : ModelClass := one "ve.dm.DivNode" [] "div".
Definition image : ModelClass := one "ve.dm.InlineImageNode" [] "inlineImage".
Definition bold : ModelClass :=
    one "ve.dm.BoldAnnotation" [AnnotationClass] "textStyle/bold".
Definition italic : ModelClass :=
    one "ve.dm.ItalicAnnotation" [AnnotationClass] "textStyle/italic".
Definition meta : ModelClass := one "ve.dm.CommentMetaItem" [MetaItemClass] "meta".
Definition alienMeta : ModelClass :=
    one "ve.dm.AlienMetaItem" [MetaItemClass] "alienMeta".
Definition alienInline : ModelClass := one "ve.dm.AlienInlineNode" [] "alienInline".
Definition alienBlock : ModelClass := one "ve.dm.AlienBlockNode" [] "alienBlock".

  (** The alien node looks at the converter: is content expected? *)
Definition alien : ModelClass :=
    mkModelClass "ve.dm.AlienNode" [] false
      (fun _ stack =>
         match last stack with
         | Some c => if expectingContent c
                     then TdOne (plain "alienInline") else TdOne (plain "alienBlock")
         | None => TdOne (plain "alienBlock")
         end).

Definition matchTag (n : DomNode) : option string :=
    match n with
    | ElementNode tag _ _ =>
        if String.eqb tag "p" then Some "paragraph"
        else if String.eqb tag "ul" then Some "list"
        else if String.eqb tag "li" then Some "listItem"
        else if String.eqb tag "div" then Some "div"
        else if String.eqb tag "img" then Some "inlineImage"
        else if String.eqb tag "b" then Some "textStyle/bold"
        else if String.eqb tag "i" then Some "textStyle/italic"
        else if String.eqb tag "meta" then Some "meta"
        else None
    | CommentNode _ => Some "meta"
    | _ => None
    end.

Definition classOf (name : option string) : option ModelClass :=
    match name with
    | Some t =>
        if String.eqb t "paragraph" then Some paragraph
        else if String.eqb t "list" then Some list_
        else if String.eqb t "listItem" then Some listItem
        else if String.eqb t "div" then Some division
        else if String.eqb t "inlineImage" then Some image
        else if String.eqb t "textStyle/bold" then Some bold
        else if String.eqb t "textStyle/italic" then Some italic
        else if String.eqb t "meta" then Some meta
        else if String.eqb t "alienMeta" then Some alienMeta
        else if String.eqb t "alienInline" then Some alienInline
        else if String.eqb t "alienBlock" then Some alienBlock
        else None
    | None => None
    end.

Definition oneOf (names : list string) (t : option string) : bool :=
    match t with
    | Some t => existsb (String.eqb t) names
    | None => false
    end.

#[export] Instance registry : Registry := {|
    matchElement := fun n _ => matchTag n;
    lookup := classOf;
    AlienNode := alien;
    AlienMetaItem := alienMeta;
    canNodeContainContent := fun t => oneOf ["paragraph"] (Some t);
    isNodeContent := oneOf ["inlineImage"; "alienInline"];
    canNodeHaveChildren := oneOf ["paragraph"; "list"; "listItem"; "div"; "document"];
    doesNodeHandleOwnChildren := fun _ => false;
    doesNodeHaveSignificantWhitespace := fun _ => false;
    getChildNodeTypes := fun t => if String.eqb t "list" then Some ["listItem"] else None;
    Annotation := string;
    annotation_equal := String.eqb;
    createFromElement := type;
    comparableForSerialization := Nat.eqb
  |}.

  (** The same registries with a node type for preformatted text, whose
      white space is significant. *)
Definition withPreformatted : Registry := {|
    matchElement := fun n _ => matchTag n;
    lookup := classOf;
    AlienNode := alien;
    AlienMetaItem := alienMeta;
    canNodeContainContent := fun t => oneOf ["paragraph"; "preformatted"] (Some t);
    isNodeContent := oneOf ["inlineImage"; "alienInline"];
    canNodeHaveChildren :=
      oneOf ["paragraph"; "preformatted"; "list"; "listItem"; "div"; "document"];
    doesNodeHandleOwnChildren := fun _ => false;
    doesNodeHaveSignificantWhitespace := fun t => oneOf ["preformatted"] (Some t);
    getChildNodeTypes := fun t => if String.eqb t "list" then Some ["listItem"] else None;
    Annotation := string;
    annotation_equal := String.eqb;
    createFromElement := type;
    comparableForSerialization := Nat.eqb
  |}.

Definition emptyWorld : World := mkWorld [] [].

Definition text (s : string) : DomNode :=
    TextNode (map (fun b => Z.of_nat (Ascii.nat_of_ascii b)) (list_ascii_of_string s)).

Definition el (tag : string) (children : list DomNode) : DomNode :=
    ElementNode tag [] children.

  (** The linear data with every element reference replaced by the
      type of its element; characters by their code. *)
Definition render (r : Result (list Item * World)) : list string :=
    match r with
    | Returned (items, w) =>
        map (fun it =>
               match it with
               | Ref x => default "?" (type <$> (heap w !! x))
               | Chr c => String (Ascii.ascii_of_nat (Z.to_nat c)) EmptyString
               | AnnChr c _ => String (Ascii.ascii_of_nat (Z.to_nat c)) "*"
               end) items
    | Threw e => ["threw " ++ e]%string
    | Unfinished => ["unfinished"]
    end.

  (** A division with text, a list, an element no model is registered
      for, a comment, and annotated content. *)
Definition sample : DomNode :=
    el "div"
      [text "a ";
       el "ul" [el "li" [text "x"]];
       el "blink" [text "q"];
       CommentNode "c";
       text " b";
       el "b" [text "w"; el "img" []];
       el "b" []].

End ToyHtml.

(** ** Vocabulary of the surface's properties *)

Module SurfaceSpec.

Import Surface.

Section Vocabulary.

Context `{SelectionOps}.

  (** The transactions of the [documentUpdate] events of a log: one is
      emitted for every transaction committed to the document. *)
Fixpoint documentUpdates (l : list Event) : list Transaction :=
    match l with
    | [] => []
    | EvDocumentUpdate tx :: r => tx :: documentUpdates r
    | _ :: r => documentUpdates r
    end.

  (** What selection processing leaves alone: the document, the history
      and the switches of the surface, and the commits seen so far. *)
Record same_history (s s' : t) : Prop := SameHistory {
    sh_documentModel : documentModel s' = documentModel s;
    sh_selectionBefore : selectionBefore s' = selectionBefore s;
    sh_newTransactions : newTransactions s' = newTransactions s;
    sh_stagingStack : stagingStack s' = stagingStack s;
    sh_undoStack : undoStack s' = undoStack s;
    sh_undoIndex : undoIndex s' = undoIndex s;
    sh_historyTrackingInterval : historyTrackingInterval s' = historyTrackingInterval s;
    sh_enabled : enabled s' = enabled s;
    sh_transacting : transacting s' = transacting s;
    sh_queueing : queueingContextChanges s' = queueingContextChanges s;
    sh_documentUpdates :
      documentUpdates (events s') = documentUpdates (events s)
  }.

Definition nonNoOp (tx : Transaction) : bool := negb (isNoOp tx).

  (** The transactions a call records and commits. *)
Definition effective (txs : list Transaction) : list Transaction :=
    List.filter nonNoOp txs.

  (** Committing transactions in order. *)
Definition commits (txs : list Transaction) (d : Data) : Data :=
    fold_left (fun d tx => applyTransaction tx d) txs d.

  (** What a whole call of [changeInternal] leaves alone once the
      transaction loop is over. *)
Record same_past (s s' : t) : Prop := SamePast {
    sp_documentModel : documentModel s' = documentModel s;
    sp_selectionBefore : selectionBefore s' = selectionBefore s;
    sp_newTransactions : newTransactions s' = newTransactions s;
    sp_stagingStack : stagingStack s' = stagingStack s;
    sp_undoStack : undoStack s' = undoStack s;
    sp_undoIndex : undoIndex s' = undoIndex s;
    sp_historyTrackingInterval : historyTrackingInterval s' = historyTrackingInterval s;
    sp_enabled : enabled s' = enabled s;
    sp_documentUpdates :
      documentUpdates (events s') = documentUpdates (events s)
  }.

  (** A sequence of calls of [change], each with its transactions (or
      [null]) and its selection (or none). *)
Definition changes (calls : list (option (list Transaction) * option Selection))
      (s : t) : t :=
    fold_left (fun s c => change (fst c) (snd c) s) calls s.

Definition submitted (calls : list (option (list Transaction) * option Selection))
    : list Transaction :=
    concat (map (fun c => default [] (fst c)) calls).

  (** How many [contextChange] events a log holds. *)
Fixpoint contextChanges (l : list Event) : nat :=
    match l with
    | [] => O
    | EvContextChange :: r => S (contextChanges r)
    | _ :: r => contextChanges r
    end.

  (** The link [l] is among the annotations of offset [o]. *)
Definition linkAt (d : Data) (l : nat) (o : Z) : bool :=
    AnnotationSet.containsIndex (getLinks d o) l.

  (** The link [fixupRangeForLinks] looks for at an end [o] of a range:
      the first link there that is not among the annotations across the
      range. *)
Definition uncoveredLink (d : Data) (range : Range.t) (o : Z) : option nat :=
    AnnotationSet.getIndex
      (AnnotationSet.diffWith (getLinks d o) (getAnnotationsFromRange d range false)) 0.

  (** The history is in order: the undo index counts checkpoints of
      the undo stack, and transactions wait for a checkpoint only when
      nothing is undone. *)
Definition historyOk (s : t) : Prop :=
    0 <= undoIndex s <= Z.of_nat (length (undoStack s))
    /\ (newTransactions s <> [] -> undoIndex s = 0).

  (** What a call leaves of the history when it records nothing. *)
Record same_undo (s s' : t) : Prop := SameUndo {
    su_undoStack : undoStack s' = undoStack s;
    su_undoIndex : undoIndex s' = undoIndex s;
    su_newTransactions : newTransactions s' = newTransactions s;
    su_enabled : enabled s' = enabled s
  }.

  (** The [select], [focus] and [blur] events of a log. *)
Definition selectionEvents (l : list Event) : list Event :=
    List.filter
      (fun e => match e with EvSelect _ | EvFocus | EvBlur => true | _ => false end) l.

  (** No timer of automatic checkpoints runs on a disabled surface. *)
Definition idleWhenDisabled (s : t) : Prop :=
    enabled s = false -> historyTrackingInterval s = false.

  (** The surface stays enabled or disabled, and a disabled one keeps
      its timer as it is. *)
Definition keepsSwitch (s s' : t) : Prop :=
    enabled s' = enabled s
    /\ (enabled s = false -> historyTrackingInterval s' = historyTrackingInterval s).

End Vocabulary.

End SurfaceSpec.

(** * Properties of the surface *)

Module SurfaceProofs.

Import Surface SurfaceSpec.

(** Case analysis on the conditions a method tests, innermost first. *)
Ltac split_conditions :=
  repeat match goal with
    | |- context [if ?b then _ else _] =>
        lazymatch b with
        | context [if _ then _ else _] => fail
        | context [match _ with _ => _ end] => fail
        | _ => destruct b eqn:?
        end
    end.

Section Frames.

Context `{SelectionOps}.

Lemma documentUpdates_app l1 l2 :
    documentUpdates (l1 ++ l2) = documentUpdates l1 ++ documentUpdates l2.
Proof.
    induction l1 as [|e l1 IH]; [done|].
    destruct e; cbn; rewrite ?IH; done.
Qed.

Lemma same_history_refl s : same_history s s.
Proof. by constructor. Qed.

Lemma same_history_trans s1 s2 s3 :
    same_history s1 s2 -> same_history s2 s3 -> same_history s1 s3.
Proof. intros [] []; constructor; congruence. Qed.

Lemma emit_same_history e s :
    documentUpdates [e] = [] -> same_history s (emit e s).
Proof.
    intros He; constructor; try done.
    cbn. by rewrite documentUpdates_app, He, app_nil_r.
Qed.

Lemma emitContextChange_same_history s : same_history s (emitContextChange s).
Proof.
    unfold emitContextChange; destruct (queueingContextChanges s);
      [by constructor | by apply emit_same_history].
Qed.

Lemma setInsertionAnnotations_same_history a s :
    same_history s (setInsertionAnnotations a s).
Proof.
    unfold setInsertionAnnotations.
    destruct (enabled s); cbn; [|by constructor].
    destruct a; cbn;
      (eapply same_history_trans; [| by apply emit_same_history]);
      (eapply same_history_trans; [| by apply emit_same_history]);
      by constructor.
Qed.

Lemma set_selection_same_history v s : same_history s (set_selection v s).
Proof. by constructor. Qed.
Lemma set_translatedSelection_same_history v s :
    same_history s (set_translatedSelection v s).
Proof. by constructor. Qed.
Lemma set_branchNodes_same_history v s : same_history s (set_branchNodes v s).
Proof. by constructor. Qed.
Lemma set_selectedNode_same_history v s : same_history s (set_selectedNode v s).
Proof. by constructor. Qed.
Lemma set_selectedAnnotations_same_history v s :
    same_history s (set_selectedAnnotations v s).
Proof. by constructor. Qed.
Lemma set_isCollapsed_same_history v s : same_history s (set_isCollapsed v s).
Proof. by constructor. Qed.
Lemma set_sets_same_history v s : same_history s (set_sets v s).
Proof. by constructor. Qed.

  (** Split on what the head of a term waits for. *)
Ltac head_split x :=
    lazymatch x with
    | if ?b then _ else _ => destruct b eqn:?
    | match ?y with _ => _ end => head_split y
    | _ => destruct x eqn:?
    end.

  (** One step backwards through a method's body: peel the outermost
      operation, or split on the condition in front. *)
Ltac peel lem := eapply same_history_trans; [| apply lem].
Ltac frame_step :=
    first
      [ apply same_history_refl
      | assumption
      | peel emit_same_history; [| reflexivity]
      | peel emitContextChange_same_history
      | peel setInsertionAnnotations_same_history
      | peel set_selection_same_history
      | peel set_translatedSelection_same_history
      | peel set_branchNodes_same_history
      | peel set_selectedNode_same_history
      | peel set_selectedAnnotations_same_history
      | peel set_isCollapsed_same_history
      | peel set_sets_same_history
      | progress cbv beta iota zeta
      | match goal with
        | |- same_history _ ?x => head_split x
        end ].

Lemma setSelection_same_history sel s : same_history s (setSelection sel s).
Proof.
    unfold setSelection, alloc.
    repeat frame_step.
Qed.

  (** While the transaction loop runs, a commit moves the document and
      the selection and is reported once. *)
Lemma commit_transacting tx b s :
    enabled s = true -> transacting s = true ->
    commit tx b s =
      emit (EvDocumentUpdate tx)
        (set_selection (translateByTransaction tx (selection s))
           (set_translatedSelection None
              (set_documentModel (applyTransaction tx (documentModel s)) s))).
Proof.
    intros He Ht.
    unfold commit, onDocumentTransact, onDocumentPreSynchronize, onDocumentPreCommit,
      setSelection, getSelection.
    destruct s; cbn in *; subst; reflexivity.
Qed.

Lemma effective_cons tx txs :
    effective (tx :: txs)
    = if isNoOp tx then effective txs else tx :: effective txs.
Proof. unfold effective, nonNoOp; cbn. by destruct (isNoOp tx). Qed.

Lemma changeLoop_cons skip sb tx txs acc :
    changeLoop skip sb (tx :: txs) acc
    = changeLoop skip sb txs (changeStep skip sb tx acc).
Proof. reflexivity. Qed.

Lemma changeStep_noop skip sb tx acc :
    isNoOp tx = true -> changeStep skip sb tx acc = acc.
Proof. intros Hn; unfold changeStep; destruct acc; by rewrite Hn. Qed.

  (** Recording touches the history only. *)
Lemma recordTransaction_frame sb tx s :
    let s' := recordTransaction sb tx s in
    documentModel s' = documentModel s /\ events s' = events s
    /\ enabled s' = enabled s /\ transacting s' = transacting s
    /\ selection s' = selection s.
Proof.
    unfold recordTransaction, truncateUndoStack.
    destruct (isStaging s); [destruct (getStagingTransactions s) as [[|]|]|];
      cbn; split_conditions; cbn; done.
Qed.

  (** What the transaction loop does to the document: the effective
      transactions are committed in order, one [documentUpdate] each. *)
Lemma changeLoop_document skip sb txs : forall cc s,
    enabled s = true -> transacting s = true ->
    let r := changeLoop skip sb txs (cc, s) in
    enabled (snd r) = true /\ transacting (snd r) = true
    /\ documentModel (snd r) = commits (effective txs) (documentModel s)
    /\ documentUpdates (events (snd r))
       = documentUpdates (events s) ++ effective txs.
Proof.
    induction txs as [|tx txs IH]; intros cc s He Ht.
    - cbn. by rewrite app_nil_r.
    - rewrite changeLoop_cons, effective_cons.
      destruct (isNoOp tx) eqn:Hn.
      + rewrite changeStep_noop by done. by apply IH.
      + unfold changeStep. rewrite Hn. cbn [negb].
        set (s1 := if negb skip then recordTransaction sb tx s else s).
        assert (Hs1 : documentModel s1 = documentModel s /\ events s1 = events s
                      /\ enabled s1 = true /\ transacting s1 = true).
        { subst s1. destruct skip; cbn [negb]; [done|].
          destruct (recordTransaction_frame sb tx s) as (-> & -> & -> & -> & _). done. }
        destruct Hs1 as (Hd & Hev & He1 & Ht1).
        rewrite (commit_transacting tx _ s1 He1 Ht1).
        match goal with |- context [changeLoop _ _ _ (?c, ?st)] =>
          specialize (IH c st) end.
        cbn zeta in IH.
        destruct IH as (IH1 & IH2 & IH3 & IH4); [done|done|].
        repeat split; [done|done|..].
        * rewrite IH3. cbn. by rewrite Hd.
        * rewrite IH4. cbn [emit events set_events set_selection
            set_translatedSelection set_documentModel].
          rewrite documentUpdates_app, Hev. cbn. by rewrite <- app_assoc.
Qed.

Lemma same_past_refl s : same_past s s.
Proof. by constructor. Qed.

Lemma same_past_trans s1 s2 s3 :
    same_past s1 s2 -> same_past s2 s3 -> same_past s1 s3.
Proof. intros [] []; constructor; congruence. Qed.

Lemma same_history_past s s' : same_history s s' -> same_past s s'.
Proof. intros []; by constructor. Qed.

Lemma set_transacting_same_past v s : same_past s (set_transacting v s).
Proof. by constructor. Qed.

Lemma startQueueingContextChanges_same_past s :
    same_past s (startQueueingContextChanges s).
Proof.
    unfold startQueueingContextChanges;
      destruct (queueingContextChanges s); by constructor.
Qed.

Lemma stopQueueingContextChanges_same_past s :
    same_past s (stopQueueingContextChanges s).
Proof.
    unfold stopQueueingContextChanges.
    destruct (queueingContextChanges s); [|by constructor].
    cbn. destruct (contextChangeQueued s); cbn; constructor; try done.
    cbn. by rewrite documentUpdates_app, app_nil_r.
Qed.

Ltac past lem :=
    eapply same_past_trans; [| first [apply lem | apply same_history_past, lem]].

  (** After the loop, [changeInternal] only processes the selection and
      sends notifications. *)
Lemma changeInternal_after_loop txs sel skip s :
    enabled s = true ->
    same_past
      (snd (changeLoop skip (selection s) txs
              (false, set_transacting true (startQueueingContextChanges s))))
      (changeInternal (Some txs) sel skip s).
Proof.
    intros He. unfold changeInternal. rewrite He. cbn [negb].
    destruct (changeLoop _ _ _ _) as [cc smid]. cbn [snd].
    past stopQueueingContextChanges_same_past.
    match goal with |- same_past _ (if ?c then _ else _) => destruct c end;
      [past emitContextChange_same_history|].
    all: match goal with |- same_past _ (if ?c then _ else _) => destruct c end;
      [past emit_same_history; [|done] |].
    all: destruct sel; past setSelection_same_history;
      (past emit_same_history; [|done]);
      past set_transacting_same_past; apply same_past_refl.
Qed.

Lemma changeInternal_no_transactions sel skip s :
    same_past s (changeInternal None sel skip s).
Proof.
    unfold changeInternal.
    destruct (negb (enabled s)); [apply same_past_refl|].
    past stopQueueingContextChanges_same_past.
    match goal with |- same_past _ (if ?c then _ else _) => destruct c end;
      [past emit_same_history; [|done] |].
    all: destruct sel; [past setSelection_same_history|];
      apply startQueueingContextChanges_same_past.
Qed.

Lemma changeInternal_disabled txs sel skip s :
    enabled s = false -> changeInternal txs sel skip s = s.
Proof. intros He; unfold changeInternal; by rewrite He. Qed.

Lemma changeLoop_nothing skip sb txs acc :
    effective txs = [] -> changeLoop skip sb txs acc = acc.
Proof.
    revert acc; induction txs as [|tx txs IH]; intros acc; [done|].
    rewrite effective_cons, changeLoop_cons.
    destruct (isNoOp tx) eqn:Hn; [|done].
    intros He. rewrite changeStep_noop by done. by apply IH.
Qed.

Lemma effective_app a b : effective (a ++ b) = effective a ++ effective b.
Proof. apply List.filter_app. Qed.

Lemma effective_nonNoOp txs tx : In tx (effective txs) -> isNoOp tx = false.
Proof.
    unfold effective, nonNoOp. rewrite List.filter_In.
    intros [_ Hn]. by destruct (isNoOp tx).
Qed.

Lemma effective_all txs :
    (forall tx, In tx txs -> isNoOp tx = false) -> effective txs = txs.
Proof.
    induction txs as [|tx txs IH]; intros Hall; [done|].
    rewrite effective_cons, (Hall tx) by (by left).
    f_equal. apply IH. intros; apply Hall. by right.
Qed.

Lemma commits_app a b d : commits (a ++ b) d = commits b (commits a d).
Proof. apply fold_left_app. Qed.

  (** The stack as a JavaScript array: the top is the last entry. *)
Lemma top_snoc {A} (l : list A) x : JsArray.top (l ++ [x]) = Some x.
Proof. apply last_snoc. Qed.

Lemma popped_snoc {A} (l : list A) x : JsArray.popped (l ++ [x]) = l.
Proof. apply removelast_last. Qed.

Lemma updTop_snoc {A} (g : A -> A) (l : list A) x :
    JsArray.updTop g (l ++ [x]) = l ++ [g x].
Proof.
    unfold JsArray.updTop. rewrite last_snoc. by rewrite removelast_last.
Qed.

Lemma isStaging_snoc s st f : stagingStack s = st ++ [f] -> isStaging s = true.
Proof.
    unfold isStaging; intros ->. rewrite length_app.
    apply Nat.ltb_lt. cbn; lia.
Qed.

Lemma isStaging_nil s : stagingStack s = [] -> isStaging s = false.
Proof. unfold isStaging; by intros ->. Qed.

  (** Recording while staging: the transaction joins the top frame. *)
Lemma recordTransaction_staging sb tx s st f :
    stagingStack s = st ++ [f] ->
    exists sb',
      stagingStack (recordTransaction sb tx s)
      = st ++ [mkStaging (st_transactions f ++ [tx]) sb' (st_allowUndo f)].
Proof.
    intros Hst. unfold recordTransaction.
    rewrite (isStaging_snoc _ _ _ Hst).
    unfold getStagingTransactions, getStaging. rewrite Hst, top_snoc. cbn.
    destruct (st_transactions f) eqn:Htx; cbn; rewrite ?Hst, !updTop_snoc; cbn;
      rewrite ?Htx; eauto.
Qed.

  (** Recording otherwise: the redo history is cut first. *)
Lemma recordTransaction_truncates sb tx s :
    isStaging s = false ->
    let s' := recordTransaction sb tx s in
    stagingStack s' = stagingStack s /\ undoIndex s' = 0
    /\ undoStack s' = undoStack (truncateUndoStack s).
Proof.
    intros Hst. unfold recordTransaction. rewrite Hst. cbn zeta.
    assert (Hi : undoIndex (truncateUndoStack s) = 0).
    { unfold truncateUndoStack. destruct (undoIndex s =? 0) eqn:E; cbn; [|done].
      by apply Z.eqb_eq. }
    assert (Hs : stagingStack (truncateUndoStack s) = stagingStack s).
    { unfold truncateUndoStack. by destruct (negb _). }
    destruct (length (newTransactions (truncateUndoStack s)) =? 0)%nat; cbn; done.
Qed.

Lemma truncateUndoStack_tip s : undoIndex s = 0 -> truncateUndoStack s = s.
Proof. unfold truncateUndoStack; by intros ->. Qed.

Lemma changeLoop_staging sb txs : forall cc s st f,
    enabled s = true -> transacting s = true ->
    stagingStack s = st ++ [f] ->
    exists sb',
      stagingStack (snd (changeLoop false sb txs (cc, s)))
      = st ++ [mkStaging (st_transactions f ++ effective txs) sb' (st_allowUndo f)].
Proof.
    induction txs as [|tx txs IH]; intros cc s st f He Ht Hst.
    - cbn. rewrite app_nil_r. exists (st_selectionBefore f). by destruct f.
    - rewrite changeLoop_cons, effective_cons.
      destruct (isNoOp tx) eqn:Hn.
      + rewrite changeStep_noop by done. by apply IH.
      + unfold changeStep. rewrite Hn. cbn [negb].
        destruct (recordTransaction_staging sb tx s st f Hst) as [sb1 Hrec].
        destruct (recordTransaction_frame sb tx s) as (_ & _ & He1 & Ht1 & _).
        rewrite commit_transacting by congruence.
        match goal with |- context [changeLoop _ _ _ (?c, ?s1)] =>
          destruct (IH c s1 st
                      (mkStaging (st_transactions f ++ [tx]) sb1 (st_allowUndo f)))
            as [sb2 IH2] end; [cbn; congruence | cbn; congruence | done |].
        exists sb2. rewrite IH2. cbn. by rewrite <- app_assoc.
Qed.

Lemma changeLoop_skipping sb txs : forall cc s,
    enabled s = true -> transacting s = true ->
    stagingStack (snd (changeLoop true sb txs (cc, s))) = stagingStack s.
Proof.
    induction txs as [|tx txs IH]; intros cc s He Ht; [done|].
    rewrite changeLoop_cons.
    destruct (isNoOp tx) eqn:Hn.
    - rewrite changeStep_noop by done. by apply IH.
    - unfold changeStep. rewrite Hn. cbn [negb].
      rewrite commit_transacting by done.
      match goal with |- context [changeLoop _ _ _ (?c, ?s1)] =>
        rewrite (IH c s1) end; done.
Qed.

Lemma changeLoop_truncates sb txs : forall cc s,
    enabled s = true -> transacting s = true -> isStaging s = false ->
    effective txs <> [] ->
    let r := changeLoop false sb txs (cc, s) in
    undoIndex (snd r) = 0
    /\ undoStack (snd r) = undoStack (truncateUndoStack s).
Proof.
    induction txs as [|tx txs IH]; intros cc s He Ht Hst Hne; [done|].
    rewrite changeLoop_cons. rewrite effective_cons in Hne.
    destruct (isNoOp tx) eqn:Hn.
    - rewrite changeStep_noop by done. by apply IH.
    - unfold changeStep. rewrite Hn. cbn [negb].
      destruct (recordTransaction_truncates sb tx s Hst) as (Hs1 & Hi1 & Hu1).
      destruct (recordTransaction_frame sb tx s) as (_ & _ & He1 & Ht1 & _).
      rewrite commit_transacting by congruence.
      match goal with |- context [changeLoop _ _ _ (?c, ?s1)] =>
        set (c' := c); set (s2 := s1) end.
      assert (Hi2 : undoIndex s2 = 0) by done.
      assert (Hu2 : undoStack s2 = undoStack (truncateUndoStack s)) by done.
      destruct (effective txs) eqn:Heff.
      + rewrite changeLoop_nothing by done. done.
      + destruct (IH c' s2) as (IHa & IHb).
        * cbn; congruence.
        * cbn; congruence.
        * unfold isStaging in *. subst s2; cbn. by rewrite Hs1.
        * first [by rewrite Heff | done].
        * cbn zeta. split; [done|].
          rewrite IHb, truncateUndoStack_tip by done. done.
Qed.

End Frames.

Section Claims.

Context `{SelectionOps}.

Lemma slice0_firstn {A} (l : list A) (k : Z) :
    0 <= k <= Z.of_nat (length l) ->
    JsArray.slice0 l k = firstn (Z.to_nat k) l.
Proof.
    intros Hk. unfold JsArray.slice0.
    destruct (k <? 0) eqn:E; [apply Z.ltb_lt in E; lia|].
    by rewrite Z.min_l by lia.
Qed.

  (** C4. History truncation: on an enabled surface that is not
      staging, with [undoIndex > 0] (within the stack), a call of
      [change] that commits at least one transaction that is not a no-op
      removes the top [undoIndex] checkpoints of the undo stack and
      resets [undoIndex] to 0; nothing is left to redo and [canRedo] is
      false. *)
Theorem change_truncates_redo_history
      (txs : list Transaction) (sel : option Selection) (s : t) :
    enabled s = true ->
    isStaging s = false ->
    0 < undoIndex s <= Z.of_nat (length (undoStack s)) ->
    existsb nonNoOp txs = true ->
    let s' := change (Some txs) sel s in
    undoStack s'
    = firstn (length (undoStack s) - Z.to_nat (undoIndex s)) (undoStack s)
    /\ undoIndex s' = 0
    /\ canRedo s' = false.
Proof.
    intros He Hst Hi Hex s'.
    assert (Hne : effective txs <> []).
    { apply existsb_exists in Hex as (tx & Hin & Hn).
      intros Hnil. assert (Hf : In tx (effective txs)).
      { unfold effective. apply List.filter_In. done. }
      rewrite Hnil in Hf. done. }
    pose proof (changeInternal_after_loop txs sel false s He) as Hpast.
    fold (change (Some txs) sel s) in Hpast. fold s' in Hpast.
    destruct (changeLoop_truncates (selection s) txs false
                (set_transacting true (startQueueingContextChanges s)))
      as (Hi0 & Hu0); try done.
    { change (enabled (startQueueingContextChanges s) = true).
      by rewrite (sp_enabled _ _ (startQueueingContextChanges_same_past s)). }
    { rewrite <- Hst. unfold isStaging. f_equal. f_equal.
      apply (sp_stagingStack _ _ (startQueueingContextChanges_same_past s)). }
    destruct Hpast as [_ _ _ _ Hu Hidx _ _ _].
    cbn zeta in Hi0, Hu0. rewrite Hi0 in Hidx. rewrite Hu0 in Hu.
    assert (Hus : undoStack s'
                  = firstn (length (undoStack s) - Z.to_nat (undoIndex s)) (undoStack s)).
    { rewrite Hu. unfold truncateUndoStack. cbn.
      destruct (startQueueingContextChanges_same_past s) as [_ _ _ _ -> -> _ _ _].
      destruct (undoIndex s =? 0) eqn:E; [apply Z.eqb_eq in E; lia|]. cbn.
      rewrite slice0_firstn by lia. f_equal. lia. }
    repeat split; [done|done|].
    unfold canRedo. by rewrite Hidx.
Qed.

  (** C9. Shallow selection store while transacting: while the
      transaction loop of [change] runs ([transacting] is true, on a
      surface that passed the enabled guard of the call),
      [setSelection( sel )] stores [sel] in [selection] and clears
      [translatedSelection]; every other field, among them [branchNodes],
      [selectedNode], [insertionAnnotations], [selectedAnnotations] and
      [isCollapsed], keeps its value and no event is emitted. *)
Theorem setSelection_transacting_store_only (sel : Selection) (s : t) :
    transacting s = true ->
    enabled s = true ->
    let s' := setSelection sel s in
    s' = set_selection sel (set_translatedSelection None s)
    /\ selection s' = sel
    /\ translatedSelection s' = None
    /\ branchNodes s' = branchNodes s
    /\ selectedNode s' = selectedNode s
    /\ insertionAnnotations s' = insertionAnnotations s
    /\ selectedAnnotations s' = selectedAnnotations s
    /\ isCollapsed s' = isCollapsed s
    /\ sets s' = sets s
    /\ events s' = events s.
Proof.
    intros Ht He s'. subst s'. unfold setSelection.
    rewrite He. cbn [negb transacting set_translatedSelection].
    rewrite Ht. repeat split.
Qed.

  (** Inside [changeInternal], every commit of the transaction loop
      finds the surface enabled and transacting, so the selection update
      a commit pushes is the store-only one. *)
Lemma changeLoop_runs_transacting skip sb txs cc s :
    enabled s = true -> transacting s = true ->
    let r := changeLoop skip sb txs (cc, s) in
    enabled (snd r) = true /\ transacting (snd r) = true.
Proof.
    intros He Ht.
    destruct (changeLoop_document skip sb txs cc s He Ht) as (? & ? & _). done.
Qed.

Lemma breakpoint_frame s :
    let s' := snd (breakpoint s) in
    documentModel s' = documentModel s /\ enabled s' = enabled s
    /\ stagingStack s' = stagingStack s /\ events s' = events s.
Proof.
    unfold breakpoint, resetHistoryTrackingInterval, startHistoryTracking,
      stopHistoryTracking.
    destruct (enabled s) eqn:He; cbn; [|done].
    split_conditions; cbn in *; try done; congruence.
Qed.

Lemma pushStaging_spec allowUndo s :
    let s' := pushStaging allowUndo s in
    stagingStack s' = stagingStack s ++ [mkStaging [] NullSelection allowUndo]
    /\ documentModel s' = documentModel s
    /\ enabled s' = enabled s
    /\ documentUpdates (events s') = documentUpdates (events s).
Proof.
    unfold pushStaging.
    destruct (negb (isStaging s)); cbn; [|done].
    destruct (breakpoint_frame s) as (Hd & He & Hs & Hev).
    unfold stopHistoryTracking.
    split_conditions; cbn; rewrite ?Hd, ?He, ?Hs, ?Hev, ?documentUpdates_app;
      cbn; rewrite ?app_nil_r; done.
Qed.

  (** A call of [change] while staging: the effective transactions are
      committed and join the top frame. *)
Lemma change_staging txs sel s st f :
    enabled s = true ->
    stagingStack s = st ++ [f] ->
    let s' := change txs sel s in
    let new := effective (default [] txs) in
    enabled s' = true
    /\ documentModel s' = commits new (documentModel s)
    /\ documentUpdates (events s') = documentUpdates (events s) ++ new
    /\ exists sb',
         stagingStack s' = st ++ [mkStaging (st_transactions f ++ new) sb' (st_allowUndo f)].
Proof.
    intros He Hst. destruct txs as [txs|]; cbn [default].
    - pose proof (changeInternal_after_loop txs sel false s He) as Hpast.
      pose proof (startQueueingContextChanges_same_past s) as Hq.
      set (s0 := set_transacting true (startQueueingContextChanges s)) in *.
      assert (He0 : enabled s0 = true) by (cbn; rewrite (sp_enabled _ _ Hq); done).
      assert (Hst0 : stagingStack s0 = st ++ [f])
        by (cbn; rewrite (sp_stagingStack _ _ Hq); done).
      destruct (changeLoop_document false (selection s) txs false s0 He0 eq_refl)
        as (He1 & _ & Hd1 & Hev1).
      destruct (changeLoop_staging (selection s) txs false s0 st f He0 eq_refl Hst0)
        as [sb' Hs1].
      destruct Hpast as [Hd _ _ Hs _ _ _ Hen Hev].
      cbn zeta. unfold change.
      rewrite Hen, Hd, Hev, Hs, He1, Hd1, Hev1, Hs1.
      subst s0; cbn.
      rewrite (sp_documentModel _ _ Hq), (sp_documentUpdates _ _ Hq).
      repeat split; eauto.
    - destruct (changeInternal_no_transactions sel false s) as [Hd _ _ Hs _ _ _ Hen Hev].
      cbn zeta. unfold change, effective; cbn [List.filter commits fold_left].
      rewrite Hen, Hd, Hev, Hs, !app_nil_r, Hst.
      repeat split; try done. exists (st_selectionBefore f). by destruct f.
Qed.

Lemma changes_staging calls : forall s st f,
    enabled s = true ->
    stagingStack s = st ++ [f] ->
    let s' := changes calls s in
    let new := effective (submitted calls) in
    enabled s' = true
    /\ documentModel s' = commits new (documentModel s)
    /\ documentUpdates (events s') = documentUpdates (events s) ++ new
    /\ exists sb',
         stagingStack s' = st ++ [mkStaging (st_transactions f ++ new) sb' (st_allowUndo f)].
Proof.
    induction calls as [|[txs sel] calls IH]; intros s st f He Hst.
    - cbn. rewrite !app_nil_r. repeat split; try done.
      exists (st_selectionBefore f). by destruct f.
    - destruct (change_staging txs sel s st f He Hst) as (He1 & Hd1 & Hev1 & sb1 & Hs1).
      destruct (IH _ _ _ He1 Hs1) as (He2 & Hd2 & Hev2 & sb2 & Hs2).
      unfold changes, submitted in *. cbn [fold_left map concat fst snd] in *.
      rewrite effective_app, commits_app.
      cbn zeta. rewrite He2, Hd2, Hev2, Hs2, Hd1, Hev1. cbn.
      rewrite <- !app_assoc. repeat split; eauto.
Qed.

Lemma commits_snoc txs tx d :
    commits (txs ++ [tx]) d = applyTransaction tx (commits txs d).
Proof. by rewrite commits_app. Qed.

Lemma commits_reversed txs :
    (forall tx d, applyTransaction (reversed tx) (applyTransaction tx d) = d) ->
    forall d, commits (map reversed (rev txs)) (commits txs d) = d.
Proof.
    intros Hrev. induction txs as [|tx txs IH]; intros d; [done|].
    cbn [rev]. rewrite map_app. cbn [map].
    rewrite commits_snoc. cbn [commits fold_left].
    fold (commits txs (applyTransaction tx d)).
    by rewrite IH, Hrev.
Qed.

  (** C1. Staging round-trip: on an enabled surface, [pushStaging()],
      any sequence of calls of [change], then [popStaging()]: the pop
      returns the transactions the frame recorded (those that are not
      no-ops, in order), removes the frame, commits their [reversed()]
      forms in reverse order and, when committing [reversed(t)] after [t]
      restores the document, leaves the document's content as it was
      before [pushStaging()]. A reversed form is committed only if it is
      not itself a no-op, which is assumed of the reverse of a
      transaction that is not one. *)
Theorem staging_round_trip
      (allowUndo : bool)
      (calls : list (option (list Transaction) * option Selection)) (s0 : t) :
    (forall tx d, applyTransaction (reversed tx) (applyTransaction tx d) = d) ->
    (forall tx, isNoOp tx = false -> isNoOp (reversed tx) = false) ->
    enabled s0 = true ->
    let s1 := pushStaging allowUndo s0 in
    let s2 := changes calls s1 in
    let recorded := effective (submitted calls) in
    let r := popStaging s2 in
    fst r = Some recorded
    /\ stagingStack (snd r) = stagingStack s0
    /\ documentUpdates (events (snd r))
       = documentUpdates (events s2) ++ map reversed (rev recorded)
    /\ documentModel s2 = commits recorded (documentModel s0)
    /\ documentModel (snd r) = documentModel s0.
Proof.
    intros Hrev Hnoop He0 s1 s2 recorded r.
    destruct (pushStaging_spec allowUndo s0) as (Hs1 & Hd1 & He1 & _).
    fold s1 in Hs1, Hd1, He1. rewrite He0 in He1.
    destruct (changes_staging calls s1 _ _ He1 Hs1) as (He2 & Hd2 & _ & sb2 & Hs2).
    fold s2 in He2, Hd2, Hs2. cbn [st_transactions st_allowUndo app] in Hs2.
    fold recorded in Hd2, Hs2.
    subst r. unfold popStaging.
    rewrite (isStaging_snoc _ _ _ Hs2). cbn [negb].
    rewrite Hs2, top_snoc, popped_snoc. cbn [st_transactions].
    set (s3 := set_stagingStack (stagingStack s0) s2).
    set (back := map reversed (rev recorded)).
    assert (Heff : effective back = back).
    { apply effective_all. intros tx Hin. subst back.
      apply in_map_iff in Hin as (tx0 & <- & Hin0).
      apply Hnoop. apply (effective_nonNoOp (submitted calls)).
      by apply in_rev. }
    assert (He3 : enabled s3 = true) by done.
    pose proof (changeInternal_after_loop back None true s3 He3) as Hpast.
    pose proof (startQueueingContextChanges_same_past s3) as Hq.
    set (s4 := set_transacting true (startQueueingContextChanges s3)) in *.
    assert (He4 : enabled s4 = true) by (cbn; rewrite (sp_enabled _ _ Hq); done).
    destruct (changeLoop_document true (selection s3) back false s4 He4 eq_refl)
      as (_ & _ & Hd5 & Hev5).
    pose proof (changeLoop_skipping (selection s3) back false s4 He4 eq_refl) as Hs5.
    destruct Hpast as [Hd _ _ Hs _ _ _ _ Hev].
    set (s6 := changeInternal (Some back) None true s3) in *.
    assert (Hfin : forall s7,
               s7 = (if negb (isStaging s6)
                     then emit EvHistory (startHistoryTracking s6) else s6) ->
               stagingStack s7 = stagingStack s6
               /\ documentModel s7 = documentModel s6
               /\ documentUpdates (events s7) = documentUpdates (events s6)).
    { intros s7 ->. unfold startHistoryTracking.
      split_conditions; cbn; rewrite ?documentUpdates_app; cbn;
        rewrite ?app_nil_r; done. }
    destruct (Hfin _ eq_refl) as (Hs7 & Hd7 & Hev7).
    cbn [fst snd]. rewrite Hs7, Hd7, Hev7, Hs, Hd, Hev, Hs5, Hd5, Hev5, Heff.
    subst s4; cbn.
    rewrite (sp_documentModel _ _ Hq), (sp_documentUpdates _ _ Hq),
      (sp_stagingStack _ _ Hq).
    subst s3; cbn. rewrite Hd2, Hd1.
    repeat split; try done.
    subst back. by apply commits_reversed.
Qed.

  (** X29. The methods that test the enabled flag do nothing on a
      disabled surface: [change]/[changeInternal], [setSelection],
      [setInsertionAnnotations], [addInsertionAnnotations],
      [removeInsertionAnnotations], [breakpoint], [undo] and [redo]
      return the surface as it is, every field and the event log, and
      do not throw. *)
Theorem disabled_surface_gated_methods_inert (s : t) :
    enabled s = false ->
    (forall txs sel skip, changeInternal txs sel skip s = s)
    /\ (forall txs sel, change txs sel s = s)
    /\ (forall sel, setSelection sel s = s)
    /\ (forall a, setInsertionAnnotations a s = s)
    /\ (forall a, addInsertionAnnotations a s = Done s)
    /\ (forall a, removeInsertionAnnotations a s = Done s)
    /\ breakpoint s = (false, s)
    /\ undo s = s
    /\ redo s = s.
Proof.
    intros He.
    repeat split; intros.
    - by apply changeInternal_disabled.
    - by apply changeInternal_disabled.
    - unfold setSelection. by rewrite He.
    - unfold setInsertionAnnotations. by rewrite He.
    - unfold addInsertionAnnotations. by rewrite He.
    - unfold removeInsertionAnnotations. by rewrite He.
    - unfold breakpoint. by rewrite He.
    - unfold undo, canUndo. rewrite He.
      by rewrite andb_false_r.
    - unfold redo, canRedo. rewrite He. by rewrite andb_false_r.
Qed.

Lemma deref_alloc_old v s r :
    (r < length (sets s))%nat -> deref (snd (alloc v s)) r = deref s r.
Proof.
    intros Hr. unfold deref, alloc; cbn. by rewrite lookup_app_l.
Qed.

Lemma deref_alloc_new v s : deref (snd (alloc v s)) (fst (alloc v s)) = v.
Proof.
    unfold deref, alloc; cbn.
    rewrite lookup_app_r by lia. by rewrite Nat.sub_diag.
Qed.

Lemma deref_mutate_other r v s r' : r <> r' -> deref (mutate r v s) r' = deref s r'.
Proof.
    intros Hne. unfold deref, mutate; cbn. by rewrite list_lookup_insert_ne.
Qed.

  (** C10. Insertion-annotation isolation: [getInsertionAnnotations()]
      returns a clone, so after any mutation of the returned set the
      surface's insertion annotations, and what a second call returns,
      are the original set; and on an enabled surface
      [setInsertionAnnotations( a )] stores a clone of [a], so a later
      mutation of [a] does not reach the surface. References are to
      objects that exist. *)
Theorem insertion_annotations_isolated (s : t) :
    (insertionAnnotations s < length (sets s))%nat ->
    (forall v,
        let r := fst (getInsertionAnnotations s) in
        let s1 := snd (getInsertionAnnotations s) in
        let s2 := mutate r v s1 in
        let r' := fst (getInsertionAnnotations s2) in
        let s3 := snd (getInsertionAnnotations s2) in
        r <> insertionAnnotations s
        /\ deref s1 r = deref s (insertionAnnotations s)
        /\ deref s2 (insertionAnnotations s2) = deref s (insertionAnnotations s)
        /\ deref s3 r' = deref s (insertionAnnotations s))
    /\ (forall a v,
           enabled s = true ->
           (a < length (sets s))%nat ->
           let s1 := setInsertionAnnotations (Some a) s in
           let s2 := mutate a v s1 in
           insertionAnnotations s1 <> a
           /\ deref s1 (insertionAnnotations s1) = deref s a
           /\ deref s2 (insertionAnnotations s2) = deref s a).
Proof.
    intros Hvalid. split.
    - intros v r s1 s2 r' s3.
      assert (Hr : r = length (sets s)) by done.
      assert (Hne : r <> insertionAnnotations s) by lia.
      assert (H1 : deref s1 r = deref s (insertionAnnotations s))
        by apply deref_alloc_new.
      assert (H2 : deref s2 (insertionAnnotations s2) = deref s (insertionAnnotations s)).
      { subst s2. change (insertionAnnotations (mutate r v s1)) with (insertionAnnotations s).
        rewrite deref_mutate_other by done. by apply deref_alloc_old. }
      repeat split; try done.
      subst r' s3. unfold getInsertionAnnotations at 1 2.
      by rewrite deref_alloc_new.
    - intros a v He Ha s1 s2.
      assert (Hi : insertionAnnotations s1 = length (sets s)).
      { subst s1. unfold setInsertionAnnotations. by rewrite He. }
      assert (H1 : deref s1 (insertionAnnotations s1) = deref s a).
      { rewrite Hi. subst s1. unfold setInsertionAnnotations. rewrite He. cbn.
        unfold deref; cbn. rewrite lookup_app_r by lia. by rewrite Nat.sub_diag. }
      repeat split; [lia | done |].
      subst s2. change (insertionAnnotations (mutate a v s1)) with (insertionAnnotations s1).
      rewrite deref_mutate_other by lia. done.
Qed.

Lemma walkDown_spec (covers : Z -> bool) (n : nat) : forall start,
    (Z.to_nat start <= n)%nat ->
    let r := walkDown covers n start in
    r <= start
    /\ (forall o, r <= o < start -> covers o = true)
    /\ (r <= 0 \/ covers (r - 1) = false).
Proof.
    induction n as [|n IH]; intros start Hn; cbn [walkDown].
    - repeat split; [lia | intros; lia | left; lia].
    - destruct (0 <? start) eqn:Hpos; cbn [andb].
      + apply Z.ltb_lt in Hpos.
        destruct (covers (start - 1)) eqn:Hc.
        * destruct (IH (start - 1)) as (Hle & Hcov & Hstop); [lia|].
          repeat split; [lia | | done].
          intros o Ho. destruct (Z.eq_dec o (start - 1)) as [->|]; [done|].
          apply Hcov. lia.
        * repeat split; [lia | intros; lia | by right].
      + apply Z.ltb_ge in Hpos.
        repeat split; [lia | intros; lia | left; lia].
Qed.

Lemma walkUp_spec (covers : Z -> bool) (len : Z) (n : nat) : forall e,
    (Z.to_nat (len - e) <= n)%nat ->
    let r := walkUp covers len n e in
    e <= r
    /\ (forall o, e <= o < r -> covers o = true)
    /\ (len <= r \/ covers r = false).
Proof.
    induction n as [|n IH]; intros e Hn; cbn [walkUp].
    - repeat split; [lia | intros; lia | left; lia].
    - destruct (e <? len) eqn:Hlt; cbn [andb].
      + apply Z.ltb_lt in Hlt.
        destruct (covers e) eqn:Hc.
        * destruct (IH (e + 1)) as (Hle & Hcov & Hstop); [lia|].
          repeat split; [lia | | done].
          intros o Ho. destruct (Z.eq_dec o e) as [->|]; [done|].
          apply Hcov. lia.
        * repeat split; [lia | intros; lia | by right].
      + apply Z.ltb_ge in Hlt.
        repeat split; [lia | intros; lia | left; lia].
Qed.

  (** What [fixupRangeForLinks] does to a range that is not collapsed:
      an end with a link that is not among the annotations across the
      range moves outward over the offsets that link covers, as far as it
      goes; an end without one stays; the direction of the range is
      kept. *)
Lemma fixupRangeForLinks_walks (range : Range.t) (s : t) :
    Range.isCollapsed range = false ->
    let d := documentModel s in
    let r' := fixupRangeForLinks range s in
    Range.isBackwards r' = Range.isBackwards range
    /\ match uncoveredLink d range (Range.start range) with
       | None => Range.start r' = Range.start range
       | Some l =>
           Range.start r' <= Range.start range
           /\ (forall o, Range.start r' <= o < Range.start range -> linkAt d l o = true)
           /\ (Range.start r' <= 0 \/ linkAt d l (Range.start r' - 1) = false)
       end
    /\ match uncoveredLink d range (Range.end_ range) with
       | None => Range.end_ r' = Range.end_ range
       | Some l =>
           Range.end_ range <= Range.end_ r'
           /\ (forall o, Range.end_ range <= o < Range.end_ r' -> linkAt d l o = true)
           /\ (getLength d <= Range.end_ r' \/ linkAt d l (Range.end_ r') = false)
       end.
Proof.
    intros Hnc d r'. subst r'. unfold fixupRangeForLinks. rewrite Hnc.
    fold d. fold (uncoveredLink d range (Range.start range)).
    fold (uncoveredLink d range (Range.end_ range)).
    assert (Hlt : Range.start range < Range.end_ range).
    { unfold Range.isCollapsed in Hnc. apply Z.eqb_neq in Hnc.
      unfold Range.start, Range.end_. lia. }
    set (st' := match uncoveredLink d range (Range.start range) with
                | Some l => walkDown (fun o => AnnotationSet.containsIndex (getLinks d o) l)
                              (Z.to_nat (Range.start range)) (Range.start range)
                | None => Range.start range end).
    set (en' := match uncoveredLink d range (Range.end_ range) with
                | Some l => walkUp (fun o => AnnotationSet.containsIndex (getLinks d o) l)
                              (getLength d) (Z.to_nat (getLength d - Range.end_ range))
                              (Range.end_ range)
                | None => Range.end_ range end).
    assert (Hst : match uncoveredLink d range (Range.start range) with
       | None => st' = Range.start range
       | Some l =>
           st' <= Range.start range
           /\ (forall o, st' <= o < Range.start range -> linkAt d l o = true)
           /\ (st' <= 0 \/ linkAt d l (st' - 1) = false)
       end).
    { subst st'. destruct (uncoveredLink d range (Range.start range)); [|done].
      apply (walkDown_spec (fun o => AnnotationSet.containsIndex (getLinks d o) n)). lia. }
    assert (Hen : match uncoveredLink d range (Range.end_ range) with
       | None => en' = Range.end_ range
       | Some l =>
           Range.end_ range <= en'
           /\ (forall o, Range.end_ range <= o < en' -> linkAt d l o = true)
           /\ (getLength d <= en' \/ linkAt d l en' = false)
       end).
    { subst en'. destruct (uncoveredLink d range (Range.end_ range)); [|done].
      apply (walkUp_spec (fun o => AnnotationSet.containsIndex (getLinks d o) n)). lia. }
    assert (Hle1 : st' <= Range.start range).
    { destruct (uncoveredLink d range (Range.start range)); lia. }
    assert (Hle2 : Range.end_ range <= en').
    { destruct (uncoveredLink d range (Range.end_ range)); lia. }
    assert (Hres :
      (if Range.isBackwards range then Range.mk en' st' else Range.mk st' en')
      = match uncoveredLink d range (Range.start range),
              uncoveredLink d range (Range.end_ range) with
        | None, None => range
        | _, _ => if Range.isBackwards range then Range.mk en' st' else Range.mk st' en'
        end).
    { destruct (uncoveredLink d range (Range.start range)) eqn:E1; [done|].
      destruct (uncoveredLink d range (Range.end_ range)) eqn:E2; [done|].
      subst st' en'. destruct range as [f t].
      unfold Range.isBackwards, Range.start, Range.end_ in *; cbn in *.
      destruct (t <? f) eqn:E; [apply Z.ltb_lt in E | apply Z.ltb_ge in E];
        f_equal; lia. }
    fold st' en'. rewrite <- Hres.
    assert (Hs' : Range.start
                    (if Range.isBackwards range then Range.mk en' st' else Range.mk st' en')
                  = st').
    { destruct (Range.isBackwards range); unfold Range.start; cbn; lia. }
    assert (He' : Range.end_
                    (if Range.isBackwards range then Range.mk en' st' else Range.mk st' en')
                  = en').
    { destruct (Range.isBackwards range); unfold Range.end_; cbn; lia. }
    rewrite Hs', He'. repeat split; try done.
    destruct (Range.isBackwards range) eqn:Hb; unfold Range.isBackwards in *; cbn.
    - apply Z.ltb_lt. lia.
    - apply Z.ltb_ge. lia.
Qed.

End Claims.

(** *** The properties on the small document model *)

Import Toy.

Lemma toy_shift_back (tx : Z) (d : list Toy.Slot) :
  Toy.shift (- tx) (Toy.shift tx d) = d.
Proof.
  unfold Toy.shift.
  induction d as [|[c a] d IH]; cbn; [done|].
  rewrite IH. do 2 f_equal. lia.
Qed.

Lemma toy_reverse_not_noop (tx : Z) : (tx =? 0) = false -> (- tx =? 0) = false.
Proof. intros Hn. apply Z.eqb_neq in Hn. apply Z.eqb_neq. lia. Qed.

Lemma staging_round_trip_witness :
  let s1 := pushStaging false (Toy.fresh Toy.styled) in
  let s2 := changes [(Some [1; 0; 2], None); (None, Some NullSelection)] s1 in
  fst (popStaging s2) = Some [1; 2]
  /\ stagingStack (snd (popStaging s2)) = []
  /\ documentUpdates (events (snd (popStaging s2)))
     = documentUpdates (events s2) ++ [-2; -1]
  /\ documentModel s2 = [(100, [1%nat]); (101, [1%nat])]
  /\ documentModel (snd (popStaging s2)) = Toy.styled.
Proof.
  exact (staging_round_trip (H:=Toy.collaborators) false
           [(Some [1; 0; 2], None); (None, Some NullSelection)]
           (Toy.fresh Toy.styled) toy_shift_back toy_reverse_not_noop eq_refl).
Defined.

Lemma change_truncates_redo_history_witness :
  undoStack (change (Some [0; 5]) None Toy.undone)
  = [mkUndoItem [1] NullSelection NullSelection]
  /\ undoIndex (change (Some [0; 5]) None Toy.undone) = 0
  /\ canRedo (change (Some [0; 5]) None Toy.undone) = false.
Proof.
  apply (change_truncates_redo_history (H:=Toy.collaborators)
           [0; 5] None Toy.undone).
  - reflexivity.
  - reflexivity.
  - cbn. lia.
  - reflexivity.
Defined.

Lemma setSelection_transacting_store_only_witness :
  let sel := LinearSelection (Range.mk 1 2) in
  let s' := setSelection sel Toy.midTransaction in
  s' = set_selection sel (set_translatedSelection None Toy.midTransaction)
  /\ selection s' = sel
  /\ translatedSelection s' = None
  /\ branchNodes s' = branchNodes Toy.midTransaction
  /\ selectedNode s' = selectedNode Toy.midTransaction
  /\ insertionAnnotations s' = insertionAnnotations Toy.midTransaction
  /\ selectedAnnotations s' = selectedAnnotations Toy.midTransaction
  /\ isCollapsed s' = isCollapsed Toy.midTransaction
  /\ sets s' = sets Toy.midTransaction
  /\ events s' = events Toy.midTransaction.
Proof.
  apply (setSelection_transacting_store_only (H:=Toy.collaborators)
           (LinearSelection (Range.mk 1 2)) Toy.midTransaction); reflexivity.
Defined.

(** C7, evaluated: the staging methods do not test the enabled flag.
    On a disabled surface [pushStaging] pushes a frame and emits
    [history].  On a surface that was disabled while staging,
    [popStaging] takes the frame off, emits [history] and returns the
    staged transactions, but the rollback it asks of [changeInternal]
    returns at the guard there: the document stays as the staged
    transaction left it, where the same call on the surface enabled
    again restores it.  On a surface that was disabled while a
    transaction was waiting for its checkpoint, the breakpoint of
    [pushStaging] does nothing and [applyStaging] then overwrites the
    waiting transaction: it is gone from the history, where on the
    surface enabled again it becomes a checkpoint. *)
Lemma staging_methods_act_on_disabled_surface :
  (enabled Toy.disabled = false
   /\ stagingStack Toy.disabled = []
   /\ stagingStack (pushStaging false Toy.disabled)
      = [mkStaging [] NullSelection false]
   /\ events (pushStaging false Toy.disabled) = events Toy.disabled ++ [EvHistory]
   /\ pushStaging false Toy.disabled <> Toy.disabled)
  /\ (enabled Toy.disabledStaging = false
      /\ documentModel Toy.disabledStaging = Toy.shift 3 Toy.styled
      /\ popStaging Toy.disabledStaging
         = (Some [3], emit EvHistory (set_stagingStack [] Toy.disabledStaging))
      /\ documentModel (snd (popStaging (enable Toy.disabledStaging))) = Toy.styled)
  /\ (enabled Toy.disabledPending = false
      /\ getHistory Toy.disabledPending = [[3]]
      /\ getHistory (applyStaging (pushStaging false Toy.disabledPending)) = []
      /\ documentModel (applyStaging (pushStaging false Toy.disabledPending))
         = Toy.shift 3 Toy.styled
      /\ getHistory (applyStaging (pushStaging false (enable Toy.disabledPending)))
         = [[3]]).
Proof.
  repeat split; try reflexivity.
  intros Heq. apply (f_equal stagingStack) in Heq. discriminate Heq.
Qed.

Lemma disabled_surface_gated_methods_inert_witness :
  change (Some [3]) (Some (LinearSelection (Range.mk 1 1))) Toy.disabled = Toy.disabled
  /\ setSelection (LinearSelection (Range.mk 1 1)) Toy.disabled = Toy.disabled
  /\ addInsertionAnnotations ArgOther Toy.disabled = Done Toy.disabled
  /\ undo Toy.disabled = Toy.disabled.
Proof.
  pose proof (disabled_surface_gated_methods_inert (H:=Toy.collaborators) Toy.disabled eq_refl)
    as (_ & Hchange & Hsel & _ & Hadd & _ & _ & Hundo & _).
  split; [apply Hchange | split; [apply Hsel | split; [apply Hadd | apply Hundo]]].
Defined.

Lemma insertion_annotations_isolated_witness :
  let s := Toy.fresh Toy.styled in
  let s1 := snd (getInsertionAnnotations s) in
  let s2 := mutate (fst (getInsertionAnnotations s)) [7%nat] s1 in
  deref s2 (insertionAnnotations s2) = []
  /\ deref (snd (getInsertionAnnotations s2)) (fst (getInsertionAnnotations s2)) = []
  /\ deref (mutate 0 [7%nat] (setInsertionAnnotations (Some 0%nat) s))
       (insertionAnnotations (mutate 0 [7%nat] (setInsertionAnnotations (Some 0%nat) s)))
     = [].
Proof.
  assert (Hvalid : (insertionAnnotations (Toy.fresh Toy.styled)
                    < length (sets (Toy.fresh Toy.styled)))%nat) by (cbn; lia).
  pose proof (insertion_annotations_isolated (H:=Toy.collaborators)
                (Toy.fresh Toy.styled) Hvalid)
    as (Hget & Hset).
  destruct (Hget [7%nat]) as (_ & _ & H2 & H3).
  assert (Ha : (0 < length (sets (Toy.fresh Toy.styled)))%nat) by (cbn; lia).
  destruct (Hset 0%nat [7%nat] eq_refl Ha) as (_ & _ & H5).
  split; [exact H2 | split; [exact H3 | exact H5]].
Defined.

(** C3, evaluated: a call of [change] that moves the selection from
    none into styled text emits [contextChange] twice, once from
    [setInsertionAnnotations], at once, and once when the queue is
    flushed. *)
Lemma change_emits_contextChange_twice :
  events (change None (Some (LinearSelection (Range.mk 2 2))) (Toy.fresh Toy.styled))
  = [EvInsertionAnnotationsChange 2; EvContextChange;
     EvSelect (LinearSelection (Range.mk 2 2)); EvFocus; EvContextChange]
  /\ contextChanges
       (events (change None (Some (LinearSelection (Range.mk 2 2)))
                  (Toy.fresh Toy.styled))) = 2%nat.
Proof. split; reflexivity. Qed.

(** C6, as stated, fails on its example: with a link on offsets 5 to 9,
    the range from 7 to 8 lies inside the link, the link is among the
    annotations across the range, and the range comes back as it is. *)
Lemma fixupRangeForLinks_inside_link_unchanged :
  fixupRangeForLinks (Range.mk 7 8) (Toy.fresh Toy.linked) = Range.mk 7 8
  /\ fixupRangeForLinks (Range.mk 7 8) (Toy.fresh Toy.linked) <> Range.mk 5 10.
Proof. split; [reflexivity | discriminate]. Qed.

(** C6 (amended). For a range that is not collapsed, an end whose
    offset carries a link that is not among the annotations across the
    whole range is walked outward one offset at a time while that link
    covers the adjacent offset, and stops where it no longer does or at
    the edge of the data; an end without such a link stays, and so does
    the direction. With a link on offsets 5 to 9: the range from 7 to 8,
    inside the link, is returned as it is; the range from 3 to 8 becomes
    3 to 10, and the range from 7 to 12 becomes 5 to 12. *)
Theorem fixupRangeForLinks_grows_partly_covered_ends :
  (forall (C : Collaborators) (O : SelectionOps) (range : Range.t) (s : t),
      Range.isCollapsed range = false ->
      let d := documentModel s in
      let r' := fixupRangeForLinks range s in
      Range.isBackwards r' = Range.isBackwards range
      /\ match uncoveredLink d range (Range.start range) with
         | None => Range.start r' = Range.start range
         | Some l =>
             Range.start r' <= Range.start range
             /\ (forall o, Range.start r' <= o < Range.start range -> linkAt d l o = true)
             /\ (Range.start r' <= 0 \/ linkAt d l (Range.start r' - 1) = false)
         end
      /\ match uncoveredLink d range (Range.end_ range) with
         | None => Range.end_ r' = Range.end_ range
         | Some l =>
             Range.end_ range <= Range.end_ r'
             /\ (forall o, Range.end_ range <= o < Range.end_ r' -> linkAt d l o = true)
             /\ (getLength d <= Range.end_ r' \/ linkAt d l (Range.end_ r') = false)
         end)
  /\ fixupRangeForLinks (Range.mk 7 8) (Toy.fresh Toy.linked) = Range.mk 7 8
  /\ fixupRangeForLinks (Range.mk 3 8) (Toy.fresh Toy.linked) = Range.mk 3 10
  /\ fixupRangeForLinks (Range.mk 7 12) (Toy.fresh Toy.linked) = Range.mk 5 12.
Proof.
  split; [|repeat split].
  intros C O range s Hnc. by apply fixupRangeForLinks_walks.
Qed.

Lemma fixupRangeForLinks_grows_partly_covered_ends_witness :
  let d := Toy.linked in
  let r' := fixupRangeForLinks (Range.mk 8 3) (Toy.fresh Toy.linked) in
  Range.isBackwards r' = true
  /\ Range.start r' = 3
  /\ (8 <= Range.end_ r'
      /\ (forall o, 8 <= o < Range.end_ r' -> linkAt d 0%nat o = true)
      /\ (12 <= Range.end_ r' \/ linkAt d 0%nat (Range.end_ r') = false)).
Proof.
  exact (proj1 fixupRangeForLinks_grows_partly_covered_ends
           Toy.collaborators Toy.selectionOps (Range.mk 8 3) (Toy.fresh Toy.linked)
           eq_refl).
Defined.

(** ** Further properties of the surface *)

Section More.

Context `{SelectionOps}.

Lemma same_undo_refl s : same_undo s s.
Proof. by constructor. Qed.

Lemma same_undo_trans s1 s2 s3 :
    same_undo s1 s2 -> same_undo s2 s3 -> same_undo s1 s3.
Proof. intros [] []; constructor; congruence. Qed.

Lemma same_past_undo s s' : same_past s s' -> same_undo s s'.
Proof. intros []; by constructor. Qed.

Lemma historyOk_same_undo s s' : same_undo s s' -> historyOk s -> historyOk s'.
Proof. intros [Hs Hi Hn _]. unfold historyOk. by rewrite Hs, Hi, Hn. Qed.

Lemma getHistory_same_undo s s' : same_undo s s' -> getHistory s' = getHistory s.
Proof. intros [Hs Hi Hn _]. unfold getHistory. by rewrite Hs, Hi, Hn. Qed.

  (** The transaction loop that skips the undo stack leaves the
      history and the staging stack alone. *)
Lemma changeLoop_skipping_undo sb txs : forall cc s,
    enabled s = true -> transacting s = true ->
    same_undo s (snd (changeLoop true sb txs (cc, s))).
Proof.
    induction txs as [|tx txs IH]; intros cc s He Ht; [apply same_undo_refl|].
    rewrite changeLoop_cons.
    destruct (isNoOp tx) eqn:Hn.
    - rewrite changeStep_noop by done. by apply IH.
    - unfold changeStep. rewrite Hn. cbn [negb].
      rewrite commit_transacting by done.
      match goal with |- context [changeLoop _ _ _ (?c, ?s1)] =>
        eapply same_undo_trans; [|apply (IH c s1); done] end.
      by constructor.
Qed.

Lemma changeInternal_skipping_undo txs sel s :
    same_undo s (changeInternal txs sel true s).
Proof.
    destruct (enabled s) eqn:He;
      [|rewrite changeInternal_disabled by done; apply same_undo_refl].
    destruct txs as [txs|];
      [|apply same_past_undo, changeInternal_no_transactions].
    eapply same_undo_trans;
      [|apply same_past_undo, changeInternal_after_loop; done].
    eapply same_undo_trans; [|apply changeLoop_skipping_undo].
    - unfold startQueueingContextChanges. destruct (negb _); by constructor.
    - unfold startQueueingContextChanges. by destruct (negb _).
    - done.
Qed.

Lemma changeInternal_skipping_staging txs sel s :
    stagingStack (changeInternal txs sel true s) = stagingStack s.
Proof.
    destruct (enabled s) eqn:He; [|by rewrite changeInternal_disabled].
    destruct txs as [txs|];
      [|by destruct (changeInternal_no_transactions sel true s)].
    destruct (changeInternal_after_loop txs sel true s He) as [_ _ _ -> _ _ _ _ _].
    rewrite changeLoop_skipping; [| |done].
    - unfold startQueueingContextChanges. by destruct (negb _).
    - unfold startQueueingContextChanges. by destruct (negb _).
Qed.

  (** What [breakpoint] does to the history. *)
Lemma breakpoint_undo s :
    let s' := snd (breakpoint s) in
    enabled s' = enabled s
    /\ undoIndex s' = undoIndex s
    /\ if enabled s
       then newTransactions s' = []
            /\ map ui_transactions (undoStack s')
               = map ui_transactions (undoStack s)
                 ++ match newTransactions s with [] => [] | txs => [txs] end
       else newTransactions s' = newTransactions s /\ undoStack s' = undoStack s.
Proof.
    unfold breakpoint, resetHistoryTrackingInterval, startHistoryTracking,
      stopHistoryTracking.
    destruct (enabled s) eqn:He; cbn [negb]; [|by cbn].
    destruct (newTransactions s) as [|tx txs] eqn:Hnt.
    - split_conditions; cbn in *; rewrite ?He, ?Hnt, ?app_nil_r; try done;
        cbn in *; rewrite ?Hnt in *; cbn in *; try done.
    - split_conditions; cbn in *; rewrite ?He, ?Hnt, ?map_app in *; cbn in *; try done;
        rewrite ?Hnt in *; cbn in *; try done.
Qed.

Lemma startHistoryTracking_undo s : same_undo s (startHistoryTracking s).
Proof. unfold startHistoryTracking. split_conditions; by constructor. Qed.

Lemma stopHistoryTracking_undo s : same_undo s (stopHistoryTracking s).
Proof. unfold stopHistoryTracking. split_conditions; by constructor. Qed.

  (** What a call of [changeInternal] that skips the undo stack does to
      the document. *)
Lemma changeInternal_skipping_document txs sel s :
    enabled s = true ->
    documentModel (changeInternal (Some txs) sel true s)
    = commits (effective txs) (documentModel s)
    /\ documentUpdates (events (changeInternal (Some txs) sel true s))
       = documentUpdates (events s) ++ effective txs.
Proof.
    intros He.
    destruct (changeInternal_after_loop txs sel true s He) as [-> _ _ _ _ _ _ _ ->].
    match goal with |- context [changeLoop _ _ _ (?c, ?s1)] =>
      destruct (changeLoop_document true (selection s) txs c s1)
        as (_ & _ & -> & ->) end.
    - unfold startQueueingContextChanges. by destruct (negb _).
    - unfold startQueueingContextChanges. by destruct (negb _).
    - unfold startQueueingContextChanges. by destruct (negb _).
Qed.

  (** [popStaging] with a frame on the stack. *)
Lemma popStaging_frame s st f :
    stagingStack s = st ++ [f] ->
    let r := popStaging s in
    fst r = Some (st_transactions f)
    /\ stagingStack (snd r) = st
    /\ same_undo s (snd r)
    /\ documentModel (snd r)
       = (if enabled s
          then commits (effective (map reversed (rev (st_transactions f))))
                 (documentModel s)
          else documentModel s)
    /\ documentUpdates (events (snd r))
       = documentUpdates (events s)
         ++ (if enabled s
             then effective (map reversed (rev (st_transactions f)))
             else []).
Proof.
    intros Hst. unfold popStaging.
    rewrite (isStaging_snoc s st f Hst). cbn [negb].
    rewrite Hst, top_snoc, popped_snoc.
    set (s1 := set_stagingStack st s).
    set (s2 := changeInternal _ None true s1).
    assert (Hst2 : stagingStack s2 = st) by apply changeInternal_skipping_staging.
    assert (Hu2 : same_undo s s2).
    { eapply same_undo_trans; [|apply changeInternal_skipping_undo]. by constructor. }
    assert (Hd2 : documentModel s2
                  = if enabled s
                    then commits (effective (map reversed (rev (st_transactions f))))
                           (documentModel s)
                    else documentModel s).
    { subst s2. destruct (enabled s) eqn:He.
      - by rewrite (proj1 (changeInternal_skipping_document _ _ s1 He)).
      - by rewrite changeInternal_disabled. }
    assert (He2 : documentUpdates (events s2)
                  = documentUpdates (events s)
                    ++ (if enabled s
                        then effective (map reversed (rev (st_transactions f)))
                        else [])).
    { subst s2. destruct (enabled s) eqn:He.
      - by rewrite (proj2 (changeInternal_skipping_document _ _ s1 He)).
      - rewrite changeInternal_disabled by done. by rewrite app_nil_r. }
    cbn [fst snd]. split; [done|].
    destruct (negb (isStaging s2)); [|done].
    destruct Hu2 as [? ? ? ?].
    unfold startHistoryTracking.
    split_conditions; cbn; rewrite ?documentUpdates_app; cbn; rewrite ?app_nil_r;
      repeat split; try done; cbn; rewrite ?app_nil_r in *; congruence.
Qed.

Lemma popAllStagingLoop_spec n : forall s transactions,
    (length (stagingStack s) <= n)%nat ->
    enabled s = true ->
    let r := popAllStagingLoop n transactions s in
    fst r = concat (map st_transactions (stagingStack s)) ++ transactions
    /\ stagingStack (snd r) = []
    /\ same_undo s (snd r)
    /\ documentModel (snd r)
       = commits
           (effective
              (map reversed (rev (concat (map st_transactions (stagingStack s))))))
           (documentModel s)
    /\ documentUpdates (events (snd r))
       = documentUpdates (events s)
         ++ effective
              (map reversed (rev (concat (map st_transactions (stagingStack s))))).
Proof.
    induction n as [|n IH]; intros s txs Hn He; cbn [popAllStagingLoop].
    - destruct (stagingStack s) eqn:Hst; [|cbn in Hn; lia].
      repeat split; try done. cbn. by rewrite app_nil_r.
    - destruct (stagingStack s) as [|f0 st0] eqn:Hst using rev_ind.
      { rewrite (isStaging_nil s Hst). repeat split; try done. cbn. by rewrite app_nil_r. }
      clear IHst0. rename st0 into st. rename f0 into f.
      rewrite (isStaging_snoc s st f Hst).
      destruct (popStaging_frame s st f Hst) as (Hfst & Hst1 & Hu1 & Hd1 & He1).
      destruct (popStaging s) as [popped s1]. cbn [fst snd] in *. subst popped.
      rewrite He in Hd1, He1.
      destruct (IH s1 (default [] (Some (st_transactions f)) ++ txs))
        as (Hr & Hst2 & Hu2 & Hd2 & He2).
      { rewrite Hst1. rewrite length_app in Hn. cbn in Hn. lia. }
      { by rewrite (su_enabled _ _ Hu1). }
      destruct (popAllStagingLoop n _ s1) as [res s2]. cbn [fst snd] in *.
      rewrite Hst1 in *. split; [|split; [done|split; [|split]]].
      + rewrite Hr. rewrite map_app, concat_app. cbn. by rewrite app_nil_r, <- app_assoc.
      + by eapply same_undo_trans.
      + rewrite Hd2, Hd1. rewrite map_app, concat_app. cbn. rewrite app_nil_r.
        rewrite rev_app_distr, map_app, effective_app. by rewrite commits_app.
      + rewrite He2, He1. rewrite map_app, concat_app. cbn. rewrite app_nil_r.
        rewrite rev_app_distr, map_app, effective_app. by rewrite <- app_assoc.
Qed.

  (** X15. [popAllStaging] empties the staging stack and returns the
      transactions of all its frames, oldest first; on an enabled surface
      their reverses are committed from the newest back, and the history
      is left as it was. *)
Theorem popAllStaging_unwinds_all_frames (s : t) :
    isStaging s = true ->
    enabled s = true ->
    let staged := concat (map st_transactions (stagingStack s)) in
    let r := popAllStaging s in
    fst r = Some staged
    /\ isStaging (snd r) = false
    /\ documentModel (snd r)
       = commits (effective (map reversed (rev staged))) (documentModel s)
    /\ documentUpdates (events (snd r)) 
       = documentUpdates (events s) ++ effective (map reversed (rev staged))
    /\ getHistory (snd r) = getHistory s.
Proof.
    intros Hst He staged r. subst r. unfold popAllStaging. rewrite Hst. cbn [negb].
    destruct (popAllStagingLoop_spec (length (stagingStack s)) s [] (le_n _) He)
      as (Hr & Hst' & Hu & Hd & Hev).
    destruct (popAllStagingLoop _ [] s) as [res s']. cbn [fst snd] in *.
    rewrite app_nil_r in Hr. subst res.
    repeat split; try done.
    - by apply isStaging_nil.
    - by apply getHistory_same_undo.
Qed.

  (** The applied history at the tip of the undo stack. *)
Lemma getHistory_tip s :
    undoIndex s = 0 ->
    getHistory s
    = map ui_transactions (undoStack s)
      ++ match newTransactions s with [] => [] | txs => [txs] end.
Proof.
    intros Hi. unfold getHistory. rewrite Hi, Z.sub_0_r.
    rewrite slice0_firstn by lia. rewrite Nat2Z.id, firstn_all.
    destruct (newTransactions s); cbn; by rewrite ?app_nil_r.
Qed.

Lemma truncateUndoStack_history s :
    getHistory (truncateUndoStack s) = getHistory s
    /\ undoIndex (truncateUndoStack s) = 0.
Proof.
    unfold truncateUndoStack.
    destruct (undoIndex s =? 0) eqn:Hz; cbn [negb].
    - by apply Z.eqb_eq in Hz.
    - split; [|done]. unfold getHistory. cbn.
      set (us := JsArray.slice0 (undoStack s) _).
      rewrite Z.sub_0_r. rewrite slice0_firstn by lia.
      by rewrite Nat2Z.id, firstn_all.
Qed.

  (** [applyStaging] with a frame under the one on top: the top frame
      joins it. *)
Lemma applyStaging_merges s st g f :
    stagingStack s = st ++ [g; f] ->
    exists g',
      stagingStack (applyStaging s) = st ++ [g']
      /\ st_transactions g' = st_transactions g ++ st_transactions f
      /\ same_undo s (applyStaging s)
      /\ documentModel (applyStaging s) = documentModel s
      /\ events (applyStaging s) = events s.
Proof.
    intros Hst. unfold applyStaging.
    assert (Hst' : stagingStack s = (st ++ [g]) ++ [f]) by (by rewrite <- app_assoc).
    rewrite (isStaging_snoc s _ f Hst'). cbn [negb].
    rewrite Hst', top_snoc, popped_snoc.
    set (s1 := set_stagingStack (st ++ [g]) s).
    rewrite (isStaging_snoc s1 st g eq_refl).
    unfold getStaging. cbn [stagingStack set_stagingStack s1].
    rewrite updTop_snoc, top_snoc. cbn [st_selectionBefore].
    destruct (sel_isNull (st_selectionBefore g)).
    - cbn [stagingStack set_stagingStack]. rewrite updTop_snoc.
      match goal with |- context [isStaging ?x] =>
        rewrite (isStaging_snoc x st _ eq_refl) end.
      cbn [negb]. eexists. split; [reflexivity|]. by repeat split.
    - match goal with |- context [isStaging ?x] =>
        rewrite (isStaging_snoc x st _ eq_refl) end.
      cbn [negb]. eexists. split; [reflexivity|]. by repeat split.
Qed.

  (** [applyStaging] with one frame: its transactions become a
      checkpoint of the history. *)
Lemma applyStaging_last s f :
    stagingStack s = [f] ->
    enabled s = true ->
    newTransactions s = [] ->
    let s' := applyStaging s in
    stagingStack s' = []
    /\ documentModel s' = documentModel s
    /\ enabled s' = true
    /\ undoIndex s' = 0
    /\ newTransactions s' = []
    /\ getHistory s'
       = getHistory s ++ match st_transactions f with [] => [] | txs => [txs] end.
Proof.
    intros Hst He Hnt. unfold applyStaging.
    rewrite (isStaging_snoc s [] f Hst). cbn [negb].
    rewrite Hst. change (JsArray.top [f]) with (Some f).
    change (JsArray.popped [f]) with (@nil Staging).
    set (s1 := set_stagingStack [] s).
    rewrite (isStaging_nil s1 eq_refl).
    set (s2 := set_selectionBefore _ (set_newTransactions _ (truncateUndoStack s1))).
    destruct (truncateUndoStack_history s1) as (Hh1 & Hi1).
    assert (He2 : enabled s2 = true).
    { subst s2 s1. unfold truncateUndoStack. by split_conditions. }
    assert (Hst2 : stagingStack s2 = []).
    { subst s2 s1. unfold truncateUndoStack. by split_conditions. }
    assert (Hd2 : documentModel s2 = documentModel s).
    { subst s2 s1. unfold truncateUndoStack. by split_conditions. }
    assert (Hnt1 : newTransactions (truncateUndoStack s1) = []).
    { subst s1. unfold truncateUndoStack. by split_conditions. }
    rewrite (getHistory_tip _ Hi1), Hnt1, app_nil_r in Hh1.
    destruct (breakpoint_undo s2) as (He3 & Hi3 & Hb).
    destruct (breakpoint_frame s2) as (Hd3 & _ & Hst3 & _).
    rewrite He2 in Hb. destruct Hb as (Hnt3 & Hus3).
    set (s3 := snd (breakpoint s2)) in *.
    rewrite (isStaging_nil s3) by congruence. cbn [negb].
    assert (Hu : same_undo s3 (emit EvHistory (startHistoryTracking s3))).
    { eapply same_undo_trans; [apply startHistoryTracking_undo|]. by constructor. }
    assert (Hrest : stagingStack (emit EvHistory (startHistoryTracking s3)) = stagingStack s3
                    /\ documentModel (emit EvHistory (startHistoryTracking s3))
                       = documentModel s3).
    { unfold startHistoryTracking. by split_conditions. }
    destruct Hrest as (-> & ->). destruct Hu as [Hus Hi Hn Hen].
    assert (Hi2 : undoIndex s2 = 0) by exact Hi1.
    repeat split; try congruence.
    rewrite getHistory_tip by congruence.
    rewrite Hn, Hnt3, app_nil_r, Hus, Hus3.
    change (undoStack s2) with (undoStack (truncateUndoStack s1)).
    rewrite Hh1. done.
Qed.

Lemma applyAllStagingLoop_spec n : forall s,
    (length (stagingStack s) <= n)%nat ->
    stagingStack s <> [] ->
    enabled s = true ->
    newTransactions s = [] ->
    let staged := concat (map st_transactions (stagingStack s)) in
    let s' := applyAllStagingLoop n s in
    stagingStack s' = []
    /\ documentModel s' = documentModel s
    /\ undoIndex s' = 0
    /\ getHistory s' = getHistory s ++ match staged with [] => [] | txs => [txs] end.
Proof.
    induction n as [|n IH]; intros s Hn Hne He Hnt.
    { destruct (stagingStack s); [done|cbn in Hn; lia]. }
    cbn [applyAllStagingLoop].
    destruct (stagingStack s) as [|f st _] eqn:Hst using rev_ind; [done|].
    rewrite (isStaging_snoc s st f Hst).
    destruct st as [|g st _] using rev_ind.
    - destruct (applyStaging_last s f Hst He Hnt) as (Hst1 & Hd1 & He1 & Hi1 & Hnt1 & Hh1).
      assert (Hdone : applyAllStagingLoop n (applyStaging s) = applyStaging s).
      { destruct n; [done|]. cbn [applyAllStagingLoop].
        by rewrite (isStaging_nil _ Hst1). }
      rewrite Hdone. cbn. rewrite app_nil_r. rewrite Hh1.
      repeat split; try done. by destruct (st_transactions f).
    - rewrite <- app_assoc in Hst. cbn [app] in Hst.
      destruct (applyStaging_merges s st g f Hst) as (g' & Hst1 & Hg' & Hu & Hd & _).
      destruct (IH (applyStaging s)) as (Hst2 & Hd2 & Hi2 & Hh2).
      + rewrite Hst1. rewrite !length_app in *. cbn in *. lia.
      + rewrite Hst1. by destruct st.
      + by rewrite (su_enabled _ _ Hu).
      + by rewrite (su_newTransactions _ _ Hu).
      + repeat split; try congruence.
        rewrite Hh2, (getHistory_same_undo _ _ Hu), Hst1.
        rewrite !map_app, !concat_app. cbn. rewrite Hg', !app_nil_r.
        by rewrite <- !app_assoc.
Qed.

  (** X16. On an enabled surface that is staging, with no transactions
      waiting for a checkpoint, [applyAllStaging] empties the staging
      stack, leaves the document as it is and makes one checkpoint of
      the transactions of all the frames, oldest first; nothing is left
      to redo. *)
Theorem applyAllStaging_makes_one_checkpoint (s : t) :
    isStaging s = true ->
    enabled s = true ->
    newTransactions s = [] ->
    let staged := concat (map st_transactions (stagingStack s)) in
    let s' := applyAllStaging s in
    isStaging s' = false
    /\ documentModel s' = documentModel s
    /\ getHistory s' = getHistory s ++ match staged with [] => [] | txs => [txs] end
    /\ canRedo s' = false.
Proof.
    intros Hst He Hnt staged s'. subst s' staged. unfold applyAllStaging.
    destruct (applyAllStagingLoop_spec (length (stagingStack s)) s (le_n _))
      as (Hst' & Hd & Hi & Hh); try done.
    { intros Hnil. by rewrite (isStaging_nil s Hnil) in Hst. }
    repeat split; try done.
    - by apply isStaging_nil.
    - unfold canRedo. by rewrite Hi.
Qed.

Lemma popAllStaging_undo s :
    enabled s = true ->
    same_undo s (snd (popAllStaging s))
    /\ stagingStack (snd (popAllStaging s)) = [].
Proof.
    intros He. unfold popAllStaging.
    destruct (isStaging s) eqn:Hst; cbn [negb].
    - destruct (popAllStagingLoop_spec (length (stagingStack s)) s [] (le_n _) He)
        as (_ & Hst' & Hu & _).
      by destruct (popAllStagingLoop _ [] s).
    - split; [apply same_undo_refl|]. cbn. unfold isStaging in Hst.
      by destruct (stagingStack s).
Qed.

Lemma removelast_firstn_S {A} (l : list A) (k : nat) :
    (S k <= length l)%nat -> removelast (firstn (S k) l) = firstn k l.
Proof.
    intros Hk. rewrite <- (firstn_skipn k l) at 1.
    rewrite firstn_app, length_firstn, Nat.min_l by lia.
    rewrite firstn_firstn, Nat.min_r by lia.
    replace (S k - k)%nat with 1%nat by lia.
    destruct (skipn k l) as [|x r] eqn:Hs.
    { apply (f_equal (@length A)) in Hs. rewrite length_skipn in Hs. cbn in Hs. lia. }
    cbn [firstn]. by rewrite removelast_last.
Qed.

Lemma last_firstn_S {A} (l : list A) (k : nat) :
    (S k <= length l)%nat -> last (firstn (S k) l) = nth_error l k.
Proof.
    revert l. induction k as [|k IH]; intros [|x l] Hk; try done.
    cbn in Hk. specialize (IH l ltac:(lia)). cbn [nth_error]. rewrite <- IH.
    change (firstn (S (S k)) (x :: l)) with (x :: firstn (S k) l).
    destruct l as [|y l]; [cbn in Hk; lia|]. reflexivity.
Qed.

  (** How [undo] moves the history and the document. *)
Lemma undo_spec s :
    historyOk s ->
    canUndo s = true ->
    exists txs,
      last (getHistory s) = Some txs
      /\ getHistory (undo s) = removelast (getHistory s)
      /\ undoIndex (undo s) = undoIndex s + 1
      /\ enabled (undo s) = true
      /\ newTransactions (undo s) = []
      /\ historyOk (undo s)
      /\ nth_error (map ui_transactions (undoStack (undo s)))
           (length (getHistory (undo s)))
         = Some txs
      /\ (isStaging s = false ->
          documentModel (undo s)
          = commits (effective (map reversed (rev txs))) (documentModel s)).
Proof.
    intros [Hi Htip] Hcan. unfold undo. rewrite Hcan. cbn [negb].
    unfold canUndo in Hcan.
    apply andb_prop in Hcan as [Hcan _]. apply andb_prop in Hcan as [Hmod He].
    set (s1 := if isStaging s then snd (popAllStaging s) else s).
    assert (Hs1 : same_undo s s1 /\ stagingStack s1 = []
                  /\ (isStaging s = false -> documentModel s1 = documentModel s)).
    { subst s1. destruct (isStaging s) eqn:Hst.
      - destruct (popAllStaging_undo s He). done.
      - split; [apply same_undo_refl|]. split; [|done].
        unfold isStaging in Hst. by destruct (stagingStack s). }
    destruct Hs1 as ([Hus1 Hi1 Hnt1 He1] & Hst1 & Hd1).
    destruct (breakpoint_undo s1) as (He2 & Hi2 & Hb).
    destruct (breakpoint_frame s1) as (Hd2 & _ & Hst2 & _).
    rewrite He1, He in Hb. destruct Hb as (Hnt2 & Hus2).
    set (s2 := snd (breakpoint s1)) in *.
    set (s3 := set_undoIndex (undoIndex s2 + 1) s2).
    rewrite Hus1, Hnt1 in Hus2.
    set (k := Z.to_nat (Z.of_nat (length (undoStack s)) - undoIndex s)).
    set (hist := map ui_transactions (undoStack s2)) in *.
    assert (Hlen : length hist = length (undoStack s2)) by apply length_map.
    (* the applied history before and after *)
    assert (Hbefore : getHistory s = firstn (S (length hist - Z.to_nat (undoIndex s) - 1)) hist
                      /\ (S (length hist - Z.to_nat (undoIndex s) - 1) <= length hist)%nat
                      /\ Z.of_nat (length hist) - undoIndex s - 1 >= 0).
    { unfold getHistory. rewrite slice0_firstn by lia. fold k.
      unfold hasBeenModified in Hmod.
      destruct (newTransactions s) as [|tx txs] eqn:Hnt.
      - cbn in Hmod. rewrite orb_false_r in Hmod. apply Z.ltb_lt in Hmod.
        rewrite app_nil_r in Hus2. cbn [length Nat.ltb Nat.leb].
        subst hist. rewrite Hus2, length_map. rewrite <- firstn_map.
        split; [|lia]. f_equal. lia.
      - rewrite Htip by done. cbn [length Nat.ltb Nat.leb].
        subst hist. rewrite Hus2, length_app, length_map. cbn [length].
        split; [|lia]. subst k. rewrite Htip by done.
        rewrite Z.sub_0_r, Nat2Z.id, firstn_all.
        replace (S (length (undoStack s) + 1 - Z.to_nat 0 - 1))
          with (length (map ui_transactions (undoStack s) ++ [tx :: txs]))
          by (rewrite length_app, length_map; cbn; lia).
        by rewrite firstn_all. }
    destruct Hbefore as (Hbefore & Hle & Hge).
    set (j := (length hist - Z.to_nat (undoIndex s) - 1)%nat) in *.
    assert (Hj : Z.of_nat (length (undoStack s2)) - (undoIndex s2 + 1) = Z.of_nat j).
    { rewrite <- Hlen, Hi2, Hi1. subst j. lia. }
    assert (Hitem : exists item, JsArray.get (undoStack s3)
                                   (Z.of_nat (length (undoStack s3)) - undoIndex s3)
                                 = Some item
                                 /\ nth_error hist j = Some (ui_transactions item)).
    { subst s3. cbn [undoStack undoIndex set_undoIndex]. rewrite Hj.
      unfold JsArray.get. destruct (Z.of_nat j <? 0) eqn:E; [apply Z.ltb_lt in E; lia|].
      rewrite Nat2Z.id.
      destruct (nth_error (undoStack s2) j) as [item|] eqn:Hnth.
      - exists item. split; [done|]. subst hist. by rewrite nth_error_map, Hnth.
      - apply nth_error_None in Hnth. lia. }
    destruct Hitem as (item & Hget & Hnth). rewrite Hget.
    set (r := changeInternal _ _ true s3).
    assert (Hr : same_undo s3 r) by apply changeInternal_skipping_undo.
    assert (Hstr : stagingStack r = []).
    { subst r. rewrite changeInternal_skipping_staging. subst s3. cbn. congruence. }
    assert (Hdr : documentModel r
                  = commits (effective (map reversed (rev (ui_transactions item))))
                      (documentModel s3)).
    { apply changeInternal_skipping_document. subst s3. cbn. congruence. }
    destruct Hr as [Hus Hir Hntr Her].
    assert (Hafter : getHistory r = firstn j hist).
    { unfold getHistory. rewrite Hus, Hir, Hntr.
      subst s3. cbn [undoStack undoIndex newTransactions set_undoIndex].
      rewrite Hnt2. cbn [length Nat.ltb Nat.leb]. rewrite Hj.
      rewrite slice0_firstn by lia. rewrite Nat2Z.id. subst hist.
      by rewrite firstn_map. }
    exists (ui_transactions item). rewrite Hbefore, Hafter.
    rewrite last_firstn_S, removelast_firstn_S by done.
    assert (Hfields : undoIndex r = undoIndex s + 1 /\ enabled r = true
                      /\ newTransactions r = []
                      /\ length (undoStack r) = length hist).
    { rewrite Hir, Her, Hntr, Hus. subst s3. cbn. repeat split; congruence. }
    destruct Hfields as (Hf1 & Hf2 & Hf3 & Hf4).
    split; [done|]. split; [done|]. split; [done|]. split; [done|].
    split; [done|]. split; [|split].
    - unfold historyOk. rewrite Hf1, Hf3, Hf4. split; [lia|done].
    - rewrite <- Hafter, Hus. subst s3. cbn [undoStack set_undoIndex]. fold hist.
      rewrite Hafter, length_firstn, Nat.min_l by lia. done.
    - intros Hns. rewrite Hdr. subst s3. cbn. rewrite Hd2. by rewrite Hd1.
Qed.

Lemma breakpoint_idle s :
    newTransactions s = [] ->
    same_undo s (snd (breakpoint s)).
Proof.
    intros Hnt. unfold breakpoint, resetHistoryTrackingInterval, startHistoryTracking,
      stopHistoryTracking.
    destruct (enabled s) eqn:He; cbn [negb]; [|by constructor].
    split_conditions; cbn in *; rewrite ?Hnt in *; cbn in *; try done;
      by constructor.
Qed.

  (** How [redo] moves the history and the document. *)
Lemma redo_spec s :
    historyOk s ->
    canRedo s = true ->
    exists txs,
      nth_error (map ui_transactions (undoStack s)) (length (getHistory s)) = Some txs
      /\ getHistory (redo s) = getHistory s ++ [txs]
      /\ undoIndex (redo s) = undoIndex s - 1
      /\ historyOk (redo s)
      /\ documentModel (redo s) = commits (effective txs) (documentModel s).
Proof.
    intros [Hi Htip] Hcan. unfold redo. rewrite Hcan. cbn [negb].
    unfold canRedo in Hcan. apply andb_prop in Hcan as [Hpos He].
    apply Z.ltb_lt in Hpos.
    assert (Hnt : newTransactions s = []).
    { destruct (newTransactions s) eqn:E; [done|]. rewrite Htip in Hpos by done. lia. }
    destruct (breakpoint_idle s Hnt) as [Hus1 Hi1 Hnt1 He1].
    destruct (breakpoint_frame s) as (Hd1 & _ & _ & _).
    set (s1 := snd (breakpoint s)) in *.
    rewrite Hus1, Hi1.
    set (j := Z.to_nat (Z.of_nat (length (undoStack s)) - undoIndex s)).
    assert (Hh : getHistory s = firstn j (map ui_transactions (undoStack s))).
    { unfold getHistory. rewrite Hnt. cbn [length Nat.ltb Nat.leb].
      rewrite slice0_firstn by lia. by rewrite firstn_map. }
    assert (Hj : length (getHistory s) = j).
    { rewrite Hh, length_firstn, length_map. subst j. lia. }
    unfold JsArray.get.
    destruct (Z.of_nat (length (undoStack s)) - undoIndex s <? 0) eqn:E;
      [apply Z.ltb_lt in E; lia|].
    fold j.
    destruct (nth_error (undoStack s) j) as [item|] eqn:Hnth;
      [|apply nth_error_None in Hnth; subst j; lia].
    set (s2 := set_undoIndex (undoIndex s - 1) s1).
    set (r := changeInternal (Some (ui_transactions item)) (Some (ui_selection item))
                true s2).
    assert (Hr : same_undo s2 r) by apply changeInternal_skipping_undo.
    assert (Hdr : documentModel r
                  = commits (effective (ui_transactions item)) (documentModel s2)).
    { apply changeInternal_skipping_document. subst s2. cbn. congruence. }
    destruct Hr as [Hus Hir Hntr Her].
    assert (Hfields : undoStack r = undoStack s /\ undoIndex r = undoIndex s - 1
                      /\ newTransactions r = []).
    { rewrite Hus, Hir, Hntr. subst s2. cbn. repeat split; congruence. }
    destruct Hfields as (Hf1 & Hf2 & Hf3).
    exists (ui_transactions item). rewrite Hj.
    split; [by rewrite nth_error_map, Hnth|]. split; [|split; [done|split]].
    - unfold getHistory at 1. rewrite Hf1, Hf2, Hf3. cbn [length Nat.ltb Nat.leb].
      rewrite slice0_firstn by lia. rewrite Hh.
      replace (Z.to_nat (Z.of_nat (length (undoStack s)) - (undoIndex s - 1)))
        with (S j) by (subst j; lia).
      rewrite firstn_map.
      rewrite <- (firstn_skipn j (undoStack s)) at 1.
      rewrite firstn_app, length_firstn, Nat.min_l by (subst j; lia).
      rewrite firstn_firstn, Nat.min_r by lia.
      replace (S j - j)%nat with 1%nat by lia.
      rewrite map_app, <- firstn_map. f_equal.
      pose proof (nth_error_split _ _ Hnth) as (l1 & l2 & Heq & Hl1).
      rewrite Heq. rewrite skipn_app, <- Hl1, skipn_all, Nat.sub_diag. done.
    - unfold historyOk. rewrite Hf1, Hf2, Hf3. split; [lia|done].
    - rewrite Hdr. subst s2. cbn. by rewrite Hd1.
Qed.

Lemma commits_back txs :
    (forall tx d, applyTransaction tx (applyTransaction (reversed tx) d) = d) ->
    (forall tx, isNoOp (reversed tx) = isNoOp tx) ->
    forall d,
      commits (effective txs) (commits (effective (map reversed (rev txs))) d) = d.
Proof.
    intros Hback Hnoop. induction txs as [|tx txs IH]; intros d; [done|].
    cbn [rev]. rewrite map_app, effective_app, commits_app. cbn [map].
    rewrite !effective_cons, Hnoop.
    destruct (isNoOp tx); cbn [effective List.filter commits fold_left].
    - apply IH.
    - rewrite Hback. apply IH.
Qed.

  (** X17. [undo] takes the last entry off the applied history and
      commits the reverses of its transactions, last first; what it took
      off can be redone. *)
Theorem undo_reverts_last_checkpoint (s : t) :
    historyOk s ->
    canUndo s = true ->
    exists txs,
      last (getHistory s) = Some txs
      /\ getHistory (undo s) = removelast (getHistory s)
      /\ canRedo (undo s) = true
      /\ (isStaging s = false ->
          documentModel (undo s)
          = commits (effective (map reversed (rev txs))) (documentModel s)).
Proof.
    intros Hok Hcan.
    destruct (undo_spec s Hok Hcan) as (txs & Hl & Hh & Hi & He & _ & _ & _ & Hd).
    exists txs. repeat split; try done.
    unfold canRedo. rewrite Hi, He. destruct Hok as [[] _].
    rewrite andb_true_r. apply Z.ltb_lt. lia.
Qed.

  (** X18. [redo] commits the transactions of the first checkpoint that
      was undone and puts them back at the end of the applied history. *)
Theorem redo_applies_next_checkpoint (s : t) :
    historyOk s ->
    canRedo s = true ->
    exists txs,
      nth_error (map ui_transactions (undoStack s)) (length (getHistory s)) = Some txs
      /\ getHistory (redo s) = getHistory s ++ [txs]
      /\ undoIndex (redo s) = undoIndex s - 1
      /\ documentModel (redo s) = commits (effective txs) (documentModel s).
Proof.
    intros Hok Hcan.
    destruct (redo_spec s Hok Hcan) as (txs & Hn & Hh & Hi & _ & Hd).
    by exists txs.
Qed.

  (** X19. [redo] after [undo] gives back the applied history, and the
      document when the surface is not staging, a transaction undoes
      its reverse and the reverse of a no-op is a no-op. *)
Theorem redo_after_undo (s : t) :
    historyOk s ->
    canUndo s = true ->
    getHistory (redo (undo s)) = getHistory s
    /\ undoIndex (redo (undo s)) = undoIndex s
    /\ (isStaging s = false ->
        (forall tx d, applyTransaction tx (applyTransaction (reversed tx) d) = d) ->
        (forall tx, isNoOp (reversed tx) = isNoOp tx) ->
        documentModel (redo (undo s)) = documentModel s).
Proof.
    intros Hok Hcan.
    destruct (undo_spec s Hok Hcan) as (txs & Hl & Hh & Hi & He & _ & Hok' & Hn & Hd).
    assert (Hcan' : canRedo (undo s) = true).
    { unfold canRedo. rewrite Hi, He. destruct Hok as [[] _].
      rewrite andb_true_r. apply Z.ltb_lt. lia. }
    destruct (redo_spec (undo s) Hok' Hcan') as (txs' & Hn' & Hh' & Hi' & _ & Hd').
    rewrite Hn in Hn'. injection Hn' as <-.
    split; [|split].
    - rewrite Hh', Hh. apply last_Some in Hl as (l' & ->).
      by rewrite removelast_last.
    - lia.
    - intros Hst Hback Hnoop. rewrite Hd', (Hd Hst). by apply commits_back.
Qed.

Lemma same_history_undo s s' : same_history s s' -> same_undo s s'.
Proof. intros []; by constructor. Qed.

Lemma breakpoint_historyOk s : historyOk s -> historyOk (snd (breakpoint s)).
Proof.
    intros [Hi Htip]. destruct (breakpoint_undo s) as (_ & Hi' & Hb).
    unfold historyOk. rewrite Hi'.
    destruct (enabled s).
    - destruct Hb as (-> & Hus). apply (f_equal (@length _)) in Hus.
      rewrite length_app, !length_map in Hus. split; [lia|done].
    - by destruct Hb as (-> & ->).
Qed.

Lemma truncateUndoStack_historyOk s : historyOk (truncateUndoStack s).
Proof.
    unfold truncateUndoStack, historyOk.
    destruct (undoIndex s =? 0) eqn:Hz; cbn [negb].
    - apply Z.eqb_eq in Hz. rewrite Hz. split; [lia|done].
    - cbn. split; [lia|done].
Qed.

Lemma recordTransaction_historyOk sb tx s :
    historyOk s -> historyOk (recordTransaction sb tx s).
Proof.
    intros Hok. unfold recordTransaction.
    destruct (isStaging s).
    - destruct (getStagingTransactions s) as [[|]|]; exact Hok.
    - destruct (truncateUndoStack_historyOk s) as [Hi _].
      pose proof (proj2 (truncateUndoStack_history s)) as Hz.
      unfold historyOk. split_conditions; cbn; done.
Qed.

Lemma commit_undo tx b s : same_undo s (commit tx b s).
Proof.
    unfold commit, onDocumentTransact, getSelection.
    set (s1 := onDocumentPreSynchronize tx _).
    assert (H1 : same_undo s s1).
    { subst s1. unfold onDocumentPreSynchronize, onDocumentPreCommit. cbn.
      by constructor. }
    eapply same_undo_trans; [exact H1|].
    destruct (setSelection_same_history (translateByTransaction tx (selection s1)) s1).
    by constructor.
Qed.

Lemma changeLoop_historyOk skip sb txs : forall cc s,
    historyOk s -> historyOk (snd (changeLoop skip sb txs (cc, s))).
Proof.
    induction txs as [|tx txs IH]; intros cc s Hok; [done|].
    rewrite changeLoop_cons. unfold changeStep.
    destruct (negb (isNoOp tx)); [|by apply IH].
    apply IH. eapply historyOk_same_undo; [apply commit_undo|].
    destruct (negb skip); [by apply recordTransaction_historyOk|done].
Qed.

Lemma changeInternal_historyOk txs sel skip s :
    historyOk s -> historyOk (changeInternal txs sel skip s).
Proof.
    intros Hok. destruct (enabled s) eqn:He;
      [|by rewrite changeInternal_disabled].
    destruct txs as [txs|].
    - eapply historyOk_same_undo;
        [apply same_past_undo, changeInternal_after_loop; done|].
      apply changeLoop_historyOk.
      unfold startQueueingContextChanges. by destruct (negb _).
    - eapply historyOk_same_undo;
        [apply same_past_undo, changeInternal_no_transactions|done].
Qed.

Lemma popStaging_historyOk s : historyOk s -> historyOk (snd (popStaging s)).
Proof.
    intros Hok. destruct (stagingStack s) as [|f st _] eqn:Hst using rev_ind.
    - unfold popStaging. by rewrite (isStaging_nil s Hst).
    - destruct (popStaging_frame s st f Hst) as (_ & _ & Hu & _).
      by eapply historyOk_same_undo.
Qed.

Lemma applyStaging_historyOk s : historyOk s -> historyOk (applyStaging s).
Proof.
    intros Hok. destruct (stagingStack s) as [|f st _] eqn:Hst using rev_ind.
    { unfold applyStaging. by rewrite (isStaging_nil s Hst). }
    destruct st as [|g st _] using rev_ind.
    - unfold applyStaging. rewrite (isStaging_snoc s [] f Hst). cbn [negb].
      rewrite Hst. change (JsArray.top ([] ++ [f])) with (Some f).
      change (JsArray.popped ([] ++ [f])) with (@nil Staging).
      set (s1 := set_stagingStack [] s).
      rewrite (isStaging_nil s1 eq_refl).
      set (s2 := set_selectionBefore _ (set_newTransactions _ (truncateUndoStack s1))).
      assert (Hok2 : historyOk s2).
      { destruct (truncateUndoStack_historyOk s1) as [Hi _].
        pose proof (proj2 (truncateUndoStack_history s1)) as Hz.
        unfold historyOk. subst s2. cbn. done. }
      apply breakpoint_historyOk in Hok2.
      set (s3 := snd (breakpoint s2)) in *.
      destruct (negb (isStaging s3)); [|done].
      eapply historyOk_same_undo; [|exact Hok2].
      eapply same_undo_trans; [apply startHistoryTracking_undo|]. by constructor.
    - rewrite <- app_assoc in Hst. cbn [app] in Hst.
      destruct (applyStaging_merges s st g f Hst) as (g' & _ & _ & Hu & _).
      by eapply historyOk_same_undo.
Qed.

Lemma popAllStagingLoop_historyOk n : forall s transactions,
    historyOk s -> historyOk (snd (popAllStagingLoop n transactions s)).
Proof.
    induction n as [|n IH]; intros s txs Hok; [done|]. cbn [popAllStagingLoop].
    destruct (isStaging s); [|done].
    pose proof (popStaging_historyOk s Hok) as Hok1.
    destruct (popStaging s) as [popped s1]. by apply IH.
Qed.

Lemma applyAllStagingLoop_historyOk n : forall s,
    historyOk s -> historyOk (applyAllStagingLoop n s).
Proof.
    induction n as [|n IH]; intros s Hok; [done|]. cbn [applyAllStagingLoop].
    destruct (isStaging s); [|done]. by apply IH, applyStaging_historyOk.
Qed.

  (** X20. The methods of the surface keep the history in order: the
      undo index stays within the undo stack, and transactions wait for
      a checkpoint only when nothing is undone. *)
Theorem history_stays_in_order (s : t) :
    historyOk s ->
    (forall txs sel, historyOk (change txs sel s))
    /\ (forall txs sel skip, historyOk (changeInternal txs sel skip s))
    /\ (forall sel, historyOk (setSelection sel s))
    /\ historyOk (snd (breakpoint s))
    /\ historyOk (truncateUndoStack s)
    /\ historyOk (undo s)
    /\ historyOk (redo s)
    /\ (forall allowUndo, historyOk (pushStaging allowUndo s))
    /\ historyOk (snd (popStaging s))
    /\ historyOk (applyStaging s)
    /\ historyOk (snd (popAllStaging s))
    /\ historyOk (applyAllStaging s).
Proof.
    intros Hok. repeat split_and.
    - intros txs sel. by apply changeInternal_historyOk.
    - intros txs sel skip. by apply changeInternal_historyOk.
    - intros sel. eapply historyOk_same_undo; [|exact Hok].
      apply same_history_undo, setSelection_same_history.
    - by apply breakpoint_historyOk.
    - apply truncateUndoStack_historyOk.
    - destruct (canUndo s) eqn:Hcan.
      + by destruct (undo_spec s Hok Hcan) as (txs & _ & _ & _ & _ & _ & Hok' & _).
      + unfold undo. by rewrite Hcan.
    - destruct (canRedo s) eqn:Hcan.
      + by destruct (redo_spec s Hok Hcan) as (txs & _ & _ & _ & Hok' & _).
      + unfold redo. by rewrite Hcan.
    - intros allowUndo. unfold pushStaging.
      destruct (negb (isStaging s)); [|done].
      apply breakpoint_historyOk in Hok.
      eapply (historyOk_same_undo (snd (breakpoint s))); [|exact Hok].
      eapply same_undo_trans; [apply stopHistoryTracking_undo|]. by constructor.
    - by apply popStaging_historyOk.
    - by apply applyStaging_historyOk.
    - unfold popAllStaging. destruct (negb (isStaging s)); [done|].
      pose proof (popAllStagingLoop_historyOk (length (stagingStack s)) s [] Hok).
      by destruct (popAllStagingLoop _ [] s).
    - by apply applyAllStagingLoop_historyOk.
Qed.

Lemma emitContextChange_queueing s n :
    queueingContextChanges s = true ->
    Nat.iter n emitContextChange s
    = if (0 <? n)%nat then set_contextChangeQueued true s else s.
Proof.
    intros Hq. induction n as [|n IH]; [done|].
    change (Nat.iter (S n) emitContextChange s)
      with (emitContextChange (Nat.iter n emitContextChange s)).
    rewrite IH. unfold emitContextChange.
    destruct n; cbn; rewrite Hq; [done|]. by destruct s.
Qed.

  (** X12. While context changes are queued they are collapsed: however
      many times [emitContextChange] is called between
      [startQueueingContextChanges] and [stopQueueingContextChanges],
      one [contextChange] event is emitted, at the end, and none when it
      was not called; the surface is otherwise as it was. *)
Theorem queued_context_changes_are_collapsed (n : nat) (s : t) :
    queueingContextChanges s = false ->
    stopQueueingContextChanges
      (Nat.iter n emitContextChange (startQueueingContextChanges s))
    = if (0 <? n)%nat
      then emit EvContextChange (set_contextChangeQueued false s)
      else set_contextChangeQueued false s.
Proof.
    intros Hq. unfold startQueueingContextChanges. rewrite Hq. cbn [negb].
    rewrite emitContextChange_queueing by done.
    unfold stopQueueingContextChanges.
    destruct s; cbn in *; subst. by destruct n.
Qed.

  (** X13. Within the history invariant, [hasBeenModified] says
      whether [getHistory] has an entry. *)
Theorem hasBeenModified_iff_history (s : t) :
    0 <= undoIndex s <= Z.of_nat (length (undoStack s)) ->
    hasBeenModified s = true <-> getHistory s <> [].
Proof.
    intros Hi. unfold hasBeenModified, getHistory.
    rewrite slice0_firstn by lia.
    destruct (newTransactions s) as [|tx txs] eqn:Hnt; cbn [length Nat.ltb Nat.leb Nat.eqb negb].
    - rewrite orb_false_r. rewrite Z.ltb_lt. split.
      + intros Hpos Hnil. apply (f_equal (@length _)) in Hnil.
        rewrite length_map, length_firstn in Hnil. cbn in Hnil. lia.
      + intros Hne. destruct (Z.to_nat (Z.of_nat (length (undoStack s)) - undoIndex s))
          eqn:Hk; [done|]. lia.
    - rewrite orb_true_r. split; [|done]. intros _ Hnil.
      by apply app_eq_nil in Hnil as [_ ?].
Qed.

  (** X14. [truncateUndoStack] forgets what could be redone and keeps
      the applied history. *)
Theorem truncateUndoStack_keeps_history (s : t) :
    getHistory (truncateUndoStack s) = getHistory s
    /\ undoIndex (truncateUndoStack s) = 0
    /\ canRedo (truncateUndoStack s) = false.
Proof.
    destruct (truncateUndoStack_history s) as (Hh & Hi).
    repeat split; try done. unfold canRedo. by rewrite Hi.
Qed.

Lemma selectionEvents_app l1 l2 :
    selectionEvents (l1 ++ l2) = selectionEvents l1 ++ selectionEvents l2.
Proof. apply List.filter_app. Qed.

  (** X21. Outside the transaction loop, [setSelection] on an enabled
      surface announces a selection that differs from the current one
      with [select], preceded by nothing and followed by [focus] when
      there was no selection and by [blur] when there is none now; a
      selection equal to the current one is not announced and not
      stored. *)
Theorem setSelection_announces_changes (sel : Selection) (s : t) :
    enabled s = true ->
    transacting s = false ->
    let s' := setSelection sel s in
    if sel_equals (selection s) sel
    then selection s' = selection s
         /\ selectionEvents (events s') = selectionEvents (events s)
    else selection s' = sel
         /\ selectionEvents (events s')
            = selectionEvents (events s)
              ++ [EvSelect sel]
              ++ (if sel_isNull (selection s) then [EvFocus] else [])
              ++ (if sel_isNull sel then [EvBlur] else []).
Proof.
    intros He Ht. cbv zeta. unfold setSelection. rewrite He. cbn [negb].
    cbn [transacting set_translatedSelection]. rewrite Ht.
    cbn [selection documentModel].
    set (s0 := set_translatedSelection None s).
    set (s1 := if negb (sel_equals (selection s) sel) then set_selection sel s0 else s0).
    set (X := match sel with
              | LinearSelection range => _
              | TableSelection tsel => _
              | NullSelection => _
              end).
    assert (HX : selection (X.1.1.1.1) = selection s1
                 /\ selectionEvents (events (X.1.1.1.1)) = selectionEvents (events s1)).
    { subst X. destruct sel as [range| |]; [|done..].
      unfold alloc, setInsertionAnnotations, emit. cbn.
      split_conditions; cbn; unfold selectionEvents; rewrite ?List.filter_app; cbn;
        rewrite ?app_nil_r; done. }
    destruct X as [[[[s2 bn] sn] range] cc]. cbn [fst] in HX.
    destruct HX as (Hsel2 & Hev2).
    assert (H1 : selection s1 = (if sel_equals (selection s) sel then selection s else sel)
                 /\ events s1 = events s).
    { subst s1 s0. by destruct (sel_equals (selection s) sel). }
    destruct H1 as (Hsel1 & Hev1). rewrite Hsel1 in Hsel2. rewrite Hev1 in Hev2.
    clearbody s1. clear Hsel1 Hev1 s0 s1.
    unfold emitContextChange, emit.
    destruct (sel_equals (selection s) sel); cbn [negb].
    all: repeat (cbn; match goal with
           | |- context [match ?x with _ => _ end] =>
               lazymatch x with
               | context [match _ with _ => _ end] => fail
               | _ => destruct x eqn:?
               end
           end).
    all: cbn; unfold selectionEvents in *; rewrite ?List.filter_app; cbn;
      rewrite ?app_nil_r, <- ?app_assoc; rewrite ?Hsel2, ?Hev2; done.
Qed.

  (** The transaction loop outside staging: the effective transactions
      join [newTransactions] in order. *)
Lemma changeLoop_records sb txs : forall cc s,
    enabled s = true -> transacting s = true -> isStaging s = false ->
    newTransactions (snd (changeLoop false sb txs (cc, s)))
    = newTransactions s ++ effective txs.
Proof.
    induction txs as [|tx txs IH]; intros cc s He Ht Hst.
    { cbn. by rewrite app_nil_r. }
    rewrite changeLoop_cons, effective_cons.
    destruct (isNoOp tx) eqn:Hn.
    - rewrite changeStep_noop by done. by apply IH.
    - unfold changeStep. rewrite Hn. cbn [negb].
      destruct (recordTransaction_truncates sb tx s Hst) as (Hs1 & Hi1 & Hu1).
      destruct (recordTransaction_frame sb tx s) as (_ & _ & He1 & Ht1 & _).
      rewrite commit_transacting by congruence.
      rewrite IH.
      + cbn. unfold recordTransaction. rewrite Hst. cbn zeta.
        assert (Hn' : newTransactions (truncateUndoStack s) = newTransactions s).
        { unfold truncateUndoStack. by destruct (negb _). }
        destruct (length (newTransactions (truncateUndoStack s)) =? 0)%nat; cbn;
          rewrite Hn', <- app_assoc; done.
      + cbn; congruence.
      + cbn; congruence.
      + unfold isStaging in *. cbn. by rewrite Hs1.
Qed.

  (** X27. A change is recorded: on an enabled surface that is not
      staging, [change( transactions, selection )] with at least one
      transaction that is not a no-op leaves, as the last entry of
      [getHistory()], the transactions that were pending followed by the
      given transactions that are not no-ops, in order. The entries
      before it are those of the checkpoints that were applied: the
      history as it was, without its entry of pending transactions when
      there was one. *)
Theorem change_is_recorded_in_history
      (txs : list Transaction) (sel : option Selection) (s : t) :
    enabled s = true ->
    isStaging s = false ->
    effective txs <> [] ->
    getHistory (change (Some txs) sel s)
    = match newTransactions s with
      | [] => getHistory s
      | _ :: _ => removelast (getHistory s)
      end ++ [newTransactions s ++ effective txs].
Proof.
    intros He Hst Hne.
    pose proof (changeInternal_after_loop txs sel false s He) as Hpast.
    fold (change (Some txs) sel s) in Hpast.
    pose proof (startQueueingContextChanges_same_past s) as Hq.
    set (s0 := set_transacting true (startQueueingContextChanges s)) in *.
    assert (He0 : enabled s0 = true) by (cbn; by rewrite (sp_enabled _ _ Hq)).
    assert (Hst0 : isStaging s0 = false).
    { rewrite <- Hst. unfold isStaging. cbn. by rewrite (sp_stagingStack _ _ Hq). }
    destruct (changeLoop_truncates (selection s) txs false s0 He0 eq_refl Hst0 Hne)
      as (Hi & Hu).
    pose proof (changeLoop_records (selection s) txs false s0 He0 eq_refl Hst0) as Hn.
    cbn zeta in Hi, Hu.
    rewrite (getHistory_same_undo _ _ (same_past_undo _ _ Hpast)).
    rewrite getHistory_tip by done. rewrite Hu, Hn.
    assert (Hs0 : same_undo s s0).
    { constructor; cbn; by destruct Hq. }
    replace (newTransactions s0) with (newTransactions s) by (symmetry; apply Hs0).
    assert (Ht : map ui_transactions (undoStack (truncateUndoStack s0))
                 ++ match newTransactions s with [] => [] | t => [t] end
                 = getHistory s).
    { destruct (truncateUndoStack_history s0) as (Hh & Hi0).
      rewrite <- (getHistory_same_undo _ _ Hs0), <- Hh.
      rewrite getHistory_tip by done.
      replace (newTransactions (truncateUndoStack s0)) with (newTransactions s); [done|].
      unfold truncateUndoStack. destruct (negb _); cbn; by destruct Hq. }
    destruct (newTransactions s) as [|t0 nt] eqn:Hnt.
    - rewrite app_nil_r in Ht. rewrite Ht. cbn.
      destruct (effective txs); done.
    - rewrite <- Ht. rewrite removelast_last. cbn. done.
Qed.

Lemma keepsSwitch_refl s : keepsSwitch s s.
Proof. by split. Qed.

Lemma keepsSwitch_trans s1 s2 s3 :
    keepsSwitch s1 s2 -> keepsSwitch s2 s3 -> keepsSwitch s1 s3.
Proof.
    intros [He1 Ht1] [He2 Ht2]. split; [congruence|].
    intros He. rewrite Ht2, Ht1; congruence.
Qed.

Lemma same_past_switch s s' : same_past s s' -> keepsSwitch s s'.
Proof. intros []; by split. Qed.

Lemma same_history_switch s s' : same_history s s' -> keepsSwitch s s'.
Proof. intros []; by split. Qed.

Lemma keepsSwitch_idle s s' :
    keepsSwitch s s' -> idleWhenDisabled s -> idleWhenDisabled s'.
Proof.
    intros [He Ht] Hidle He'. rewrite He in He'. rewrite Ht by done. by apply Hidle.
Qed.

Lemma stopHistoryTracking_switch s : keepsSwitch s (stopHistoryTracking s).
Proof.
    unfold stopHistoryTracking, keepsSwitch.
    destruct (enabled s) eqn:He; cbn; [|done].
    destruct (historyTrackingInterval s); cbn; done.
Qed.

Lemma startHistoryTracking_switch s : keepsSwitch s (startHistoryTracking s).
Proof.
    unfold startHistoryTracking, keepsSwitch.
    destruct (enabled s) eqn:He; cbn; [|done].
    destruct (historyTrackingInterval s); cbn; done.
Qed.

Lemma resetHistoryTrackingInterval_switch s :
    keepsSwitch s (resetHistoryTrackingInterval s).
Proof.
    eapply keepsSwitch_trans;
      [apply stopHistoryTracking_switch | apply startHistoryTracking_switch].
Qed.

Lemma breakpoint_switch s : keepsSwitch s (snd (breakpoint s)).
Proof.
    unfold breakpoint. destruct (enabled s) eqn:He; cbn [negb];
      [|apply keepsSwitch_refl].
    eapply keepsSwitch_trans; [apply (resetHistoryTrackingInterval_switch s)|].
    split_conditions; by split.
Qed.

Lemma recordTransaction_switch sb tx s : keepsSwitch s (recordTransaction sb tx s).
Proof.
    unfold recordTransaction, truncateUndoStack.
    destruct (isStaging s); [destruct (getStagingTransactions s) as [[|]|]|];
      cbn; split_conditions; by split.
Qed.

Lemma commit_switch tx b s : keepsSwitch s (commit tx b s).
Proof.
    unfold commit, onDocumentTransact, getSelection.
    set (s1 := onDocumentPreSynchronize tx _).
    assert (H1 : keepsSwitch s s1).
    { subst s1. unfold onDocumentPreSynchronize, onDocumentPreCommit. cbn. by split. }
    eapply keepsSwitch_trans; [exact H1|].
    eapply keepsSwitch_trans;
      [apply same_history_switch, setSelection_same_history|]. by split.
Qed.

Lemma changeLoop_switch skip sb txs : forall cc s,
    keepsSwitch s (snd (changeLoop skip sb txs (cc, s))).
Proof.
    induction txs as [|tx txs IH]; intros cc s; [apply keepsSwitch_refl|].
    rewrite changeLoop_cons. unfold changeStep.
    destruct (negb (isNoOp tx)); [|by apply IH].
    eapply keepsSwitch_trans; [|apply IH].
    eapply keepsSwitch_trans; [|apply commit_switch].
    destruct (negb skip); [apply recordTransaction_switch | apply keepsSwitch_refl].
Qed.

Lemma changeInternal_switch txs sel skip s :
    keepsSwitch s (changeInternal txs sel skip s).
Proof.
    destruct (enabled s) eqn:He;
      [|rewrite changeInternal_disabled by done; apply keepsSwitch_refl].
    destruct txs as [txs|].
    - eapply keepsSwitch_trans;
        [|apply same_past_switch, changeInternal_after_loop; done].
      eapply keepsSwitch_trans; [|apply changeLoop_switch].
      unfold startQueueingContextChanges. destruct (negb _); by split.
    - apply same_past_switch, changeInternal_no_transactions.
Qed.

Lemma popStaging_switch s : keepsSwitch s (snd (popStaging s)).
Proof.
    unfold popStaging. destruct (negb (isStaging s)); [apply keepsSwitch_refl|].
    destruct (JsArray.top (stagingStack s)) as [f|]; [|apply keepsSwitch_refl].
    cbn [snd].
    set (s1 := set_stagingStack _ s).
    assert (H1 : keepsSwitch s (changeInternal (Some (map reversed (rev (st_transactions f))))
                                  None true s1)).
    { eapply keepsSwitch_trans; [|apply changeInternal_switch]. by split. }
    destruct (negb (isStaging _)); [|done].
    eapply keepsSwitch_trans; [exact H1|].
    eapply keepsSwitch_trans; [apply startHistoryTracking_switch|]. by split.
Qed.

Lemma truncateUndoStack_switch s : keepsSwitch s (truncateUndoStack s).
Proof. unfold truncateUndoStack. destruct (negb _); by split. Qed.

Lemma applyStaging_switch s : keepsSwitch s (applyStaging s).
Proof.
    unfold applyStaging. destruct (negb (isStaging s)); [apply keepsSwitch_refl|].
    destruct (JsArray.top (stagingStack s)) as [f|]; [|apply keepsSwitch_refl].
    set (s1 := set_stagingStack _ s).
    assert (H1 : keepsSwitch s s1) by by split.
    cbn zeta.
    match goal with
    | |- keepsSwitch _ (if negb (isStaging ?mid) then _ else _) =>
        assert (H2 : keepsSwitch s1 mid); [|set (s2 := mid) in *]
    end.
    { destruct (isStaging s1).
      - set (s2 := set_stagingStack _ s1). destruct (getStaging s2) as [g|]; [|by split].
        destruct (sel_isNull _); by split.
      - eapply keepsSwitch_trans; [|apply breakpoint_switch].
        eapply keepsSwitch_trans; [apply truncateUndoStack_switch|]. by split. }
    cbn zeta. eapply keepsSwitch_trans; [exact H1|].
    eapply keepsSwitch_trans; [exact H2|].
    destruct (negb (isStaging s2)); [|apply keepsSwitch_refl].
    eapply keepsSwitch_trans; [apply startHistoryTracking_switch|]. by split.
Qed.

Lemma popAllStagingLoop_switch n : forall s transactions,
    keepsSwitch s (snd (popAllStagingLoop n transactions s)).
Proof.
    induction n as [|n IH]; intros s txs; [apply keepsSwitch_refl|].
    cbn [popAllStagingLoop].
    destruct (isStaging s); [|apply keepsSwitch_refl].
    pose proof (popStaging_switch s) as H1.
    destruct (popStaging s) as [popped s1].
    eapply keepsSwitch_trans; [exact H1|apply IH].
Qed.

Lemma popAllStaging_switch s : keepsSwitch s (snd (popAllStaging s)).
Proof.
    unfold popAllStaging. destruct (negb (isStaging s)); [apply keepsSwitch_refl|].
    pose proof (popAllStagingLoop_switch (length (stagingStack s)) s []) as H1.
    by destruct (popAllStagingLoop _ [] s).
Qed.

Lemma applyAllStagingLoop_switch n : forall s,
    keepsSwitch s (applyAllStagingLoop n s).
Proof.
    induction n as [|n IH]; intros s; [apply keepsSwitch_refl|].
    cbn [applyAllStagingLoop].
    destruct (isStaging s); [|apply keepsSwitch_refl].
    eapply keepsSwitch_trans; [apply applyStaging_switch|apply IH].
Qed.

Lemma pushStaging_switch allowUndo s : keepsSwitch s (pushStaging allowUndo s).
Proof.
    unfold pushStaging. destruct (negb (isStaging s)); [|by split].
    eapply keepsSwitch_trans; [apply breakpoint_switch|].
    eapply keepsSwitch_trans; [apply stopHistoryTracking_switch|]. by split.
Qed.

Lemma undo_switch s : keepsSwitch s (undo s).
Proof.
    unfold undo. destruct (negb (canUndo s)); [apply keepsSwitch_refl|].
    set (s1 := if isStaging s then snd (popAllStaging s) else s).
    assert (H1 : keepsSwitch s s1).
    { subst s1. destruct (isStaging s);
        [apply popAllStaging_switch | apply keepsSwitch_refl]. }
    cbn zeta.
    set (s2 := set_undoIndex _ (snd (breakpoint s1))).
    assert (H2 : keepsSwitch s s2).
    { eapply keepsSwitch_trans; [exact H1|].
      eapply keepsSwitch_trans; [apply breakpoint_switch|]. by split. }
    destruct (JsArray.get _ _); [|done].
    eapply keepsSwitch_trans; [exact H2|apply changeInternal_switch].
Qed.

Lemma redo_switch s : keepsSwitch s (redo s).
Proof.
    unfold redo. destruct (negb (canRedo s)); [apply keepsSwitch_refl|].
    cbn zeta. destruct (JsArray.get _ _); [|apply breakpoint_switch].
    eapply keepsSwitch_trans; [apply breakpoint_switch|].
    eapply keepsSwitch_trans; [|apply changeInternal_switch]. by split.
Qed.

  (** X28. No timer of automatic checkpoints runs on a disabled surface,
      whatever is called: [disable()] stops the timer before it disables
      the surface, and on a disabled surface [startHistoryTracking()],
      [initialize()] and the methods that restart the timer
      ([breakpoint()], the staging methods, [undo()], [redo()]) do not
      start it. *)
Theorem disabled_surface_has_no_timer (s : t) :
    idleWhenDisabled s ->
    historyTrackingInterval (disable s) = false
    /\ idleWhenDisabled (enable s)
    /\ idleWhenDisabled (initialize s)
    /\ idleWhenDisabled (startHistoryTracking s)
    /\ idleWhenDisabled (stopHistoryTracking s)
    /\ idleWhenDisabled (resetHistoryTrackingInterval s)
    /\ idleWhenDisabled (snd (breakpoint s))
    /\ (forall txs sel, idleWhenDisabled (change txs sel s))
    /\ (forall sel, idleWhenDisabled (setSelection sel s))
    /\ idleWhenDisabled (undo s)
    /\ idleWhenDisabled (redo s)
    /\ (forall allowUndo, idleWhenDisabled (pushStaging allowUndo s))
    /\ idleWhenDisabled (snd (popStaging s))
    /\ idleWhenDisabled (applyStaging s)
    /\ idleWhenDisabled (snd (popAllStaging s))
    /\ idleWhenDisabled (applyAllStaging s).
Proof.
    intros Hidle.
    assert (Hkeep : forall s', keepsSwitch s s' -> idleWhenDisabled s').
    { intros s' Hk. by eapply keepsSwitch_idle. }
    split.
    { unfold disable, stopHistoryTracking. cbn.
      destruct (enabled s) eqn:He; cbn; [|by apply Hidle].
      destruct (historyTrackingInterval s) eqn:Ht; cbn; done. }
    split.
    { unfold idleWhenDisabled, enable, startHistoryTracking. cbn.
      destruct (negb (historyTrackingInterval s)); cbn; done. }
    repeat split_and; intros; apply Hkeep.
    - eapply keepsSwitch_trans; [apply startHistoryTracking_switch|]. by split.
    - apply startHistoryTracking_switch.
    - apply stopHistoryTracking_switch.
    - apply resetHistoryTrackingInterval_switch.
    - apply breakpoint_switch.
    - apply changeInternal_switch.
    - apply same_history_switch, setSelection_same_history.
    - apply undo_switch.
    - apply redo_switch.
    - apply pushStaging_switch.
    - apply popStaging_switch.
    - apply applyStaging_switch.
    - apply popAllStaging_switch.
    - apply applyAllStagingLoop_switch.
Qed.

End More.

(** *** The further properties on the small document model *)

Lemma popAllStaging_unwinds_all_frames_witness :
  let s := set_stagingStack
             [mkStaging [1] NullSelection true; mkStaging [0; 2; 3] NullSelection true]
             (Toy.fresh Toy.styled) in
  fst (popAllStaging s) = Some [1; 0; 2; 3]
  /\ isStaging (snd (popAllStaging s)) = false
  /\ documentModel (snd (popAllStaging s)) = commits [-3; -2; -1] Toy.styled
  /\ documentUpdates (events (snd (popAllStaging s))) = [-3; -2; -1]
  /\ getHistory (snd (popAllStaging s)) = getHistory s.
Proof.
  exact (popAllStaging_unwinds_all_frames (H := Toy.collaborators)
           (set_stagingStack
              [mkStaging [1] NullSelection true; mkStaging [0; 2; 3] NullSelection true]
              (Toy.fresh Toy.styled))
           eq_refl eq_refl).
Defined.

Lemma applyAllStaging_makes_one_checkpoint_witness :
  let s := set_stagingStack
             [mkStaging [1] NullSelection true; mkStaging [2; 3] NullSelection true]
             Toy.undone in
  isStaging (applyAllStaging s) = false
  /\ documentModel (applyAllStaging s) = documentModel s
  /\ getHistory (applyAllStaging s) = [[1]; [1; 2; 3]]
  /\ canRedo (applyAllStaging s) = false.
Proof.
  exact (applyAllStaging_makes_one_checkpoint (H := Toy.collaborators)
           (set_stagingStack
              [mkStaging [1] NullSelection true; mkStaging [2; 3] NullSelection true]
              Toy.undone)
           eq_refl eq_refl eq_refl).
Defined.

Lemma undo_reverts_last_checkpoint_witness :
  let s := set_newTransactions (H := Toy.collaborators) [3; 4] (Toy.fresh Toy.styled) in
  exists txs,
    last (getHistory s) = Some txs
    /\ getHistory (undo s) = removelast (getHistory s)
    /\ canRedo (undo s) = true
    /\ (isStaging s = false ->
        documentModel (undo s)
        = commits (effective (map reversed (rev txs))) (documentModel s)).
Proof.
  apply (undo_reverts_last_checkpoint (H := Toy.collaborators)
           (set_newTransactions (H := Toy.collaborators) [3; 4] (Toy.fresh Toy.styled))).
  - split; [simpl; lia | reflexivity].
  - reflexivity.
Defined.

Lemma redo_applies_next_checkpoint_witness :
  exists txs,
    nth_error (map ui_transactions (undoStack Toy.undone)) (length (getHistory Toy.undone))
    = Some txs
    /\ getHistory (redo Toy.undone) = getHistory Toy.undone ++ [txs]
    /\ undoIndex (redo Toy.undone) = undoIndex Toy.undone - 1
    /\ documentModel (redo Toy.undone)
       = commits (effective txs) (documentModel Toy.undone).
Proof.
  apply (redo_applies_next_checkpoint (H := Toy.collaborators) Toy.undone).
  - split; [simpl; lia | intros Hne; exfalso; apply Hne; reflexivity].
  - reflexivity.
Defined.

Lemma redo_after_undo_witness :
  let s := set_newTransactions (H := Toy.collaborators) [3; 4] (Toy.fresh Toy.styled) in
  getHistory (redo (undo s)) = getHistory s
  /\ undoIndex (redo (undo s)) = undoIndex s
  /\ documentModel (redo (undo s)) = documentModel s.
Proof.
  destruct (redo_after_undo (H := Toy.collaborators)
              (set_newTransactions (H := Toy.collaborators) [3; 4] (Toy.fresh Toy.styled)))
    as (Hh & Hi & Hd).
  - split; [simpl; lia | reflexivity].
  - reflexivity.
  - split; [exact Hh | split; [exact Hi |]].
    apply Hd.
    + reflexivity.
    + intros tx d. simpl. unfold Toy.shift. rewrite map_map.
      rewrite <- (map_id d) at 2. apply map_ext. intros [c a]. simpl. f_equal. lia.
    + intros tx. simpl. destruct (Z.eqb_spec tx 0), (Z.eqb_spec (- tx) 0); try reflexivity; lia.
Defined.

Lemma history_stays_in_order_witness :
  (forall txs sel, historyOk (change txs sel Toy.undone))
  /\ (forall txs sel skip, historyOk (changeInternal txs sel skip Toy.undone))
  /\ (forall sel, historyOk (setSelection sel Toy.undone))
  /\ historyOk (snd (breakpoint Toy.undone))
  /\ historyOk (truncateUndoStack Toy.undone)
  /\ historyOk (undo Toy.undone)
  /\ historyOk (redo Toy.undone)
  /\ (forall allowUndo, historyOk (pushStaging allowUndo Toy.undone))
  /\ historyOk (snd (popStaging Toy.undone))
  /\ historyOk (applyStaging Toy.undone)
  /\ historyOk (snd (popAllStaging Toy.undone))
  /\ historyOk (applyAllStaging Toy.undone).
Proof.
  apply (history_stays_in_order (H := Toy.collaborators) Toy.undone).
  split; [simpl; lia | intros Hne; exfalso; apply Hne; reflexivity].
Defined.

Lemma queued_context_changes_are_collapsed_witness :
  stopQueueingContextChanges
    (Nat.iter 3 emitContextChange (startQueueingContextChanges (Toy.fresh Toy.styled)))
  = emit EvContextChange (set_contextChangeQueued false (Toy.fresh Toy.styled)).
Proof.
  exact (queued_context_changes_are_collapsed (H := Toy.collaborators) 3
           (Toy.fresh Toy.styled) eq_refl).
Defined.

Lemma hasBeenModified_iff_history_witness :
  hasBeenModified Toy.undone = true <-> getHistory Toy.undone <> [].
Proof.
  apply (hasBeenModified_iff_history (H := Toy.collaborators) Toy.undone).
  simpl. lia.
Defined.

Lemma setSelection_announces_changes_witness :
  let sel := LinearSelection (H := Toy.collaborators) (Range.mk 1 1) in
  selection (setSelection sel (Toy.fresh Toy.styled)) = sel
  /\ selectionEvents (events (setSelection sel (Toy.fresh Toy.styled)))
     = [EvSelect sel; EvFocus].
Proof.
  exact (setSelection_announces_changes (H := Toy.collaborators)
           (LinearSelection (Range.mk 1 1)) (Toy.fresh Toy.styled) eq_refl eq_refl).
Defined.

Lemma change_is_recorded_in_history_witness :
  getHistory (change (H := Toy.collaborators) (H0 := Toy.selectionOps) (Some [0; 3; 0; 4]) None Toy.undone)
  = removelast [[1]; [2]] ++ [[3; 4]].
Proof.
  apply (change_is_recorded_in_history (H := Toy.collaborators) [0; 3; 0; 4] None Toy.undone).
  - reflexivity.
  - reflexivity.
  - simpl. discriminate.
Defined.

Lemma disabled_surface_has_no_timer_witness :
  historyTrackingInterval (disable Toy.disabled) = false
  /\ idleWhenDisabled (enable Toy.disabled)
  /\ idleWhenDisabled (initialize Toy.disabled)
  /\ idleWhenDisabled (startHistoryTracking Toy.disabled)
  /\ idleWhenDisabled (stopHistoryTracking Toy.disabled)
  /\ idleWhenDisabled (resetHistoryTrackingInterval Toy.disabled)
  /\ idleWhenDisabled (snd (breakpoint Toy.disabled))
  /\ (forall txs sel, idleWhenDisabled (change txs sel Toy.disabled))
  /\ (forall sel, idleWhenDisabled (setSelection sel Toy.disabled))
  /\ idleWhenDisabled (undo Toy.disabled)
  /\ idleWhenDisabled (redo Toy.disabled)
  /\ (forall allowUndo, idleWhenDisabled (pushStaging allowUndo Toy.disabled))
  /\ idleWhenDisabled (snd (popStaging Toy.disabled))
  /\ idleWhenDisabled (applyStaging Toy.disabled)
  /\ idleWhenDisabled (snd (popAllStaging Toy.disabled))
  /\ idleWhenDisabled (applyAllStaging Toy.disabled).
Proof.
  apply (disabled_surface_has_no_timer (H := Toy.collaborators) Toy.disabled).
  intros _. reflexivity.
Defined.

End SurfaceProofs.

(** ** Vocabulary of the converter's properties *)

Module ConverterSpec.

Import Converter.

Section Vocabulary.

Context `{Registry}.

(** The element markers of linear data, by type; characters have
    none. *)
Definition tokens (w : World) (items : list Item) : list string :=
  omap (typeOfItem w) items.

(** Reading markers against the stack of the elements that are open:
    an open marker goes on the stack, a close marker ['/' + type] takes
    the open marker of its type off the top. *)
Fixpoint reduce (open : list string) (ts : list string) : option (list string) :=
  match ts with
  | [] => Some open
  | t :: r =>
      if notClosing t then reduce (t :: open) r
      else
        match open with
        | top :: open' =>
            if String.eqb (String.append "/" top) t then reduce open' r else None
        | [] => None
        end
  end.

(** Balanced and well nested: every open marker is closed by the marker
    of its type, in order, and nothing else is closed. *)
Definition balanced (ts : list string) : bool :=
  match reduce [] ts with
  | Some [] => true
  | _ => false
  end.

Definition isCharItem (it : Item) : bool :=
  match it with Ref _ => false | _ => true end.

Definition valueTypes (vs : list ItemValue) : list string :=
  omap (fun v => match v with VElem e => Some (type e) | _ => None end) vs.

Definition isElementValue (v : ItemValue) : bool :=
  match v with VElem _ => true | _ => false end.

(** The white-space record of an element, if it has one, has its first
    slot. *)
Definition whitespaceOk (e : Element) : Prop :=
  match (internal e) ≫= whitespace with
  | None => True
  | Some ws => is_Some (outerPre ws)
  end.

(** An element that comes without a white-space record. *)
Definition plainValue (v : ItemValue) : bool :=
  match v with
  | VElem e => match (internal e) ≫= whitespace with None => true | Some _ => false end
  | _ => true
  end.

(** What the converter relies on in the data a model class returns: it
    is empty, or it starts with an element of a registered type, brings
    no white-space records, is a single open element or a balanced
    sequence, and consists of elements when it is a meta item's. *)
Definition valuesContract (vs : list ItemValue) : Prop :=
  vs = [] \/
  exists e rest c,
    vs = VElem e :: rest
    /\ lookup (Some (type e)) = Some c
    /\ forallb plainValue vs = true
    /\ (if (length vs =? 1)%nat then notClosing (type e) = true
        else balanced (valueTypes vs) = true)
    /\ (extends c MetaItemClass = true -> forallb isElementValue vs = true).

(** The contract of the registries and the alien classes with the
    converter. *)
Record RegistryContract : Prop := {
  rc_registered :
    forall name c nodes stack vs,
      lookup name = Some c ->
      valuesOf (toDataElement c nodes stack) = Some vs ->
      valuesContract vs;
  rc_alien_is_node :
    extends AlienNode AnnotationClass = false
    /\ extends AlienNode MetaItemClass = false;
  rc_alien :
    forall nodes stack,
    exists vs,
      valuesOf (toDataElement AlienNode nodes stack) = Some vs
      /\ vs <> [] /\ valuesContract vs
      /\ forall e rest c,
           vs = VElem e :: rest -> lookup (Some (type e)) = Some c ->
           extends c AnnotationClass = false /\ extends c MetaItemClass = false;
  rc_alienMeta :
    forall nodes stack,
    exists e,
      valuesOf (toDataElement AlienMetaItem nodes stack) = Some [VElem e]
      /\ notClosing (type e) = true
      /\ plainValue (VElem e) = true
}.

(** A child element that is marked to be ignored. *)
Definition ignored (childNode : DomNode) : bool :=
  match getAttribute childNode "data-ve-ignore" with
  | Some v => negb (isEmptyString v)
  | None => false
  end.

(** The DOM nodes an alien node is made of. *)
Definition alienNodes (childNode : DomNode) (siblings : list DomNode) : list DomNode :=
  if enableAboutGrouping AlienNode then getAboutGroup childNode siblings
  else [childNode].

(** A child element that is not recognized: no model is registered for
    it, or the model that is declines it, [toDataElement] returning
    [null]. *)
Definition unrecognized (childNode : DomNode) (siblings : list DomNode)
    (stack : list Context) : Prop :=
  let aboutGroup := getAboutGroup childNode siblings in
  let modelName := matchElement childNode (1 <? length aboutGroup)%nat in
  match lookup modelName with
  | None => True
  | Some modelClass =>
      let childNodes :=
        if extends modelClass AnnotationClass then [childNode]
        else if enableAboutGrouping modelClass then aboutGroup else [childNode] in
      valuesOf (toDataElement modelClass childNodes stack) = None
  end.

(** A wrapper element handed to [getDataFromDomSubtree] is an open
    element that exists. *)
Definition wrapperOk (w : World) (wrapperElement : option nat) : Prop :=
  match wrapperElement with
  | Some x => exists e, heap w !! x = Some e /\ notClosing (type e) = true
  | None => True
  end.

(** What a call does to the world and what it returns: element objects
    are only added, those that were there are left as they were, but
    for the wrapper element, which keeps its type; the data refers to
    objects that exist and is balanced. *)
Record Converted (w : World) (wrapperElement : option nat)
    (items : list Item) (w' : World) : Prop := {
  cv_grows : (length (heap w) <= length (heap w'))%nat;
  cv_frame :
    forall x, (x < length (heap w))%nat -> Some x <> wrapperElement ->
              heap w' !! x = heap w !! x;
  cv_wrapper :
    forall x, wrapperElement = Some x ->
              type <$> (heap w' !! x) = type <$> (heap w !! x);
  cv_valid : forall x, In (Ref x) items -> (x < length (heap w'))%nat;
  cv_balanced : balanced (tokens w' items) = true
}.

(** The recursive call, as the function that is called. *)
Definition Recursion : Type :=
  DomNode -> option nat -> option AnnotationSet.t -> list Context ->
  World -> Result (list Item * World).

(** What the recursion is assumed to do on a DOM node. *)
Definition Converts (recurse : Recursion) (node : DomNode) : Prop :=
  forall wrapperElement annotationSet stack w,
    wrapperOk w wrapperElement ->
    exists items w',
      recurse node wrapperElement annotationSet stack w = Returned (items, w')
      /\ Converted w wrapperElement items w'.

(** The types of the elements that are open at the end of the data of
    a call in progress: the wrapper paragraph, when one is open, above
    the wrapper element. *)
Definition openTypes (w0 : World) (wrapperElement : option nat) (l : Locals)
  : list string :=
  (if canCloseWrapper (context l) then ["paragraph"%string] else [])
  ++ match wrapperElement ≫= (fun x => type <$> (heap w0 !! x)) with
     | Some t => [t]
     | None => []
     end.

(** A queued meta item: an element made by this call, with its white
    space in order. *)
Definition queuedOk (w0 w : World) (it : Item) : Prop :=
  exists x e,
    it = Ref x /\ (length (heap w0) <= x)%nat
    /\ heap w !! x = Some e /\ whitespaceOk e.

(** The invariant of the loop over the children, for a call that
    started in world [w0]. *)
Record Invariant (w0 : World) (wrapperElement : option nat)
    (l : Locals) (w : World) : Prop := {
  inv_grows : (length (heap w0) <= length (heap w))%nat;
  inv_frame :
    forall x, (x < length (heap w0))%nat -> Some x <> wrapperElement ->
              heap w !! x = heap w0 !! x;
  inv_wrapper :
    forall x, wrapperElement = Some x ->
              (x < length (heap w0))%nat
              /\ type <$> (heap w !! x) = type <$> (heap w0 !! x);
  inv_valid : forall x, In (Ref x) (data l) -> (x < length (heap w))%nat;
  inv_open : reduce [] (tokens w (data l)) = Some (openTypes w0 wrapperElement l);
  inv_queue_balanced : balanced (tokens w (wrappedMetaItems l)) = true;
  inv_queue : Forall (queuedOk w0 w) (wrappedMetaItems l);
  inv_queue_length : length (wrappedMetaItems l) <> 1%nat;
  inv_prev :
    match prevElement l with
    | None => True
    | Some (Ref p) =>
        (length (heap w0) <= p < length (heap w))%nat
        /\ ~ In (Ref p) (wrappedMetaItems l)
    | Some _ => False
    end;
  inv_wrapping :
    if canCloseWrapper (context l)
    then inWrapper (context l) = true
         /\ expectingContent (context l) = true
         /\ originallyExpectingContent (context l) = false
         /\ exists p, wrappingParagraph l = Some p
                      /\ (length (heap w0) <= p < length (heap w))%nat
    else expectingContent (context l) = originallyExpectingContent (context l)
         /\ wrappedMetaItems l = []
         /\ wrappingParagraph l = None
}.

(** The white space last written to the data is still at its end, as
    long as the wrapper it was written into can be closed. *)
Definition WhitespaceAtEnd (l : Locals) : Prop :=
  canCloseWrapper (context l) = true ->
  wrappedWhitespace l <> [] ->
  exists A W,
    data l = A ++ W
    /\ length A = wrappedWhitespaceIndex l
    /\ length W = length (wrappedWhitespace l)
    /\ forallb isCharItem W = true.

(** The world after a new element object, and after a change to one. *)
Definition allocated (e : Element) (w : World) : World :=
  mkWorld (heap w ++ [e]) (store w).

Definition mutated (r : nat) (f : Element -> Element) (w : World) : World :=
  mkWorld (alter f r (heap w)) (store w).

(** The world after [addWhitespace] on an element that can take it. *)
Definition whitespaceAdded (element : option Item) (index : nat)
    (ws : option JsString) (w : World) : World :=
  match ws, element with
  | Some (c :: v), Some (Ref r) => mutated r (addWhitespaceTo index (c :: v)) w
  | _, _ => w
  end.

(** How the world moves during a call that started in [w0]: objects are
    added, an object keeps its type, and the objects [w0] had are left
    as they are, but for the wrapper element. *)
Record Evolved (w0 : World) (wrapperElement : option nat) (w w' : World) : Prop := {
  ev_grows : (length (heap w) <= length (heap w'))%nat;
  ev_types :
    forall x, (x < length (heap w))%nat ->
              type <$> (heap w' !! x) = type <$> (heap w !! x);
  ev_frame :
    forall x, (x < length (heap w0))%nat -> Some x <> wrapperElement ->
              heap w' !! x = heap w !! x
}.

(** The items [allocValues] makes of values, the first new object
    getting the reference [n], and the objects it adds. *)
Fixpoint itemsFor (n : nat) (vs : list ItemValue) : list Item :=
  match vs with
  | [] => []
  | VChr c :: r => Chr c :: itemsFor n r
  | VAnnChr c a :: r => AnnChr c a :: itemsFor n r
  | VElem _ :: r => Ref n :: itemsFor (S n) r
  end.

Definition elementsOf (vs : list ItemValue) : list Element :=
  omap (fun v => match v with VElem e => Some e | _ => None end) vs.

(** The variables and the world as [startWrapping] leaves them; [p] is
    the reference of the wrapper paragraph. *)
Definition startedLocals (l : Locals) (p : nat) : Locals :=
  set_nextWhitespace []
    (set_context
       (set_expectingContent true
          (set_canCloseWrapper true (set_inWrapper true (context l))))
       (set_data (data l ++ [Ref p]) (set_wrappingParagraph (Some p) l))).

Definition startedWorld (l : Locals) (w : World) : World :=
  whitespaceAdded (Some (Ref (length (heap w)))) 0 (Some (nextWhitespace l))
    (allocated wrapperParagraphElement w).

(** The variables as [stopWrapping] leaves them, with the data and the
    white space it ends with. *)
Definition stoppedLocals (l : Locals) (D : list Item) (nw : JsString) : Locals :=
  set_context
    (set_expectingContent (originallyExpectingContent (context l))
       (set_canCloseWrapper false (set_inWrapper false (context l))))
    (set_wrappingParagraph None
       (set_wrappedMetaItems [] (set_data D (set_nextWhitespace nw l)))).

(** A world that only has more objects, and changes of the objects
    past those of [w]. *)
Definition Extended (w w' : World) : Prop :=
  (length (heap w) <= length (heap w'))%nat
  /\ forall x, (x < length (heap w))%nat -> heap w' !! x = heap w !! x.

(** Data elements as [createDataElements] returns them for a node or a
    meta item: made by this call, with an element first, open when it
    is the only item, and balanced otherwise. *)
Definition Created (w0 w : World) (items : list Item) : Prop :=
  (forall x, In (Ref x) items -> (length (heap w0) <= x < length (heap w))%nat)
  /\ exists x e rest,
       items = Ref x :: rest
       /\ heap w !! x = Some e
       /\ if (length items =? 1)%nat then notClosing (type e) = true
          else balanced (tokens w items) = true.

(** An element among the children is alienated: it is converted as a
    node, from the data elements the alien node makes of it, the first
    of which keeps the DOM nodes. *)
Definition alienated (recurse : Recursion) (stack : list Context)
    (childNode : DomNode) (siblings : list DomNode) (l : Locals) (w : World) : Prop :=
  let domElements := alienNodes childNode siblings in
  exists e rest,
    valuesOf (toDataElement AlienNode domElements (stack ++ [context l]))
    = Some (VElem e :: rest)
    /\ originalDomElements (withOriginalDomElements domElements e) = Some domElements
    /\ convertElement recurse stack childNode siblings l w
       = convertChildNode recurse stack childNode (getAboutGroup childNode siblings)
           domElements
           (Ref (length (heap w)) :: itemsFor (S (length (heap w))) rest)
           l
           (mkWorld (heap w ++ withOriginalDomElements domElements e :: elementsOf rest)
              (store w)).

(** An element with white space in a slot of its record, as
    [addWhitespace] leaves it: the empty string is not stored. *)
Definition withWhitespace (index : nat) (ws : JsString) (e : Element) : Element :=
  match ws with
  | [] => e
  | _ => addWhitespaceTo index ws e
  end.

(** A child the loop over the children passes over: an element marked
    to be ignored, an empty text node, a node that is neither an
    element, a comment nor text. *)
Definition passedOver (childNode : DomNode) : bool :=
  match childNode with
  | ElementNode _ _ _ => ignored childNode
  | CommentNode _ => false
  | TextNode text => match text with [] => true | _ => false end
  | OtherNode _ => true
  end.

(** Whether [getDataFromDomSubtree] puts an empty paragraph into an
    element of type [t] that got no data: the element is not a
    paragraph, the conversion is not inside a wrapper paragraph, the
    element cannot contain content and is not content itself, and a
    paragraph is a valid child of it. *)
Definition takesEmptyParagraph (t : string) (stack : list Context) : bool :=
  negb (String.eqb t "paragraph")
  && negb (match last stack with Some p => inWrapper p | None => false end)
  && negb (canNodeContainContent t)
  && negb (isNodeContent (Some t))
  && match getChildNodeTypes t with
     | None => true
     | Some childTypes => existsb (String.eqb "paragraph") childTypes
     end.

(** A step leaves the type of the branch as it is. *)
Definition KeepsBranch {A} (m : Step A) : Prop :=
  forall l w a l' w',
    m l w = Returned (a, l', w') ->
    branchType (context l') = branchType (context l).

(** The world after [storeIndex]. *)
Definition indexed (a : Annotation) (w : World) : World :=
  match indexOf a (store w) 0 with
  | Some _ => w
  | None => mkWorld (heap w) (store w ++ [a])
  end.

(** A step returns, with a result, variables and a world that satisfy
    [post]. *)
Definition Does {A} (m : Step A) (l : Locals) (w : World)
    (post : A -> Locals -> World -> Prop) : Prop :=
  exists a l' w', m l w = Returned (a, l', w') /\ post a l' w'.

(** A step of a call that started in [w0] runs through: it returns,
    and the invariant holds again, with the white space written last at
    the end of the data. *)
Definition Runs {A} (w0 : World) (wrapperElement : option nat) (m : Step A)
    (l : Locals) (w : World) : Prop :=
  exists a l' w',
    m l w = Returned (a, l', w')
    /\ Invariant w0 wrapperElement l' w'
    /\ WhitespaceAtEnd l'.

(** An element as a later step may leave it: its type, its attributes
    and its DOM nodes are kept. *)
Definition sameNode (e e' : Element) : Prop :=
  type e' = type e /\ attributes e' = attributes e
  /\ originalDomElements e' = originalDomElements e.

(** The element objects of [w] are still there in [w'], each as the
    same node. *)
Definition NodesKept (w w' : World) : Prop :=
  forall x e, heap w !! x = Some e ->
              exists e', heap w' !! x = Some e' /\ sameNode e e'.

(** The element references of [d] are still in [d']. *)
Definition RefsKept (d d' : list Item) : Prop :=
  forall x, In (Ref x) d -> In (Ref x) d'.

(** What holds of the result of a step, when it returns. *)
Definition Ensures {A} (m : Step A) (l : Locals) (w : World)
    (post : A -> Locals -> World -> Prop) : Prop :=
  forall a l' w', m l w = Returned (a, l', w') -> post a l' w'.

(** A step keeps the element objects as the nodes they are. *)
Definition KeepsNodes {A} (m : Step A) : Prop :=
  forall l w, Ensures m l w (fun _ _ w' => NodesKept w w').

(** A step keeps the element references of the data. *)
Definition KeepsRefs {A} (m : Step A) : Prop :=
  forall l w, Ensures m l w (fun _ l' _ => RefsKept (data l) (data l')).

(** A recursive call keeps the element objects as the nodes they
    are. *)
Definition RecursionKeepsNodes (recurse : Recursion) : Prop :=
  forall node wrapperElement annotationSet stack w items w',
    recurse node wrapperElement annotationSet stack w = Returned (items, w') ->
    NodesKept w w'.

(** A recursive call with a wrapper element returns data that has the
    wrapper element in it. *)
Definition ReturnsWrapper (recurse : Recursion) (node : DomNode) : Prop :=
  forall x annotationSet stack w items w',
    wrapperOk w (Some x) ->
    recurse node (Some x) annotationSet stack w = Returned (items, w') ->
    In (Ref x) items.

(** The variables a call starts with. *)
Definition initialLocals (wrapperElement : option nat)
    (annotationSet : option AnnotationSet.t) (stack : list Context) (w : World) : Locals :=
  mkLocals (match wrapperElement with Some x => [Ref x] | None => [] end)
    [] [] O [] None None
    (initialContext (wrapperElement ≫= (fun x => type <$> (heap w !! x)))
       annotationSet stack).

(** The loop over the children comes to the node after [before]: no
    node before it has an [about] group that extends to it. *)
Fixpoint reached (before rest : list DomNode) : bool :=
  match before with
  | [] => true
  | n :: before' =>
      (length (getAboutGroup n (before' ++ rest)) <=? S (length before'))%nat
      && reached before' rest
  end.

(** A node the loop over the children converts as an element. *)
Definition convertedAsElement (childNode : DomNode) : bool :=
  match childNode with
  | ElementNode _ _ _ | CommentNode _ => true
  | _ => false
  end.

(** The element object [x] is an alien node made of the DOM nodes
    [domElements] by a call that started with [lo] element objects: it
    has the type and the attributes of the element that the alien node
    class returns for them, and keeps the DOM nodes. *)
Definition AlienAt (domElements : list DomNode) (stack : list Context) (lo x : nat)
    (w : World) : Prop :=
  exists e cx e0 rest,
    heap w !! x = Some e /\ (lo <= x)%nat
    /\ valuesOf (toDataElement AlienNode domElements (stack ++ [cx]))
       = Some (VElem e0 :: rest)
    /\ type e = type e0 /\ attributes e = attributes e0
    /\ originalDomElements e = Some domElements.

(** Data elements that start with such an alien node, open when it is
    the only item. *)
Definition IsAlien (domElements : list DomNode) (stack : list Context) (lo : nat)
    (items : list Item) (w : World) : Prop :=
  exists x rest,
    items = Ref x :: rest
    /\ AlienAt domElements stack lo x w
    /\ (length items = 1%nat ->
        forall e, heap w !! x = Some e -> notClosing (type e) = true).

(** The data has the alien node made of a child element and its
    [about] group. *)
Definition alienatedIn (stack : list Context) (childNode : DomNode)
    (siblings : list DomNode) (w : World) (items : list Item) (w' : World) : Prop :=
  exists x,
    In (Ref x) items
    /\ AlienAt (alienNodes childNode siblings) stack (length (heap w)) x w'.

End Vocabulary.

End ConverterSpec.

(** * Properties of the converter *)

Module ConverterProofs.

Import Converter.

Section Annotations.

Context `{Registry}.

  (** C5. Minimal annotation diff, on the example of the design notes:
      with the current set [Bold, Italic] (Bold opened first) and the
      target set [Italic, Underline], where Bold is neither in the target
      set nor comparable to anything in it, the close callback is called
      on Italic then on Bold, then the open callback on Italic then on
      Underline, and the current set ends equal to the target set, in
      order. *)
Theorem openAndCloseAnnotations_bold_italic_underline (bold italic underline : nat) :
    bold <> italic ->
    bold <> underline ->
    containsComparableForSerialization [italic; underline] bold = false ->
    openAndCloseAnnotations [bold; italic] [italic; underline]
    = ([CloseCall italic; CloseCall bold; OpenCall italic; OpenCall underline],
       [italic; underline]).
Proof.
    intros Hbi Hbu Hcmp.
    unfold openAndCloseAnnotations. cbn [findStartClosingAt].
    rewrite Hcmp.
    assert (Hc : AnnotationSet.containsIndex [italic; underline] bold = false).
    { unfold AnnotationSet.containsIndex; cbn.
      apply Nat.eqb_neq in Hbi, Hbu. by rewrite Hbi, Hbu. }
    rewrite Hc. cbn. reflexivity.
Qed.

End Annotations.

Lemma openAndCloseAnnotations_bold_italic_underline_witness :
  openAndCloseAnnotations (H := ToyHtml.registry) [1; 2]%nat [2; 3]%nat
  = ([CloseCall 2; CloseCall 1; OpenCall 2; OpenCall 3], [2; 3]%nat).
Proof.
  apply (openAndCloseAnnotations_bold_italic_underline (H := ToyHtml.registry)
           1%nat 2%nat 3%nat).
  - lia.
  - lia.
  - reflexivity.
Defined.

Import ConverterSpec.

Section Markers.

Context `{Registry}.

Lemma reduce_app open a b :
    reduce open (a ++ b) = reduce open a ≫= (fun open' => reduce open' b).
Proof.
    revert open; induction a as [|t a IH]; intros open; cbn; [done|].
    destruct (notClosing t); [apply IH|].
    destruct open as [|top open']; [done|].
    destruct (String.eqb _ _); [apply IH | done].
Qed.

Lemma reduce_below open ts open' below :
    reduce open ts = Some open' ->
    reduce (open ++ below) ts = Some (open' ++ below).
Proof.
    revert open; induction ts as [|t ts IH]; intros open; cbn.
    - by intros [= ->].
    - destruct (notClosing t); [apply (IH (t :: open))|].
      destruct open as [|top open0]; [done|]. cbn.
      destruct (String.eqb _ _); [apply IH | done].
Qed.

Lemma balanced_reduce ts open :
    balanced ts = true -> reduce open ts = Some open.
Proof.
    unfold balanced. destruct (reduce [] ts) as [[|]|] eqn:E; try done.
    intros _. apply (reduce_below [] ts [] open E).
Qed.

Lemma balanced_nil : balanced [] = true.
Proof. reflexivity. Qed.

Lemma balanced_app a b :
    balanced a = true -> balanced b = true -> balanced (a ++ b) = true.
Proof.
    intros Ha Hb. unfold balanced.
    rewrite reduce_app, (balanced_reduce a [] Ha). cbn.
    by rewrite (balanced_reduce b [] Hb).
Qed.

  (** A balanced sequence may be put anywhere. *)
Lemma reduce_insert open a b c open' :
    reduce open (a ++ c) = Some open' ->
    balanced b = true ->
    reduce open (a ++ b ++ c) = Some open'.
Proof.
    rewrite !reduce_app. destruct (reduce open a) as [mid|]; cbn; [|done].
    intros Hc Hb. by rewrite reduce_app, (balanced_reduce b mid Hb).
Qed.

Lemma notClosing_closing t : notClosing (String.append "/" t) = false.
Proof. reflexivity. Qed.

  (** An open element and the close marker made from its type. *)
Lemma balanced_pair t :
    notClosing t = true -> balanced [t; String.append "/" t] = true.
Proof.
    intros Ht. unfold balanced; cbn [reduce]. rewrite Ht, notClosing_closing.
    by rewrite String.eqb_refl.
Qed.

Lemma reduce_open open t :
    notClosing t = true -> reduce open [t] = Some (t :: open).
Proof. intros Ht; cbn. by rewrite Ht. Qed.

Lemma reduce_close open t :
    reduce (t :: open) [String.append "/" t] = Some open.
Proof. cbn [reduce]. by rewrite notClosing_closing, String.eqb_refl. Qed.

Lemma tokens_app w a b : tokens w (a ++ b) = tokens w a ++ tokens w b.
Proof. apply omap_app. Qed.

Lemma tokens_chars w items :
    forallb isCharItem items = true -> tokens w items = [].
Proof.
    induction items as [|it items IH]; [done|]. cbn.
    destruct it; cbn; try done; intros; by apply IH.
Qed.

Lemma tokens_getDataContentFromText w text a :
    tokens w (getDataContentFromText text a) = [].
Proof.
    apply tokens_chars. unfold getDataContentFromText.
    destruct a as [a|]; [destruct (AnnotationSet.isEmpty a)|];
      induction text; cbn; auto.
Qed.

Lemma length_getDataContentFromText text a :
    length (getDataContentFromText text a) = length text.
Proof.
    unfold getDataContentFromText.
    destruct a as [a|]; [destruct (AnnotationSet.isEmpty a)|]; apply length_map.
Qed.

Lemma chars_getDataContentFromText text a :
    forallb isCharItem (getDataContentFromText text a) = true.
Proof.
    unfold getDataContentFromText.
    destruct a as [a|]; [destruct (AnnotationSet.isEmpty a)|];
      induction text; cbn; auto.
Qed.

Lemma no_ref_getDataContentFromText text a x :
    ~ In (Ref x) (getDataContentFromText text a).
Proof.
    unfold getDataContentFromText.
    destruct a as [a|]; [destruct (AnnotationSet.isEmpty a)|];
      rewrite in_map_iff; intros (c & Hc & _); done.
Qed.

  (** The markers of data depend on the types of its elements only. *)
Lemma tokens_same_types w w' items :
    (forall x, In (Ref x) items ->
               type <$> (heap w' !! x) = type <$> (heap w !! x)) ->
    tokens w' items = tokens w items.
Proof.
    induction items as [|it items IH]; intros Hty; [done|].
    unfold tokens in *. cbn [omap list_omap].
    rewrite IH by (intros; apply Hty; by right).
    destruct it; cbn; try done.
    by rewrite (Hty n) by (by left).
Qed.

End Markers.

(** Running the plumbing of a step. *)
Ltac run :=
  cbv beta iota zeta delta
    [mbind mret step_bind step_ret bind ret getLocals getWorld update
     updateWorld updateContext appendData].

Ltac fields :=
  cbn [data nextWhitespace wrappedWhitespace wrappedWhitespaceIndex wrappedMetaItems
       wrappingParagraph prevElement context set_data set_nextWhitespace
       set_wrappedWhitespace set_wrappedWhitespaceIndex set_wrappedMetaItems
       set_wrappingParagraph set_prevElement set_context
       cx_annotations branchType branchHasContent originallyExpectingContent
       expectingContent inWrapper canCloseWrapper set_expectingContent
       set_inWrapper set_canCloseWrapper heap store allocated mutated] in *.

Section Worlds.

Context `{Registry}.

Lemma Evolved_refl w0 wr w : Evolved w0 wr w w.
Proof. by constructor. Qed.

Lemma Evolved_trans w0 wr w1 w2 w3 :
    Evolved w0 wr w1 w2 -> Evolved w0 wr w2 w3 -> Evolved w0 wr w1 w3.
Proof.
    intros [g1 t1 f1] [g2 t2 f2]. constructor.
    - lia.
    - intros x Hx. rewrite t2 by lia. by apply t1.
    - intros x Hx Hw. rewrite f2 by done. by apply f1.
Qed.

Lemma Evolved_allocated w0 wr w e :
    (length (heap w0) <= length (heap w))%nat ->
    Evolved w0 wr w (allocated e w).
Proof.
    intros Hg. constructor; cbn.
    - rewrite length_app; cbn; lia.
    - intros x Hx. by rewrite lookup_app_l.
    - intros x Hx _. rewrite lookup_app_l; [done | lia].
Qed.

Lemma Evolved_store w0 wr w st : Evolved w0 wr w (mkWorld (heap w) st).
Proof. by constructor. Qed.

Lemma Evolved_mutated w0 wr w r f :
    (forall e, type (f e) = type e) ->
    (length (heap w0) <= r)%nat \/ Some r = wr ->
    Evolved w0 wr w (mutated r f w).
Proof.
    intros Hty Hr. constructor; cbn.
    - by rewrite length_alter.
    - intros x Hx. destruct (decide (r = x)) as [->|Hne].
      + rewrite list_lookup_alter_eq. destruct (heap w !! x); cbn; [|done].
        by rewrite Hty.
      + by rewrite list_lookup_alter_ne.
    - intros x Hx Hw. rewrite list_lookup_alter_ne; [done|].
      intros ->. destruct Hr as [Hr | Hr]; [lia | done].
Qed.

Lemma addWhitespaceTo_type index ws e : type (addWhitespaceTo index ws e) = type e.
Proof. reflexivity. Qed.

Lemma Evolved_whitespaceAdded w0 wr w r index ws :
    (length (heap w0) <= r)%nat \/ Some r = wr ->
    Evolved w0 wr w (whitespaceAdded (Some (Ref r)) index ws w).
Proof.
    intros Hr. unfold whitespaceAdded.
    destruct ws as [[|c v]|]; try apply Evolved_refl.
    apply Evolved_mutated; [apply addWhitespaceTo_type | done].
Qed.

  (** The invariant in a world that has moved on, as far as the queued
      meta items kept their white space in order. *)
Lemma Invariant_world w0 wr l w w' :
    Invariant w0 wr l w ->
    Evolved w0 wr w w' ->
    Forall (queuedOk w0 w') (wrappedMetaItems l) ->
    Invariant w0 wr l w'.
Proof.
    intros [] [g t f] Hq.
    assert (Hqv : forall x, In (Ref x) (wrappedMetaItems l) -> (x < length (heap w))%nat).
    { intros x Hx. rewrite Forall_forall in inv_queue0.
      apply list_elem_of_In in Hx.
      destruct (inv_queue0 _ Hx) as (x' & e & [= <-] & _ & He & _).
      by apply lookup_lt_Some in He. }
    constructor; try done.
    - lia.
    - intros x Hx Hw. rewrite f by done. by apply inv_frame0.
    - intros x Hx. destruct (inv_wrapper0 x Hx) as [Hlt Hty]. split; [done|].
      rewrite t by lia. done.
    - intros x Hx. specialize (inv_valid0 x Hx). lia.
    - rewrite (tokens_same_types w w'); [done|].
      intros x Hx. apply t. by apply inv_valid0.
    - rewrite (tokens_same_types w w'); [done|].
      intros x Hx. apply t. by apply Hqv.
    - destruct (prevElement l) as [[| |p]|]; try done.
      destruct inv_prev0. split; [lia | done].
    - destruct (canCloseWrapper (context l)); [|done].
      destruct inv_wrapping0 as (? & ? & ? & p & ? & ?).
      repeat split; try done. exists p. split; [done | lia].
Qed.

Lemma queuedOk_same w0 w w' it :
    queuedOk w0 w it ->
    (forall x, it = Ref x -> heap w' !! x = heap w !! x) ->
    queuedOk w0 w' it.
Proof.
    intros (x & e & -> & Hb & He & Hws) Hsame.
    exists x, e. by rewrite (Hsame x eq_refl).
Qed.

  (** Objects that are new, and changes to objects not in the queue, do
      not matter to the queue. *)
Lemma queue_allocated w0 w e q :
    Forall (queuedOk w0 w) q -> Forall (queuedOk w0 (allocated e w)) q.
Proof.
    intros Hq. eapply Forall_impl; [exact Hq|].
    intros it Hit. apply (queuedOk_same w0 w); [done|].
    intros x ->. destruct Hit as (x' & e' & [= <-] & _ & He & _).
    cbn. rewrite lookup_app_l; [done|]. by apply lookup_lt_Some in He.
Qed.

Lemma queue_mutated_other w0 w r f q :
    Forall (queuedOk w0 w) q -> ~ In (Ref r) q ->
    Forall (queuedOk w0 (mutated r f w)) q.
Proof.
    intros Hq Hr. rewrite Forall_forall in *. intros it Hit.
    apply (queuedOk_same w0 w); [by apply Hq|].
    intros x ->. cbn. rewrite list_lookup_alter_ne; [done|].
    intros ->. apply Hr. by apply list_elem_of_In.
Qed.

Lemma queue_mutated_ok w0 w r f q :
    Forall (queuedOk w0 w) q ->
    (forall e, whitespaceOk e -> whitespaceOk (f e)) ->
    Forall (queuedOk w0 (mutated r f w)) q.
Proof.
    intros Hq Hf. rewrite Forall_forall in *. intros it Hit.
    destruct (Hq it Hit) as (x & e & -> & Hb & He & Hws).
    destruct (decide (r = x)) as [->|Hne].
    - exists x, (f e). repeat split; try done; [|by apply Hf].
      cbn. by rewrite list_lookup_alter_eq, He.
    - exists x, e. repeat split; try done.
      cbn. by rewrite list_lookup_alter_ne.
Qed.

Lemma whitespaceOk_outerPre ws e :
    whitespaceOk (addWhitespaceTo 0 ws e).
Proof. unfold whitespaceOk, addWhitespaceTo; cbn. eauto. Qed.

End Worlds.

Section Helpers.

Context `{Registry}.

Lemma run_bind {A B} (m : Step A) (k : A -> Step B) l w a l' w' :
    m l w = Returned (a, l', w') -> (m ≫= k) l w = k a l' w'.
Proof. intros Hm. unfold mbind, step_bind, bind. by rewrite Hm. Qed.

Lemma addWhitespace_ref r index ws l w :
    addWhitespace (Some (Ref r)) index ws l w
    = Returned (tt, l, whitespaceAdded (Some (Ref r)) index ws w).
Proof. unfold addWhitespace, whitespaceAdded. by destruct ws as [[|c v]|]. Qed.

Lemma addWhitespace_nothing element index l w :
    addWhitespace element index None l w = Returned (tt, l, w).
Proof. reflexivity. Qed.

Lemma processNextWhitespace_ref r l w :
    processNextWhitespace (Some (Ref r)) l w
    = Returned (tt, set_nextWhitespace [] l,
                whitespaceAdded (Some (Ref r)) 0 (Some (nextWhitespace l)) w).
Proof.
    destruct l as [d nw ww wi q wp pe cx].
    unfold processNextWhitespace. run. fields.
    destruct nw as [|c v]; [reflexivity|].
    rewrite addWhitespace_ref. reflexivity.
Qed.

Lemma allocElement_run e l w :
    allocElement e l w = Returned (length (heap w), l, allocated e w).
Proof. reflexivity. Qed.

Lemma startWrapping_run l w :
    startWrapping l w
    = Returned (tt, startedLocals l (length (heap w)), startedWorld l w).
Proof.
    unfold startWrapping. run. rewrite allocElement_run.
    rewrite processNextWhitespace_ref.
    destruct l as [d nw ww wi q wp pe cx]. reflexivity.
Qed.

Lemma tokens_ref w x e :
    heap w !! x = Some e -> tokens w [Ref x] = [type e].
Proof. intros He. unfold tokens; cbn. by rewrite He. Qed.

Lemma typeOfItem_evolved w0 wr w w' x :
    Evolved w0 wr w w' -> (x < length (heap w))%nat ->
    typeOfItem w' (Ref x) = typeOfItem w (Ref x).
Proof. intros [_ t _] Hx. cbn. by apply t. Qed.

Lemma tokens_evolved w0 wr w w' items :
    Evolved w0 wr w w' ->
    (forall x, In (Ref x) items -> (x < length (heap w))%nat) ->
    tokens w' items = tokens w items.
Proof.
    intros [_ t _] Hv. apply tokens_same_types. intros x Hx. apply t. by apply Hv.
Qed.

Lemma startWrapping_Invariant w0 wr l w :
    Invariant w0 wr l w ->
    canCloseWrapper (context l) = false ->
    originallyExpectingContent (context l) = false ->
    Invariant w0 wr (startedLocals l (length (heap w))) (startedWorld l w)
    /\ Evolved w0 wr w (startedWorld l w).
Proof.
    intros Hinv Hcc Hoe.
    assert (Hev : Evolved w0 wr w (startedWorld l w)).
    { unfold startedWorld.
      eapply Evolved_trans; [apply Evolved_allocated, Hinv|].
      apply Evolved_whitespaceAdded. left. apply Hinv. }
    split; [|done].
    assert (Hq : wrappedMetaItems l = []).
    { pose proof (inv_wrapping _ _ _ _ Hinv) as Hw. rewrite Hcc in Hw. tauto. }
    assert (Hnew : exists e, heap (startedWorld l w) !! length (heap w) = Some e
                             /\ type e = "paragraph"%string).
    { unfold startedWorld, whitespaceAdded.
      destruct (nextWhitespace l) as [|c v]; cbn.
      - exists wrapperParagraphElement. split; [|done].
        rewrite lookup_app_r by lia. by rewrite Nat.sub_diag.
      - exists (addWhitespaceTo 0 (c :: v) wrapperParagraphElement). split; [|done].
        rewrite list_lookup_alter_eq, lookup_app_r by lia. by rewrite Nat.sub_diag. }
    destruct Hnew as (e & Hne & Hty).
    assert (Hlen : length (heap (startedWorld l w)) = S (length (heap w))).
    { unfold startedWorld, whitespaceAdded.
      destruct (nextWhitespace l) as [|c v]; cbn;
        rewrite ?length_alter, length_app; cbn; lia. }
    pose proof (Invariant_world w0 wr l w _ Hinv Hev) as Hinv'.
    rewrite Hq in Hinv'. specialize (Hinv' ltac:(constructor)).
    destruct Hinv'.
    destruct l as [d nw ww wi q wp pe [an bt bh oe ec iw cc]].
    unfold startedLocals. fields. subst.
    constructor; fields; try done.
    - intros x Hx. apply in_app_or in Hx as [Hx | [[= <-] | []]]; [by apply inv_valid0 | lia].
    - rewrite tokens_app, reduce_app, inv_open0. cbn [mbind option_bind].
      rewrite (tokens_ref _ _ _ Hne), Hty. unfold openTypes; fields. reflexivity.
    - repeat split; try done. exists (length (heap w)).
      split; [done|]. destruct Hinv. lia.
Qed.

  (** *** New data elements *)

Lemma allocValues_run vs : forall l w,
    allocValues vs l w
    = Returned (itemsFor (length (heap w)) vs, l,
                mkWorld (heap w ++ elementsOf vs) (store w)).
Proof.
    induction vs as [|v vs IH]; intros l w.
    - cbn. rewrite app_nil_r. by destruct w.
    - destruct v as [c | c a | e]; cbn [allocValues]; run.
      + rewrite IH. reflexivity.
      + rewrite IH. reflexivity.
      + rewrite allocElement_run, IH. fields.
        rewrite length_app, <- app_assoc. cbn [length app].
        rewrite Nat.add_1_r. reflexivity.
Qed.

Lemma elementsOf_cons e vs : elementsOf (VElem e :: vs) = e :: elementsOf vs.
Proof. reflexivity. Qed.

Lemma itemsFor_refs vs : forall n x,
    In (Ref x) (itemsFor n vs) -> (n <= x < n + length (elementsOf vs))%nat.
Proof.
    induction vs as [|v vs IH]; intros n x; [done|].
    destruct v as [c | c a | e]; cbn [itemsFor In].
    - intros [|Hx]; [done | by apply IH].
    - intros [|Hx]; [done | by apply IH].
    - rewrite elementsOf_cons. cbn [length].
      intros [[= <-]|Hx]; [lia|]. apply IH in Hx. lia.
Qed.

Lemma itemsFor_lookup vs : forall n x old,
    length old = n ->
    In (Ref x) (itemsFor n vs) ->
    exists e, (old ++ elementsOf vs) !! x = Some e /\ In (VElem e) vs.
Proof.
    induction vs as [|v vs IH]; intros n x old Hn; [done|].
    destruct v as [c | c a | e]; cbn [itemsFor In].
    - intros [|Hx]; [done|]. destruct (IH n x old Hn Hx) as (e & ? & ?).
      exists e. split; [done | by right].
    - intros [|Hx]; [done|]. destruct (IH n x old Hn Hx) as (e & ? & ?).
      exists e. split; [done | by right].
    - rewrite elementsOf_cons. intros [[= <-]|Hx].
      + exists e. split; [|by left].
        rewrite lookup_app_r by lia. by rewrite Hn, Nat.sub_diag.
      + destruct (IH (S n) x (old ++ [e])) as (e' & He' & Hin); [|done|].
        { rewrite length_app; cbn; lia. }
        exists e'. rewrite <- app_assoc in He'. split; [exact He' | by right].
Qed.

Lemma itemsFor_tokens vs : forall n old st,
    length old = n ->
    tokens (mkWorld (old ++ elementsOf vs) st) (itemsFor n vs) = valueTypes vs.
Proof.
    induction vs as [|v vs IH]; intros n old st Hn; [done|].
    destruct v as [c | c a | e]; unfold tokens, valueTypes in *; cbn.
    - by apply IH.
    - by apply IH.
    - rewrite lookup_app_r by lia. rewrite Hn, Nat.sub_diag. cbn.
      f_equal. specialize (IH (S n) (old ++ [e]) st).
      rewrite <- app_assoc in IH. apply IH.
      rewrite length_app; cbn; lia.
Qed.

Lemma itemsFor_length vs n : length (itemsFor n vs) = length vs.
Proof.
    revert n; induction vs as [|v vs IH]; intros n; [done|].
    destruct v; cbn; by rewrite IH.
Qed.

Lemma itemsFor_elements vs n :
    forallb isElementValue vs = true ->
    Forall (fun it => exists x, it = Ref x) (itemsFor n vs).
Proof.
    revert n; induction vs as [|v vs IH]; intros n; [constructor|].
    destruct v; cbn; try done. intros Hvs. constructor; eauto.
Qed.

Lemma markFirst_length nodes vs : length (markFirst nodes vs) = length vs.
Proof. by destruct vs as [|[]]. Qed.

Lemma markFirst_types nodes vs : valueTypes (markFirst nodes vs) = valueTypes vs.
Proof. by destruct vs as [|[]]. Qed.

Lemma markFirst_plain nodes vs :
    forallb plainValue (markFirst nodes vs) = forallb plainValue vs.
Proof. by destruct vs as [|[]]. Qed.

Lemma markFirst_elements nodes vs :
    forallb isElementValue (markFirst nodes vs) = forallb isElementValue vs.
Proof. by destruct vs as [|[]]. Qed.

Lemma createDataElements_run c nodes stack l w :
    createDataElements c nodes stack l w
    = match valuesOf (toDataElement c nodes (stack ++ [context l])) with
      | None => Returned (None, l, w)
      | Some vs =>
          Returned (Some (itemsFor (length (heap w)) (markFirst nodes vs)), l,
                    mkWorld (heap w ++ elementsOf (markFirst nodes vs)) (store w))
      end.
Proof.
    unfold createDataElements. run.
    destruct (valuesOf _) as [vs|]; [|done].
    by rewrite allocValues_run.
Qed.

Lemma Evolved_appended w0 wr w more st :
    (length (heap w0) <= length (heap w))%nat ->
    Evolved w0 wr w (mkWorld (heap w ++ more) st).
Proof.
    intros Hg. constructor; cbn.
    - rewrite length_app; lia.
    - intros x Hx. by rewrite lookup_app_l.
    - intros x Hx _. rewrite lookup_app_l; [done | lia].
Qed.

Lemma queue_appended w0 w more st q :
    Forall (queuedOk w0 w) q ->
    Forall (queuedOk w0 (mkWorld (heap w ++ more) st)) q.
Proof.
    intros Hq. eapply Forall_impl; [exact Hq|].
    intros it Hit. apply (queuedOk_same w0 w); [done|].
    intros x ->. destruct Hit as (x' & e' & [= <-] & _ & He & _).
    cbn. rewrite lookup_app_l; [done|]. by apply lookup_lt_Some in He.
Qed.

Lemma Invariant_appended w0 wr l w more st :
    Invariant w0 wr l w ->
    Invariant w0 wr l (mkWorld (heap w ++ more) st).
Proof.
    intros Hinv. eapply Invariant_world; [done | |].
    - apply Evolved_appended, Hinv.
    - apply queue_appended, Hinv.
Qed.

Lemma plain_whitespaceOk e : plainValue (VElem e) = true -> whitespaceOk e.
Proof.
    unfold plainValue, whitespaceOk. by destruct (internal e ≫= whitespace).
Qed.

  (** What new data elements look like in the world they were added
      to. *)
Lemma created_items w0 w vs st :
    (length (heap w0) <= length (heap w))%nat ->
    forallb plainValue vs = true ->
    let w' := mkWorld (heap w ++ elementsOf vs) st in
    let items := itemsFor (length (heap w)) vs in
    tokens w' items = valueTypes vs
    /\ (forall x, In (Ref x) items ->
                  (length (heap w) <= x < length (heap w'))%nat)
    /\ (forallb isElementValue vs = true -> Forall (queuedOk w0 w') items).
Proof.
    intros Hg Hplain w' items. subst w' items. repeat split.
    - by apply itemsFor_tokens.
    - apply itemsFor_refs in H0. lia.
    - apply itemsFor_refs in H0. cbn. rewrite length_app. lia.
    - intros Hel. rewrite Forall_forall. intros it Hit.
      apply list_elem_of_In in Hit.
      destruct (proj1 (Forall_forall _ _) (itemsFor_elements vs (length (heap w)) Hel)
                  it ltac:(by apply list_elem_of_In)) as [x ->].
      destruct (itemsFor_lookup vs _ x (heap w) eq_refl Hit) as (e & He & Hin).
      exists x, e. repeat split; try done.
      + apply itemsFor_refs in Hit. lia.
      + apply plain_whitespaceOk.
        rewrite forallb_forall in Hplain. by apply (Hplain (VElem e)).
Qed.

Lemma pushClosing_run x rest e l w :
    heap w !! x = Some e ->
    pushClosing (Ref x :: rest) l w
    = Returned ((Ref x :: rest) ++ [Ref (length (heap w))], l,
                allocated (closeElement (String.append "/" (type e))) w).
Proof.
    intros He. unfold pushClosing, itemType. cbn [head]. run.
    cbn [typeOfItem option_bind]. rewrite He. reflexivity.
Qed.

Lemma setAnnotations_ref r indexes l w :
    setAnnotations (Some (Ref r)) indexes l w
    = Returned (tt, l,
                mutated r (fun e => mkElement (type e) (attributes e) (internal e)
                                      (Some indexes) (originalDomElements e)) w).
Proof. reflexivity. Qed.

Lemma firstType_ref x rest e l w :
    heap w !! x = Some e ->
    firstType (Ref x :: rest) l w = Returned (Some (type e), l, w).
Proof.
    intros He. unfold firstType, itemType. cbn [head]. run.
    cbn [typeOfItem option_bind]. by rewrite He.
Qed.

  (** *** Flushing the queue of meta items *)

Lemma tokens_cons_evolved w0 wr w w' x e more items :
    Evolved w0 wr w w' ->
    heap w !! x = Some e ->
    tokens w' more = tokens w items ->
    tokens w' (Ref x :: more) = tokens w (Ref x :: items).
Proof.
    intros Hev He Htok.
    change (Ref x :: more) with ([Ref x] ++ more).
    change (Ref x :: items) with ([Ref x] ++ items).
    rewrite !tokens_app, Htok. f_equal.
    apply (tokens_evolved w0 wr); [done|].
    intros y [[= <-]|[]]. by apply lookup_lt_Some in He.
Qed.


Lemma outputWrappedLoop_restore w0 wr items : forall toInsert prev l w,
    (length (heap w0) <= length (heap w))%nat ->
    Forall (queuedOk w0 w) items ->
    exists more w',
      outputWrappedLoop Restore items toInsert prev l w
      = Returned (toInsert ++ more, l, w')
      /\ Evolved w0 wr w w'
      /\ length (heap w') = length (heap w)
      /\ tokens w' more = tokens w items
      /\ (forall x, In (Ref x) more -> In (Ref x) items).
Proof.
    induction items as [|it items IH]; intros toInsert prev l w Hg Hq.
    - exists [], w. cbn. rewrite app_nil_r.
      split; [done|]. split; [apply Evolved_refl|]. done.
    - apply Forall_cons in Hq as [Hit Hq].
      destruct Hit as (x & e & -> & Hb & He & Hws).
      cbn [outputWrappedLoop]. run. cbn [typeOfItem]. rewrite He. cbn [fmap option_fmap option_map].
      set (isOpen := negb (isEmptyString (type e)) && notClosing (type e)).
      destruct isOpen.
      + cbn [option_bind]. unfold whitespaceOk, mbind in Hws.
        destruct (option_bind _ _ whitespace (internal e)) as [ws|] eqn:Ews.
        * destruct Hws as [text Htext]. rewrite Htext.
          unfold mutateElement. run.
          set (w1 := mkWorld _ _).
          assert (Hev1 : Evolved w0 wr w w1).
          { apply (Evolved_mutated w0 wr w x); [done | by left]. }
          destruct (IH (toInsert
                          ++ getDataContentFromText text (Some (cx_annotations (context l)))
                          ++ [Ref x]) (Some (Ref x)) l w1)
            as (more & w' & Hrun & Hev & Hlen & Htok & Hrefs).
          { subst w1; cbn. rewrite length_alter. done. }
          { apply queue_mutated_ok; [done|]. intros e' _. by unfold whitespaceOk. }
          exists (getDataContentFromText text (Some (cx_annotations (context l)))
                  ++ [Ref x] ++ more), w'.
          rewrite <- !app_assoc in Hrun. rewrite <- !app_assoc.
          split; [|split; [|split; [|split]]].
          -- exact Hrun.
          -- by eapply Evolved_trans.
          -- rewrite Hlen. subst w1; cbn. by rewrite length_alter.
          -- rewrite !tokens_app, tokens_getDataContentFromText, Htok. cbn [app].
             change (Ref x :: items) with ([Ref x] ++ items).
             rewrite (tokens_app w). f_equal.
             ++ apply (tokens_evolved w0 wr); [by eapply Evolved_trans|].
                intros y [[= <-]|[]]. by apply lookup_lt_Some in He.
             ++ apply tokens_same_types. intros y Hy. subst w1; cbn.
                destruct (decide (x = y)) as [->|Hne].
                ** rewrite list_lookup_alter_eq. by destruct (heap w !! y).
                ** by rewrite list_lookup_alter_ne.
          -- intros y Hy. rewrite !in_app_iff in Hy.
             destruct Hy as [Hy | [[[= <-] | []] | Hy]].
             ++ by apply no_ref_getDataContentFromText in Hy.
             ++ by left.
             ++ right. by apply Hrefs.
        * destruct (IH (toInsert ++ [Ref x]) (Some (Ref x)) l w Hg Hq)
            as (more & w' & Hrun & Hev & Hlen & Htok & Hrefs).
          exists (Ref x :: more), w'.
          rewrite <- app_assoc in Hrun. cbn [app] in Hrun.
          split; [|split; [|split; [|split]]]; try done.
          -- by apply (tokens_cons_evolved w0 wr w w' x e).
          -- intros y [[= <-]|Hy]; [by left | right; by apply Hrefs].
      + destruct (IH (toInsert ++ [Ref x]) prev l w Hg Hq)
          as (more & w' & Hrun & Hev & Hlen & Htok & Hrefs).
        exists (Ref x :: more), w'.
        rewrite <- app_assoc in Hrun. cbn [app] in Hrun.
        split; [|split; [|split; [|split]]]; try done.
        * by apply (tokens_cons_evolved w0 wr w w' x e).
        * intros y [[= <-]|Hy]; [by left | right; by apply Hrefs].
Qed.

Lemma outputWrappedLoop_fixup w0 wr items : forall toInsert prev l w,
    Forall (fun it => exists x, it = Ref x
                                /\ (length (heap w0) <= x < length (heap w))%nat) items ->
    (exists p, prev = Some (Ref p) /\ (length (heap w0) <= p)%nat) ->
    exists w',
      outputWrappedLoop Fixup items toInsert prev l w
      = Returned (toInsert ++ items, l, w')
      /\ Evolved w0 wr w w'
      /\ length (heap w') = length (heap w).
Proof.
    induction items as [|it items IH]; intros toInsert prev l w Hq Hprev.
    - exists w. cbn. rewrite app_nil_r.
      split; [done|]. split; [apply Evolved_refl | done].
    - apply Forall_cons in Hq as [(x & -> & Hx) Hq].
      destruct (lookup_lt_is_Some_2 (heap w) x ltac:(lia)) as [e He].
      cbn [outputWrappedLoop]. run. cbn [typeOfItem]. rewrite He.
      cbn [fmap option_fmap option_map option_bind].
      assert (Hnext : forall toInsert' prev' w1,
                 Evolved w0 wr w w1 -> length (heap w1) = length (heap w) ->
                 (exists p, prev' = Some (Ref p) /\ (length (heap w0) <= p)%nat) ->
                 exists w',
                   outputWrappedLoop Fixup items (toInsert' ++ [Ref x]) prev' l w1
                   = Returned (toInsert' ++ Ref x :: items, l, w')
                   /\ Evolved w0 wr w w' /\ length (heap w') = length (heap w)).
      { intros toInsert' prev' w1 Hev1 Hlen1 Hprev'.
        destruct (IH (toInsert' ++ [Ref x]) prev' l w1) as (w' & Hrun & Hev & Hlen).
        - eapply Forall_impl; [exact Hq|]. intros it (y & -> & Hy).
          exists y. split; [done | lia].
        - done.
        - exists w'. rewrite <- app_assoc in Hrun. cbn [app] in Hrun.
          split; [done|]. split; [by eapply Evolved_trans | lia]. }
      destruct (negb (isEmptyString (type e)) && notClosing (type e)).
      + destruct (option_bind _ _ whitespace (internal e)) as [ws|].
        * destruct Hprev as (p & -> & Hp). rewrite addWhitespace_ref.
          apply Hnext.
          -- by apply Evolved_whitespaceAdded; left.
          -- unfold whitespaceAdded. destruct (outerPre ws) as [[|c v]|]; try done.
             cbn. by rewrite length_alter.
          -- exists x. split; [done | lia].
        * apply Hnext; [apply Evolved_refl | done |].
          exists x. split; [done | lia].
      + apply Hnext; [apply Evolved_refl | done | done].
Qed.

  (** The invariant after a step that changed the data, the queue or
      the element before, in a world that has moved on. *)
Lemma Invariant_step w0 wr l w l' w' :
    Invariant w0 wr l w ->
    Evolved w0 wr w w' ->
    context l' = context l ->
    wrappingParagraph l' = wrappingParagraph l ->
    (forall x, In (Ref x) (data l') -> (x < length (heap w'))%nat) ->
    reduce [] (tokens w' (data l')) = Some (openTypes w0 wr l) ->
    balanced (tokens w' (wrappedMetaItems l')) = true ->
    Forall (queuedOk w0 w') (wrappedMetaItems l') ->
    length (wrappedMetaItems l') <> 1%nat ->
    match prevElement l' with
    | None => True
    | Some (Ref p) =>
        (length (heap w0) <= p < length (heap w'))%nat
        /\ ~ In (Ref p) (wrappedMetaItems l')
    | Some _ => False
    end ->
    (canCloseWrapper (context l) = false -> wrappedMetaItems l' = []) ->
    Invariant w0 wr l' w'.
Proof.
    intros [] [g t f] Hcx Hwp Hvalid Hopen Hqb Hq Hql Hprev Hqe.
    constructor; try done.
    - lia.
    - intros x Hx Hw. rewrite f by done. by apply inv_frame0.
    - intros x Hx. destruct (inv_wrapper0 x Hx) as [Hlt Hty]. split; [done|].
      rewrite t by lia. done.
    - rewrite Hopen. unfold openTypes. by rewrite Hcx.
    - rewrite Hcx, Hwp. destruct (canCloseWrapper (context l)).
      + destruct inv_wrapping0 as (? & ? & ? & p & ? & ?).
        repeat split; try done. exists p. split; [done | lia].
      + split; [tauto|]. split; [by apply Hqe | tauto].
Qed.

Lemma spliceIn_tokens w (d : list Item) i more :
    tokens w (JsArray.spliceIn d i more)
    = tokens w (firstn i d) ++ tokens w more ++ tokens w (skipn i d).
Proof. unfold JsArray.spliceIn. by rewrite !tokens_app. Qed.

Lemma reduce_spliceIn w (d : list Item) i more open :
    reduce [] (tokens w d) = Some open ->
    balanced (tokens w more) = true ->
    reduce [] (tokens w (JsArray.spliceIn d i more)) = Some open.
Proof.
    intros Hd Hm. rewrite spliceIn_tokens.
    apply reduce_insert; [|done].
    by rewrite <- tokens_app, firstn_skipn.
Qed.

Lemma spliceIn_In {A} (d : list A) i more x :
    In x (JsArray.spliceIn d i more) -> In x d \/ In x more.
Proof.
    unfold JsArray.spliceIn. rewrite !in_app_iff.
    intros [Hx | [Hx | Hx]]; [left | by right | left].
    - rewrite <- (firstn_skipn i d). apply in_or_app. by left.
    - rewrite <- (firstn_skipn i d). apply in_or_app. by right.
Qed.

Lemma spliceIn_nothing {A} (d : list A) i : JsArray.spliceIn d i [] = d.
Proof. unfold JsArray.spliceIn. cbn. apply firstn_skipn. Qed.

Lemma outputWrappedMetaItems_restore_empty l w :
    wrappedMetaItems l = [] ->
    outputWrappedMetaItems Restore l w = Returned (tt, l, w).
Proof.
    destruct l as [d nw ww wi q wp pe cx]. cbn. intros ->.
    unfold outputWrappedMetaItems. run. fields.
    change (outputWrappedLoop Restore [] [] (Ref <$> wp)) with (@ret _ (list Item) []).
    run. fields.
    destruct ww; fields; rewrite ?spliceIn_nothing, ?app_nil_r; reflexivity.
Qed.

Lemma queue_valid w0 w q x :
    Forall (queuedOk w0 w) q -> In (Ref x) q ->
    (length (heap w0) <= x < length (heap w))%nat.
Proof.
    intros Hq Hx. rewrite Forall_forall in Hq.
    destruct (Hq (Ref x) ltac:(by apply list_elem_of_In)) as (y & e & [= <-] & Hb & He & _).
    apply lookup_lt_Some in He. lia.
Qed.

Lemma outputWrappedMetaItems_restore w0 wr l w :
    Invariant w0 wr l w ->
    exists D w',
      outputWrappedMetaItems Restore l w
      = Returned (tt, set_wrappedMetaItems [] (set_data D l), w')
      /\ Invariant w0 wr (set_wrappedMetaItems [] (set_data D l)) w'
      /\ Evolved w0 wr w w'.
Proof.
    intros Hinv.
    destruct (outputWrappedLoop_restore w0 wr (wrappedMetaItems l) []
                (Ref <$> wrappingParagraph l) l w (inv_grows _ _ _ _ Hinv)
                (inv_queue _ _ _ _ Hinv))
      as (more & w' & Hrun & Hev & Hlen & Htok & Hrefs).
    cbn [app] in Hrun.
    assert (Hbal : balanced (tokens w' more) = true).
    { rewrite Htok. apply Hinv. }
    assert (Hdtok : tokens w' (data l) = tokens w (data l)).
    { apply (tokens_evolved w0 wr); [done | apply Hinv]. }
    assert (Hmore : forall x, In (Ref x) more -> (x < length (heap w'))%nat).
    { intros x Hx. apply Hrefs in Hx.
      pose proof (queue_valid w0 w _ x (inv_queue _ _ _ _ Hinv) Hx). lia. }
    assert (Hdata : forall x, In (Ref x) (data l) -> (x < length (heap w'))%nat).
    { intros x Hx. pose proof (inv_valid _ _ _ _ Hinv x Hx). lia. }
    assert (Hprev : match prevElement l with
                    | None => True
                    | Some (Ref p) =>
                        (length (heap w0) <= p < length (heap w'))%nat /\ ~ In (Ref p) []
                    | Some _ => False
                    end).
    { pose proof (inv_prev _ _ _ _ Hinv) as Hp.
      destruct (prevElement l) as [[| |p]|]; try done.
      split; [lia | by intros []]. }
    unfold outputWrappedMetaItems. run. rewrite Hrun.
    destruct (wrappedWhitespace l) eqn:Eww.
    - exists (data l ++ more), w'. split; [done|]. split; [|done].
      apply (Invariant_step w0 wr l w); fields; try done.
      + intros x Hx. apply in_app_or in Hx as [Hx|Hx]; auto.
      + rewrite tokens_app, reduce_app, Hdtok, (inv_open _ _ _ _ Hinv).
        cbn. by apply balanced_reduce.
    - exists (JsArray.spliceIn (data l) (wrappedWhitespaceIndex l) more), w'.
      split; [done|]. split; [|done].
      apply (Invariant_step w0 wr l w); fields; try done.
      + intros x Hx. apply spliceIn_In in Hx as [Hx|Hx]; auto.
      + apply reduce_spliceIn; [|done]. rewrite Hdtok. apply Hinv.
Qed.

Lemma outputWrappedMetaItems_fixup w0 wr l w p :
    Forall (fun it => exists x, it = Ref x
                                /\ (length (heap w0) <= x < length (heap w))%nat)
      (wrappedMetaItems l) ->
    wrappingParagraph l = Some p -> (length (heap w0) <= p)%nat ->
    exists w',
      outputWrappedMetaItems Fixup l w
      = Returned (tt, set_wrappedMetaItems []
                        (set_data (data l ++ wrappedMetaItems l) l), w')
      /\ Evolved w0 wr w w'
      /\ length (heap w') = length (heap w).
Proof.
    intros Hq Hwp Hp.
    destruct (outputWrappedLoop_fixup w0 wr (wrappedMetaItems l) []
                (Ref <$> wrappingParagraph l) l w Hq)
      as (w' & Hrun & Hev & Hlen).
    { rewrite Hwp. cbn. eauto. }
    cbn [app] in Hrun.
    exists w'. split; [|done].
    unfold outputWrappedMetaItems. run. rewrite Hrun.
    by destruct (wrappedWhitespace l).
Qed.

  (** *** Closing the wrapper paragraph *)

Lemma spliceOut_tail {A} (a ws : list A) i n :
    length a = i -> length ws = n -> JsArray.spliceOut (a ++ ws) i n = a.
Proof.
    intros <- <-. unfold JsArray.spliceOut.
    rewrite firstn_app, Nat.sub_diag, firstn_all. cbn [firstn]. rewrite app_nil_r.
    rewrite skipn_all2; [by rewrite app_nil_r | rewrite length_app; lia].
Qed.

  (** The white space written last is at the end of the data, so taking
      it back leaves the markers as they are. *)
Lemma takeBackWrappedWhitespace_spec w0 wr l w :
    Invariant w0 wr l w ->
    WhitespaceAtEnd l ->
    canCloseWrapper (context l) = true ->
    exists D1 nw w1,
      takeBackWrappedWhitespace l w
      = Returned (tt, set_nextWhitespace nw (set_data D1 l), w1)
      /\ Evolved w0 wr w w1
      /\ length (heap w1) = length (heap w)
      /\ tokens w D1 = tokens w (data l)
      /\ (forall x, In (Ref x) D1 -> In (Ref x) (data l)).
Proof.
    intros Hinv Htail Hcc.
    pose proof (inv_wrapping _ _ _ _ Hinv) as Hw. rewrite Hcc in Hw.
    destruct Hw as (Hiw & Hec & Hoe & p & Hwp & Hp).
    unfold takeBackWrappedWhitespace. run.
    destruct (wrappedWhitespace l) as [|c v] eqn:Eww.
    - exists (data l), (nextWhitespace l), w. split; [by destruct l|].
      split; [apply Evolved_refl | done].
    - destruct (Htail Hcc) as (A & W & Hd & HA & HW & Hch); [by rewrite Eww|].
      rewrite Eww in HW.
      assert (Htarget : exists r,
        (if (0 <? length (wrappedMetaItems l))%nat
         then JsArray.get (wrappedMetaItems l)
                (Z.of_nat (length (wrappedMetaItems l)) - 2)
         else Ref <$> wrappingParagraph l) = Some (Ref r)
        /\ (length (heap w0) <= r)%nat).
      { destruct (0 <? length (wrappedMetaItems l))%nat eqn:Elen.
        - apply Nat.ltb_lt in Elen.
          pose proof (inv_queue_length _ _ _ _ Hinv) as Hne.
          unfold JsArray.get.
          destruct (Z.of_nat (length (wrappedMetaItems l)) - 2 <? 0) eqn:E;
            [apply Z.ltb_lt in E; lia|].
          destruct (nth_error (wrappedMetaItems l)
                      (Z.to_nat (Z.of_nat (length (wrappedMetaItems l)) - 2)))
            as [it|] eqn:Enth.
          + pose proof (inv_queue _ _ _ _ Hinv) as Hq.
            rewrite Forall_forall in Hq.
            destruct (Hq it) as (x & e & -> & Hb & _).
            { apply list_elem_of_In. by eapply nth_error_In. }
            eauto.
          + apply nth_error_None in Enth. lia.
        - rewrite Hwp. cbn. exists p. split; [done | lia]. }
      destruct Htarget as (r & Htarget & Hr).
      exists A, (c :: v), (whitespaceAdded (Some (Ref r)) 3 (Some (c :: v)) w).
      split.
      + fields. rewrite Htarget, addWhitespace_ref.
        rewrite Hd, (spliceOut_tail A W) by done.
        by destruct l.
      + split; [by apply Evolved_whitespaceAdded; left|].
        split; [cbn; by rewrite length_alter|].
        split.
        * by rewrite Hd, tokens_app, (tokens_chars w W Hch), app_nil_r.
        * intros x Hx. rewrite Hd. apply in_or_app. by left.
Qed.

  (** [stopWrapping] closes the wrapper paragraph and empties the
      queue. *)
Lemma stopWrapping_spec w0 wr l w :
    Invariant w0 wr l w ->
    WhitespaceAtEnd l ->
    canCloseWrapper (context l) = true ->
    exists D nw w',
      stopWrapping l w = Returned (tt, stoppedLocals l D nw, w')
      /\ Invariant w0 wr (stoppedLocals l D nw) w'
      /\ Evolved w0 wr w w'.
Proof.
    intros Hinv Htail Hcc.
    pose proof (inv_wrapping _ _ _ _ Hinv) as Hw. rewrite Hcc in Hw.
    destruct Hw as (Hiw & Hec & Hoe & p & Hwp & Hp).
    destruct (takeBackWrappedWhitespace_spec w0 wr l w Hinv Htail Hcc)
      as (D1 & nw & w1 & Hrun1 & Hev1 & Hlen1 & Htok1 & Hrefs1).
    set (c := length (heap w1)).
    set (w2 := allocated (closeElement "/paragraph") w1).
    set (l2 := set_data (D1 ++ [Ref c]) (set_nextWhitespace nw (set_data D1 l))).
    assert (Hev2 : Evolved w0 wr w w2).
    { eapply Evolved_trans; [exact Hev1|]. apply Evolved_allocated.
      destruct Hinv. lia. }
    assert (Hlen2 : length (heap w2) = S (length (heap w))).
    { subst w2 c. cbn. rewrite length_app. cbn. lia. }
    destruct (outputWrappedMetaItems_fixup w0 wr l2 w2 p)
      as (w3 & Hrun3 & Hev3 & Hlen3).
    { subst l2; fields. rewrite Forall_forall. intros it Hit.
      pose proof (inv_queue _ _ _ _ Hinv) as Hq. rewrite Forall_forall in Hq.
      destruct (Hq it Hit) as (x & e & -> & Hb & He & _).
      exists x. split; [done|]. apply lookup_lt_Some in He. lia. }
    { subst l2; by fields. }
    { lia. }
    assert (Hev : Evolved w0 wr w w3) by (by eapply Evolved_trans).
    exists (D1 ++ [Ref c] ++ wrappedMetaItems l), nw, w3.
    split; [|split; [|done]].
    - unfold stopWrapping. rewrite (run_bind _ _ _ _ _ _ _ Hrun1).
      run. rewrite allocElement_run. fold c w2. fields.
      match goal with |- context [outputWrappedMetaItems Fixup ?l' _] =>
        change l' with l2 end.
      rewrite Hrun3. subst l2. unfold stoppedLocals.
      destruct l as [d nw0 ww wi q wp pe [an bt bh oe ec iw cc]]. fields.
      rewrite <- app_assoc. reflexivity.
    - pose proof Hinv as [].
      assert (Hc : heap w3 !! c = None \/ type <$> (heap w3 !! c) = Some "/paragraph"%string).
      { right. destruct Hev3 as [_ t _]. rewrite t by (subst c; lia).
        subst w2 c. cbn. rewrite lookup_app_r by lia. by rewrite Nat.sub_diag. }
      destruct Hc as [Hc | Hc].
      { apply lookup_ge_None in Hc. subst c. lia. }
      destruct (heap w3 !! c) as [ec|] eqn:Eec; [|done]. cbn in Hc.
      injection Hc as Hc.
      unfold stoppedLocals.
      destruct l as [d nw0 ww wi q wp pe [an bt bh oe ec0 iw cc]]. fields. subst.
      constructor; fields; try done.
      + destruct Hev. lia.
      + intros x Hx Hw. destruct Hev as [_ _ f]. rewrite f by done. by apply inv_frame0.
      + intros x Hx. destruct (inv_wrapper0 x Hx) as [Hlt Hty]. split; [done|].
        destruct Hev as [_ t _]. rewrite t by lia. done.
      + intros x Hx. rewrite !in_app_iff in Hx.
        destruct Hx as [Hx | [[[= <-] | []] | Hx]].
        * apply Hrefs1 in Hx. apply inv_valid0 in Hx. lia.
        * lia.
        * pose proof (queue_valid w0 w _ x inv_queue0 Hx). lia.
      + rewrite !tokens_app, !reduce_app.
        rewrite (tokens_evolved w0 wr w w3 D1); [|done|].
        2:{ intros x Hx. apply inv_valid0. by apply Hrefs1. }
        rewrite Htok1, inv_open0. unfold openTypes; fields.
        cbn [mbind option_bind app].
        rewrite (tokens_ref w3 c ec Eec), Hc.
        rewrite (reduce_app _ ["/paragraph"%string]).
        change "/paragraph"%string with (String.append "/" "paragraph").
        rewrite reduce_close.
        cbn [mbind option_bind].
        apply balanced_reduce.
        rewrite (tokens_evolved w0 wr w w3); [done | done |].
        intros x Hx. by apply (queue_valid w0 w q x).
      + destruct pe as [[| |pp]|]; try done.
        destruct inv_prev0. split; [lia | by intros []].
Qed.

  (** *** Steps that keep the invariant *)

Lemma Runs_bind {A B} w0 wr (m : Step A) (k : A -> Step B) l w a l1 w1 :
    m l w = Returned (a, l1, w1) ->
    Runs w0 wr (k a) l1 w1 ->
    Runs w0 wr (m ≫= k) l w.
Proof.
    intros Hm (b & l' & w' & Hk & Hinv & Htail).
    exists b, l', w'. by rewrite (run_bind _ _ _ _ _ _ _ Hm).
Qed.

Lemma Invariant_unqueued w0 wr l w w' :
    Invariant w0 wr l w ->
    Evolved w0 wr w w' ->
    wrappedMetaItems l = [] ->
    Invariant w0 wr l w'.
Proof.
    intros Hinv Hev Hq. apply (Invariant_world w0 wr l w); [done | done |].
    rewrite Hq. constructor.
Qed.

Lemma unwrapped_unqueued w0 wr l w :
    Invariant w0 wr l w -> canCloseWrapper (context l) = false ->
    wrappedMetaItems l = [] /\ wrappingParagraph l = None
    /\ expectingContent (context l) = originallyExpectingContent (context l).
Proof.
    intros Hinv Hcc. pose proof (inv_wrapping _ _ _ _ Hinv) as Hw.
    rewrite Hcc in Hw. tauto.
Qed.

Lemma outside_cannot_close w0 wr l w :
    Invariant w0 wr l w -> inWrapper (context l) = false ->
    canCloseWrapper (context l) = false.
Proof.
    intros Hinv Hiw. pose proof (inv_wrapping _ _ _ _ Hinv) as Hw.
    destruct (canCloseWrapper (context l)); [|done].
    destruct Hw as [Hw _]. congruence.
Qed.

Lemma storeLeadingWhitespace_spec w0 wr ws l w :
    Invariant w0 wr l w ->
    exists w',
      storeLeadingWhitespace wr ws l w = Returned (tt, l, w')
      /\ Evolved w0 wr w w'.
Proof.
    intros Hinv. unfold storeLeadingWhitespace. run.
    pose proof (inv_prev _ _ _ _ Hinv) as Hp.
    destruct (prevElement l) as [[| |p]|]; try done.
    - rewrite addWhitespace_ref. eexists. split; [done|].
      apply Evolved_whitespaceAdded. left. lia.
    - destruct wr as [x|].
      + rewrite addWhitespace_ref. eexists. split; [done|].
        apply Evolved_whitespaceAdded. by right.
      + eexists. split; [done | apply Evolved_refl].
Qed.

  (** Characters at the end of the data. *)
Lemma Invariant_chars w0 wr l w l' chars :
    Invariant w0 wr l w ->
    context l' = context l ->
    wrappingParagraph l' = wrappingParagraph l ->
    wrappedMetaItems l' = wrappedMetaItems l ->
    data l' = data l ++ chars ->
    forallb isCharItem chars = true ->
    prevElement l' = prevElement l
    \/ (prevElement l' = Ref <$> wrappingParagraph l /\ wrappedMetaItems l = []) ->
    Invariant w0 wr l' w.
Proof.
    intros Hinv Hc Hwp Hq Hd Hch Hprev.
    pose proof Hinv as [].
    apply (Invariant_step w0 wr l w l' w Hinv (Evolved_refl _ _ _) Hc Hwp).
    - intros x Hx. rewrite Hd in Hx. apply in_app_or in Hx as [Hx|Hx]; [auto|].
      exfalso. clear -Hch Hx. induction chars as [|c r IH]; [done|].
      cbn in Hch. apply andb_prop in Hch as [Hc Hr].
      destruct Hx as [Hx|Hx]; [by subst c | auto].
    - by rewrite Hd, tokens_app, (tokens_chars w chars Hch), app_nil_r.
    - by rewrite Hq.
    - by rewrite Hq.
    - by rewrite Hq.
    - destruct Hprev as [-> | [-> Hnil]]; [by rewrite Hq|].
      destruct (canCloseWrapper (context l)) eqn:Ecc.
      + destruct inv_wrapping0 as (_ & _ & _ & p & Hp1 & Hp). rewrite Hp1. cbn.
        rewrite Hq, Hnil. split; [done | by intros []].
      + destruct inv_wrapping0 as (_ & _ & Hp1). by rewrite Hp1.
    - intros Hcc. rewrite Hq. rewrite Hcc in inv_wrapping0. tauto.
Qed.

  (** *** Text nodes *)

Lemma WhitespaceAtEnd_closed l :
    canCloseWrapper (context l) = false \/ wrappedWhitespace l = [] ->
    WhitespaceAtEnd l.
Proof. intros [Hc | Hw] Hcc Hne; congruence. Qed.

Lemma WhitespaceAtEnd_written l A W :
    data l = A ++ W ->
    length A = wrappedWhitespaceIndex l ->
    length W = length (wrappedWhitespace l) ->
    forallb isCharItem W = true ->
    WhitespaceAtEnd l.
Proof. intros ? ? ? ? _ _. by exists A, W. Qed.

Lemma convertText_expecting w0 wr i count text l w :
    Invariant w0 wr l w ->
    originallyExpectingContent (context l) = true ->
    Runs w0 wr (convertText wr i count text) l w.
Proof.
    intros Hinv Hoe.
    assert (Hcc : canCloseWrapper (context l) = false).
    { pose proof (inv_wrapping _ _ _ _ Hinv) as Hw.
      destruct (canCloseWrapper (context l)); [|done].
      destruct Hw as (_ & _ & Hw & _). congruence. }
    destruct (unwrapped_unqueued w0 wr l w Hinv Hcc) as (Hq & _).
    unfold Runs, convertText.
    destruct text as [|c0 text0].
    { exists tt, l, w. split; [done|]. split; [done|].
      apply WhitespaceAtEnd_closed. by left. }
    run. set (text := c0 :: text0). rewrite Hoe. cbn [negb].
    assert (Hleaf : forall w' chars,
      Invariant w0 wr l w' ->
      exists a l' w'',
        Returned (tt, set_data (data l ++ getDataContentFromText chars
                    (Some (cx_annotations (context l)))) l, w')
        = Returned (a, l', w'')
        /\ Invariant w0 wr l' w'' /\ WhitespaceAtEnd l').
    { intros w' chars Hinv'. eexists _, _, _. split; [reflexivity|]. split.
      - eapply (Invariant_chars w0 wr l w'); fields; try done.
        + apply chars_getDataContentFromText.
        + by left.
      - apply WhitespaceAtEnd_closed. by left. }
    destruct wr as [x|]; [|by apply Hleaf].
    unfold wrapperType, readElement. run.
    assert (Hadd : forall w' index ws,
      Invariant w0 (Some x) l w' ->
      Invariant w0 (Some x) l (whitespaceAdded (Some (Ref x)) index ws w')).
    { intros w' index ws Hinv'. eapply Invariant_unqueued; [exact Hinv'| |done].
      apply Evolved_whitespaceAdded. by right. }
    destruct (_ && _ && negb (doesNodeHaveSignificantWhitespace _));
      [destruct (leadingSpace text) as [ws1|]|];
      rewrite ?addWhitespace_ref; run;
      (destruct (_ && _ && negb (doesNodeHaveSignificantWhitespace _));
       [match goal with |- context [trailingSpace ?t] =>
          destruct (trailingSpace t) as [ws2|] end|]);
      rewrite ?addWhitespace_ref; run; apply Hleaf; auto.
Qed.

Lemma convertText_space w0 wr i count text l w :
    Invariant w0 wr l w ->
    originallyExpectingContent (context l) = false ->
    isAllSpace text = true ->
    Runs w0 wr (convertText wr i count text) l w.
Proof.
    intros Hinv Hoe Hsp. unfold Runs, convertText.
    destruct text as [|c0 text0].
    { discriminate Hsp. }
    run. set (text := c0 :: text0) in *. rewrite Hoe. cbn [negb]. rewrite Hsp.
    destruct (inWrapper (context l)) eqn:Eiw; run.
    - eexists _, _, _. split; [reflexivity|]. split.
      + eapply (Invariant_chars w0 wr l w); fields; try done.
        * apply chars_getDataContentFromText.
        * by left.
      + eapply WhitespaceAtEnd_written; fields; try done.
        * apply length_getDataContentFromText.
        * apply chars_getDataContentFromText.
    - pose proof (outside_cannot_close w0 wr l w Hinv Eiw) as Hcc.
      destruct (unwrapped_unqueued w0 wr l w Hinv Hcc) as (Hq & _).
      destruct (storeLeadingWhitespace_spec w0 wr text l w Hinv) as (w1 & Hrun & Hev).
      rewrite Hrun. rewrite outputWrappedMetaItems_restore_empty by done.
      eexists _, _, _. split; [reflexivity|]. split.
      + eapply (Invariant_chars w0 wr l w1 _ []); fields; try done.
        * by eapply Invariant_unqueued.
        * by rewrite app_nil_r.
        * by left.
      + apply WhitespaceAtEnd_closed. by right.
Qed.

Lemma forallb_chars_app (a b : list Item) :
    forallb isCharItem a = true -> forallb isCharItem b = true ->
    forallb isCharItem (a ++ b) = true.
Proof. intros Ha Hb. by rewrite forallb_app, Ha, Hb. Qed.

Lemma convertText_content w0 wr i count text l w :
    Invariant w0 wr l w -> WhitespaceAtEnd l ->
    originallyExpectingContent (context l) = false ->
    isAllSpace text = false ->
    Runs w0 wr (convertText wr i count text) l w.
Proof.
    intros Hinv Htail Hoe Hsp. unfold Runs, convertText.
    destruct text as [|c0 text0]; [by exists tt, l, w|].
    run. set (text := c0 :: text0) in *. rewrite Hoe. cbn [negb]. rewrite Hsp.
    destruct (splitSpace text) as [[m1 m2] m3].
    set (an := Some (cx_annotations (context l))).
    pose proof (chars_getDataContentFromText m1 an) as Hc1.
    pose proof (chars_getDataContentFromText m2 an) as Hc2.
    pose proof (chars_getDataContentFromText m3 an) as Hc3.
    destruct (inWrapper (context l)) eqn:Eiw; cbn [negb]; run.
    - destruct (outputWrappedMetaItems_restore w0 wr l w Hinv)
        as (D & w1 & Hrun & Hinv1 & Hev1).
      rewrite Hrun. fields.
      eexists _, _, _. split; [reflexivity|]. split.
      + eapply (Invariant_chars w0 wr _ w1 _
                  (getDataContentFromText m1 an ++ getDataContentFromText m2 an
                   ++ getDataContentFromText m3 an) Hinv1); fields; try done.
        * by rewrite <- !app_assoc.
        * by repeat apply forallb_chars_app.
        * by right.
      + eapply WhitespaceAtEnd_written; fields; try done.
        apply length_getDataContentFromText.
    - pose proof (outside_cannot_close w0 wr l w Hinv Eiw) as Hcc.
      destruct (unwrapped_unqueued w0 wr l w Hinv Hcc) as (Hq & _).
      destruct (startWrapping_Invariant w0 wr l w Hinv Hcc Hoe) as [Hinv1 Hev1].
      rewrite startWrapping_run.
      set (p := length (heap w)) in *.
      set (l1 := startedLocals l p) in *. set (w1 := startedWorld l w) in *.
      assert (Hq1 : wrappedMetaItems l1 = []) by (subst l1; by fields).
      assert (Hlast : forall w2, Invariant w0 wr l1 w2 ->
        Invariant w0 wr
          (set_prevElement (Some (Ref p))
             (set_data ((data l1 ++ getDataContentFromText m2 an)
                        ++ getDataContentFromText m3 an)
                (set_wrappedWhitespaceIndex
                   (length (data l1 ++ getDataContentFromText m2 an))
                   (set_wrappedWhitespace m3
                      (set_data (data l1 ++ getDataContentFromText m2 an) l1)))))
          w2).
      { intros w2 Hinv2.
        eapply (Invariant_chars w0 wr l1 w2 _
                  (getDataContentFromText m2 an ++ getDataContentFromText m3 an)
                  Hinv2); fields; try done.
        - by rewrite <- !app_assoc.
        - by repeat apply forallb_chars_app.
        - by right. }
      destruct m1 as [|c1 m1'].
      + eexists _, _, _. split; [reflexivity|]. split; [by apply Hlast|].
        eapply WhitespaceAtEnd_written; fields; try done.
        apply length_getDataContentFromText.
      + destruct (storeLeadingWhitespace_spec w0 wr (c1 :: m1') l1 w1 Hinv1)
          as (w2 & Hrun & Hev2).
        rewrite Hrun.
        change (Ref <$> wrappingParagraph l1) with (Some (Ref p)).
        rewrite addWhitespace_ref.
        eexists _, _, _. split; [reflexivity|]. split.
        * apply Hlast. eapply Invariant_unqueued; [| |done].
          -- eapply Invariant_unqueued; [exact Hinv1 | exact Hev2 | done].
          -- apply Evolved_whitespaceAdded. left.
             pose proof (inv_grows _ _ _ _ Hinv). subst p. lia.
        * eapply WhitespaceAtEnd_written; fields; try done.
          apply length_getDataContentFromText.
Qed.

  (** A text node keeps the invariant. *)
Lemma convertText_spec w0 wr i count text l w :
    Invariant w0 wr l w -> WhitespaceAtEnd l ->
    Runs w0 wr (convertText wr i count text) l w.
Proof.
    intros Hinv Htail.
    destruct (originallyExpectingContent (context l)) eqn:Eoe.
    - by apply convertText_expecting.
    - destruct (isAllSpace text) eqn:Esp.
      + by apply convertText_space.
      + by apply convertText_content.
Qed.

  (** *** Data elements made for a child *)

Lemma Extended_refl w : Extended w w.
Proof. by split. Qed.

Lemma Extended_trans w1 w2 w3 :
    Extended w1 w2 -> Extended w2 w3 -> Extended w1 w3.
Proof.
    intros [Hl1 Hf1] [Hl2 Hf2]. split; [lia|].
    intros x Hx. rewrite Hf2 by lia. by apply Hf1.
Qed.

Lemma Extended_appended w more st : Extended w (mkWorld (heap w ++ more) st).
Proof.
    split; cbn; [rewrite length_app; lia|].
    intros x Hx. by rewrite lookup_app_l.
Qed.

Lemma Extended_allocated w e : Extended w (allocated e w).
Proof. apply Extended_appended. Qed.

Lemma Extended_mutated w0 w r f :
    Extended w0 w -> (length (heap w0) <= r)%nat -> Extended w0 (mutated r f w).
Proof.
    intros [Hl Hf] Hr. split; cbn; [by rewrite length_alter|].
    intros x Hx. rewrite list_lookup_alter_ne by lia. by apply Hf.
Qed.

Lemma Extended_whitespaceAdded w0 w r index ws :
    Extended w0 w -> (length (heap w0) <= r)%nat ->
    Extended w0 (whitespaceAdded (Some (Ref r)) index ws w).
Proof.
    intros He Hr. unfold whitespaceAdded.
    destruct ws as [[|c v]|]; try done. by apply Extended_mutated.
Qed.

Lemma Extended_Evolved w0 wr w w' :
    Extended w w' -> (length (heap w0) <= length (heap w))%nat ->
    Evolved w0 wr w w'.
Proof.
    intros [Hl Hf] Hg. constructor; [done | |].
    - intros x Hx. by rewrite Hf.
    - intros x Hx _. apply Hf. lia.
Qed.

Lemma Invariant_extended w0 wr l w w' :
    Invariant w0 wr l w -> Extended w w' -> Invariant w0 wr l w'.
Proof.
    intros Hinv Hext. pose proof Hext as [Hl Hf].
    apply (Invariant_world w0 wr l w); [done | |].
    - apply Extended_Evolved; [done | apply Hinv].
    - pose proof (inv_queue _ _ _ _ Hinv) as Hq.
      rewrite Forall_forall in *. intros it Hit.
      apply (queuedOk_same w0 w); [by apply Hq|].
      intros x ->. apply Hf.
      destruct (Hq _ Hit) as (y & e & [= <-] & _ & He & _).
      by apply lookup_lt_Some in He.
Qed.

Lemma Created_evolved w0 wr w w' items :
    Created w0 w items -> Evolved w0 wr w w' -> Created w0 w' items.
Proof.
    intros [Hv (x & e & rest & -> & He & Hb)] Hev. split.
    - intros y Hy. destruct (Hv y Hy). destruct Hev. lia.
    - assert (Hx : (x < length (heap w))%nat) by (by apply lookup_lt_Some in He).
      pose proof (ev_types _ _ _ _ Hev x Hx) as Ht. rewrite He in Ht.
      destruct (heap w' !! x) as [e'|] eqn:Ee'; [|done]. cbn in Ht.
      injection Ht as Ht.
      exists x, e', rest. split; [done|]. split; [done|].
      destruct (length (Ref x :: rest) =? 1)%nat; [congruence|].
      rewrite (tokens_evolved w0 wr w w'); [done | done |].
      intros y Hy. destruct (Hv y Hy). lia.
Qed.

Lemma created_Created w0 wp vs e rest :
    (length (heap w0) <= length (heap wp))%nat ->
    vs = VElem e :: rest ->
    forallb plainValue vs = true ->
    (if (length vs =? 1)%nat then notClosing (type e) = true
     else balanced (valueTypes vs) = true) ->
    Created w0 (mkWorld (heap wp ++ elementsOf vs) (store wp))
      (itemsFor (length (heap wp)) vs).
Proof.
    intros Hg -> Hplain Hb.
    destruct (created_items w0 wp (VElem e :: rest) (store wp) Hg Hplain)
      as (Htok & Hv & _).
    split.
    - intros x Hx. destruct (Hv x Hx). lia.
    - cbn [itemsFor]. exists (length (heap wp)), e, (itemsFor (S (length (heap wp))) rest).
      split; [done|]. split.
      + cbn. rewrite lookup_app_r by lia. by rewrite Nat.sub_diag.
      + change (Ref (length (heap wp)) :: itemsFor (S (length (heap wp))) rest)
          with (itemsFor (length (heap wp)) (VElem e :: rest)).
        rewrite itemsFor_length.
        destruct (length (VElem e :: rest) =? 1)%nat; [done|].
        by rewrite Htok.
Qed.

  (** The items with their close marker, when there is one item. *)
Lemma closing_spec w0 w items l :
    Created w0 w items ->
    exists items1 w1,
      (if (length items =? 1)%nat then pushClosing items else mret items) l w
      = Returned (items1, l, w1)
      /\ Extended w w1
      /\ head items1 = head items
      /\ balanced (tokens w1 items1) = true
      /\ (forall x, In (Ref x) items1 ->
                    In (Ref x) items \/ x = length (heap w))
      /\ (forall x, In (Ref x) items1 ->
                    (length (heap w0) <= x < length (heap w1))%nat)
      /\ length items1 <> 1%nat
      /\ (Forall (queuedOk w0 w) items -> Forall (queuedOk w0 w1) items1).
Proof.
    intros [Hv (x & e & rest & -> & He & Hb)].
    destruct (length (Ref x :: rest) =? 1)%nat eqn:Elen.
    - apply Nat.eqb_eq in Elen. destruct rest; [|done].
      rewrite (pushClosing_run x [] e l w He). cbn [app].
      eexists _, _. split; [reflexivity|].
      assert (Hx : (x < length (heap w))%nat) by (by apply lookup_lt_Some in He).
      split; [apply Extended_allocated|]. split; [done|].
      split; [|split; [|split; [|split]]].
      + unfold tokens. cbn. rewrite lookup_app_l by done. rewrite He. cbn.
        rewrite lookup_app_r by lia. rewrite Nat.sub_diag. cbn.
        by apply balanced_pair.
      + intros y [Hy | [Hy | []]]; injection Hy as Hy; subst y;
          [left; by left | by right].
      + destruct (Hv x); [by left|].
        intros y [Hy | [Hy | []]]; injection Hy as Hy; subst y;
          cbn; rewrite length_app; cbn; lia.
      + done.
      + intros Hq. apply Forall_cons. split.
        * apply (Forall_inv (queue_allocated w0 w _ [Ref x] Hq)).
        * constructor; [|constructor].
          exists (length (heap w)), (closeElement (String.append "/" (type e))).
          destruct (Hv x); [by left|].
          split; [done|]. split; [lia|]. split; [|done].
          cbn. rewrite lookup_app_r by lia. by rewrite Nat.sub_diag.
    - exists (Ref x :: rest), w. split; [done|].
      split; [apply Extended_refl|]. split; [done|]. split; [done|].
      split; [by left|]. split; [done|]. split; [|done].
      apply Nat.eqb_neq in Elen. done.
Qed.

  (** *** Meta items *)

Lemma run_getLocals {B} (k : Locals -> Step B) l w :
    (getLocals ≫= k) l w = k l l w.
Proof. reflexivity. Qed.

Lemma run_getWorld {B} (k : World -> Step B) l w :
    (getWorld ≫= k) l w = k w l w.
Proof. reflexivity. Qed.

Lemma run_update {B} f (k : unit -> Step B) l w :
    (update f ≫= k) l w = k tt (f l) w.
Proof. reflexivity. Qed.

Lemma run_ret {A B} (a : A) (k : A -> Step B) l w :
    (mret a ≫= k) l w = k a l w.
Proof. reflexivity. Qed.

  (** Setting the annotations of an element, or not. *)
Lemma annotating_spec w0 (c : bool) x indexes l w :
    exists w2,
      (if c then setAnnotations (Some (Ref x)) indexes else mret tt) l w
      = Returned (tt, l, w2)
      /\ length (heap w2) = length (heap w)
      /\ (forall y, type <$> (heap w2 !! y) = type <$> (heap w !! y))
      /\ (forall y, y <> x -> heap w2 !! y = heap w !! y)
      /\ (forall q, Forall (queuedOk w0 w) q -> Forall (queuedOk w0 w2) q).
Proof.
    destruct c.
    - rewrite setAnnotations_ref. eexists. split; [reflexivity|].
      split; [cbn; by rewrite length_alter|]. split; [|split].
      + intros y. cbn. destruct (decide (y = x)) as [->|Hne].
        * rewrite list_lookup_alter_eq. by destruct (heap w !! x).
        * by rewrite list_lookup_alter_ne.
      + intros y Hne. cbn. by rewrite list_lookup_alter_ne.
      + intros q Hq. by apply queue_mutated_ok.
    - exists w. by split.
Qed.

Lemma annotated_Evolved w0 wr w w2 :
    length (heap w2) = length (heap w) ->
    (forall y, type <$> (heap w2 !! y) = type <$> (heap w !! y)) ->
    (forall y, (y < length (heap w0))%nat -> heap w2 !! y = heap w !! y) ->
    Evolved w0 wr w w2.
Proof. intros Hl Ht Hf. constructor; [lia | auto | auto]. Qed.

  (** Balanced items at the end of the data, nothing being queued. *)
Lemma Invariant_output w0 wr l w l' w' items :
    Invariant w0 wr l w ->
    Evolved w0 wr w w' ->
    wrappedMetaItems l = [] ->
    context l' = context l ->
    wrappingParagraph l' = wrappingParagraph l ->
    wrappedMetaItems l' = [] ->
    data l' = data l ++ items ->
    (forall x, In (Ref x) items -> (x < length (heap w'))%nat) ->
    balanced (tokens w' items) = true ->
    match prevElement l' with
    | None => True
    | Some (Ref p) => (length (heap w0) <= p < length (heap w'))%nat
    | Some _ => False
    end ->
    Invariant w0 wr l' w'.
Proof.
    intros Hinv Hev Hq Hc Hwp Hq' Hd Hv Hb Hp.
    pose proof Hinv as [].
    apply (Invariant_step w0 wr l w l' w' Hinv Hev Hc Hwp).
    - intros x Hx. rewrite Hd in Hx. apply in_app_or in Hx as [Hx|Hx]; [|auto].
      apply inv_valid0 in Hx. destruct Hev. lia.
    - rewrite Hd, tokens_app, reduce_app.
      rewrite (tokens_evolved w0 wr w w' (data l)) by done.
      rewrite inv_open0. cbn. by apply balanced_reduce.
    - by rewrite Hq'.
    - rewrite Hq'. constructor.
    - by rewrite Hq'.
    - rewrite Hq'. destruct (prevElement l') as [[| |p]|]; try done.
      split; [done | by intros []].
    - done.
Qed.

  (** A meta item is queued, when the wrapper can be closed, or goes to
      the data. *)
Lemma convertMetaItem_spec w0 wr l wp w nodes items :
    Invariant w0 wr l wp -> WhitespaceAtEnd l ->
    Extended wp w ->
    Created w0 w items ->
    Forall (queuedOk w0 w) items ->
    (forall x, In (Ref x) items -> (length (heap wp) <= x)%nat) ->
    Runs w0 wr (convertMetaItem nodes items) l w.
Proof.
    intros Hinv Htail Hext Hcr Hqi Hfresh.
    destruct (closing_spec w0 w items l Hcr)
      as (items1 & w1 & Hrun1 & Hext1 & Hhead & Hbal & Hor & Hv1 & Hlen1 & Hq1).
    specialize (Hq1 Hqi).
    destruct Hcr as [Hv (x & e & rest & -> & He & _)]. cbn [head] in Hhead.
    assert (Hx : (length (heap wp) <= x)%nat) by (apply Hfresh; by left).
    assert (Hfresh1 : forall y, In (Ref y) items1 -> (length (heap wp) <= y)%nat).
    { intros y Hy. destruct (Hor y Hy) as [Hy'| ->]; [by apply Hfresh|].
      destruct Hext. lia. }
    destruct (annotating_spec w0
                (negb (AnnotationSet.isEmpty (cx_annotations (context l))))
                x (AnnotationSet.getIndexes (cx_annotations (context l))) l w1)
      as (w2 & Hrun2 & Hlen2 & Hty2 & Hne2 & Hq2).
    assert (Hext2 : Extended wp w2).
    { destruct Hext as [Hl Hf], Hext1 as [Hl1 Hf1]. split; [lia|].
      intros y Hy. rewrite Hne2 by lia. rewrite Hf1 by lia. by apply Hf. }
    pose proof (Invariant_extended w0 wr l wp w2 Hinv Hext2) as Hinv2.
    assert (Hbal2 : balanced (tokens w2 items1) = true).
    { rewrite (tokens_same_types w1 w2); [done|]. intros y _. apply Hty2. }
    assert (Hv2 : forall y, In (Ref y) items1 ->
                            (length (heap w0) <= y < length (heap w2))%nat).
    { intros y Hy. rewrite Hlen2. by apply Hv1. }
    unfold Runs, convertMetaItem.
    rewrite (run_bind _ _ _ _ _ _ _ Hrun1). rewrite run_getLocals.
    rewrite Hhead. rewrite (run_bind _ _ _ _ _ _ _ Hrun2).
    destruct (inWrapper (context l) && canCloseWrapper (context l)) eqn:Ecase.
    - apply andb_prop in Ecase as [Eiw Ecc].
      assert (Hprev : forall w', length (heap w') = length (heap w2) ->
        match prevElement l with
        | None => True
        | Some (Ref p) =>
            (length (heap w0) <= p < length (heap w'))%nat
            /\ ~ In (Ref p) (wrappedMetaItems l ++ items1)
        | Some _ => False
        end).
      { intros w' Hw'. pose proof (inv_prev _ _ _ _ Hinv) as Hp.
        pose proof (inv_prev _ _ _ _ Hinv2) as Hp2.
        destruct (prevElement l) as [[| |p]|]; try done.
        destruct Hp as [Hp Hnq]. split; [rewrite Hw'; tauto|].
        intros Hin. apply in_app_or in Hin as [Hin|Hin]; [done|].
        apply Hfresh1 in Hin. lia. }
      destruct (wrappedWhitespace l) as [|c v] eqn:Eww; run.
      + eexists _, _, _. split; [reflexivity|]. split.
        * pose proof Hinv2 as [].
          refine (Invariant_step w0 wr l w2 _ w2 Hinv2 (Evolved_refl _ _ _)
                    _ _ _ _ _ _ _ _ _); fields.
          -- done.
          -- done.
          -- done.
          -- done.
          -- rewrite tokens_app. by apply balanced_app.
          -- apply Forall_app. split; [done | by apply Hq2].
          -- rewrite length_app. destruct items1 as [|? [|? ?]]; cbn in *; [done|done|lia].
          -- by apply Hprev.
          -- congruence.
        * apply WhitespaceAtEnd_closed. right. fields. done.
      + destruct (Htail Ecc) as (A & W & Hd & HA & HW & Hch); [by rewrite Eww|].
        rewrite Eww in HW.
        rewrite addWhitespace_ref. fields. rewrite Hd, (spliceOut_tail A W) by done.
        assert (Hev3 : Evolved w0 wr w2
                         (whitespaceAdded (Some (Ref x)) 0 (Some (c :: v)) w2)).
        { apply Evolved_whitespaceAdded. left. pose proof (inv_grows _ _ _ _ Hinv). lia. }
        assert (Hqv : forall y, In (Ref y) (wrappedMetaItems l ++ items1) ->
                                (y < length (heap w2))%nat).
        { intros y Hy. apply in_app_or in Hy as [Hy|Hy].
          - by apply (queue_valid w0 w2 _ y (inv_queue _ _ _ _ Hinv2)).
          - by apply Hv2. }
        eexists _, _, _. split; [reflexivity|]. split.
        * pose proof Hinv2 as [].
          refine (Invariant_step w0 wr l w2 _ _ Hinv2 Hev3 _ _ _ _ _ _ _ _ _); fields.
          -- done.
          -- done.
          -- intros y Hy. cbn. rewrite length_alter. apply inv_valid0.
             rewrite Hd. apply in_or_app. by left.
          -- rewrite (tokens_evolved w0 wr w2) by
               (try done; intros y Hy; apply inv_valid0; rewrite Hd;
                apply in_or_app; by left).
             rewrite <- inv_open0, Hd, tokens_app, (tokens_chars w2 W Hch).
             by rewrite app_nil_r.
          -- rewrite (tokens_evolved w0 wr w2) by done.
             rewrite tokens_app. by apply balanced_app.
          -- apply queue_mutated_ok; [|intros; apply whitespaceOk_outerPre].
             apply Forall_app. split; [done | by apply Hq2].
          -- rewrite length_app. destruct items1 as [|? [|? ?]]; cbn in *; [done|done|lia].
          -- apply Hprev. cbn. by rewrite length_alter.
          -- congruence.
        * apply WhitespaceAtEnd_closed. right. fields. done.
    - assert (Hcc : canCloseWrapper (context l) = false).
      { pose proof (inv_wrapping _ _ _ _ Hinv) as Hw.
        destruct (canCloseWrapper (context l)); [|done].
        destruct Hw as (Hiw & _). rewrite Hiw in Ecase. done. }
      destruct (unwrapped_unqueued w0 wr l wp Hinv Hcc) as (Hq & _).
      run. rewrite outputWrappedMetaItems_restore_empty by done.
      rewrite processNextWhitespace_ref. fields.
      eexists _, _, _. split; [reflexivity|]. split.
      + eapply (Invariant_output w0 wr l w2 _ _ items1 Hinv2); fields; try done.
        * apply Evolved_whitespaceAdded. left. pose proof (inv_grows _ _ _ _ Hinv). lia.
        * intros y Hy. apply Hv2 in Hy. unfold whitespaceAdded.
          destruct (nextWhitespace l); cbn; rewrite ?length_alter; lia.
        * rewrite (tokens_same_types w2); [done|]. intros y _.
          unfold whitespaceAdded. destruct (nextWhitespace l); cbn; [done|].
          destruct (decide (y = x)) as [->|Hne].
          -- rewrite list_lookup_alter_eq. by destruct (heap w2 !! x).
          -- by rewrite list_lookup_alter_ne.
        * assert (Hx2 : In (Ref x) items1).
          { destruct items1; [done|]. cbn in Hhead. left. congruence. }
          apply Hv2 in Hx2. unfold whitespaceAdded.
          destruct (nextWhitespace l); cbn; rewrite ?length_alter; lia.
      + apply WhitespaceAtEnd_closed. left. fields. done.
Qed.

  (** *** Annotations *)

Lemma Does_bind {A B} (m : Step A) (k : A -> Step B) l w
      (mid : A -> Locals -> World -> Prop) post :
    Does m l w mid ->
    (forall a l1 w1, mid a l1 w1 -> Does (k a) l1 w1 post) ->
    Does (m ≫= k) l w post.
Proof.
    intros (a & l1 & w1 & Hm & Hmid) Hk.
    destruct (Hk a l1 w1 Hmid) as (b & l2 & w2 & Hrun & Hpost).
    exists b, l2, w2. by rewrite (run_bind _ _ _ _ _ _ _ Hm).
Qed.

Lemma Does_ret {A} (a : A) l w (post : A -> Locals -> World -> Prop) :
    post a l w -> Does (mret a) l w post.
Proof. intros Hp. by exists a, l, w. Qed.

Lemma whitespaceAdded_length element index ws w :
    length (heap (whitespaceAdded element index ws w)) = length (heap w).
Proof.
    unfold whitespaceAdded. destruct ws as [[|c v]|], element as [[| |r]|]; try done.
    cbn. by rewrite length_alter.
Qed.

Lemma whitespaceAdded_types element index ws w y :
    type <$> (heap (whitespaceAdded element index ws w) !! y) = type <$> (heap w !! y).
Proof.
    unfold whitespaceAdded. destruct ws as [[|c v]|], element as [[| |r]|]; try done.
    cbn. destruct (decide (y = r)) as [->|Hne].
    - rewrite list_lookup_alter_eq. by destruct (heap w !! r).
    - by rewrite list_lookup_alter_ne.
Qed.

Lemma storeIndex_spec a l w :
    exists i st, storeIndex a l w = Returned (i, l, mkWorld (heap w) st).
Proof.
    unfold storeIndex. run. destruct (indexOf a (store w) 0) as [i|].
    - exists i, (store w). by destruct w.
    - by eexists _, _.
Qed.

Lemma Extended_store w st : Extended w (mkWorld (heap w) st).
Proof. by split. Qed.

Lemma Converted_Extended w items w' : Converted w None items w' -> Extended w w'.
Proof. intros []. split; [done|]. intros x Hx. by apply cv_frame0. Qed.

  (** The wrapper paragraph an annotation or a content node opens. *)
Lemma startWrapping_prev w0 wr l w :
    Invariant w0 wr l w ->
    canCloseWrapper (context l) = false ->
    originallyExpectingContent (context l) = false ->
    exists l1 w1,
      (startWrapping;; l ← getLocals;
       update (set_prevElement (Ref <$> wrappingParagraph l))) l w
      = Returned (tt, l1, w1)
      /\ Invariant w0 wr l1 w1
      /\ Evolved w0 wr w w1
      /\ Extended w w1
      /\ inWrapper (context l1) = true
      /\ cx_annotations (context l1) = cx_annotations (context l)
      /\ wrappedMetaItems l1 = [].
Proof.
    intros Hinv Hcc Hoe.
    destruct (startWrapping_Invariant w0 wr l w Hinv Hcc Hoe) as [Hinv1 Hev1].
    destruct (unwrapped_unqueued w0 wr l w Hinv Hcc) as (Hq & _).
    rewrite (run_bind _ _ _ _ _ _ _ (startWrapping_run l w)).
    eexists _, _. split; [reflexivity|]. unfold startedLocals in *. fields.
    split; [|split; [done|split; [|done]]].
    - pose proof Hinv1 as [].
      refine (Invariant_step w0 wr _ _ _ _ Hinv1 (Evolved_refl _ _ _) _ _ _ _ _ _ _ _ _);
        fields; try done.
      + cbn. rewrite Hq. split; [|by intros []].
        destruct inv_wrapping0 as (_ & _ & _ & p & [= <-] & Hp). done.
    - unfold startedWorld. apply Extended_whitespaceAdded; [|done].
      apply Extended_allocated.
Qed.

Lemma Runs_Does {A} w0 wr (m : Step A) l w :
    Does m l w (fun _ l' w' => Invariant w0 wr l' w' /\ WhitespaceAtEnd l') ->
    Runs w0 wr m l w.
Proof. intros Hd. exact Hd. Qed.

Lemma Does_getWorld {B} (k : World -> Step B) l w post :
    Does (k w) l w post -> Does (getWorld ≫= k) l w post.
Proof. intros Hd. exact Hd. Qed.

Lemma Does_getLocals {B} (k : Locals -> Step B) l w post :
    Does (k l) l w post -> Does (getLocals ≫= k) l w post.
Proof. intros Hd. exact Hd. Qed.

Lemma Does_update {B} f (k : unit -> Step B) l w post :
    Does (k tt) (f l) w post -> Does (update f ≫= k) l w post.
Proof. intros Hd. exact Hd. Qed.

Lemma Does_run {A B} (m : Step A) (k : A -> Step B) l w a l1 w1 post :
    m l w = Returned (a, l1, w1) ->
    Does (k a) l1 w1 post -> Does (m ≫= k) l w post.
Proof.
    intros Hm (b & l2 & w2 & Hrun & Hpost).
    exists b, l2, w2. by rewrite (run_bind _ _ _ _ _ _ _ Hm).
Qed.

  (** The data of an annotation whose content came out empty, or as
      alien meta items only. *)
Lemma alienMeta_spec w0 wr l w nodes stack (c : bool) indexes :
    RegistryContract ->
    Invariant w0 wr l w ->
    Does (created ← createDataElements AlienMetaItem nodes stack;
          match created with
          | None => throw "TypeError"
          | Some created =>
              created ← pushClosing created;
              (if c then setAnnotations (head created) indexes else mret tt);;
              mret created
          end) l w
      (fun items l' w' =>
         l' = l /\ Extended w w'
         /\ (forall x, In (Ref x) items -> (x < length (heap w'))%nat)
         /\ balanced (tokens w' items) = true).
Proof.
    intros Hrc Hinv.
    destruct (rc_alienMeta Hrc nodes (stack ++ [context l])) as (e & Hval & Hopen & Hplain).
    eapply Does_run.
    { rewrite createDataElements_run, Hval. reflexivity. }
    cbn [markFirst itemsFor].
    set (n := length (heap w)).
    set (e1 := withOriginalDomElements nodes e).
    set (w1 := mkWorld _ _).
    assert (He1 : heap w1 !! n = Some e1).
    { subst w1 n. cbn. rewrite lookup_app_r by lia. by rewrite Nat.sub_diag. }
    assert (Hlen1 : length (heap w1) = S n).
    { subst w1 n. cbn. rewrite length_app. cbn. lia. }
    assert (Hold : forall y, (y < n)%nat -> heap w1 !! y = heap w !! y).
    { intros y Hy. subst w1. cbn. by rewrite lookup_app_l. }
    assert (Hn : n = length (heap w)) by done.
    clearbody w1 n.
    eapply Does_run.
    { apply (pushClosing_run n [] e1 l w1 He1). }
    cbn [app head].
    destruct (annotating_spec w0 c n indexes l
                (allocated (closeElement (String.append "/" (type e1))) w1))
      as (w2 & Hrun2 & Hlen2 & Hty2 & Hne2 & _).
    eapply Does_run; [exact Hrun2|].
    apply Does_ret. split; [done|].
    unfold allocated in *. cbn [heap] in *. rewrite length_app in Hlen2. cbn in Hlen2.
    split; [|split].
    - split; [lia|].
      intros y Hy. rewrite Hne2 by lia.
      rewrite lookup_app_l by lia. apply Hold. lia.
    - intros y Hy.
      destruct Hy as [Hy | [Hy | []]]; injection Hy as Hy; lia.
    - rewrite (tokens_same_types
                 (mkWorld (heap w1 ++ [closeElement (String.append "/" (type e1))])
                    (store w1)) w2);
        [|intros y _; apply Hty2].
      unfold tokens. cbn. rewrite lookup_app_l by lia. rewrite He1. cbn.
      rewrite lookup_app_r by lia. rewrite Hlen1, Nat.sub_diag. cbn.
      by apply balanced_pair.
Qed.

  (** An annotation: its content is the data of the recursive call, or
      an alien meta item. *)
Lemma convertAnnotation_spec (recurse : Recursion) w0 wr l w stack child nodes
      x rest e :
    RegistryContract -> Converts recurse child ->
    Invariant w0 wr l w ->
    heap w !! x = Some e ->
    Runs w0 wr (convertAnnotation recurse stack child nodes (Ref x :: rest)) l w.
Proof.
    intros Hrc Hrec Hinv He. apply Runs_Does.
    unfold convertAnnotation. apply Does_getWorld. cbn [head]. rewrite He.
    apply Does_getLocals.
    apply Does_bind with (mid := fun _ l1 w1 => Invariant w0 wr l1 w1).
    { destruct (negb (inWrapper (context l)) && negb (expectingContent (context l)))
        eqn:Ecase.
      - apply andb_prop in Ecase as [Eiw Eec].
        apply negb_true_iff in Eiw, Eec.
        pose proof (outside_cannot_close w0 wr l w Hinv Eiw) as Hcc.
        destruct (unwrapped_unqueued w0 wr l w Hinv Hcc) as (_ & _ & Hoe).
        destruct (startWrapping_prev w0 wr l w Hinv Hcc) as (l1 & w1 & Hrun & Hinv1 & _);
          [congruence|].
        by exists tt, l1, w1.
      - by apply Does_ret. }
    intros [] l1 w1 Hinv1. cbv beta.
    apply Does_getLocals.
    destruct (storeIndex_spec (createFromElement e) l1 w1) as (index & st & Hrun2).
    eapply Does_run; [exact Hrun2|].
    set (w2 := mkWorld (heap w1) st) in *.
    pose proof (Invariant_extended w0 wr l1 w1 w2 Hinv1 (Extended_store w1 st)) as Hinv2.
    destruct (Hrec None
                (Some (AnnotationSet.pushIndex (cx_annotations (context l1)) index))
                (stack ++ [context l1]) w2 I) as (items & w3 & Hrun3 & Hconv).
    eapply Does_run.
    { unfold callRecurse. rewrite Hrun3. reflexivity. }
    pose proof (Invariant_extended w0 wr l1 w2 w3 Hinv2 (Converted_Extended _ _ _ Hconv))
      as Hinv3.
    apply Does_getWorld.
    apply Does_bind with
      (mid := fun items' l' w' =>
                l' = l1 /\ Invariant w0 wr l1 w'
                /\ (forall x, In (Ref x) items' -> (x < length (heap w'))%nat)
                /\ balanced (tokens w' items') = true).
    { destruct ((length items =? 0)%nat
                || isAllInstanceOf w3 items (className AlienMetaItem)).
      - destruct (alienMeta_spec w0 wr l1 w3 nodes stack
                    (negb (AnnotationSet.isEmpty (cx_annotations (context l1))))
                    (AnnotationSet.getIndexes (cx_annotations (context l1))) Hrc Hinv3)
          as (items' & l' & w' & Hrun & -> & Hext & Hv & Hb).
        exists items', l1, w'. split; [exact Hrun|].
        split; [done|]. split; [by eapply Invariant_extended|]. done.
      - apply Does_ret. split; [done|]. split; [done|]. split; apply Hconv. }
    intros items' ? w4 (-> & Hinv4 & Hv4 & Hb4).
    destruct (outputWrappedMetaItems_restore w0 wr l1 w4 Hinv4)
      as (D & w5 & Hrun5 & Hinv5 & Hev5).
    eapply Does_run; [exact Hrun5|].
    unfold Does. run. eexists _, _, _. split; [reflexivity|]. split.
    - eapply (Invariant_output w0 wr _ w5 _ w5 items' Hinv5 (Evolved_refl _ _ _));
        fields; try done.
      + intros y Hy. apply Hv4 in Hy. destruct Hev5. lia.
      + by rewrite (tokens_evolved w0 wr w4 w5).
      + pose proof (inv_prev _ _ _ _ Hinv5) as Hp. fields.
        destruct (prevElement l1) as [[| |p]|]; tauto.
    - apply WhitespaceAtEnd_closed. by right.
Qed.

  (** *** Nodes *)

Lemma Converted_Evolved w0 wr w x items w' :
    Converted w (Some x) items w' ->
    (length (heap w0) <= x)%nat ->
    (length (heap w0) <= length (heap w))%nat ->
    Evolved w0 wr w w'.
Proof.
    intros [] Hx Hg. constructor; [done | |].
    - intros y Hy. destruct (decide (y = x)) as [->|Hne].
      + by apply cv_wrapper0.
      + rewrite cv_frame0; [done | done | congruence].
    - intros y Hy _. apply cv_frame0; [lia|]. intros [= ->]. lia.
Qed.

Lemma Created_head w0 w items :
    Created w0 w items ->
    exists x e rest,
      items = Ref x :: rest /\ heap w !! x = Some e
      /\ (length (heap w0) <= x < length (heap w))%nat.
Proof.
    intros [Hv (x & e & rest & -> & He & _)].
    exists x, e, rest. split; [done|]. split; [done|]. apply Hv. by left.
Qed.

Lemma Created_alien w0 wr l w nodes stack :
    RegistryContract ->
    Invariant w0 wr l w ->
    exists items w',
      createDataElements AlienNode nodes stack l w = Returned (Some items, l, w')
      /\ Extended w w'
      /\ Created w0 w' items.
Proof.
    intros Hrc Hinv.
    destruct (rc_alien Hrc nodes (stack ++ [context l])) as (vs & Hval & Hne & Hc & _).
    rewrite createDataElements_run, Hval.
    eexists _, _. split; [reflexivity|]. split; [apply Extended_appended|].
    destruct Hc as [-> | (e & rest & c & -> & Hl & Hplain & Hb & _)]; [done|].
    cbn [markFirst].
    apply (created_Created w0 w _ (withOriginalDomElements nodes e) rest);
      [apply Hinv | done | by rewrite <- (markFirst_plain nodes) in Hplain |].
    exact Hb.
Qed.

Lemma Does_wrapping {B} (k : unit -> Step B) w0 wr l w post :
    Invariant w0 wr l w ->
    canCloseWrapper (context l) = false ->
    originallyExpectingContent (context l) = false ->
    (forall l1 w1,
       Invariant w0 wr l1 w1 -> Evolved w0 wr w w1 ->
       inWrapper (context l1) = true ->
       wrappedMetaItems l1 = [] ->
       Does (k tt) l1 w1 post) ->
    Does (startWrapping;; l ← getLocals;
          update (set_prevElement (Ref <$> wrappingParagraph l)) ≫= k) l w post.
Proof.
    intros Hinv Hcc Hoe Hk.
    destruct (startWrapping_prev w0 wr l w Hinv Hcc Hoe)
      as (l1 & w1 & Hrun & Hinv1 & Hev1 & _ & Hiw & _ & Hq).
    rewrite (run_bind _ _ _ _ _ _ _ (startWrapping_run l w)) in Hrun.
    injection Hrun as <- <-.
    eapply Does_run; [apply startWrapping_run|].
    apply Does_getLocals, Does_update. by apply Hk.
Qed.

  (** A node: wrapped, or closing the wrapper, or alienated, and then
      converted with its children or written as it is. *)
Lemma convertChildNode_spec (recurse : Recursion) w0 wr l w stack child
      aboutGroup nodes items :
    RegistryContract -> Converts recurse child ->
    Invariant w0 wr l w -> WhitespaceAtEnd l ->
    Created w0 w items ->
    Runs w0 wr (convertChildNode recurse stack child aboutGroup nodes items) l w.
Proof.
    intros Hrc Hrec Hinv Htail Hcr. apply Runs_Does.
    unfold convertChildNode.
    destruct (Created_head w0 w items Hcr) as (x & e & rest & Hitems & He & Hx).
    eapply Does_run.
    { rewrite Hitems. apply (firstType_ref x rest e l w He). }
    apply Does_getLocals.
    apply Does_bind with
      (mid := fun r l1 w1 =>
                Invariant w0 wr l1 w1
                /\ Created w0 w1 (snd (fst r))
                /\ (canCloseWrapper (context l1) = true -> snd r = true)).
    { destruct (negb (expectingContent (context l))
                && isNodeContent (Some (type e))) eqn:Ecase1.
      { apply andb_prop in Ecase1 as [Eec Econtent].
        apply negb_true_iff in Eec.
        assert (Hcc : canCloseWrapper (context l) = false).
        { pose proof (inv_wrapping _ _ _ _ Hinv) as Hw.
          destruct (canCloseWrapper (context l)); [|done].
          destruct Hw as (_ & Hw & _). congruence. }
        destruct (unwrapped_unqueued w0 wr l w Hinv Hcc) as (_ & _ & Hoe).
        apply (Does_wrapping _ w0 wr); [done | done | congruence |].
        intros l1 w1 Hinv1 Hev1 Hiw1 Hq1. apply Does_ret. cbn [fst snd].
        split; [done|]. split; [by eapply Created_evolved|]. done. }
      destruct (expectingContent (context l) && negb (isNodeContent (Some (type e))))
        eqn:Ecase2.
      { apply andb_prop in Ecase2 as [Eec Econtent].
        destruct (inWrapper (context l) && canCloseWrapper (context l)) eqn:Ecase3.
        - apply andb_prop in Ecase3 as [Eiw Ecc].
          destruct (stopWrapping_spec w0 wr l w Hinv Htail Ecc)
            as (D & nw & w1 & Hrun & Hinv1 & Hev1).
          eapply Does_run; [exact Hrun|]. apply Does_ret. cbn [fst snd].
          split; [done|]. split; [by eapply Created_evolved|].
          unfold stoppedLocals; fields. done.
        - assert (Hcc : canCloseWrapper (context l) = false).
          { pose proof (inv_wrapping _ _ _ _ Hinv) as Hw.
            destruct (canCloseWrapper (context l)); [|done].
            destruct Hw as (Hiw & _). rewrite Hiw in Ecase3. done. }
          destruct (Created_alien w0 wr l w
                      (if enableAboutGrouping AlienNode then aboutGroup else [child])
                      stack Hrc Hinv) as (created & w1 & Hrun & Hext & Hcr1).
          eapply Does_run; [exact Hrun|].
          destruct (Created_head w0 w1 created Hcr1) as (x1 & e1 & rest1 & Hc1 & He1 & Hx1).
          eapply Does_run.
          { rewrite Hc1. apply (firstType_ref x1 rest1 e1 l w1 He1). }
          apply Does_ret. cbn [fst snd].
          split; [by eapply Invariant_extended|]. split; [done|].
          congruence. }
      apply Does_ret. cbn [fst snd]. split; [done|]. split; [done|].
      intros Hcc.
      pose proof (inv_wrapping _ _ _ _ Hinv) as Hw. rewrite Hcc in Hw.
      destruct Hw as (_ & Hec & _). rewrite Hec in Ecase2. cbn in Ecase2.
      by apply negb_false_iff in Ecase2. }
    intros [[nodes' items'] content'] l1 w1 (Hinv1 & Hcr1 & Hcontent).
    cbn [fst snd] in *. clear dependent l. clear dependent x. clear e rest.
    apply Does_getLocals.
    apply Does_bind with
      (mid := fun _ l2 w2 =>
                Invariant w0 wr l2 w2
                /\ Created w0 w2 items'
                /\ context l2 = context l1
                /\ (canCloseWrapper (context l2) = true -> wrappedWhitespace l2 = [])).
    { destruct (inWrapper (context l1) && content') eqn:Ecase.
      - destruct (outputWrappedMetaItems_restore w0 wr l1 w1 Hinv1)
          as (D & w2 & Hrun & Hinv2 & Hev2).
        eapply Does_run; [exact Hrun|].
        unfold Does. run. eexists _, _, _. split; [reflexivity|]. fields.
        split; [|split; [by eapply Created_evolved | done]].
        eapply (Invariant_chars w0 wr _ w2 _ [] Hinv2); fields; try done.
        + by rewrite app_nil_r.
        + by left.
      - apply Does_ret. split; [done|]. split; [done|]. split; [done|].
        intros Hcc. rewrite (Hcontent Hcc), andb_true_r in Ecase.
        pose proof (inv_wrapping _ _ _ _ Hinv1) as Hw. rewrite Hcc in Hw.
        destruct Hw as (Hiw & _). congruence. }
    intros [] l2 w2 (Hinv2 & Hcr2 & Hctx2 & Hww2).
    destruct (Created_head w0 w2 items' Hcr2) as (x & e & rest & -> & He & Hx).
    set (items' := Ref x :: rest) in *.
    destruct (annotating_spec w0
                (content' && negb (AnnotationSet.isEmpty (cx_annotations (context l1))))
                x (AnnotationSet.getIndexes (cx_annotations (context l1))) l2 w2)
      as (w3 & Hrun3 & Hlen3 & Hty3 & Hne3 & Hq3).
    eapply Does_run; [exact Hrun3|].
    assert (Hev3 : Evolved w0 wr w2 w3).
    { apply annotated_Evolved; [done | done |]. intros y Hy. apply Hne3. lia. }
    pose proof (Invariant_world w0 wr l2 w2 w3 Hinv2 Hev3
                  (Hq3 _ (inv_queue _ _ _ _ Hinv2))) as Hinv3.
    pose proof (Created_evolved w0 wr w2 w3 items' Hcr2 Hev3) as Hcr3.
    destruct (Created_head w0 w3 items' Hcr3) as (x' & e3 & rest' & Hitems' & He3 & _).
    injection Hitems' as <- <-.
    eapply Does_run; [apply (firstType_ref x rest e3 l2 w3 He3)|].
    apply Does_bind with
      (mid := fun _ l5 w5 =>
                Invariant w0 wr l5 w5
                /\ context l5 = context l2
                /\ wrappedWhitespace l5 = wrappedWhitespace l2
                /\ wrappedMetaItems l5 = []
                /\ (length (heap w3) <= length (heap w5))%nat).
    { destruct ((length items' =? 1)%nat && (length nodes' =? 1)%nat
                && canNodeHaveChildren (Some (type e3))
                && negb (doesNodeHandleOwnChildren (Some (type e3)))) eqn:Ecase.
      - apply andb_prop in Ecase as [Ecase _]. apply andb_prop in Ecase as [Ecase _].
        apply andb_prop in Ecase as [Elen _].
        destruct (outputWrappedMetaItems_restore w0 wr l2 w3 Hinv3)
          as (D & w4 & Hrun4 & Hinv4 & Hev4).
        eapply Does_run; [exact Hrun4|].
        pose proof (Created_evolved w0 wr w3 w4 items' Hcr3 Hev4) as Hcr4.
        destruct Hcr4 as [Hv4 (x4 & e4 & rest4 & Hitems4 & He4 & Hopen4)].
        rewrite Elen in Hopen4. injection Hitems4 as <- <-.
        cbn [head].
        destruct (Hrec (Some x) (Some AnnotationSet.empty)
                    (stack ++ [context (set_wrappedMetaItems [] (set_data D l2))]) w4)
          as (items2 & w5 & Hrun5 & Hconv).
        { by exists e4. }
        eapply Does_run.
        { unfold callRecurse. rewrite Hrun5. reflexivity. }
        unfold Does. run. eexists _, _, _. split; [reflexivity|]. fields.
        assert (Hev5 : Evolved w0 wr w4 w5).
        { apply (Converted_Evolved w0 wr w4 x items2 w5 Hconv); [lia | apply Hinv4]. }
        split; [|split; [done|split; [done|split; [done|]]]].
        + eapply (Invariant_output w0 wr _ w4 _ w5 items2 Hinv4 Hev5); fields; try done.
          * apply Hconv.
          * apply Hconv.
          * pose proof (inv_prev _ _ _ _ Hinv4) as Hp. fields.
            destruct (prevElement l2) as [[| |p]|]; try done.
            destruct Hev5. lia.
        + destruct Hev4, Hev5. lia.
      - destruct (closing_spec w0 w3 items' l2 Hcr3)
          as (items1 & w4 & Hrun4 & Hext4 & Hhead4 & Hbal4 & _ & Hv4 & _).
        eapply Does_run; [exact Hrun4|].
        pose proof (Invariant_extended w0 wr l2 w3 w4 Hinv3 Hext4) as Hinv4.
        destruct (outputWrappedMetaItems_restore w0 wr l2 w4 Hinv4)
          as (D & w5 & Hrun5 & Hinv5 & Hev5).
        eapply Does_run; [exact Hrun5|].
        unfold Does. run. eexists _, _, _. split; [reflexivity|]. fields.
        split; [|split; [done|split; [done|split; [done|]]]].
        + eapply (Invariant_output w0 wr _ w5 _ w5 items1 Hinv5 (Evolved_refl _ _ _));
            fields; try done.
          * intros y Hy. apply Hv4 in Hy. destruct Hev5. lia.
          * by rewrite (tokens_evolved w0 wr w4 w5) by
              (try done; intros y Hy; by apply Hv4).
          * pose proof (inv_prev _ _ _ _ Hinv5) as Hp. fields.
            destruct (prevElement l2) as [[| |p]|]; tauto.
        + destruct Hext4, Hev5. lia. }
    intros [] l5 w5 (Hinv5 & Hctx5 & Hww5 & Hq5 & Hlen5).
    eapply Does_run; [apply processNextWhitespace_ref|].
    unfold Does. run. eexists _, _, _. split; [reflexivity|]. split.
    - eapply (Invariant_output w0 wr l5 w5 _ _ [] Hinv5); fields; try done.
      + apply Evolved_whitespaceAdded. left. lia.
      + by rewrite app_nil_r.
      + rewrite whitespaceAdded_length. apply lookup_lt_Some in He3. subst items'. cbn. lia.
    - intros Hcc Hne. fields. rewrite Hww5 in Hne. rewrite Hctx5 in Hcc.
      by apply Hww2 in Hcc.
Qed.

  (** *** The children of the subtree *)

Lemma Does_Runs {A} w0 wr (m : Step A) l w :
    Runs w0 wr m l w ->
    Does m l w (fun _ l' w' => Invariant w0 wr l' w' /\ WhitespaceAtEnd l').
Proof. intros Hr. exact Hr. Qed.

  (** An element or a comment among the children. *)
Lemma convertElement_spec (recurse : Recursion) w0 wr l w stack child siblings :
    RegistryContract -> Converts recurse child ->
    Invariant w0 wr l w -> WhitespaceAtEnd l ->
    Runs w0 wr (convertElement recurse stack child siblings) l w.
Proof.
    intros Hrc Hrec Hinv Htail. apply Runs_Does. unfold convertElement.
    destruct (match getAttribute child "data-ve-ignore" with
              | Some v => negb (isEmptyString v)
              | None => false
              end); [by apply Does_ret|].
    cbv zeta.
    set (aboutGroup := getAboutGroup child siblings).
    set (modelName := matchElement child (1 <? length aboutGroup)%nat).
    set (modelClass := default AlienNode (lookup modelName)).
    set (childNodes := if extends modelClass AnnotationClass then [child]
                       else if enableAboutGrouping modelClass then aboutGroup
                            else [child]).
    assert (Hcontract : forall vs,
      valuesOf (toDataElement modelClass childNodes (stack ++ [context l])) = Some vs ->
      valuesContract vs).
    { subst modelClass. destruct (lookup modelName) as [c|] eqn:Elookup; cbn [default].
      - intros vs. apply (rc_registered Hrc modelName c).  exact Elookup.
      - intros vs Hvs.
        destruct (rc_alien Hrc childNodes (stack ++ [context l]))
          as (vs' & Hval & _ & Hc & _).
        cbn [default] in Hvs. rewrite Hval in Hvs. by injection Hvs as <-. }
    destruct (valuesOf (toDataElement modelClass childNodes (stack ++ [context l])))
      as [vs|] eqn:Hval;
      (eapply Does_run; [rewrite createDataElements_run, Hval; reflexivity|]).
    - destruct (Hcontract vs eq_refl)
        as [-> | (e & rest & c & -> & Hl & Hplain & Hb & Hmeta)].
      + cbn [markFirst itemsFor]. apply Does_ret.
        split; [by apply Invariant_appended | done].
      + pose proof (created_Created w0 w _ (withOriginalDomElements childNodes e) rest
                      (inv_grows _ _ _ _ Hinv) eq_refl) as Hcr.
        assert (Hplain1 : forallb plainValue
                            (VElem (withOriginalDomElements childNodes e) :: rest) = true).
        { by rewrite <- (markFirst_plain childNodes) in Hplain. }
        specialize (Hcr Hplain1 Hb).
        destruct (created_items w0 w (VElem (withOriginalDomElements childNodes e) :: rest)
                    (store w) (inv_grows _ _ _ _ Hinv) Hplain1) as (_ & Hrefs & Hqueued).
        cbn [markFirst] in *.
        set (items := itemsFor (length (heap w))
                        (VElem (withOriginalDomElements childNodes e) :: rest)) in *.
        set (w1 := mkWorld _ _) in *.
        pose proof (Extended_appended w
                      (elementsOf (VElem (withOriginalDomElements childNodes e) :: rest))
                      (store w)) as Hext.
        fold w1 in Hext.
        pose proof (Invariant_extended w0 wr l w w1 Hinv Hext) as Hinv1.
        destruct (Created_head w0 w1 items Hcr) as (x & e1 & rest1 & Hitems & He1 & Hx).
        assert (Hty : type e1 = type e).
        { subst items w1. cbn [itemsFor] in Hitems. injection Hitems as <- <-.
          cbn in He1. rewrite lookup_app_r in He1 by lia.
          rewrite Nat.sub_diag in He1. cbn in He1. by injection He1 as <-. }
        clearbody items w1. subst items.
        apply Does_bind with
          (mid := fun r l' w' => r = (Some c, childNodes, Ref x :: rest1)
                                 /\ l' = l /\ w' = w1).
        { eapply Does_run; [apply (firstType_ref x rest1 e1 l w1 He1)|].
          apply Does_ret. by rewrite Hty, Hl. }
        intros ? ? ? (-> & -> & ->). cbv beta iota.
        destruct (extends c AnnotationClass).
        { apply Does_Runs. by eapply convertAnnotation_spec. }
        destruct (extends c MetaItemClass) eqn:Emeta.
        { apply Does_Runs. apply (convertMetaItem_spec w0 wr l w w1); try done.
          - apply Hqueued. rewrite <- (markFirst_elements childNodes). by apply Hmeta.
          - intros y Hy. by apply Hrefs. }
        apply Does_Runs. by apply convertChildNode_spec.
    - destruct (Created_alien w0 wr l w
                  (if enableAboutGrouping AlienNode then aboutGroup else [child])
                  stack Hrc Hinv) as (created & w1 & Hrun & Hext & Hcr).
      apply Does_bind with
        (mid := fun r l' w' =>
                  r = (Some AlienNode,
                       if enableAboutGrouping AlienNode then aboutGroup else [child],
                       created)
                  /\ l' = l /\ w' = w1).
      { eapply Does_run; [exact Hrun|]. by apply Does_ret. }
      intros ? ? ? (-> & -> & ->). cbv beta iota.
      destruct (rc_alien_is_node Hrc) as [-> ->].
      apply Does_Runs. apply convertChildNode_spec; try done.
      by eapply Invariant_extended.
Qed.

Lemma convertChild_spec (recurse : Recursion) w0 wr l w stack i count child siblings :
    RegistryContract -> Converts recurse child ->
    Invariant w0 wr l w -> WhitespaceAtEnd l ->
    Runs w0 wr (convertChild recurse wr stack i count child siblings) l w.
Proof.
    intros Hrc Hrec Hinv Htail.
    destruct child as [tag attrs children|text|text|k]; cbn [convertChild].
    - by apply convertElement_spec.
    - by apply convertElement_spec.
    - destruct (convertText_spec w0 wr i count text l w Hinv Htail)
        as ([] & l' & w' & Hrun & Hinv' & Htail').
      exists O, l', w'. split; [|done].
      by rewrite (run_bind _ _ _ _ _ _ _ Hrun).
    - by exists O, l, w.
Qed.

  (** The loop over the children keeps the invariant. *)
Lemma convertChildren_spec (recurse : Recursion) w0 wr stack count children :
    RegistryContract ->
    Forall (Converts recurse) children ->
    forall i skip l w,
      Invariant w0 wr l w -> WhitespaceAtEnd l ->
      Runs w0 wr (convertChildren recurse wr stack i count skip children) l w.
Proof.
    intros Hrc Hall. induction Hall as [|child siblings Hchild Hall IH];
      intros i skip l w Hinv Htail; cbn [convertChildren].
    - by exists tt, l, w.
    - destruct skip as [|skip']; [|by apply IH].
      destruct (convertChild_spec recurse w0 wr l w stack i count child siblings
                  Hrc Hchild Hinv Htail) as (consumed & l' & w' & Hrun & Hinv' & Htail').
      eapply Runs_bind; [exact Hrun|]. by apply IH.
Qed.

  (** *** The end of the subtree *)

Lemma Invariant_inWrapper w0 wr l w b :
    Invariant w0 wr l w ->
    canCloseWrapper (context l) = false ->
    Invariant w0 wr (set_context (set_inWrapper b (context l)) l) w.
Proof.
    intros [] Hcc.
    destruct l as [d nw ww wi q wp pe [an bt bh oe ec iw cc]]. fields. subst cc.
    by constructor.
Qed.

Lemma pushEmptyParagraph_spec l w :
    exists l' w',
      pushEmptyParagraph l w = Returned (tt, l', w')
      /\ data l' = data l ++ [Ref (length (heap w)); Ref (S (length (heap w)))]
      /\ context l' = context l
      /\ wrappingParagraph l' = wrappingParagraph l
      /\ wrappedMetaItems l' = wrappedMetaItems l
      /\ prevElement l' = prevElement l
      /\ Extended w w'
      /\ length (heap w') = S (S (length (heap w)))
      /\ balanced (tokens w' [Ref (length (heap w)); Ref (S (length (heap w)))]) = true.
Proof.
    unfold pushEmptyParagraph.
    rewrite (run_bind _ _ _ _ _ _ _ (allocElement_run _ l w)).
    rewrite (run_bind _ _ _ _ _ _ _ (processNextWhitespace_ref _ _ _)).
    run. rewrite allocElement_run. fields.
    set (n := length (heap w)).
    set (w1 := whitespaceAdded (Some (Ref n)) 0 (Some (nextWhitespace l))
                 (allocated emptyParagraphElement w)).
    assert (Hlen1 : length (heap w1) = S n).
    { subst w1. rewrite whitespaceAdded_length. cbn. rewrite length_app. cbn. lia. }
    assert (Hext1 : Extended w w1).
    { subst w1. apply Extended_whitespaceAdded; [apply Extended_allocated | done]. }
    assert (Hty1 : type <$> (heap w1 !! n) = Some "paragraph"%string).
    { subst w1. rewrite whitespaceAdded_types. cbn. rewrite lookup_app_r by lia.
      by rewrite Nat.sub_diag. }
    clearbody w1. rewrite Hlen1.
    eexists _, _. split; [reflexivity|]. fields.
    split; [by rewrite <- app_assoc|]. do 4 (split; [done|]).
    split; [|split].
    - eapply Extended_trans; [exact Hext1 | apply Extended_allocated].
    - cbn. rewrite length_app. cbn. lia.
    - unfold tokens. cbn. rewrite lookup_app_l by lia.
      destruct (heap w1 !! n) as [e1|]; [|done]. cbn in Hty1. injection Hty1 as Hty1.
      cbn. rewrite lookup_app_r by lia. rewrite Hlen1, Nat.sub_diag. cbn.
      rewrite Hty1. done.
Qed.

Lemma Does_pushEmptyParagraph w0 wr l w :
    Invariant w0 wr l w ->
    canCloseWrapper (context l) = false ->
    Does pushEmptyParagraph l w
      (fun _ l' w' => Invariant w0 wr l' w' /\ context l' = context l).
Proof.
    intros Hinv Hcc.
    destruct (unwrapped_unqueued w0 wr l w Hinv Hcc) as (Hq & _).
    destruct (pushEmptyParagraph_spec l w)
      as (l' & w' & Hrun & Hd & Hc & Hwp & Hq' & Hp & Hext & Hlen & Hb).
    exists tt, l', w'. split; [done|]. split; [|done].
    eapply (Invariant_output w0 wr l w l' w' _ Hinv); try done.
    - apply Extended_Evolved; [done | apply Hinv].
    - congruence.
    - intros y [Hy | [Hy | []]]; injection Hy as <-; lia.
    - rewrite Hp. pose proof (inv_prev _ _ _ _ Hinv) as Hpr.
      destruct (prevElement l) as [[| |p]|]; try done. lia.
Qed.

Lemma Converted_output w0 wr d w items w' :
    wrapperOk w0 wr ->
    Converted w0 wr d w ->
    Extended w w' ->
    (forall x, In (Ref x) items -> (x < length (heap w'))%nat) ->
    balanced (tokens w' items) = true ->
    Converted w0 wr (d ++ items) w'.
Proof.
    intros Hok [] [Hl Hf] Hv Hb. constructor.
    - lia.
    - intros x Hx Hne. rewrite Hf by lia. by apply cv_frame0.
    - intros x ->. rewrite <- (cv_wrapper0 x eq_refl). f_equal. apply Hf.
      destruct Hok as (e & He & _). apply lookup_lt_Some in He. lia.
    - intros x Hx. apply in_app_or in Hx as [Hx|Hx]; [|auto].
      apply cv_valid0 in Hx. lia.
    - rewrite tokens_app. apply balanced_app; [|done].
      rewrite (tokens_same_types w w'); [done|].
      intros x Hx. f_equal. apply Hf. by apply cv_valid0.
Qed.

Lemma Invariant_Converted w0 wr l w :
    Invariant w0 wr l w ->
    reduce [] (tokens w (data l)) = Some [] ->
    Converted w0 wr (data l) w.
Proof.
    intros [] Hr. constructor; try done.
    - intros x Hx. by apply inv_wrapper0.
    - unfold balanced. by rewrite Hr.
Qed.

  (** What follows the loop closes what is open. *)
Lemma closeSubtree_spec w0 wr annotationSet l w :
    wrapperOk w0 wr ->
    Invariant w0 wr l w -> WhitespaceAtEnd l ->
    Does (closeSubtree wr annotationSet) l w
      (fun _ l' w' => Converted w0 wr (data l') w').
Proof.
    intros Hok Hinv Htail. unfold closeSubtree. apply Does_getLocals.
    apply Does_bind with
      (mid := fun _ l1 w1 => Invariant w0 wr l1 w1
                             /\ canCloseWrapper (context l1) = false).
    { destruct (inWrapper (context l) && canCloseWrapper (context l)) eqn:Ecase.
      - apply andb_prop in Ecase as [Eiw Ecc].
        destruct (stopWrapping_spec w0 wr l w Hinv Htail Ecc)
          as (D & nw & w1 & Hrun & Hinv1 & Hev1).
        eapply Does_run; [exact Hrun|].
        unfold Does. run. eexists _, _, _. split; [reflexivity|].
        split; [|by unfold stoppedLocals; fields].
        by apply (Invariant_inWrapper w0 wr (stoppedLocals l D nw) w1 true).
      - apply Does_ret. split; [done|].
        pose proof (inv_wrapping _ _ _ _ Hinv) as Hw.
        destruct (canCloseWrapper (context l)); [|done].
        destruct Hw as (Hiw & _). rewrite Hiw in Ecase. done. }
    intros [] l1 w1 [Hinv1 Hcc1]. clear dependent l. clear w.
    apply Does_getLocals.
    apply Does_bind with (mid := fun _ l2 w2 => Converted w0 wr (data l2) w2).
    { destruct wr as [x|].
      - apply Does_bind with
          (mid := fun _ l2 w2 => Invariant w0 (Some x) l2 w2
                                 /\ canCloseWrapper (context l2) = false).
        { match goal with |- Does (if ?c then _ else _) _ _ _ => destruct c end.
          - destruct (Does_pushEmptyParagraph w0 (Some x) l1 w1 Hinv1 Hcc1)
              as ([] & l2 & w2 & Hrun & Hinv2 & Hctx).
            exists tt, l2, w2. split; [done|]. split; [done | congruence].
          - by apply Does_ret. }
        intros [] l2 w2 [Hinv2 Hcc2]. apply Does_getLocals.
        apply Does_bind with
          (mid := fun _ l3 w3 => Invariant w0 (Some x) l3 w3
                                 /\ canCloseWrapper (context l3) = false).
        { destruct (nextWhitespace l2) as [|c v]; [by apply Does_ret|].
          destruct (negb (lastIsWrapper l2 x)); [|by apply Does_ret].
          eapply Does_run; [apply addWhitespace_ref|].
          unfold Does. run. eexists _, _, _. split; [reflexivity|]. fields.
          split; [|done].
          destruct (unwrapped_unqueued w0 (Some x) l2 w2 Hinv2 Hcc2) as (Hq & _).
          eapply (Invariant_chars w0 (Some x) l2 _ _ []); fields; try done.
          - eapply Invariant_unqueued; [exact Hinv2 | | done].
            apply Evolved_whitespaceAdded. by right.
          - by rewrite app_nil_r.
          - by left. }
        intros [] l3 w3 [Hinv3 Hcc3].
        destruct Hok as (e0 & He0 & Hopen0).
        pose proof Hinv3 as [].
        destruct (inv_wrapper0 x eq_refl) as [Hx Hty].
        unfold Does, wrapperType, readElement. run. rewrite allocElement_run. fields.
        eexists _, _, _. split; [reflexivity|]. fields.
        rewrite He0 in Hty.
        destruct (heap w3 !! x) as [e3|] eqn:He3; [|done]. cbn in Hty.
        injection Hty as Hty. cbn [fmap option_fmap option_map default].
        unfold allocated. constructor; cbn [heap].
        + rewrite length_app. lia.
        + intros y Hy Hne. rewrite lookup_app_l by lia. by apply inv_frame0.
        + intros y [= <-]. rewrite lookup_app_l by lia. rewrite He3, He0. cbn. by rewrite Hty.
        + intros y Hy. rewrite length_app. cbn.
          apply in_app_or in Hy as [Hy | [Hy | []]].
          * apply inv_valid0 in Hy. lia.
          * injection Hy as <-. lia.
        + unfold balanced. rewrite tokens_app, reduce_app.
          rewrite (tokens_same_types w3 _ (data l3)).
          2:{ intros y Hy. cbn [heap]. rewrite lookup_app_l; [done|].
              by apply inv_valid0. }
          rewrite inv_open0. unfold openTypes. rewrite Hcc3. cbn [app mbind option_bind].
          rewrite He0. cbn [fmap option_fmap option_map mbind option_bind].
          unfold tokens. cbn. rewrite lookup_app_r by lia. rewrite Nat.sub_diag. cbn.
          rewrite Hty.
          pose proof (reduce_close [] (type e0)) as Hr. cbn in Hr. by rewrite Hr.
      - apply Does_ret.
        apply Invariant_Converted; [done|].
        rewrite (inv_open _ _ _ _ Hinv1). unfold openTypes. by rewrite Hcc1. }
    intros [] l2 w2 Hconv. apply Does_getLocals, Does_getWorld.
    match goal with |- Does (if ?c then _ else _) _ _ _ => destruct c end;
      [|by apply Does_ret].
    destruct (pushEmptyParagraph_spec l2 w2)
      as (l' & w' & Hrun & Hd & Hc & Hwp & Hq' & Hp & Hext & Hlen & Hb).
    exists tt, l', w'. split; [done|]. rewrite Hd.
    apply (Converted_output w0 wr (data l2) w2); try done.
    intros y [Hy | [Hy | []]]; injection Hy as <-; lia.
Qed.

  (** The body of [getDataFromDomSubtree], for a recursion that
      converts the children. *)
Lemma convertSubtree_spec (recurse : Recursion) children wr annotationSet stack w :
    RegistryContract ->
    Forall (Converts recurse) children ->
    wrapperOk w wr ->
    exists items w',
      convertSubtree recurse children wr annotationSet stack w = Returned (items, w')
      /\ Converted w wr items w'.
Proof.
    intros Hrc Hall Hok. unfold convertSubtree. cbv zeta.
    set (cx := initialContext _ annotationSet stack).
    set (l0 := mkLocals _ [] [] O [] None None cx).
    assert (Hinv0 : Invariant w wr l0 w).
    { subst l0 cx. unfold initialContext. constructor; fields; try done.
      - intros x ->. destruct Hok as (e & He & _). split; [|done].
        by apply lookup_lt_Some in He.
      - intros y Hy. destruct wr as [x|]; [|done]. destruct Hy as [[= <-]|[]].
        destruct Hok as (e & He & _). by apply lookup_lt_Some in He.
      - unfold openTypes; fields. destruct wr as [x|]; [|done].
        destruct Hok as (e & He & Hopen). cbn [mbind option_bind app].
        rewrite (tokens_ref w x e He), He. cbn. by apply reduce_open. }
    assert (Htail0 : WhitespaceAtEnd l0).
    { apply WhitespaceAtEnd_closed. by left. }
    destruct (convertChildren_spec recurse w wr stack (length children) children
                Hrc Hall O O l0 w Hinv0 Htail0) as ([] & l1 & w1 & Hrun1 & Hinv1 & Htail1).
    rewrite Hrun1.
    destruct (closeSubtree_spec w wr annotationSet l1 w1 Hok Hinv1 Htail1)
      as ([] & l2 & w2 & Hrun2 & Hconv).
    rewrite Hrun2. by exists (data l2), w2.
Qed.

  (** *** The recursion *)

Lemma height_children tag attrs children child :
    In child children ->
    (height child < height (ElementNode tag attrs children))%nat.
Proof.
    intros Hin. cbn [height]. apply Nat.lt_succ_r.
    induction children as [|c r IH]; [done|].
    destruct Hin as [-> | Hin]; [lia|]. specialize (IH Hin). lia.
Qed.

  (** A bound of the height of the DOM tree is enough. *)
Lemma getDataFromDomSubtreeWithin_spec :
    RegistryContract ->
    forall depth node,
      (height node <= depth)%nat ->
      Converts (getDataFromDomSubtreeWithin depth) node.
Proof.
    intros Hrc. induction depth as [|depth IH]; intros node Hh.
    - destruct node; cbn in Hh; lia.
    - intros wr annotationSet stack w Hok. cbn [getDataFromDomSubtreeWithin].
      apply convertSubtree_spec; [done | | done].
      rewrite Forall_forall. intros child Hin. apply list_elem_of_In in Hin.
      apply IH. destruct node as [tag attrs children| | |]; try done.
      pose proof (height_children tag attrs children child Hin). lia.
Qed.

  (** An element that is not recognized goes on as a node, with the
      data elements of the alien node. *)
Lemma convertElement_alienates (recurse : Recursion) stack child siblings l w :
    RegistryContract ->
    ignored child = false ->
    unrecognized child siblings (stack ++ [context l]) ->
    alienated recurse stack child siblings l w.
Proof.
    intros Hrc Hig Hun. unfold alienated. cbv zeta.
    destruct (rc_alien Hrc (alienNodes child siblings) (stack ++ [context l]))
      as (vs & Hval & Hne & Hc & Hnode).
    destruct Hc as [-> | (e & rest & c & -> & Hl & _)]; [done|].
    destruct (Hnode e rest c eq_refl Hl) as [Hann Hmeta].
    destruct (rc_alien_is_node Hrc) as [Hia Him].
    exists e, rest. split; [done|]. split; [done|].
    unfold convertElement. unfold ignored in Hig. rewrite Hig. cbv zeta.
    unfold unrecognized in Hun. cbv zeta in Hun.
    destruct (lookup (matchElement child
                (1 <? length (getAboutGroup child siblings))%nat)) as [mc|] eqn:Elookup;
      cbn [default].
    - rewrite (run_bind _ _ _ _ _ _ _
                 (eq_trans (createDataElements_run _ _ _ _ _)
                           ltac:(rewrite Hun; reflexivity))).
      cbv beta iota. run.
      change (if enableAboutGrouping AlienNode then getAboutGroup child siblings
              else [child]) with (alienNodes child siblings).
      rewrite createDataElements_run, Hval. cbn [markFirst itemsFor].
      by rewrite Hia, Him.
    - rewrite Hia.
      change (if enableAboutGrouping AlienNode then getAboutGroup child siblings
              else [child]) with (alienNodes child siblings).
      rewrite (run_bind _ _ _ _ _ _ _
                 (eq_trans (createDataElements_run _ _ _ _ _)
                           ltac:(rewrite Hval; reflexivity))).
      cbn [markFirst itemsFor]. cbv beta iota.
      set (e1 := withOriginalDomElements (alienNodes child siblings) e).
      set (w1 := mkWorld _ _).
      assert (He1 : heap w1 !! length (heap w) = Some e1).
      { subst w1. cbn. rewrite lookup_app_r by lia. by rewrite Nat.sub_diag. }
      run. rewrite (firstType_ref _ _ e1 l w1 He1).
      change (type e1) with (type e). rewrite Hl, Hann, Hmeta.
      reflexivity.
Qed.

End Helpers.

(** ** What stays in the data and in the element objects *)

Section Alienation.

Context `{Registry}.

Lemma sameNode_refl e : sameNode e e.
Proof. done. Qed.

Lemma sameNode_trans e1 e2 e3 : sameNode e1 e2 -> sameNode e2 e3 -> sameNode e1 e3.
Proof. intros (? & ? & ?) (? & ? & ?). repeat split; congruence. Qed.

Lemma NodesKept_refl w : NodesKept w w.
Proof. intros x e He. by exists e. Qed.

Lemma NodesKept_trans w1 w2 w3 : NodesKept w1 w2 -> NodesKept w2 w3 -> NodesKept w1 w3.
Proof.
    intros H12 H23 x e He. destruct (H12 x e He) as (e2 & He2 & Hs2).
    destruct (H23 x e2 He2) as (e3 & He3 & Hs3). exists e3. split; [done|].
    by eapply sameNode_trans.
Qed.

Lemma NodesKept_appended w more st : NodesKept w (mkWorld (heap w ++ more) st).
Proof.
    intros x e He. exists e. split; [|done]. cbn.
    rewrite lookup_app_l; [done|]. by apply lookup_lt_Some in He.
Qed.

Lemma NodesKept_store w st : NodesKept w (mkWorld (heap w) st).
Proof. intros x e He. by exists e. Qed.

Lemma NodesKept_altered w r f st :
    (forall e, sameNode e (f e)) -> NodesKept w (mkWorld (alter f r (heap w)) st).
Proof.
    intros Hf x e He. cbn. destruct (decide (x = r)) as [->|Hne].
    - exists (f e). split; [|done]. by rewrite list_lookup_alter_eq, He.
    - exists e. split; [|done]. by rewrite list_lookup_alter_ne.
Qed.

Lemma RefsKept_refl d : RefsKept d d.
Proof. by intros x. Qed.

Lemma RefsKept_trans d1 d2 d3 : RefsKept d1 d2 -> RefsKept d2 d3 -> RefsKept d1 d3.
Proof. intros H12 H23 x Hx. by apply H23, H12. Qed.

Lemma RefsKept_app d more : RefsKept d (d ++ more).
Proof. intros x Hx. apply in_or_app. by left. Qed.

Lemma RefsKept_spliceIn d i more : RefsKept d (JsArray.spliceIn d i more).
Proof.
    intros x Hx. unfold JsArray.spliceIn.
    rewrite <- (firstn_skipn i d) in Hx. apply in_app_or in Hx.
    rewrite !in_app_iff. tauto.
Qed.


  (** *** What a step ensures *)

Lemma Ensures_bind {A B} (m : Step A) (k : A -> Step B) l w
      (mid : A -> Locals -> World -> Prop) post :
    Ensures m l w mid ->
    (forall a l1 w1, mid a l1 w1 -> Ensures (k a) l1 w1 post) ->
    Ensures (m ≫= k) l w post.
Proof.
    intros Hm Hk b l2 w2. run.
    destruct (m l w) as [[[a l1] w1]| |] eqn:Hrun; [|done..].
    intros Hrun2. by eapply Hk; [eapply Hm|].
Qed.

Lemma Ensures_run {A B} (m : Step A) (k : A -> Step B) l w a l1 w1 post :
    m l w = Returned (a, l1, w1) ->
    Ensures (k a) l1 w1 post -> Ensures (m ≫= k) l w post.
Proof. intros Hm Hk b l2 w2. rewrite (run_bind _ _ _ _ _ _ _ Hm). apply Hk. Qed.

Lemma Ensures_weaken {A} (m : Step A) l w (p q : A -> Locals -> World -> Prop) :
    Ensures m l w p -> (forall a l' w', p a l' w' -> q a l' w') -> Ensures m l w q.
Proof. intros Hp Hpq a l' w' Hrun. by apply Hpq, Hp. Qed.

Lemma Ensures_ret {A} (a : A) l w (post : A -> Locals -> World -> Prop) :
    post a l w -> Ensures (mret a) l w post.
Proof. intros Hp b l' w'. run. by intros [= <- <- <-]. Qed.

Lemma Ensures_throw {A} e l w (post : A -> Locals -> World -> Prop) :
    Ensures (throw e) l w post.
Proof. by intros b l' w'. Qed.

Lemma Ensures_getLocals {B} (k : Locals -> Step B) l w post :
    Ensures (k l) l w post -> Ensures (getLocals ≫= k) l w post.
Proof. intros Hk. exact Hk. Qed.

Lemma Ensures_getWorld {B} (k : World -> Step B) l w post :
    Ensures (k w) l w post -> Ensures (getWorld ≫= k) l w post.
Proof. intros Hk. exact Hk. Qed.

Lemma Ensures_update {B} f (k : unit -> Step B) l w post :
    Ensures (k tt) (f l) w post -> Ensures (update f ≫= k) l w post.
Proof. intros Hk. exact Hk. Qed.

Lemma Ensures_updated f l w (post : unit -> Locals -> World -> Prop) :
    post tt (f l) w -> Ensures (update f) l w post.
Proof. intros Hp b l' w'. run. by intros [= <- <- <-]. Qed.

  (** *** Steps keep the element objects as the nodes they are *)

Lemma KeepsNodes_bind {A B} (m : Step A) (k : A -> Step B) :
    KeepsNodes m -> (forall a, KeepsNodes (k a)) -> KeepsNodes (m ≫= k).
Proof.
    intros Hm Hk l w. eapply Ensures_bind; [apply Hm|].
    intros a l1 w1 H1. eapply Ensures_weaken; [apply Hk|].
    intros b l2 w2 H2. cbv beta in *. by eapply NodesKept_trans.
Qed.

Lemma KeepsNodes_ret {A} (a : A) : KeepsNodes (mret a).
Proof. intros l w. apply Ensures_ret, NodesKept_refl. Qed.

Lemma KeepsNodes_throw {A} e : KeepsNodes (throw (A := A) e).
Proof. intros l w. apply Ensures_throw. Qed.

Lemma KeepsNodes_getLocals : KeepsNodes getLocals.
Proof. intros l w b l2 w2. run. intros [= _ _ <-]. apply NodesKept_refl. Qed.

Lemma KeepsNodes_getWorld : KeepsNodes getWorld.
Proof. intros l w b l2 w2. run. intros [= _ _ <-]. apply NodesKept_refl. Qed.

Lemma KeepsNodes_update f : KeepsNodes (update f).
Proof. intros l w b l2 w2. run. intros [= _ _ <-]. apply NodesKept_refl. Qed.

Lemma KeepsNodes_updateContext f : KeepsNodes (updateContext f).
Proof. apply KeepsNodes_update. Qed.

Lemma KeepsNodes_updateWorld f :
    (forall w, NodesKept w (f w)) -> KeepsNodes (updateWorld f).
Proof. intros Hf l w b l2 w2. run. intros [= _ _ <-]. apply Hf. Qed.

Lemma KeepsNodes_callRecurse (recurse : Recursion) node wr a stack :
    RecursionKeepsNodes recurse ->
    KeepsNodes (callRecurse recurse node wr a stack).
Proof.
    intros Hrec l w b l2 w2. unfold callRecurse.
    destruct (recurse _ _ _ _ _) as [[items w1]| |] eqn:Hrun; [|done..].
    intros [= _ _ <-]. by eapply Hrec.
Qed.

Create HintDb nodes.

Ltac nodes_step :=
    first
      [ apply KeepsNodes_ret
      | apply KeepsNodes_throw
      | apply KeepsNodes_getLocals
      | apply KeepsNodes_getWorld
      | apply KeepsNodes_update
      | apply KeepsNodes_updateContext
      | solve [auto with nodes]
      | apply KeepsNodes_bind; [|intros ?]
      | match goal with
        | |- KeepsNodes (match ?x with _ => _ end) => destruct x
        | |- KeepsNodes (if ?x then _ else _) => destruct x
        end ].

Ltac nodes := cbv zeta; repeat nodes_step.

Lemma KeepsNodes_storeIndex a : KeepsNodes (storeIndex a).
Proof.
    unfold storeIndex. nodes. apply KeepsNodes_updateWorld. intros w. apply NodesKept_store.
Qed.

Lemma KeepsNodes_allocElement e : KeepsNodes (allocElement e).
Proof.
    unfold allocElement. nodes. apply KeepsNodes_updateWorld. intros w.
    apply NodesKept_appended.
Qed.

Lemma KeepsNodes_mutateElement r f :
    (forall e, sameNode e (f e)) -> KeepsNodes (mutateElement r f).
Proof.
    intros Hf. unfold mutateElement. apply KeepsNodes_updateWorld. intros w.
    by apply NodesKept_altered.
Qed.

Lemma KeepsNodes_readElement r : KeepsNodes (readElement r).
Proof. unfold readElement. nodes. Qed.

Lemma KeepsNodes_itemType it : KeepsNodes (itemType it).
Proof. unfold itemType. nodes. Qed.

Hint Resolve KeepsNodes_storeIndex KeepsNodes_allocElement
    KeepsNodes_readElement KeepsNodes_itemType : nodes.

Lemma KeepsNodes_addWhitespace element index ws :
    KeepsNodes (addWhitespace element index ws).
Proof. unfold addWhitespace. nodes. by apply KeepsNodes_mutateElement. Qed.
Hint Resolve KeepsNodes_addWhitespace : nodes.

Lemma KeepsNodes_processNextWhitespace element :
    KeepsNodes (processNextWhitespace element).
Proof. unfold processNextWhitespace. nodes. Qed.
Hint Resolve KeepsNodes_processNextWhitespace : nodes.

Lemma KeepsNodes_outputWrappedLoop treatment items :
    forall toInsert prev, KeepsNodes (outputWrappedLoop treatment items toInsert prev).
Proof.
    induction items as [|it rest IH]; intros toInsert prev; cbn [outputWrappedLoop];
      nodes; by apply KeepsNodes_mutateElement.
Qed.
Hint Resolve KeepsNodes_outputWrappedLoop : nodes.

Lemma KeepsNodes_outputWrappedMetaItems treatment :
    KeepsNodes (outputWrappedMetaItems treatment).
Proof. unfold outputWrappedMetaItems. nodes. Qed.
Hint Resolve KeepsNodes_outputWrappedMetaItems : nodes.

Lemma KeepsNodes_startWrapping : KeepsNodes startWrapping.
Proof. unfold startWrapping. nodes. Qed.

Lemma KeepsNodes_takeBackWrappedWhitespace : KeepsNodes takeBackWrappedWhitespace.
Proof. unfold takeBackWrappedWhitespace. nodes. Qed.
Hint Resolve KeepsNodes_startWrapping KeepsNodes_takeBackWrappedWhitespace : nodes.

Lemma KeepsNodes_stopWrapping : KeepsNodes stopWrapping.
Proof. unfold stopWrapping. nodes. Qed.
Hint Resolve KeepsNodes_stopWrapping : nodes.

Lemma KeepsNodes_allocValues vs : KeepsNodes (allocValues vs).
Proof. induction vs as [|v r IH]; cbn [allocValues]; nodes. Qed.
Hint Resolve KeepsNodes_allocValues : nodes.

Lemma KeepsNodes_createDataElements c nodes stack :
    KeepsNodes (createDataElements c nodes stack).
Proof. unfold createDataElements. nodes. Qed.

Lemma KeepsNodes_setAnnotations it indexes : KeepsNodes (setAnnotations it indexes).
Proof. unfold setAnnotations. nodes. by apply KeepsNodes_mutateElement. Qed.

Lemma KeepsNodes_pushClosing items : KeepsNodes (pushClosing items).
Proof. unfold pushClosing. nodes. Qed.

Lemma KeepsNodes_firstType items : KeepsNodes (firstType items).
Proof. unfold firstType. nodes. Qed.

Lemma KeepsNodes_appendData items : KeepsNodes (appendData items).
Proof. unfold appendData. nodes. Qed.

Lemma KeepsNodes_storeLeadingWhitespace wr ws :
    KeepsNodes (storeLeadingWhitespace wr ws).
Proof. unfold storeLeadingWhitespace. nodes. Qed.

Lemma KeepsNodes_wrapperType x : KeepsNodes (wrapperType x).
Proof. unfold wrapperType. nodes. Qed.

Lemma KeepsNodes_pushEmptyParagraph : KeepsNodes pushEmptyParagraph.
Proof. unfold pushEmptyParagraph. nodes. Qed.

Hint Resolve KeepsNodes_createDataElements KeepsNodes_setAnnotations
    KeepsNodes_pushClosing KeepsNodes_firstType KeepsNodes_appendData
    KeepsNodes_storeLeadingWhitespace KeepsNodes_wrapperType
    KeepsNodes_pushEmptyParagraph : nodes.

Section Recursive.

Variable recurse : Recursion.
Hypothesis recurse_keeps : RecursionKeepsNodes recurse.

Lemma KeepsNodes_recurse node wr a stack :
      KeepsNodes (callRecurse recurse node wr a stack).
Proof. by apply KeepsNodes_callRecurse. Qed.
Hint Resolve KeepsNodes_recurse : nodes.

Lemma KeepsNodes_convertAnnotation stack child nodes items :
      KeepsNodes (convertAnnotation recurse stack child nodes items).
Proof. unfold convertAnnotation. nodes. Qed.

Lemma KeepsNodes_convertMetaItem nodes items :
      KeepsNodes (convertMetaItem nodes items).
Proof. unfold convertMetaItem. nodes. Qed.

Lemma KeepsNodes_convertChildNode stack child group nodes items :
      KeepsNodes (convertChildNode recurse stack child group nodes items).
Proof. unfold convertChildNode. nodes. Qed.

Hint Resolve KeepsNodes_convertAnnotation KeepsNodes_convertMetaItem
      KeepsNodes_convertChildNode : nodes.

Lemma KeepsNodes_convertElement stack child siblings :
      KeepsNodes (convertElement recurse stack child siblings).
Proof. unfold convertElement. nodes. Qed.

Lemma KeepsNodes_convertText wr i count text :
      KeepsNodes (convertText wr i count text).
Proof. unfold convertText. nodes. Qed.

Hint Resolve KeepsNodes_convertElement KeepsNodes_convertText : nodes.

Lemma KeepsNodes_convertChildren wr stack count children :
      forall i skip, KeepsNodes (convertChildren recurse wr stack i count skip children).
Proof.
      induction children as [|child siblings IH]; intros i skip; cbn [convertChildren].
      - nodes.
      - destruct skip; [|apply IH]. unfold convertChild. nodes.
Qed.

Lemma KeepsNodes_closeSubtree wr annotationSet :
      KeepsNodes (closeSubtree wr annotationSet).
Proof. unfold closeSubtree. nodes. Qed.

Lemma convertSubtree_keeps_nodes children wr annotationSet stack w items w' :
      convertSubtree recurse children wr annotationSet stack w = Returned (items, w') ->
      NodesKept w w'.
Proof.
      unfold convertSubtree. cbv zeta.
      set (l0 := mkLocals _ _ _ _ _ _ _ _).
      destruct (convertChildren _ _ _ _ _ _ _ l0 w) as [[[[] l1] w1]| |] eqn:Hloop;
        [|done..].
      apply KeepsNodes_convertChildren in Hloop.
      destruct (closeSubtree wr annotationSet l1 w1) as [[[[] l2] w2]| |] eqn:Hclose;
        [|done..].
      apply KeepsNodes_closeSubtree in Hclose.
      intros [= _ <-]. by eapply NodesKept_trans.
Qed.

End Recursive.

Lemma getDataFromDomSubtreeWithin_keeps_nodes depth :
    RecursionKeepsNodes (getDataFromDomSubtreeWithin depth).
Proof.
    induction depth as [|depth IH]; intros node wr a stack w items w'; [done|].
    cbn [getDataFromDomSubtreeWithin]. by apply convertSubtree_keeps_nodes.
Qed.


  (** *** Steps keep the element references of the data *)

Lemma KeepsRefs_bind {A B} (m : Step A) (k : A -> Step B) :
    KeepsRefs m -> (forall a, KeepsRefs (k a)) -> KeepsRefs (m ≫= k).
Proof.
    intros Hm Hk l w. eapply Ensures_bind; [apply Hm|].
    intros a l1 w1 H1. eapply Ensures_weaken; [apply Hk|].
    intros b l2 w2 H2. cbv beta in *. by eapply RefsKept_trans.
Qed.

Lemma KeepsRefs_ret {A} (a : A) : KeepsRefs (mret a).
Proof. intros l w. apply Ensures_ret, RefsKept_refl. Qed.

Lemma KeepsRefs_throw {A} e : KeepsRefs (throw (A := A) e).
Proof. intros l w. apply Ensures_throw. Qed.

Lemma KeepsRefs_getLocals : KeepsRefs getLocals.
Proof. intros l w b l2 w2. run. intros [= _ <- _]. apply RefsKept_refl. Qed.

Lemma KeepsRefs_getWorld : KeepsRefs getWorld.
Proof. intros l w b l2 w2. run. intros [= _ <- _]. apply RefsKept_refl. Qed.

Lemma KeepsRefs_updateWorld f : KeepsRefs (updateWorld f).
Proof. intros l w b l2 w2. run. intros [= _ <- _]. apply RefsKept_refl. Qed.

Lemma KeepsRefs_update f :
    (forall l, RefsKept (data l) (data (f l))) -> KeepsRefs (update f).
Proof. intros Hf l w b l2 w2. run. intros [= _ <- _]. apply Hf. Qed.

Lemma KeepsRefs_updateContext f : KeepsRefs (updateContext f).
Proof. apply KeepsRefs_update. intros l. apply RefsKept_refl. Qed.

Lemma KeepsRefs_callRecurse (recurse : Recursion) node wr a stack :
    KeepsRefs (callRecurse recurse node wr a stack).
Proof.
    intros l w b l2 w2. unfold callRecurse.
    destruct (recurse _ _ _ _ _) as [[items w1]| |]; [|done..].
    intros [= _ <- _]. apply RefsKept_refl.
Qed.

Create HintDb refs.

Ltac refs_step :=
    first
      [ apply KeepsRefs_ret
      | apply KeepsRefs_throw
      | apply KeepsRefs_getLocals
      | apply KeepsRefs_getWorld
      | apply KeepsRefs_updateWorld
      | apply KeepsRefs_updateContext
      | apply KeepsRefs_callRecurse
      | apply KeepsRefs_update; intros [? ? ? ? ? ? ? ?];
        first [apply RefsKept_refl | apply RefsKept_app]
      | solve [auto with refs]
      | apply KeepsRefs_bind; [|intros ?]
      | match goal with
        | |- KeepsRefs (match ?x with _ => _ end) => destruct x
        | |- KeepsRefs (if ?x then _ else _) => destruct x
        end ].

Ltac refs := cbv zeta; repeat refs_step.

Lemma KeepsRefs_storeIndex a : KeepsRefs (storeIndex a).
Proof. unfold storeIndex. refs. Qed.
Lemma KeepsRefs_allocElement e : KeepsRefs (allocElement e).
Proof. unfold allocElement. refs. Qed.
Lemma KeepsRefs_mutateElement r f : KeepsRefs (mutateElement r f).
Proof. unfold mutateElement. refs. Qed.
Lemma KeepsRefs_readElement r : KeepsRefs (readElement r).
Proof. unfold readElement. refs. Qed.
Lemma KeepsRefs_itemType it : KeepsRefs (itemType it).
Proof. unfold itemType. refs. Qed.
Hint Resolve KeepsRefs_storeIndex KeepsRefs_allocElement KeepsRefs_mutateElement
    KeepsRefs_readElement KeepsRefs_itemType : refs.

Lemma KeepsRefs_addWhitespace element index ws :
    KeepsRefs (addWhitespace element index ws).
Proof. unfold addWhitespace. refs. Qed.
Hint Resolve KeepsRefs_addWhitespace : refs.

Lemma KeepsRefs_processNextWhitespace element :
    KeepsRefs (processNextWhitespace element).
Proof. unfold processNextWhitespace. refs. Qed.
Hint Resolve KeepsRefs_processNextWhitespace : refs.

Lemma KeepsRefs_outputWrappedLoop treatment items :
    forall toInsert prev, KeepsRefs (outputWrappedLoop treatment items toInsert prev).
Proof.
    induction items as [|it rest IH]; intros toInsert prev; cbn [outputWrappedLoop];
      refs.
Qed.
Hint Resolve KeepsRefs_outputWrappedLoop : refs.

  (** The queue goes into the data where the white space is, or at the
      end. *)
Lemma KeepsRefs_outputWrappedMetaItems treatment :
    KeepsRefs (outputWrappedMetaItems treatment).
Proof.
    intros l w. unfold outputWrappedMetaItems. apply Ensures_getLocals.
    eapply Ensures_bind; [apply KeepsRefs_outputWrappedLoop|].
    intros toInsert l1 w1 H1. cbv beta in H1. apply Ensures_getLocals.
    assert (Hend : forall d,
      RefsKept (data l) d ->
      Ensures (update (set_wrappedMetaItems [])) (set_data d l1) w1
        (fun _ l' _ => RefsKept (data l) (data l'))).
    { intros d Hd. by apply Ensures_updated. }
    destruct (wrappedWhitespace l1) as [|c v], treatment;
      apply Ensures_update, Hend.
    all: eapply RefsKept_trans; [exact H1|];
      first [apply RefsKept_app | apply RefsKept_spliceIn].
Qed.
Hint Resolve KeepsRefs_outputWrappedMetaItems : refs.

Lemma KeepsRefs_startWrapping : KeepsRefs startWrapping.
Proof. unfold startWrapping. refs. Qed.
Hint Resolve KeepsRefs_startWrapping : refs.

Lemma KeepsRefs_allocValues vs : KeepsRefs (allocValues vs).
Proof. induction vs as [|v r IH]; cbn [allocValues]; refs. Qed.
Hint Resolve KeepsRefs_allocValues : refs.

Lemma KeepsRefs_createDataElements c nodes stack :
    KeepsRefs (createDataElements c nodes stack).
Proof. unfold createDataElements. refs. Qed.
Lemma KeepsRefs_setAnnotations it indexes : KeepsRefs (setAnnotations it indexes).
Proof. unfold setAnnotations. refs. Qed.
Lemma KeepsRefs_pushClosing items : KeepsRefs (pushClosing items).
Proof. unfold pushClosing. refs. Qed.
Lemma KeepsRefs_firstType items : KeepsRefs (firstType items).
Proof. unfold firstType. refs. Qed.
Lemma KeepsRefs_appendData items : KeepsRefs (appendData items).
Proof. unfold appendData. refs. Qed.
Lemma KeepsRefs_storeLeadingWhitespace wr ws :
    KeepsRefs (storeLeadingWhitespace wr ws).
Proof. unfold storeLeadingWhitespace. refs. Qed.
Lemma KeepsRefs_wrapperType x : KeepsRefs (wrapperType x).
Proof. unfold wrapperType. refs. Qed.
Lemma KeepsRefs_pushEmptyParagraph : KeepsRefs pushEmptyParagraph.
Proof. unfold pushEmptyParagraph. refs. Qed.
Hint Resolve KeepsRefs_createDataElements KeepsRefs_setAnnotations
    KeepsRefs_pushClosing KeepsRefs_firstType KeepsRefs_appendData
    KeepsRefs_storeLeadingWhitespace KeepsRefs_wrapperType
    KeepsRefs_pushEmptyParagraph : refs.

Lemma KeepsRefs_convertAnnotation (recurse : Recursion) stack child nodes items :
    KeepsRefs (convertAnnotation recurse stack child nodes items).
Proof. unfold convertAnnotation. refs. Qed.

Lemma KeepsRefs_convertText wr i count text :
    KeepsRefs (convertText wr i count text).
Proof. unfold convertText. refs. Qed.
Hint Resolve KeepsRefs_convertAnnotation KeepsRefs_convertText : refs.


  (** *** Steps that take white space back out of the data *)

Lemma Ensures_kept {A} (m : Step A) d l w :
    RefsKept d (data l) -> KeepsRefs m ->
    Ensures m l w (fun _ l' _ => RefsKept d (data l')).
Proof.
    intros Hd Hm. eapply Ensures_weaken; [apply Hm|].
    intros a l' w' H'. cbv beta in H'. by eapply RefsKept_trans.
Qed.

  (** The white space written last is at the end of the data: taking
      it out takes no element out. *)
Lemma spliceOut_kept l :
    WhitespaceAtEnd l ->
    canCloseWrapper (context l) = true ->
    wrappedWhitespace l <> [] ->
    RefsKept (data l)
      (JsArray.spliceOut (data l) (wrappedWhitespaceIndex l)
         (length (wrappedWhitespace l))).
Proof.
    intros Htail Hcc Hne. destruct (Htail Hcc Hne) as (A & W & Hd & HA & HW & Hch).
    rewrite Hd, (spliceOut_tail A W) by done.
    intros x Hx. apply in_app_or in Hx as [Hx|Hx]; [done|].
    rewrite forallb_forall in Hch. by apply Hch in Hx.
Qed.

Lemma takeBackWrappedWhitespace_keeps_refs l w :
    WhitespaceAtEnd l ->
    canCloseWrapper (context l) = true ->
    Ensures takeBackWrappedWhitespace l w (fun _ l' _ => RefsKept (data l) (data l')).
Proof.
    intros Htail Hcc. unfold takeBackWrappedWhitespace. apply Ensures_getLocals.
    destruct (wrappedWhitespace l) as [|c v] eqn:Eww.
    - apply Ensures_ret, RefsKept_refl.
    - apply Ensures_update. apply Ensures_kept; [|refs].
      cbn [data set_data]. rewrite <- Eww. apply spliceOut_kept; [done..|].
      by rewrite Eww.
Qed.

Lemma stopWrapping_keeps_refs l w :
    WhitespaceAtEnd l ->
    canCloseWrapper (context l) = true ->
    Ensures stopWrapping l w (fun _ l' _ => RefsKept (data l) (data l')).
Proof.
    intros Htail Hcc. unfold stopWrapping.
    eapply Ensures_bind; [by apply takeBackWrappedWhitespace_keeps_refs|].
    intros [] l1 w1 H1. cbv beta in H1. apply Ensures_kept; [done|]. refs.
Qed.

  (** Steps that leave the variables as they are. *)
Lemma pushClosing_locals items l w :
    Ensures (pushClosing items) l w (fun _ l' _ => l' = l).
Proof.
    intros a l' w'. unfold pushClosing, itemType. destruct (head items); [|done].
    run. by intros [= _ <- _].
Qed.

Lemma firstType_locals items l w :
    Ensures (firstType items) l w (fun _ l' _ => l' = l).
Proof.
    intros a l' w'. unfold firstType, itemType. destruct (head items); [|done].
    run. by intros [= _ <- _].
Qed.

Lemma setAnnotations_locals it indexes l w :
    Ensures (setAnnotations it indexes) l w (fun _ l' _ => l' = l).
Proof.
    intros a l' w'. unfold setAnnotations, mutateElement.
    destruct it as [[| |]|]; run; try done; by intros [= _ <- _].
Qed.

Lemma createDataElements_locals c nodes stack l w :
    Ensures (createDataElements c nodes stack) l w (fun _ l' _ => l' = l).
Proof.
    intros a l' w'. rewrite createDataElements_run.
    destruct (valuesOf _); by intros [= _ <- _].
Qed.

Lemma convertMetaItem_keeps_refs nodes items l w :
    WhitespaceAtEnd l ->
    Ensures (convertMetaItem nodes items) l w
      (fun _ l' _ => RefsKept (data l) (data l')).
Proof.
    intros Htail. unfold convertMetaItem.
    eapply Ensures_bind with (mid := fun _ l1 _ => l1 = l).
    { destruct (length items =? 1)%nat; [apply pushClosing_locals|by apply Ensures_ret]. }
    intros items' l1 w1 ->. apply Ensures_getLocals.
    eapply Ensures_bind with (mid := fun _ l1 _ => l1 = l).
    { destruct (negb _); [apply setAnnotations_locals|by apply Ensures_ret]. }
    intros [] l2 w2 ->.
    destruct (inWrapper (context l) && canCloseWrapper (context l)) eqn:Ewrap.
    - apply andb_prop in Ewrap as [_ Hcc].
      apply Ensures_bind with (mid := fun _ l' _ => RefsKept (data l) (data l'));
        [|intros [] l3 w3 H3; by apply Ensures_ret].
      apply Ensures_update.
      destruct (wrappedWhitespace l) as [|c v] eqn:Eww.
      + apply Ensures_ret, RefsKept_refl.
      + apply Ensures_update. apply Ensures_kept; [|refs].
        cbn [data set_data set_wrappedMetaItems wrappedWhitespaceIndex].
        rewrite <- Eww. apply spliceOut_kept; [done..|]. by rewrite Eww.
    - apply Ensures_kept; [apply RefsKept_refl|]. refs.
Qed.


Lemma convertChildNode_keeps_refs (recurse : Recursion) stack child group nodes items
      l w :
    WhitespaceAtEnd l ->
    Ensures (convertChildNode recurse stack child group nodes items) l w
      (fun _ l' _ => RefsKept (data l) (data l')).
Proof.
    intros Htail. unfold convertChildNode.
    eapply Ensures_bind; [apply firstType_locals|].
    intros t l1 w1 ->. cbv zeta. apply Ensures_getLocals.
    apply Ensures_bind with (mid := fun _ l' _ => RefsKept (data l) (data l')).
    - destruct (negb (expectingContent (context l)) && isNodeContent t);
        [apply Ensures_kept; [apply RefsKept_refl|refs]|].
      destruct (expectingContent (context l) && negb (isNodeContent t));
        [|apply Ensures_ret, RefsKept_refl].
      destruct (inWrapper (context l) && canCloseWrapper (context l)) eqn:Ewrap;
        [|apply Ensures_kept; [apply RefsKept_refl|refs]].
      apply andb_prop in Ewrap as [_ Hcc].
      eapply Ensures_bind; [by apply stopWrapping_keeps_refs|].
      intros [] l2 w2 H2. by apply Ensures_ret.
    - intros [[nodes' items'] content] l2 w2 H2. apply Ensures_kept; [done|]. refs.
Qed.

Lemma convertElement_keeps_refs (recurse : Recursion) stack child siblings l w :
    WhitespaceAtEnd l ->
    Ensures (convertElement recurse stack child siblings) l w
      (fun _ l' _ => RefsKept (data l) (data l')).
Proof.
    intros Htail. unfold convertElement.
    destruct (match getAttribute child "data-ve-ignore" with
              | Some v => negb (isEmptyString v)
              | None => false
              end); [apply Ensures_ret, RefsKept_refl|].
    cbv zeta. eapply Ensures_bind; [apply createDataElements_locals|].
    intros created l1 w1 ->.
    assert (Hgo : forall (m : Step (option ModelClass * list DomNode * list Item)),
      Ensures m l w1 (fun _ l' _ => l' = l) ->
      Ensures
        ('(modelClass, childNodes, childDataElements) ← m;
         match modelClass with
         | None => throw "TypeError"
         | Some modelClass =>
             if extends modelClass AnnotationClass
             then convertAnnotation recurse stack child childNodes childDataElements
             else if extends modelClass MetaItemClass
             then convertMetaItem childNodes childDataElements
             else convertChildNode recurse stack child (getAboutGroup child siblings)
                    childNodes childDataElements
         end) l w1 (fun _ l' _ => RefsKept (data l) (data l'))).
    { intros m Hm. eapply Ensures_bind; [exact Hm|].
      intros [[[c|] nodes'] items'] l2 w2 ->; [|apply Ensures_throw].
      destruct (extends c AnnotationClass);
        [apply Ensures_kept; [apply RefsKept_refl|refs]|].
      destruct (extends c MetaItemClass);
        [by apply convertMetaItem_keeps_refs | by apply convertChildNode_keeps_refs]. }
    destruct created as [[|it rest]|].
    - apply Ensures_ret, RefsKept_refl.
    - apply Hgo. eapply Ensures_bind; [apply firstType_locals|].
      intros t l2 w2 ->. by apply Ensures_ret.
    - apply Hgo. eapply Ensures_bind; [apply createDataElements_locals|].
      intros [created|] l2 w2 ->; [by apply Ensures_ret | apply Ensures_throw].
Qed.

Lemma convertChild_keeps_refs (recurse : Recursion) wr stack i count child siblings
      l w :
    WhitespaceAtEnd l ->
    Ensures (convertChild recurse wr stack i count child siblings) l w
      (fun _ l' _ => RefsKept (data l) (data l')).
Proof.
    intros Htail. destruct child as [tag attrs children|text|text|k];
      cbn [convertChild].
    - by apply convertElement_keeps_refs.
    - by apply convertElement_keeps_refs.
    - apply Ensures_kept; [apply RefsKept_refl|]. refs.
    - apply Ensures_ret, RefsKept_refl.
Qed.

  (** The loop over the children keeps the element references of the
      data. *)
Lemma convertChildren_keeps_refs (recurse : Recursion) w0 wr stack count children :
    RegistryContract ->
    Forall (Converts recurse) children ->
    forall i skip l w,
      Invariant w0 wr l w -> WhitespaceAtEnd l ->
      Ensures (convertChildren recurse wr stack i count skip children) l w
        (fun _ l' _ => RefsKept (data l) (data l')).
Proof.
    intros Hrc Hall. induction Hall as [|child siblings Hchild Hall IH];
      intros i skip l w Hinv Htail; cbn [convertChildren].
    - apply Ensures_ret, RefsKept_refl.
    - destruct skip as [|skip']; [|by apply IH].
      destruct (convertChild_spec recurse w0 wr l w stack i count child siblings
                  Hrc Hchild Hinv Htail) as (consumed & l' & w' & Hrun & Hinv' & Htail').
      eapply Ensures_run; [exact Hrun|].
      eapply Ensures_weaken; [by apply IH|].
      intros a l2 w2 H2. cbv beta in H2.
      eapply RefsKept_trans; [|exact H2].
      by apply (convertChild_keeps_refs recurse wr stack i count child siblings l w
                  Htail consumed l' w').
Qed.

Lemma closeSubtree_keeps_refs wr annotationSet l w :
    WhitespaceAtEnd l ->
    Ensures (closeSubtree wr annotationSet) l w
      (fun _ l' _ => RefsKept (data l) (data l')).
Proof.
    intros Htail. unfold closeSubtree. apply Ensures_getLocals.
    apply Ensures_bind with (mid := fun _ l' _ => RefsKept (data l) (data l')).
    - destruct (inWrapper (context l) && canCloseWrapper (context l)) eqn:Ewrap;
        [|apply Ensures_ret, RefsKept_refl].
      apply andb_prop in Ewrap as [_ Hcc].
      eapply Ensures_bind; [by apply stopWrapping_keeps_refs|].
      intros [] l2 w2 H2. by apply Ensures_updated.
    - intros [] l2 w2 H2. apply Ensures_kept; [done|]. refs.
Qed.


  (** *** The body of the function *)

Lemma convertSubtree_unfold (recurse : Recursion) children wr annotationSet stack w :
    convertSubtree recurse children wr annotationSet stack w
    = match convertChildren recurse wr stack O (length children) O children
              (initialLocals wr annotationSet stack w) w with
      | Returned (_, l1, w1) =>
          match closeSubtree wr annotationSet l1 w1 with
          | Returned (_, l2, w2) => Returned (data l2, w2)
          | Threw e => Threw e
          | Unfinished => Unfinished
          end
      | Threw e => Threw e
      | Unfinished => Unfinished
      end.
Proof. reflexivity. Qed.

Lemma initialLocals_Invariant wr annotationSet stack w :
    wrapperOk w wr ->
    Invariant w wr (initialLocals wr annotationSet stack w) w
    /\ WhitespaceAtEnd (initialLocals wr annotationSet stack w).
Proof.
    intros Hok. split.
    - unfold initialLocals, initialContext. constructor; fields; try done.
      + intros x ->. destruct Hok as (e & He & _). split; [|done].
        by apply lookup_lt_Some in He.
      + intros y Hy. destruct wr as [x|]; [|done]. destruct Hy as [[= <-]|[]].
        destruct Hok as (e & He & _). by apply lookup_lt_Some in He.
      + unfold openTypes; fields. destruct wr as [x|]; [|done].
        destruct Hok as (e & He & Hopen). cbn [mbind option_bind app].
        rewrite (tokens_ref w x e He), He. cbn. by apply reduce_open.
    - apply WhitespaceAtEnd_closed. by left.
Qed.

  (** The data a call returns has the wrapper element it was given. *)
Lemma convertSubtree_returns_wrapper (recurse : Recursion) children x annotationSet
      stack w items w' :
    RegistryContract ->
    Forall (Converts recurse) children ->
    wrapperOk w (Some x) ->
    convertSubtree recurse children (Some x) annotationSet stack w = Returned (items, w') ->
    In (Ref x) items.
Proof.
    intros Hrc Hall Hok. rewrite convertSubtree_unfold.
    destruct (initialLocals_Invariant (Some x) annotationSet stack w Hok) as [Hinv0 Htail0].
    destruct (convertChildren_spec recurse w (Some x) stack (length children) children
                Hrc Hall O O _ w Hinv0 Htail0) as ([] & l1 & w1 & Hrun1 & Hinv1 & Htail1).
    rewrite Hrun1.
    pose proof (convertChildren_keeps_refs recurse w (Some x) stack (length children)
                  children Hrc Hall O O _ w Hinv0 Htail0 _ _ _ Hrun1) as Hr1.
    destruct (closeSubtree (Some x) annotationSet l1 w1) as [[[[] l2] w2]| |] eqn:Hrun2;
      [|done..].
    pose proof (closeSubtree_keeps_refs (Some x) annotationSet l1 w1 Htail1 _ _ _ Hrun2)
      as Hr2.
    intros [= <- _]. apply Hr2, Hr1. by left.
Qed.

Lemma getDataFromDomSubtreeWithin_returns_wrapper :
    RegistryContract ->
    forall depth node,
      (height node <= depth)%nat ->
      ReturnsWrapper (getDataFromDomSubtreeWithin depth) node.
Proof.
    intros Hrc depth node Hh x annotationSet stack w items w' Hok.
    destruct depth as [|depth]; [done|]. cbn [getDataFromDomSubtreeWithin].
    apply convertSubtree_returns_wrapper; [done| |done].
    rewrite Forall_forall. intros child Hin. apply list_elem_of_In in Hin.
    apply getDataFromDomSubtreeWithin_spec; [done|].
    destruct node as [tag attrs children| | |]; try done.
    pose proof (height_children tag attrs children child Hin). lia.
Qed.


  (** *** How many siblings a child consumes *)

Lemma Ensures_then {A B} (m : Step A) (k : A -> Step B) l w post :
    (forall a l1 w1, Ensures (k a) l1 w1 post) -> Ensures (m ≫= k) l w post.
Proof.
    intros Hk. apply Ensures_bind with (mid := fun _ _ _ => True); [done|].
    intros a l1 w1 _. apply Hk.
Qed.

Ltac yields_step :=
    first
      [ apply Ensures_ret
      | apply Ensures_throw
      | apply Ensures_then; intros ? ? ?
      | match goal with
        | |- Ensures (match ?x with _ => _ end) _ _ _ => destruct x
        | |- Ensures (if ?x then _ else _) _ _ _ => destruct x
        end ].

Lemma getAboutGroup_length node siblings :
    (1 <= length (getAboutGroup node siblings))%nat.
Proof.
    unfold getAboutGroup. destruct node as [tag attrs children| | |]; cbn [length]; try lia.
    destruct (getAttribute (ElementNode tag attrs children) "about"); cbn [length]; lia.
Qed.

Lemma convertChild_consumed (recurse : Recursion) wr stack i count child siblings l w :
    Ensures (convertChild recurse wr stack i count child siblings) l w
      (fun consumed _ _ =>
         (consumed <= length (getAboutGroup child siblings) - 1)%nat).
Proof.
    pose proof (getAboutGroup_length child siblings) as Hlen.
    assert (Hnodes : forall c : ModelClass,
      (length (if enableAboutGrouping c then getAboutGroup child siblings else [child])
       <= length (getAboutGroup child siblings))%nat).
    { intros c. by destruct (enableAboutGrouping c). }
    assert (Helement :
      Ensures (convertElement recurse stack child siblings) l w
        (fun consumed _ _ =>
           (consumed <= length (getAboutGroup child siblings) - 1)%nat)).
    { unfold convertElement.
      destruct (match getAttribute child "data-ve-ignore" with
                | Some v => negb (isEmptyString v)
                | None => false
                end); [apply Ensures_ret; lia|].
      cbv zeta.
      set (group := getAboutGroup child siblings) in *.
      set (c0 := default AlienNode (lookup _)).
      set (nodes0 := if extends c0 AnnotationClass then [child]
                     else if enableAboutGrouping c0 then group else [child]).
      assert (Hnodes0 : (length nodes0 <= length group)%nat).
      { subst nodes0. destruct (extends c0 AnnotationClass); [done|apply Hnodes]. }
      apply Ensures_then. intros created l1 w1.
      assert (Hgo : forall nodes' l2 w2 (c : option ModelClass) items',
        (length nodes' <= length group)%nat ->
        Ensures
          (match c with
           | None => throw "TypeError"
           | Some modelClass =>
               if extends modelClass AnnotationClass
               then convertAnnotation recurse stack child nodes' items'
               else if extends modelClass MetaItemClass
               then convertMetaItem nodes' items'
               else convertChildNode recurse stack child group nodes' items'
           end) l2 w2
          (fun consumed _ _ => (consumed <= length group - 1)%nat)).
      { intros nodes' l2 w2 [c|] items' Hn; [|apply Ensures_throw].
        destruct (extends c AnnotationClass).
        - unfold convertAnnotation. repeat yields_step; lia.
        - destruct (extends c MetaItemClass).
          + unfold convertMetaItem. repeat yields_step; lia.
          + unfold convertChildNode. apply Ensures_then. intros t l3 w3.
            cbv zeta. apply Ensures_getLocals.
            apply Ensures_bind with
              (mid := fun a _ _ => (length a.1.1 <= length group)%nat).
            * repeat yields_step; cbn; first [done | apply Hnodes].
            * intros [[nodes'' items''] content] l4 w4 Hn''. cbn in Hn''.
              repeat yields_step; lia. }
      destruct created as [[|it rest]|].
      - apply Ensures_ret; lia.
      - apply Ensures_bind with
          (mid := fun a _ _ => (length a.1.2 <= length group)%nat).
        + repeat yields_step; cbn; done.
        + intros [[c nodes'] items'] l2 w2 Hn. by apply Hgo.
      - apply Ensures_bind with
          (mid := fun a _ _ => (length a.1.2 <= length group)%nat).
        + repeat yields_step; cbn; apply Hnodes.
        + intros [[c nodes'] items'] l2 w2 Hn. by apply Hgo. }
    destruct child as [tag attrs children|text|text|k]; cbn [convertChild]; try done.
    - repeat yields_step; lia.
    - apply Ensures_ret; lia.
Qed.


  (** The loop over the children comes to a node that no [about] group
      before it extends to, with the invariant in place. *)
Lemma convertChildren_reaches (recurse : Recursion) w0 wr stack count rest before :
    RegistryContract ->
    Forall (Converts recurse) before ->
    reached before rest = true ->
    forall i skip l w,
      (skip <= length before)%nat ->
      Invariant w0 wr l w -> WhitespaceAtEnd l ->
      exists l1 w1,
        Invariant w0 wr l1 w1 /\ WhitespaceAtEnd l1
        /\ convertChildren recurse wr stack i count skip (before ++ rest) l w
           = convertChildren recurse wr stack (i + length before) count O rest l1 w1.
Proof.
    intros Hrc Hall. induction Hall as [|n before Hn Hall IH];
      intros Hreach i skip l w Hskip Hinv Htail.
    - exists l, w. cbn in Hskip. replace skip with O by lia.
      cbn [app length]. by rewrite Nat.add_0_r.
    - cbn [reached] in Hreach. apply andb_prop in Hreach as [Hgroup Hreach].
      apply Nat.leb_le in Hgroup.
      cbn [app convertChildren length]. rewrite <- Nat.add_succ_comm.
      destruct skip as [|skip'].
      + destruct (convertChild_spec recurse w0 wr l w stack i count n (before ++ rest)
                    Hrc Hn Hinv Htail) as (consumed & l' & w' & Hrun & Hinv' & Htail').
        pose proof (convertChild_consumed recurse wr stack i count n (before ++ rest)
                      l w _ _ _ Hrun) as Hc. cbv beta in Hc.
        rewrite (run_bind _ _ _ _ _ _ _ Hrun).
        apply IH; [done | lia | done | done].
      + apply IH; [done | cbn in Hskip; lia | done | done].
Qed.

  (** *** Alien nodes *)

Lemma AlienAt_kept dom stack lo x w w' :
    NodesKept w w' -> AlienAt dom stack lo x w -> AlienAt dom stack lo x w'.
Proof.
    intros Hk (e & cx & e0 & rest & He & Hlo & Hval & Ht & Ha & Hd).
    destruct (Hk x e He) as (e' & He' & Ht' & Ha' & Hd').
    exists e', cx, e0, rest. repeat split; try done; congruence.
Qed.

Lemma IsAlien_kept dom stack lo items w w' :
    NodesKept w w' -> IsAlien dom stack lo items w -> IsAlien dom stack lo items w'.
Proof.
    intros Hk (x & rest & -> & Hat & Hopen). exists x, rest.
    split; [done|]. split; [by eapply AlienAt_kept|].
    intros Hlen e' He'. destruct Hat as (e & cx & e0 & rest0 & He & _).
    destruct (Hk x e He) as (e2 & He2 & Ht2 & _).
    rewrite He' in He2. injection He2 as <-. rewrite Ht2. by apply Hopen.
Qed.

Lemma Ensures_both {A} (m : Step A) l w :
    KeepsNodes m -> KeepsRefs m ->
    Ensures m l w (fun _ l' w' => RefsKept (data l) (data l') /\ NodesKept w w').
Proof. intros Hn Hr a l' w' Hrun. split; [by eapply Hr | by eapply Hn]. Qed.

  (** The data elements of the alien node for DOM nodes. *)
Lemma createDataElements_alien dom stack l w :
    RegistryContract ->
    exists items w',
      createDataElements AlienNode dom stack l w = Returned (Some items, l, w')
      /\ NodesKept w w'
      /\ IsAlien dom stack (length (heap w)) items w'.
Proof.
    intros Hrc.
    destruct (rc_alien Hrc dom (stack ++ [context l])) as (vs & Hval & Hne & Hc & _).
    destruct Hc as [-> | (e & rest & c & -> & _ & _ & Hopen & _)]; [done|].
    rewrite createDataElements_run, Hval. cbn [markFirst itemsFor].
    rewrite elementsOf_cons. eexists _, _. split; [reflexivity|]. split; [apply NodesKept_appended|].
    set (e1 := withOriginalDomElements dom e).
    assert (He1 : (heap w ++ e1 :: elementsOf rest) !! length (heap w) = Some e1).
    { rewrite lookup_app_r by lia. by rewrite Nat.sub_diag. }
    exists (length (heap w)), (itemsFor (S (length (heap w))) rest).
    split; [done|]. split.
    - exists e1, (context l), e, rest. by repeat split.
    - intros Hlen e' He'. cbn [heap] in He'.
      rewrite He1 in He'. injection He' as <-.
      cbn [length] in Hlen, Hopen. rewrite itemsFor_length in Hlen.
      destruct rest; [|done]. done.
Qed.


Lemma IsAlien_lower dom stack lo lo' items w :
    (lo <= lo')%nat -> IsAlien dom stack lo' items w -> IsAlien dom stack lo items w.
Proof.
    intros Hle (x & rest & -> & (e & cx & e0 & rest0 & He & Hlo & Hat) & Hopen).
    exists x, rest. split; [done|]. split; [|done].
    exists e, cx, e0, rest0. split; [done|]. split; [lia|done].
Qed.

Lemma pushClosing_extends items l w :
    Ensures (pushClosing items) l w
      (fun items' _ w' => RefsKept items items' /\ NodesKept w w').
Proof.
    intros items' l' w'. unfold pushClosing, itemType.
    destruct (head items); [|done]. run. intros [= <- _ <-].
    split; [apply RefsKept_app | apply NodesKept_appended].
Qed.

Lemma firstType_same items l w :
    Ensures (firstType items) l w (fun _ l' w' => l' = l /\ w' = w).
Proof.
    intros a l' w'. unfold firstType, itemType. destruct (head items); [|done].
    run. by intros [= _ <- <-].
Qed.

  (** A node made of the data elements of the alien node goes into the
      data, whatever the converter does around it. *)
Lemma convertChildNode_alien (recurse : Recursion) stack child group items l w lo :
    RegistryContract ->
    RecursionKeepsNodes recurse ->
    ReturnsWrapper recurse child ->
    let dom := if enableAboutGrouping AlienNode then group else [child] in
    IsAlien dom stack lo items w ->
    Ensures (convertChildNode recurse stack child group dom items) l w
      (fun _ l' w' => exists x, In (Ref x) (data l') /\ AlienAt dom stack lo x w').
Proof.
    intros Hrc Hrec Hwrap dom Hal.
    assert (Hheap : exists x rest e, items = Ref x :: rest /\ heap w !! x = Some e
                                     /\ (lo <= x)%nat).
    { destruct Hal as (x & rest & -> & (e & cx & e0 & rest0 & He & Hlo & _) & _).
      by exists x, rest, e. }
    destruct Hheap as (x & rest & e & Hitems & He & Hlo).
    unfold convertChildNode.
    eapply Ensures_run; [rewrite Hitems; by apply firstType_ref|].
    cbv zeta. apply Ensures_getLocals.
    apply Ensures_bind with
      (mid := fun a _ w1 => a.1.1 = dom /\ IsAlien dom stack lo a.1.2 w1).
    { destruct (negb (expectingContent (context l)) && isNodeContent (Some (type e))).
      { eapply Ensures_bind; [apply KeepsNodes_startWrapping|].
        intros [] l1 w1 Hk. apply Ensures_getLocals, Ensures_update, Ensures_ret.
        split; [done|]. by eapply IsAlien_kept. }
      destruct (expectingContent (context l) && negb (isNodeContent (Some (type e))));
        [|by apply Ensures_ret].
      destruct (inWrapper (context l) && canCloseWrapper (context l)).
      { eapply Ensures_bind; [apply KeepsNodes_stopWrapping|].
        intros [] l1 w1 Hk. apply Ensures_ret. split; [done|]. by eapply IsAlien_kept. }
      destruct (createDataElements_alien dom stack l w Hrc)
        as (items' & w' & Hrun & Hk & Hal').
      eapply Ensures_run; [exact Hrun|]. cbv beta iota.
      eapply Ensures_bind; [apply firstType_same|].
      intros t l1 w1 [-> ->]. apply Ensures_ret. split; [done|].
      apply IsAlien_lower with (lo' := length (heap w)); [|done].
      apply lookup_lt_Some in He. lia. }
    intros [[nodes' items'] content] l1 w1 [Hn Hal1]. cbn [fst snd] in Hn, Hal1.
    subst nodes'. clear dependent x. clear Hal. clear rest e items.
    destruct Hal1 as (x & rest & -> & Hat & Hopen).
    assert (Halien : forall w', NodesKept w1 w' ->
              AlienAt dom stack lo x w'
              /\ (length (Ref x :: rest) = 1%nat ->
                  exists e, heap w' !! x = Some e /\ notClosing (type e) = true)).
    { intros w' Hk. split; [by eapply AlienAt_kept|]. intros Hlen.
      destruct (IsAlien_kept dom stack lo (Ref x :: rest) w1 w' Hk)
        as (x' & rest' & [= <- <-] & (e & cx & e0 & rest0 & He & _) & Hopen').
      { by exists x, rest. }
      exists e. split; [done|]. by apply Hopen'. }
    clear Hat Hopen.
    apply Ensures_getLocals.
    eapply Ensures_bind; [apply Ensures_both; [nodes|refs]|].
    intros [] l2 w2 [_ Hk2]. cbv beta in Hk2.
    eapply Ensures_bind; [apply Ensures_both; [nodes|refs]|].
    intros [] l3 w3 [_ Hk3]. cbv beta in Hk3.
    pose proof (NodesKept_trans _ _ _ Hk2 Hk3) as Hk13. clear Hk2 Hk3.
    eapply Ensures_bind; [apply firstType_same|].
    intros t l4 w4 [-> ->].
    apply Ensures_bind with
      (mid := fun _ l5 w5 => In (Ref x) (data l5) /\ NodesKept w1 w5).
    - destruct ((length (Ref x :: rest) =? 1)%nat && (length dom =? 1)%nat
                && canNodeHaveChildren t && negb (doesNodeHandleOwnChildren t))
        eqn:Erec.
      + apply andb_prop in Erec as [Erec _]. apply andb_prop in Erec as [Erec _].
        apply andb_prop in Erec as [Erec _]. apply Nat.eqb_eq in Erec.
        eapply Ensures_bind; [apply Ensures_both; [nodes|refs]|].
        intros [] l5 w5 [_ Hk5]. cbv beta in Hk5.
        pose proof (NodesKept_trans _ _ _ Hk13 Hk5) as Hk15.
        cbn [head].
        apply Ensures_bind with
          (mid := fun items _ w6 => In (Ref x) items /\ NodesKept w1 w6).
        * intros items l6 w6. unfold callRecurse.
          destruct (recurse child (Some x) (Some AnnotationSet.empty)
                      (stack ++ [context l5]) w5) as [[items' w']| |] eqn:Hrun;
            [|done..].
          intros [= <- _ <-]. split.
          -- eapply Hwrap; [|exact Hrun].
             destruct (Halien w5 Hk15) as [_ Hopen]. by apply Hopen.
          -- eapply NodesKept_trans; [exact Hk15|]. by eapply Hrec.
        * intros items l6 w6 [Hin Hk6]. apply Ensures_updated. split; [|done].
          cbn [data set_data]. apply in_or_app. by right.
      + apply Ensures_bind with
          (mid := fun items _ w5 => In (Ref x) items /\ NodesKept w1 w5).
        * destruct (length (Ref x :: rest) =? 1)%nat.
          -- eapply Ensures_weaken; [apply pushClosing_extends|].
             intros items l5 w5 [Hr Hk]. split; [apply Hr; by left|].
             by eapply NodesKept_trans.
          -- apply Ensures_ret. split; [by left|done].
        * intros items l5 w5 [Hin Hk5].
          eapply Ensures_bind; [apply Ensures_both; [nodes|refs]|].
          intros [] l6 w6 [_ Hk6]. cbv beta in Hk6.
          apply Ensures_updated. split.
          -- cbn [data set_data]. apply in_or_app. by right.
          -- by eapply NodesKept_trans.
    - intros [] l5 w5 [Hin Hk5].
      eapply Ensures_weaken; [apply Ensures_both; [nodes|refs]|].
      intros consumed l6 w6 [Hr6 Hk6]. exists x. split; [by apply Hr6|].
      apply Halien. by eapply NodesKept_trans.
Qed.


Lemma AlienAt_lower dom stack lo lo' x w :
    (lo <= lo')%nat -> AlienAt dom stack lo' x w -> AlienAt dom stack lo x w.
Proof.
    intros Hle (e & cx & e0 & rest0 & He & Hlo & Hat).
    exists e, cx, e0, rest0. split; [done|]. split; [lia|done].
Qed.

  (** An element that is not recognized leaves an alien node in the
      data. *)
Lemma convertElement_alien (recurse : Recursion) stack child siblings l w :
    RegistryContract ->
    RecursionKeepsNodes recurse ->
    ReturnsWrapper recurse child ->
    ignored child = false ->
    unrecognized child siblings (stack ++ [context l]) ->
    Ensures (convertElement recurse stack child siblings) l w
      (fun _ l' w' =>
         exists x, In (Ref x) (data l')
                   /\ AlienAt (alienNodes child siblings) stack (length (heap w)) x w').
Proof.
    intros Hrc Hrec Hwrap Hig Hun.
    destruct (convertElement_alienates recurse stack child siblings l w Hrc Hig Hun)
      as (e & rest & Hval & _ & Heq).
    destruct (createDataElements_alien (alienNodes child siblings) stack l w Hrc)
      as (items & w' & Hrun & _ & Hal).
    rewrite createDataElements_run, Hval in Hrun. cbn [markFirst itemsFor] in Hrun.
    rewrite elementsOf_cons in Hrun. injection Hrun as <- <-.
    intros a l2 w2. rewrite Heq.
    by apply (convertChildNode_alien recurse stack child (getAboutGroup child siblings)).
Qed.

  (** The data of a call has an alien node for every child element that
      is not recognized. *)
Lemma convertSubtree_alienates (recurse : Recursion) before child siblings wr
      annotationSet stack w items w' :
    RegistryContract ->
    RecursionKeepsNodes recurse ->
    Forall (Converts recurse) (before ++ child :: siblings) ->
    ReturnsWrapper recurse child ->
    wrapperOk w wr ->
    reached before (child :: siblings) = true ->
    convertedAsElement child = true ->
    ignored child = false ->
    (forall cx, unrecognized child siblings (stack ++ [cx])) ->
    convertSubtree recurse (before ++ child :: siblings) wr annotationSet stack w
    = Returned (items, w') ->
    alienatedIn stack child siblings w items w'.
Proof.
    intros Hrc Hrec Hall Hwrap Hok Hreach Helem Hig Hun.
    apply Forall_app in Hall as [Hbefore Hrest].
    apply Forall_cons in Hrest as [Hchild Hsiblings].
    rewrite convertSubtree_unfold.
    set (count := length (before ++ child :: siblings)).
    destruct (initialLocals_Invariant wr annotationSet stack w Hok) as [Hinv0 Htail0].
    destruct (convertChildren_reaches recurse w wr stack count (child :: siblings) before
                Hrc Hbefore Hreach O O _ w (Nat.le_0_l _) Hinv0 Htail0)
      as (l1 & w1 & Hinv1 & Htail1 & ->).
    cbn [convertChildren].
    destruct (convertChild_spec recurse w wr l1 w1 stack (0 + length before) count child
                siblings Hrc Hchild Hinv1 Htail1)
      as (consumed & l2 & w2 & Hrun2 & Hinv2 & Htail2).
    rewrite (run_bind _ _ _ _ _ _ _ Hrun2).
    assert (Halien : exists x,
              In (Ref x) (data l2)
              /\ AlienAt (alienNodes child siblings) stack (length (heap w)) x w2).
    { assert (Hel : convertChild recurse wr stack (0 + length before) count child siblings
                    = convertElement recurse stack child siblings).
      { by destruct child. }
      rewrite Hel in Hrun2.
      destruct (convertElement_alien recurse stack child siblings l1 w1 Hrc Hrec Hwrap
                  Hig (Hun (context l1)) _ _ _ Hrun2) as (x & Hin & Hat).
      exists x. split; [done|].
      apply AlienAt_lower with (lo' := length (heap w1)); [|done].
      by destruct Hinv1. }
    destruct Halien as (x & Hin & Hat).
    destruct (convertChildren_spec recurse w wr stack count siblings Hrc Hsiblings
                (S (0 + length before)) consumed l2 w2 Hinv2 Htail2)
      as ([] & l3 & w3 & Hrun3 & Hinv3 & Htail3).
    rewrite Hrun3.
    pose proof (convertChildren_keeps_refs recurse w wr stack count siblings Hrc
                  Hsiblings _ _ l2 w2 Hinv2 Htail2 _ _ _ Hrun3) as Hr3.
    pose proof (KeepsNodes_convertChildren recurse Hrec wr stack count siblings _ _
                  l2 w2 _ _ _ Hrun3) as Hk3.
    destruct (closeSubtree wr annotationSet l3 w3) as [[[[] l4] w4]| |] eqn:Hrun4;
      [|done..].
    pose proof (closeSubtree_keeps_refs wr annotationSet l3 w3 Htail3 _ _ _ Hrun4) as Hr4.
    pose proof (KeepsNodes_closeSubtree wr annotationSet l3 w3 _ _ _ Hrun4) as Hk4.
    cbv beta in Hr3, Hk3, Hr4, Hk4.
    intros [= <- <-]. exists x. split; [by apply Hr4, Hr3|].
    eapply AlienAt_kept; [|exact Hat]. by eapply NodesKept_trans.
Qed.

End Alienation.

(** ** The conversion of a DOM subtree *)

Section Claims.

Context `{Registry}.


  (** C8. The linear data [getDataFromDomSubtree] returns is balanced
      and well nested: every item refers to an element that exists, and
      every open marker, those of the wrapper paragraphs and of the empty
      paragraphs the converter makes among them, is closed by the marker
      of its type, in order, before the function returns. *)
Theorem getDataFromDomSubtree_balanced
      (domElement : DomNode) (wrapperElement : option nat)
      (annotationSet : option AnnotationSet.t) (stack : list Context) (w : World) :
    RegistryContract ->
    wrapperOk w wrapperElement ->
    exists items w',
      getDataFromDomSubtree domElement wrapperElement annotationSet stack w
      = Returned (items, w')
      /\ (forall x, In (Ref x) items -> (x < length (heap w'))%nat)
      /\ balanced (tokens w' items) = true.
Proof.
    intros Hrc Hok.
    destruct (getDataFromDomSubtreeWithin_spec Hrc (height domElement) domElement
                (Nat.le_refl _) wrapperElement annotationSet stack w Hok)
      as (items & w' & Hrun & Hconv).
    exists items, w'. split; [done|]. split; apply Hconv.
Qed.

End Claims.

(** *** On the toy registry *)

(** The toy registry keeps the contract. *)
Lemma ToyHtml_contract : RegistryContract (H := ToyHtml.registry).
Proof.
  assert (Hclasses : forall name c,
    ToyHtml.classOf name = Some c ->
    exists t, (forall nodes stack, toDataElement c nodes stack = TdOne (ToyHtml.plain t))
              /\ ToyHtml.classOf (Some t) = Some c
              /\ notClosing t = true).
  { intros [name|] c Hc; [|done]. unfold ToyHtml.classOf in Hc.
    repeat match type of Hc with
           | (if ?b then _ else _) = _ => destruct b
           end;
      try discriminate; injection Hc as <-; eexists; (split; [reflexivity|]);
      by vm_compute. }
  constructor.
  - intros name c nodes stack vs Hl Hvs.
    destruct (Hclasses name c Hl) as (t & Htd & Hc & Hopen).
    rewrite Htd in Hvs. injection Hvs as <-. right.
    exists (ToyHtml.plain t), [], c. split; [done|]. split; [done|].
    split; [done|]. split; [done|]. done.
  - by vm_compute.
  - intros nodes stack. cbn.
    assert (Ht : exists t,
      match last stack with
      | Some c => if expectingContent c
                  then TdOne (ToyHtml.plain "alienInline")
                  else TdOne (ToyHtml.plain "alienBlock")
      | None => TdOne (ToyHtml.plain "alienBlock")
      end = TdOne (ToyHtml.plain t)
      /\ (t = "alienInline" \/ t = "alienBlock")%string).
    { destruct (last stack) as [c|]; [destruct (expectingContent c)|]; eauto. }
    destruct Ht as (t & -> & Ht).
    exists [VElem (ToyHtml.plain t)]. split; [done|]. split; [done|]. split.
    + right. destruct Ht as [-> | ->]; eexists _, [], _;
        (split; [reflexivity|]); by vm_compute.
    + intros e rest c [= <- <-] Hc. destruct Ht as [-> | ->];
        vm_compute in Hc; injection Hc as <-; by vm_compute.
  - intros nodes stack. exists (ToyHtml.plain "alienMeta"). by vm_compute.
Qed.

(** What the model makes of it: the text goes into wrapper paragraphs,
    the unknown element comes out as an alien node, and the annotation
    without content as an alien meta item. *)
Lemma sample_data :
  ToyHtml.render
    (getDataFromDomSubtree (H := ToyHtml.registry) ToyHtml.sample None None []
       ToyHtml.emptyWorld)
  = ["paragraph"; "a"; "/paragraph"; "list"; "listItem"; "paragraph"; "x";
     "/paragraph"; "/listItem"; "/list"; "alienBlock"; "/alienBlock";
     "meta"; "/meta"; "paragraph"; "b"; "w*"; "inlineImage";
     "/inlineImage"; "alienMeta"; "/alienMeta"; "/paragraph"]%string.
Proof. by vm_compute. Qed.


Lemma getDataFromDomSubtree_balanced_witness :
  exists items w',
    getDataFromDomSubtree (H := ToyHtml.registry) ToyHtml.sample None None []
      ToyHtml.emptyWorld
    = Returned (items, w')
    /\ (forall x, In (Ref x) items -> (x < length (heap w'))%nat)
    /\ balanced (tokens w' items) = true.
Proof.
  apply (getDataFromDomSubtree_balanced (H := ToyHtml.registry) ToyHtml.sample None None []
           ToyHtml.emptyWorld).
  - exact ToyHtml_contract.
  - vm_compute. exact I.
Defined.

(** ** Further properties of the converter *)

Section More.

Context `{Registry}.

Lemma takeSpaces_dropSpaces s : takeSpaces s ++ dropSpaces s = s.
Proof.
    induction s as [|c r IH]; [done|]. cbn.
    destruct (isSpace c); [cbn; by rewrite IH | done].
Qed.

Lemma dropSpaces_skipn s : dropSpaces s = skipn (length (takeSpaces s)) s.
Proof.
    induction s as [|c r IH]; [done|]. cbn.
    destruct (isSpace c); [cbn; by rewrite IH | done].
Qed.

Lemma trailing_parts rest :
    firstn (length rest - length (rev (takeSpaces (rev rest)))) rest
    ++ rev (takeSpaces (rev rest)) = rest.
Proof.
    pose proof (takeSpaces_dropSpaces (rev rest)) as Hr.
    apply (f_equal (@rev Z)) in Hr. rewrite rev_app_distr, rev_involutive in Hr.
    set (t := rev (takeSpaces (rev rest))) in *.
    set (a := rev (dropSpaces (rev rest))) in *.
    clearbody t a. subst rest.
    by rewrite length_app, Nat.add_sub, firstn_app, Nat.sub_diag, firstn_all, app_nil_r.
Qed.

Lemma splitSpace_parts text m1 m2 m3 :
    splitSpace text = (m1, m2, m3) -> m1 ++ m2 ++ m3 = text.
Proof.
    unfold splitSpace. intros [= <- <- <-].
    by rewrite trailing_parts, takeSpaces_dropSpaces.
Qed.

Lemma takeSpaces_all s : forallb isSpace s = true -> takeSpaces s = s.
Proof.
    induction s as [|c r IH]; [done|]. cbn. intros Hs.
    apply andb_prop in Hs as [-> Hr]. by rewrite IH.
Qed.

Lemma dropSpaces_nil s : dropSpaces s = [] -> forallb isSpace s = true.
Proof.
    induction s as [|c r IH]; [done|]. cbn.
    destruct (isSpace c); [exact IH | done].
Qed.

Lemma dropSpaces_head s c r : dropSpaces s = c :: r -> isSpace c = false.
Proof.
    induction s as [|d t IH]; [done|]. cbn.
    destruct (isSpace d) eqn:Ed; [exact IH|]. by intros [= <- <-].
Qed.

  (** Text that is not white space alone has a middle. *)
Lemma splitSpace_middle text m1 m2 m3 :
    splitSpace text = (m1, m2, m3) ->
    text <> [] -> isAllSpace text = false -> m2 <> [].
Proof.
    intros Hs Hne Hsp.
    assert (Hall : forallb isSpace text = false) by (by destruct text).
    unfold splitSpace in Hs. injection Hs as <- <- <-.
    destruct (dropSpaces text) as [|c r] eqn:Ed.
    { apply dropSpaces_nil in Ed. congruence. }
    pose proof (dropSpaces_head _ _ _ Ed) as Hc.
    set (rest := c :: r).
    pose proof (takeSpaces_dropSpaces (rev rest)) as Hr.
    assert (Hlen : (length (takeSpaces (rev rest)) < length rest)%nat).
    { destruct (dropSpaces (rev rest)) as [|d t] eqn:Ed2.
      - apply dropSpaces_nil in Ed2. rewrite forallb_forall in Ed2.
        rewrite (Ed2 c) in Hc; [done|]. apply in_rev. rewrite rev_involutive. by left.
      - apply (f_equal (@length Z)) in Hr. rewrite length_app, length_rev in Hr.
        change (length (d :: t)) with (S (length t)) in Hr. lia. }
    rewrite length_rev. intros Hm.
    apply (f_equal (@length Z)) in Hm. rewrite length_firstn in Hm.
    change (length (@nil Z)) with O in Hm. lia.
Qed.

Lemma alter_snoc {A} (f : A -> A) (l : list A) (e : A) (more : list A) :
    alter f (length l) (l ++ e :: more) = l ++ f e :: more.
Proof.
    rewrite <- (Nat.add_0_r (length l)) at 1. by rewrite alter_app_r.
Qed.

  (** Text outside a wrapper, where no content is expected and nothing
      came before. *)
Lemma convertText_wraps i count (text m1 m2 m3 : JsString) l w :
    originallyExpectingContent (context l) = false ->
    inWrapper (context l) = false ->
    isAllSpace text = false ->
    text <> [] ->
    splitSpace text = (m1, m2, m3) ->
    prevElement l = None ->
    nextWhitespace l = [] ->
    convertText None i count text l w
    = Returned
        (tt,
         set_prevElement (Some (Ref (length (heap w))))
           (set_data
              (data l ++ [Ref (length (heap w))]
               ++ getDataContentFromText m2 (Some (cx_annotations (context l)))
               ++ getDataContentFromText m3 (Some (cx_annotations (context l))))
              (set_wrappedWhitespaceIndex
                 (length (data l) + 1 + length m2)
                 (set_wrappedWhitespace m3 (startedLocals l (length (heap w)))))),
         mkWorld (heap w ++ [withWhitespace 0 m1 wrapperParagraphElement]) (store w)).
Proof.
    intros Hoe Hiw Hsp Hne Hsplit Hprev Hnw.
    unfold convertText. destruct text as [|c0 text0]; [done|].
    run. set (text := c0 :: text0) in *. rewrite Hoe, Hiw. cbn [negb].
    rewrite Hsp, Hsplit. rewrite startWrapping_run.
    unfold startedWorld, startedLocals. rewrite Hnw. cbn [whitespaceAdded].
    destruct m1 as [|c1 m1'].
    - destruct l as [d nw ww wi q wp pe [an bt bh oe ec iw cc]], w as [hp st].
      unfold allocated. fields.
      rewrite <- !app_assoc, !length_app, length_getDataContentFromText.
      cbn [length app withWhitespace]. by rewrite Nat.add_assoc.
    - unfold storeLeadingWhitespace. run. fields. rewrite Hprev.
      run. fields. cbn [fmap option_fmap option_map]. rewrite addWhitespace_ref.
      destruct l as [d nw ww wi q wp pe [an bt bh oe ec iw cc]], w as [hp st].
      unfold allocated, whitespaceAdded, mutated. fields.
      rewrite <- !app_assoc, !length_app, length_getDataContentFromText.
      cbn [length app withWhitespace]. rewrite Nat.add_assoc.
      by rewrite alter_snoc.
Qed.

  (** Closing a wrapper paragraph that has no meta items queued. *)
Lemma stopWrapping_unqueued l w p (A W : list Item) :
    wrappedMetaItems l = [] ->
    wrappingParagraph l = Some p ->
    data l = A ++ W ->
    length A = wrappedWhitespaceIndex l ->
    length W = length (wrappedWhitespace l) ->
    stopWrapping l w
    = Returned
        (tt,
         stoppedLocals l (A ++ [Ref (length (heap w))])
           (match wrappedWhitespace l with
            | [] => nextWhitespace l
            | ws => ws
            end),
         allocated (closeElement "/paragraph")
           (whitespaceAdded (Some (Ref p)) 3 (Some (wrappedWhitespace l)) w)).
Proof.
    intros Hq Hwp Hd HA HW.
    unfold stopWrapping, takeBackWrappedWhitespace. run.
    destruct (wrappedWhitespace l) as [|c v] eqn:Eww.
    - destruct W; [|done]. rewrite app_nil_r in Hd.
      rewrite allocElement_run. unfold outputWrappedMetaItems. run. fields.
      rewrite Hq. cbn [outputWrappedLoop]. run. fields. rewrite Eww.
      unfold stoppedLocals, whitespaceAdded.
      destruct l as [d nw ww wi q wp pe [an bt bh oe ec iw cc]].
      fields. subst. by rewrite app_nil_r.
    - rewrite Hq, Hwp. cbn [length Nat.ltb Nat.leb fmap option_fmap option_map].
      rewrite addWhitespace_ref. rewrite allocElement_run.
      unfold outputWrappedMetaItems. run. fields.
      rewrite Hq. cbn [outputWrappedLoop]. run. fields. rewrite Eww.
      rewrite Hd, (spliceOut_tail A W) by done.
      unfold stoppedLocals.
      destruct l as [d nw ww wi q wp pe [an bt bh oe ec iw cc]].
      fields. subst. rewrite whitespaceAdded_length. by rewrite app_nil_r.
Qed.

Lemma isAllInstanceOf_char w (items : list Item) c targetClass :
    In (Chr c) items -> isAllInstanceOf w items targetClass = false.
Proof.
    intros Hin. unfold isAllInstanceOf.
    destruct (forallb _ items) eqn:Hall; [|done].
    rewrite forallb_forall in Hall. by specialize (Hall _ Hin).
Qed.

  (** X1. Bare text at the top of a document, where no content is
      expected, is wrapped in a paragraph the converter makes; the white
      space around the text stays out of the data and is kept in the
      paragraph, before and after it, so that nothing of the text is
      lost. *)
Theorem bare_text_is_wrapped tag attrs (text : JsString) (w : World) :
    canNodeContainContent "document" = false ->
    text <> [] ->
    isAllSpace text = false ->
    let '(leading, middle, trailing) := splitSpace text in
    leading ++ middle ++ trailing = text
    /\ getDataFromDomSubtree (ElementNode tag attrs [TextNode text]) None None [] w
       = Returned
           ([Ref (length (heap w))] ++ map Chr middle ++ [Ref (S (length (heap w)))],
            mkWorld
              (heap w
               ++ [withWhitespace 3 trailing
                     (withWhitespace 0 leading wrapperParagraphElement);
                   closeElement "/paragraph"])
              (store w)).
Proof.
    intros Hdoc Hne Hsp.
    destruct (splitSpace text) as [[m1 m2] m3] eqn:Hsplit.
    split; [by apply splitSpace_parts|].
    pose proof (splitSpace_middle text m1 m2 m3 Hsplit Hne Hsp) as Hmid.
    unfold getDataFromDomSubtree. cbn [height Nat.max getDataFromDomSubtreeWithin childNodesOf].
    unfold convertSubtree. cbv zeta. cbn [mbind option_bind last length].
    unfold initialContext. cbn [last]. rewrite Hdoc.
    cbn [orb negb AnnotationSet.isEmpty AnnotationSet.empty].
    cbn [convertChildren convertChild].
    set (l0 := mkLocals _ _ _ _ _ _ _ _).
    rewrite (run_bind _ _ _ _ _ _ _
               (run_bind _ _ _ _ _ _ _
                  (convertText_wraps 0 1 text m1 m2 m3 l0 w eq_refl eq_refl Hsp Hne
                     Hsplit eq_refl eq_refl))).
    run. subst l0. fields. unfold startedLocals. fields. cbn [app length Nat.add].
    unfold closeSubtree. run. fields. cbn [andb].
    set (l1 := set_prevElement _ _).
    set (w1 := mkWorld _ _).
    rewrite (stopWrapping_unqueued l1 w1 (length (heap w))
               (Ref (length (heap w)) :: map Chr m2) (map Chr m3));
      [|done|done|done| subst l1; cbn; by rewrite length_map | subst l1; cbn; by rewrite length_map].
    unfold stoppedLocals. subst l1. run. fields.
    cbn [String.eqb Ascii.eqb Bool.eqb andb].
    destruct m2 as [|c2 m2']; [done|].
    cbn [map]. rewrite (isAllInstanceOf_char _ _ c2) by (cbn; tauto).
    cbn [andb]. run. fields.
    f_equal. f_equal.
    - subst w1. cbn. rewrite length_app. cbn. by rewrite Nat.add_1_r.
    - subst w1. unfold allocated. cbn [heap store].
      destruct m3 as [|c3 m3'].
      + cbn [whitespaceAdded withWhitespace heap store]. by rewrite <- app_assoc.
      + cbn [whitespaceAdded withWhitespace mutated heap store].
        rewrite alter_snoc. by rewrite <- app_assoc.
Qed.

Lemma splitSpace_eq text :
    splitSpace text
    = (takeSpaces text,
       firstn (length (dropSpaces text)
               - length (rev (takeSpaces (rev (dropSpaces text)))))
         (dropSpaces text),
       rev (takeSpaces (rev (dropSpaces text)))).
Proof. reflexivity. Qed.

  (** Text in an element that takes content and has no annotations:
      the white space at its ends goes to the element. *)
Lemma convertText_strips x e (text : JsString) l w :
    originallyExpectingContent (context l) = true ->
    cx_annotations (context l) = AnnotationSet.empty ->
    heap w !! x = Some e ->
    doesNodeHaveSignificantWhitespace (type e) = false ->
    text <> [] ->
    convertText (Some x) 0 1 text l w
    = Returned
        (tt,
         set_data
           (data l
            ++ map Chr
                 (firstn (length (dropSpaces text)
                          - length (rev (takeSpaces (rev (dropSpaces text)))))
                    (dropSpaces text)))
           l,
         mkWorld
           (alter
              (fun e =>
                 withWhitespace 2 (rev (takeSpaces (rev (dropSpaces text))))
                   (withWhitespace 1 (takeSpaces text) e))
              x (heap w))
           (store w)).
Proof.
    intros Hoe Hann He Hsig Hne.
    unfold convertText. destruct text as [|c0 text0]; [done|].
    set (text := c0 :: text0) in *.
    run. rewrite Hoe. cbn [negb]. unfold wrapperType, readElement. run.
    rewrite Hann, He. change (default "" (type <$> Some e)) with (type e).
    rewrite Hsig. cbn [AnnotationSet.isEmpty AnnotationSet.empty Nat.eqb andb Nat.sub negb].
    unfold leadingSpace, trailingSpace. rewrite (dropSpaces_skipn text).
    destruct (takeSpaces text) as [|c1 r1] eqn:El.
    - change (drop (length (@nil Z)) text) with text. run. rewrite He.
      change (default "" (type <$> Some e)) with (type e). rewrite Hsig. cbn [negb].
      destruct (takeSpaces (rev text)) as [|c3 r3] eqn:Et; run.
      + cbn [rev length withWhitespace]. rewrite Nat.sub_0_r, firstn_all.
        rewrite list_alter_id by done. by destruct w.
      + rewrite addWhitespace_ref. cbn [whitespaceAdded mutated heap store withWhitespace].
        destruct (rev (c3 :: r3)) as [|c4 r4] eqn:Er.
        { apply (f_equal (@length Z)) in Er. rewrite length_rev in Er. done. }
        cbn [whitespaceAdded withWhitespace]. reflexivity.
    - rewrite addWhitespace_ref. run.
      cbn [whitespaceAdded mutated heap store]. rewrite list_lookup_alter_eq, He.
      change (default "" (type <$> (addWhitespaceTo 1 (c1 :: r1) <$> Some e)))
        with (type e).
      rewrite Hsig. cbn [negb].
      set (rest := skipn (length (c1 :: r1)) text).
      destruct (takeSpaces (rev rest)) as [|c3 r3] eqn:Et; run.
      + cbn [rev length withWhitespace]. by rewrite Nat.sub_0_r, firstn_all.
      + rewrite addWhitespace_ref. cbn [whitespaceAdded mutated heap store withWhitespace].
        destruct (rev (c3 :: r3)) as [|c4 r4] eqn:Er.
        { apply (f_equal (@length Z)) in Er. rewrite length_rev in Er. done. }
        unfold mutated. cbn [heap store withWhitespace].
        by rewrite list_alter_alter_eq.
Qed.

  (** The end of an element that takes content: its close marker. *)
Lemma closeSubtree_content x e (annotationSet : AnnotationSet.t) l w :
    canCloseWrapper (context l) = false ->
    canNodeContainContent (branchType (context l)) = true ->
    nextWhitespace l = [] ->
    heap w !! x = Some e ->
    closeSubtree (Some x) (Some annotationSet) l w
    = Returned
        (tt, set_data (data l ++ [Ref (length (heap w))]) l,
         allocated (closeElement (String.append "/" (type e))) w).
Proof.
    intros Hcc Hcontent Hnw He.
    unfold closeSubtree, wrapperType, readElement. run.
    rewrite Hcc, andb_false_r. run. rewrite Hcontent. cbn [negb].
    rewrite !andb_false_r. cbn [andb]. run. rewrite Hnw, He.
    change (default "" (type <$> Some e)) with (type e).
    rewrite allocElement_run. fields. rewrite !andb_false_r. reflexivity.
Qed.

  (** X2. In an element that takes content, the white space at the
      start and at the end of its only text is not converted to data:
      it is kept in the element, inside it, before and after its
      content, and the three pieces make up the text. *)
Theorem inner_whitespace_is_stored tag attrs (text : JsString) (x : nat) (e : Element)
      (stack : list Context) (w : World) :
    heap w !! x = Some e ->
    canNodeContainContent (type e) = true ->
    doesNodeHaveSignificantWhitespace (type e) = false ->
    let '(leading, middle, trailing) := splitSpace text in
    leading ++ middle ++ trailing = text
    /\ getDataFromDomSubtree (ElementNode tag attrs [TextNode text]) (Some x)
         (Some AnnotationSet.empty) stack w
       = Returned
           ([Ref x] ++ map Chr middle ++ [Ref (length (heap w))],
            mkWorld
              (alter (fun e => withWhitespace 2 trailing (withWhitespace 1 leading e))
                 x (heap w)
               ++ [closeElement (String.append "/" (type e))])
              (store w)).
Proof.
    intros He Hcontent Hsig.
    destruct (splitSpace text) as [[m1 m2] m3] eqn:Hsplit.
    split; [by apply splitSpace_parts|].
    rewrite splitSpace_eq in Hsplit. injection Hsplit as Hm1 Hm2 Hm3.
    unfold getDataFromDomSubtree. cbn [height Nat.max getDataFromDomSubtreeWithin childNodesOf].
    unfold convertSubtree. cbv zeta. cbn [mbind option_bind length].
    rewrite He. cbn [fmap option_fmap option_map]. unfold initialContext.
    rewrite Hcontent. cbn [orb].
    cbn [convertChildren convertChild].
    set (cx := mkContext _ _ _ _ _ _ _).
    set (l0 := mkLocals _ _ _ _ _ _ _ _).
    destruct text as [|c0 text0].
    - cbn in Hm1, Hm2, Hm3. subst m1 m2 m3.
      change (((convertText (Some x) 0 1 [] ≫= (fun _ => mret O))
               ≫= (fun _ => mret tt)) l0 w) with (Returned (tt, l0, w)).
      cbv beta iota.
      rewrite (closeSubtree_content x e _ l0 w eq_refl Hcontent eq_refl He).
      cbn [data set_data map app withWhitespace allocated heap store].
      by rewrite list_alter_id.
    - set (text := c0 :: text0) in *.
      rewrite (run_bind _ _ _ _ _ _ _
                 (run_bind _ _ _ _ _ _ _
                    (convertText_strips x e text l0 w eq_refl eq_refl He Hsig
                       ltac:(done)))).
      run. rewrite Hm1, Hm2, Hm3.
      set (l1 := set_data _ l0). set (w1 := mkWorld _ _).
      assert (He1 : heap w1 !! x = Some (withWhitespace 2 m3 (withWhitespace 1 m1 e))).
      { subst w1. cbn. by rewrite list_lookup_alter_eq, He. }
      rewrite (closeSubtree_content x _ _ l1 w1 eq_refl Hcontent eq_refl He1).
      subst l1 w1 l0. cbn [data set_data allocated heap store].
      rewrite length_alter.
      assert (Hty : type (withWhitespace 2 m3 (withWhitespace 1 m1 e)) = type e).
      { by destruct m1, m3. }
      rewrite Hty. by rewrite <- app_assoc.
Qed.

  (** The loop does nothing for children it passes over. *)
Lemma convertChildren_passedOver (recurse : Recursion) wr stack count children :
    forallb passedOver children = true ->
    forall i skip l w,
      convertChildren recurse wr stack i count skip children l w = Returned (tt, l, w).
Proof.
    induction children as [|child siblings IH]; intros Hall i skip l w; [done|].
    cbn in Hall. apply andb_prop in Hall as [Hchild Hall].
    cbn [convertChildren]. destruct skip as [|skip']; [|by apply IH].
    assert (Hrun : convertChild recurse wr stack i count child siblings l w
                   = Returned (O, l, w)).
    { destruct child as [tag attrs ch|c|text|k]; cbn [convertChild passedOver] in *.
      - unfold convertElement. unfold ignored in Hchild. by rewrite Hchild.
      - done.
      - by destruct text.
      - done. }
    rewrite (run_bind _ _ _ _ _ _ _ Hrun). by apply IH.
Qed.

  (** X3. Children the loop passes over leave no trace: an element
      whose children are all elements marked [data-ve-ignore], empty text
      nodes or nodes that are neither elements, comments nor text is
      converted as the element without children is. *)
Theorem passed_over_children_leave_no_trace tag attrs (children : list DomNode)
      (wrapperElement : option nat) (annotationSet : option AnnotationSet.t)
      (stack : list Context) (w : World) :
    forallb passedOver children = true ->
    getDataFromDomSubtree (ElementNode tag attrs children) wrapperElement annotationSet
      stack w
    = getDataFromDomSubtree (ElementNode tag attrs []) wrapperElement annotationSet
        stack w.
Proof.
    intros Hall. unfold getDataFromDomSubtree.
    cbn [height getDataFromDomSubtreeWithin childNodesOf].
    unfold convertSubtree. cbv zeta.
    rewrite (convertChildren_passedOver _ _ _ _ children Hall).
    reflexivity.
Qed.

  (** X4. A document whose only child is white space becomes an empty
      generated paragraph that keeps the white space before it. *)
Theorem lone_whitespace_is_kept tag attrs (text : JsString) (w : World) :
    canNodeContainContent "document" = false ->
    isAllSpace text = true ->
    getDataFromDomSubtree (ElementNode tag attrs [TextNode text]) None None [] w
    = Returned
        ([Ref (length (heap w)); Ref (S (length (heap w)))],
         mkWorld
           (heap w ++ [addWhitespaceTo 0 text emptyParagraphElement;
                       closeElement "/paragraph"])
           (store w)).
Proof.
    intros Hdoc Hspace.
    unfold getDataFromDomSubtree. cbn [height Nat.max getDataFromDomSubtreeWithin childNodesOf].
    unfold convertSubtree. cbv zeta. cbn [mbind option_bind length].
    unfold initialContext. cbn [last]. rewrite Hdoc. cbn [orb].
    cbn [convertChildren convertChild].
    destruct text as [|c0 text0]; [done|].
    change (AnnotationSet.isEmpty AnnotationSet.empty) with true. cbn [negb].
    unfold convertText. run. fields. cbn [negb]. rewrite Hspace.
    unfold storeLeadingWhitespace, outputWrappedMetaItems. run. fields.
    cbn [outputWrappedLoop]. run. fields.
    unfold closeSubtree. run. fields. cbn [andb String.eqb Ascii.eqb Bool.eqb isAllInstanceOf forallb app].
    unfold pushEmptyParagraph. run. fields.
    cbn [String.eqb Ascii.eqb Bool.eqb isAllInstanceOf forallb andb].
    rewrite allocElement_run. fields.
    unfold processNextWhitespace. run. fields. unfold addWhitespace. run.
    unfold mutateElement. run. fields.
    rewrite allocElement_run. fields. cbn [app].
    rewrite (alter_snoc _ (heap w) emptyParagraphElement []).
    rewrite !length_app. cbn [length]. rewrite Nat.add_1_r.
    unfold allocated. cbn [heap store]. by rewrite <- app_assoc.
Qed.

  (** X5. An element without children becomes its open and close
      markers; an empty generated paragraph is put between them exactly
      when the element is not a paragraph, is converted outside a wrapper
      paragraph, cannot contain content, is not content itself and may
      have a paragraph as a child. *)
Theorem empty_element_is_filled tag attrs (x : nat) (e : Element)
      (annotationSet : AnnotationSet.t) (stack : list Context) (w : World) :
    heap w !! x = Some e ->
    getDataFromDomSubtree (ElementNode tag attrs []) (Some x) (Some annotationSet) stack w
    = let n := length (heap w) in
      let close := closeElement (String.append "/" (type e)) in
      if takesEmptyParagraph (type e) stack
      then Returned
             ([Ref x; Ref n; Ref (S n); Ref (S (S n))],
              mkWorld
                (heap w ++ [emptyParagraphElement; closeElement "/paragraph"; close])
                (store w))
      else Returned ([Ref x; Ref n], mkWorld (heap w ++ [close]) (store w)).
Proof.
    intros He.
    unfold getDataFromDomSubtree. cbn [height Nat.max getDataFromDomSubtreeWithin childNodesOf].
    unfold convertSubtree. cbv zeta. cbn [mbind option_bind length convertChildren].
    rewrite He. cbn [fmap option_fmap option_map]. unfold initialContext.
    run. fields.
    unfold closeSubtree. run. fields.
    rewrite andb_false_r. run. fields.
    unfold lastIsWrapper, isValidChildNodeType. fields. cbn [last data].
    rewrite Nat.eqb_refl. cbn [andb].
    unfold takesEmptyParagraph.
    rewrite andb_true_r.
    set (cond := (negb _ && negb _ && negb _ && negb _ && _)%bool).
    destruct cond.
    - unfold pushEmptyParagraph, processNextWhitespace. run.
      rewrite allocElement_run. fields. run. rewrite allocElement_run. fields.
      unfold wrapperType, readElement. run. fields.
      assert (Hx : (x < length (heap w))%nat) by (by eapply lookup_lt_Some).
      rewrite !lookup_app_l by (rewrite ?length_app; lia).
      rewrite He.
      change (default "" (type <$> Some e)) with (type e).
      rewrite allocElement_run. fields. rewrite andb_false_r.
      rewrite ?length_app. cbn [length app]. rewrite <- ?app_assoc. cbn [app].
      rewrite ?Nat.add_1_r. fields. unfold allocated. cbn [heap store]. by rewrite <- !app_assoc.
    - run. fields. unfold wrapperType, readElement. run. fields.
      rewrite He.
      change (default "" (type <$> Some e)) with (type e).
      rewrite allocElement_run. fields. rewrite andb_false_r. reflexivity.
Qed.

Lemma KeepsBranch_bind {A B} (m : Step A) (k : A -> Step B) :
    KeepsBranch m -> (forall a, KeepsBranch (k a)) -> KeepsBranch (m ≫= k).
Proof.
    intros Hm Hk l w b l2 w2. run.
    destruct (m l w) as [[[a l1] w1]| |] eqn:Hrun; [|done..].
    intros Hrun2. rewrite (Hk a _ _ _ _ _ Hrun2). by eapply Hm.
Qed.

Lemma KeepsBranch_ret {A} (a : A) : KeepsBranch (mret a).
Proof. intros l w b l2 w2. run. by intros [= _ <- _]. Qed.

Lemma KeepsBranch_throw {A} e : KeepsBranch (throw (A := A) e).
Proof. by intros l w b l2 w2. Qed.

Lemma KeepsBranch_getLocals : KeepsBranch getLocals.
Proof. intros l w b l2 w2. run. by intros [= _ <- _]. Qed.

Lemma KeepsBranch_getWorld : KeepsBranch getWorld.
Proof. intros l w b l2 w2. run. by intros [= _ <- _]. Qed.

Lemma KeepsBranch_updateWorld f : KeepsBranch (updateWorld f).
Proof. intros l w b l2 w2. run. by intros [= _ <- _]. Qed.

Lemma KeepsBranch_update f :
    (forall l, branchType (context (f l)) = branchType (context l)) ->
    KeepsBranch (update f).
Proof. intros Hf l w b l2 w2. run. intros [= _ <- _]. apply Hf. Qed.

Lemma KeepsBranch_callRecurse (recurse : Recursion) node wr a stack :
    KeepsBranch (callRecurse recurse node wr a stack).
Proof.
    intros l w b l2 w2. unfold callRecurse.
    destruct (recurse _ _ _ _ _) as [[items w1]| |]; [|done..].
    by intros [= _ <- _].
Qed.

Create HintDb keeps.

Ltac keeps_step :=
    first
      [ apply KeepsBranch_ret
      | apply KeepsBranch_throw
      | apply KeepsBranch_getLocals
      | apply KeepsBranch_getWorld
      | apply KeepsBranch_updateWorld
      | apply KeepsBranch_callRecurse
      | apply KeepsBranch_update; intros [? ? ? ? ? ? ? []]; reflexivity
      | solve [auto with keeps]
      | apply KeepsBranch_bind; [|intros ?]
      | match goal with
        | |- KeepsBranch (match ?x with _ => _ end) => destruct x
        | |- KeepsBranch (if ?x then _ else _) => destruct x
        end ].

Ltac keeps := cbv zeta; repeat keeps_step.

Lemma KeepsBranch_storeIndex a : KeepsBranch (storeIndex a).
Proof. unfold storeIndex. keeps. Qed.
Lemma KeepsBranch_allocElement e : KeepsBranch (allocElement e).
Proof. unfold allocElement. keeps. Qed.
Lemma KeepsBranch_mutateElement r f : KeepsBranch (mutateElement r f).
Proof. unfold mutateElement. keeps. Qed.
Lemma KeepsBranch_readElement r : KeepsBranch (readElement r).
Proof. unfold readElement. keeps. Qed.
Lemma KeepsBranch_itemType it : KeepsBranch (itemType it).
Proof. unfold itemType. keeps. Qed.
Hint Resolve KeepsBranch_storeIndex KeepsBranch_allocElement KeepsBranch_mutateElement
    KeepsBranch_readElement KeepsBranch_itemType : keeps.

Lemma KeepsBranch_addWhitespace element index ws :
    KeepsBranch (addWhitespace element index ws).
Proof. unfold addWhitespace. keeps. Qed.
Hint Resolve KeepsBranch_addWhitespace : keeps.

Lemma KeepsBranch_processNextWhitespace element :
    KeepsBranch (processNextWhitespace element).
Proof. unfold processNextWhitespace. keeps. Qed.
Hint Resolve KeepsBranch_processNextWhitespace : keeps.

Lemma KeepsBranch_outputWrappedLoop treatment items :
    forall toInsert prev, KeepsBranch (outputWrappedLoop treatment items toInsert prev).
Proof.
    induction items as [|it rest IH]; intros toInsert prev; cbn [outputWrappedLoop];
      keeps.
Qed.
Hint Resolve KeepsBranch_outputWrappedLoop : keeps.

Lemma KeepsBranch_outputWrappedMetaItems treatment :
    KeepsBranch (outputWrappedMetaItems treatment).
Proof. unfold outputWrappedMetaItems. keeps. Qed.
Hint Resolve KeepsBranch_outputWrappedMetaItems : keeps.

Lemma KeepsBranch_updateContext f :
    (forall c, branchType (f c) = branchType c) -> KeepsBranch (updateContext f).
Proof.
    intros Hf. unfold updateContext. apply KeepsBranch_update.
    intros l. cbn. apply Hf.
Qed.

Lemma KeepsBranch_startWrapping : KeepsBranch startWrapping.
Proof.
    unfold startWrapping. keeps; apply KeepsBranch_updateContext; by intros [].
Qed.

Lemma KeepsBranch_takeBackWrappedWhitespace : KeepsBranch takeBackWrappedWhitespace.
Proof. unfold takeBackWrappedWhitespace. keeps. Qed.
Hint Resolve KeepsBranch_startWrapping KeepsBranch_takeBackWrappedWhitespace : keeps.

Lemma KeepsBranch_stopWrapping : KeepsBranch stopWrapping.
Proof.
    unfold stopWrapping. keeps; apply KeepsBranch_updateContext; by intros [].
Qed.
Hint Resolve KeepsBranch_stopWrapping : keeps.

Lemma KeepsBranch_allocValues vs : KeepsBranch (allocValues vs).
Proof. induction vs as [|v r IH]; cbn [allocValues]; keeps. Qed.
Hint Resolve KeepsBranch_allocValues : keeps.

Lemma KeepsBranch_createDataElements c nodes stack :
    KeepsBranch (createDataElements c nodes stack).
Proof. unfold createDataElements. keeps. Qed.
Lemma KeepsBranch_setAnnotations it indexes : KeepsBranch (setAnnotations it indexes).
Proof. unfold setAnnotations. keeps. Qed.
Lemma KeepsBranch_pushClosing items : KeepsBranch (pushClosing items).
Proof. unfold pushClosing. keeps. Qed.
Lemma KeepsBranch_firstType items : KeepsBranch (firstType items).
Proof. unfold firstType. keeps. Qed.
Lemma KeepsBranch_appendData items : KeepsBranch (appendData items).
Proof. unfold appendData. keeps. Qed.
Lemma KeepsBranch_storeLeadingWhitespace wr ws :
    KeepsBranch (storeLeadingWhitespace wr ws).
Proof. unfold storeLeadingWhitespace. keeps. Qed.
Lemma KeepsBranch_wrapperType x : KeepsBranch (wrapperType x).
Proof. unfold wrapperType. keeps. Qed.
Hint Resolve KeepsBranch_createDataElements KeepsBranch_setAnnotations
    KeepsBranch_pushClosing KeepsBranch_firstType KeepsBranch_appendData
    KeepsBranch_storeLeadingWhitespace KeepsBranch_wrapperType : keeps.

Lemma KeepsBranch_convertAnnotation (recurse : Recursion) stack child nodes items :
    KeepsBranch (convertAnnotation recurse stack child nodes items).
Proof. unfold convertAnnotation. keeps. Qed.
Lemma KeepsBranch_convertMetaItem nodes items :
    KeepsBranch (convertMetaItem nodes items).
Proof. unfold convertMetaItem. keeps. Qed.
Lemma KeepsBranch_convertChildNode (recurse : Recursion) stack child group nodes items :
    KeepsBranch (convertChildNode recurse stack child group nodes items).
Proof. unfold convertChildNode. keeps. Qed.
Hint Resolve KeepsBranch_convertAnnotation KeepsBranch_convertMetaItem
    KeepsBranch_convertChildNode : keeps.

Lemma KeepsBranch_convertElement (recurse : Recursion) stack child siblings :
    KeepsBranch (convertElement recurse stack child siblings).
Proof. unfold convertElement. keeps. Qed.
Lemma KeepsBranch_convertText wr i count text :
    KeepsBranch (convertText wr i count text).
Proof. unfold convertText. keeps. Qed.
Hint Resolve KeepsBranch_convertElement KeepsBranch_convertText : keeps.

Lemma KeepsBranch_convertChildren (recurse : Recursion) wr stack count children :
    forall i skip, KeepsBranch (convertChildren recurse wr stack i count skip children).
Proof.
    induction children as [|child siblings IH]; intros i skip; cbn [convertChildren].
    - keeps.
    - destruct skip; [|apply IH]. unfold convertChild. keeps.
Qed.

  (** The end of a document leaves data behind. *)
Lemma pushEmptyParagraph_data l w a l' w' :
    pushEmptyParagraph l w = Returned (a, l', w') -> data l' <> [].
Proof.
    unfold pushEmptyParagraph. run. rewrite allocElement_run.
    rewrite processNextWhitespace_ref. rewrite allocElement_run. fields.
    intros [= _ <- _]. fields. by destruct (data l).
Qed.

Lemma closeSubtree_document l w a l' w' :
    branchType (context l) = "document" ->
    closeSubtree None None l w = Returned (a, l', w') ->
    data l' <> [].
Proof.
    intros Hdoc. unfold closeSubtree. run.
    assert (Hfinal : forall l1 w1,
               branchType (context l1) = "document" ->
               (if (branchType (context l1) =? "document")%string
                   && isAllInstanceOf w1 (data l1) MetaItemClass && true
                then pushEmptyParagraph
                else fun l w => Returned (tt, l, w)) l1 w1 = Returned (a, l', w') ->
               data l' <> []).
    { intros l1 w1 Hdoc1. rewrite Hdoc1. cbn [String.eqb Ascii.eqb Bool.eqb andb].
      rewrite andb_true_r.
      destruct (isAllInstanceOf w1 (data l1) MetaItemClass) eqn:Hall.
      - apply pushEmptyParagraph_data.
      - intros [= _ <- _]. intros Hnil. by rewrite Hnil in Hall. }
    destruct (inWrapper (context l) && canCloseWrapper (context l)).
    - destruct (stopWrapping l w) as [[[[] l1] w1]| |] eqn:Hstop; [|done..].
      apply KeepsBranch_stopWrapping in Hstop.
      apply Hfinal. fields. cbn. congruence.
    - by apply Hfinal.
Qed.

  (** X6. The conversion of a document never returns empty data. *)
Theorem document_is_never_empty (domElement : DomNode) (w : World) items w' :
    getDataFromDomSubtree domElement None None [] w = Returned (items, w') ->
    items <> [].
Proof.
    unfold getDataFromDomSubtree.
    destruct (height domElement) as [|depth]; [done|].
    cbn [getDataFromDomSubtreeWithin]. unfold convertSubtree. cbv zeta.
    set (l0 := mkLocals _ _ _ _ _ _ _ _).
    destruct (convertChildren _ _ _ _ _ _ _ l0 w) as [[[[] l1] w1]| |] eqn:Hloop;
      [|done..].
    apply KeepsBranch_convertChildren in Hloop. cbn in Hloop.
    destruct (closeSubtree None None l1 w1) as [[[[] l2] w2]| |] eqn:Hclose; [|done..].
    intros [= <- _]. by eapply closeSubtree_document.
Qed.

  (** X7. The conversion leaves the element objects that were there as
      they were: it only adds objects, and of those it was given it
      changes the wrapper element alone, which keeps its type. *)
Theorem existing_elements_are_kept (domElement : DomNode) (wrapperElement : option nat)
      (annotationSet : option AnnotationSet.t) (stack : list Context) (w : World) :
    RegistryContract ->
    wrapperOk w wrapperElement ->
    exists items w',
      getDataFromDomSubtree domElement wrapperElement annotationSet stack w
      = Returned (items, w')
      /\ (forall x e, heap w !! x = Some e -> wrapperElement <> Some x ->
                      heap w' !! x = Some e)
      /\ (forall x e, heap w !! x = Some e ->
                      exists e', heap w' !! x = Some e' /\ type e' = type e).
Proof.
    intros Hrc Hok.
    destruct (getDataFromDomSubtreeWithin_spec Hrc (height domElement) domElement
                (le_n _) wrapperElement annotationSet stack w Hok)
      as (items & w' & Hrun & Hcv).
    exists items, w'. split; [exact Hrun|].
    assert (Hframe : forall x e, heap w !! x = Some e -> wrapperElement <> Some x ->
                                 heap w' !! x = Some e).
    { intros x e He Hx. rewrite <- He. apply (cv_frame _ _ _ _ Hcv).
      - by eapply lookup_lt_Some.
      - congruence. }
    split; [exact Hframe|].
    intros x e He. destruct (decide (wrapperElement = Some x)) as [Hwr|Hwr].
    - pose proof (cv_wrapper _ _ _ _ Hcv x Hwr) as Ht. rewrite He in Ht.
      destruct (heap w' !! x) as [e'|]; [|done]. exists e'. split; [done|].
      by injection Ht.
    - exists e. by split; [apply Hframe|].
Qed.

  (** *** [openAndCloseAnnotations] *)

Lemma containsIndex_elem_of (s : AnnotationSet.t) (x : nat) :
    AnnotationSet.containsIndex s x = true <-> x ∈ s.
Proof.
    unfold AnnotationSet.containsIndex. rewrite existsb_exists. split.
    - intros (y & Hy & Heq). apply Nat.eqb_eq in Heq. subst y.
      by apply list_elem_of_In.
    - intros Hx. exists x. split; [by apply list_elem_of_In|apply Nat.eqb_refl].
Qed.

Lemma removeIndex_Permutation (s : AnnotationSet.t) (x : nat) :
    x ∈ s -> s ≡ₚ x :: AnnotationSet.removeIndex s x.
Proof.
    induction s as [|y r IH]; intros Hx; [by apply elem_of_nil in Hx|].
    cbn. destruct (Nat.eqb_spec x y) as [->|Hne]; [done|].
    apply elem_of_cons in Hx as [Hx|Hx]; [done|].
    rewrite (IH Hx) at 1. apply Permutation_swap.
Qed.

  (** Where no two different annotations are comparable, the test of
      the two loops is that of the index. *)
Lemma contains_plain (s : AnnotationSet.t) (x : nat) :
    (forall a b, comparableForSerialization a b = true -> a = b) ->
    AnnotationSet.containsIndex s x || containsComparableForSerialization s x
    = AnnotationSet.containsIndex s x.
Proof.
    intros Hplain. destruct (AnnotationSet.containsIndex s x) eqn:Hc; [done|].
    cbn. unfold containsComparableForSerialization.
    apply not_true_is_false. rewrite existsb_exists. intros (y & Hy & Hcmp).
    apply Hplain in Hcmp. subst y.
    apply list_elem_of_In, containsIndex_elem_of in Hy. congruence.
Qed.

  (** The first loop stops at the end of a prefix of the current set,
      and at the end of the set it finds nothing to close. *)
Lemma findStartClosingAt_prefix (current : list nat) :
    forall i targetSetOpen,
    exists kept closed,
      current = kept ++ closed
      /\ match findStartClosingAt current i targetSetOpen with
         | Some startClosingAt => startClosingAt = (i + length kept)%nat /\ closed <> []
         | None => closed = []
         end
      /\ ((forall a b, comparableForSerialization a b = true -> a = b) ->
          kept ⊆+ targetSetOpen).
Proof.
    induction current as [|index rest IH]; intros i tso; cbn [findStartClosingAt].
    - exists [], []. split; [done|]. split; [done|]. intros _. apply submseteq_nil_l.
    - destruct (_ || _) eqn:Hin.
      + destruct (IH (S i) (AnnotationSet.removeIndex tso index))
          as (kept & closed & -> & Hres & Hsub).
        exists (index :: kept), closed. split; [done|]. split.
        * destruct (findStartClosingAt _ _ _); [|done].
          destruct Hres as [-> Hne]. split; [cbn; lia|done].
        * intros Hplain. rewrite (contains_plain _ _ Hplain) in Hin.
          apply containsIndex_elem_of in Hin.
          rewrite (removeIndex_Permutation _ _ Hin).
          apply submseteq_skip. by apply Hsub.
      + exists [], (index :: rest). split; [done|]. split.
        * split; [cbn; lia|done].
        * intros _. apply submseteq_nil_l.
Qed.

  (** The closing loop closes the end of the set, from the top down. *)
Lemma closeAnnotations_closes (closed : list nat) :
    forall kept calls,
      closeAnnotations (length closed) (length kept + length closed - 1)
        (kept ++ closed) calls
      = (calls ++ map CloseCall (rev closed), kept).
Proof.
    induction closed as [|x r IH] using rev_ind; intros kept calls.
    - cbn. by rewrite !app_nil_r.
    - rewrite length_app. cbn [length]. rewrite Nat.add_1_r.
      cbn [closeAnnotations].
      replace (length kept + S (length r) - 1)%nat with (length kept + length r)%nat
        by lia.
      unfold AnnotationSet.getIndex, AnnotationSet.removeAt.
      rewrite app_assoc.
      rewrite nth_error_app2 by (rewrite length_app; lia).
      rewrite length_app, Nat.sub_diag. cbn [nth_error].
      replace (length kept + length r)%nat with (length (kept ++ r))
        by (by rewrite length_app).
      rewrite firstn_app, Nat.sub_diag, firstn_all. cbn [firstn].
      rewrite app_nil_r.
      rewrite skipn_app, skipn_all2 by lia.
      replace (S (length (kept ++ r)) - length (kept ++ r))%nat with 1%nat by lia.
      cbn [skipn app]. rewrite app_nil_r.
      rewrite length_app, IH. rewrite rev_app_distr. cbn [rev app map].
      by rewrite <- app_assoc.
Qed.

  (** The opening loop opens annotations of the target set, in its
      order, on top of the current set. *)
Lemma openAnnotations_opens (target : list nat) :
    forall currentSetOpen currentSet calls,
    exists opened,
      sublist opened target
      /\ openAnnotations target currentSetOpen currentSet calls
         = (calls ++ map OpenCall opened, currentSet ++ opened)
      /\ ((forall a b, comparableForSerialization a b = true -> a = b) ->
          currentSetOpen ⊆+ target -> currentSetOpen ++ opened ≡ₚ target).
Proof.
    induction target as [|index rest IH]; intros cso cur calls; cbn [openAnnotations].
    - exists []. split; [done|]. split; [by rewrite !app_nil_r|].
      intros _ Hsub. apply submseteq_nil_r in Hsub. by subst cso.
    - destruct (_ || _) eqn:Hin.
      + destruct (IH (AnnotationSet.removeIndex cso index) cur calls)
          as (opened & Hsl & Hrun & Hperm).
        exists opened. split; [by apply sublist_cons|]. split; [done|].
        intros Hplain Hsub. rewrite (contains_plain _ _ Hplain) in Hin.
        apply containsIndex_elem_of in Hin.
        pose proof (removeIndex_Permutation _ _ Hin) as Hp.
        rewrite Hp in Hsub |- *. cbn [app]. apply Permutation_skip.
        apply Hperm; [done|]. by apply submseteq_app_inv_l with (k := [index]).
      + destruct (IH cso (AnnotationSet.pushIndex cur index) (calls ++ [OpenCall index]))
          as (opened & Hsl & Hrun & Hperm).
        exists (index :: opened). split; [by apply sublist_skip|]. split.
        * rewrite Hrun. unfold AnnotationSet.pushIndex. cbn [map].
          by rewrite <- !app_assoc.
        * intros Hplain Hsub. rewrite (contains_plain _ _ Hplain) in Hin.
          rewrite <- Permutation_middle. apply Permutation_skip.
          apply Hperm; [done|].
          apply submseteq_cons_r in Hsub as [Hsub|(l' & Hp & _)]; [done|].
          assert (index ∈ cso) by (rewrite Hp; left).
          apply containsIndex_elem_of in H0. congruence.
Qed.

  (** X8. [openAndCloseAnnotations] keeps a prefix of the current set,
      closes what follows it from the top down, and then opens
      annotations of the target set, in the order of the target set, on
      top of what it kept: every call of [close] comes before every call
      of [open]. *)
Theorem openAndCloseAnnotations_closes_then_opens
      (currentSet targetSet : AnnotationSet.t) :
    exists kept closed opened,
      currentSet = kept ++ closed
      /\ sublist opened targetSet
      /\ openAndCloseAnnotations currentSet targetSet
         = (map CloseCall (rev closed) ++ map OpenCall opened, kept ++ opened).
Proof.
    unfold openAndCloseAnnotations.
    destruct (findStartClosingAt_prefix currentSet 0 targetSet)
      as (kept & closed & -> & Hres & _).
    destruct (findStartClosingAt (kept ++ closed) 0 targetSet) as [k|].
    - destruct Hres as [-> _]. unfold AnnotationSet.getLength.
      rewrite length_app.
      replace (length kept + length closed - (0 + length kept))%nat
        with (length closed) by lia.
      rewrite closeAnnotations_closes. cbn [app].
      destruct (openAnnotations_opens targetSet kept kept (map CloseCall (rev closed)))
        as (opened & Hsl & Hrun & _).
      by exists kept, closed, opened.
    - subst closed. rewrite app_nil_r.
      destruct (openAnnotations_opens targetSet kept kept []) as (opened & Hsl & Hrun & _).
      exists kept, [], opened. by rewrite app_nil_r.
Qed.

  (** X9. Where no two different annotations are comparable for
      serialization, [openAndCloseAnnotations] leaves in the current set
      the annotations of the target set, each as many times as the target
      set has it. *)
Theorem openAndCloseAnnotations_reaches_target
      (currentSet targetSet : AnnotationSet.t) :
    (forall a b, comparableForSerialization a b = true -> a = b) ->
    (openAndCloseAnnotations currentSet targetSet).2 ≡ₚ targetSet.
Proof.
    intros Hplain. unfold openAndCloseAnnotations.
    destruct (findStartClosingAt_prefix currentSet 0 targetSet)
      as (kept & closed & -> & Hres & Hsub).
    specialize (Hsub Hplain).
    destruct (findStartClosingAt (kept ++ closed) 0 targetSet) as [k|].
    - destruct Hres as [-> _]. unfold AnnotationSet.getLength.
      rewrite length_app.
      replace (length kept + length closed - (0 + length kept))%nat
        with (length closed) by lia.
      rewrite closeAnnotations_closes. cbn [app].
      destruct (openAnnotations_opens targetSet kept kept (map CloseCall (rev closed)))
        as (opened & _ & -> & Hperm).
      by apply Hperm.
    - subst closed. rewrite app_nil_r in *.
      destruct (openAnnotations_opens targetSet kept kept []) as (opened & _ & -> & Hperm).
      by apply Hperm.
Qed.

  (** X10. A target set that has the annotations of the current set,
      each as many times, in whatever order, calls neither callback and
      leaves the current set as it is. *)
Theorem openAndCloseAnnotations_same_annotations
      (currentSet targetSet : AnnotationSet.t) :
    currentSet ≡ₚ targetSet ->
    openAndCloseAnnotations currentSet targetSet = ([], currentSet).
Proof.
    intros Hperm. unfold openAndCloseAnnotations.
    assert (Hfind : forall current i targetSetOpen,
               current ⊆+ targetSetOpen ->
               findStartClosingAt current i targetSetOpen = None).
    { induction current as [|x r IH]; intros i tso Hsub; [done|].
      cbn [findStartClosingAt].
      assert (Hx : x ∈ tso).
      { eapply elem_of_submseteq; [|exact Hsub]. left. }
      rewrite (proj2 (containsIndex_elem_of tso x) Hx). cbn [orb].
      apply IH. rewrite (removeIndex_Permutation _ _ Hx) in Hsub.
      by apply submseteq_app_inv_l with (k := [x]). }
    rewrite Hfind by (by rewrite Hperm).
    assert (Hopen : forall target currentSetOpen cur,
               target ⊆+ currentSetOpen ->
               openAnnotations target currentSetOpen cur [] = ([], cur)).
    { induction target as [|x r IH]; intros cso cur Hsub; [done|].
      cbn [openAnnotations].
      assert (Hx : x ∈ cso).
      { eapply elem_of_submseteq; [|exact Hsub]. left. }
      rewrite (proj2 (containsIndex_elem_of cso x) Hx). cbn [orb].
      apply IH. rewrite (removeIndex_Permutation _ _ Hx) in Hsub.
      by apply submseteq_app_inv_l with (k := [x]). }
    apply Hopen. by rewrite Hperm.
Qed.

  (** X11. In an element whose white space is significant, the text is
      converted whole: the white space at its ends is data like the rest
      of it, and the element is left as it is. *)
Theorem significant_whitespace_is_data tag attrs (text : JsString) (x : nat)
      (e : Element) (stack : list Context) (w : World) :
    heap w !! x = Some e ->
    canNodeContainContent (type e) = true ->
    doesNodeHaveSignificantWhitespace (type e) = true ->
    getDataFromDomSubtree (ElementNode tag attrs [TextNode text]) (Some x)
      (Some AnnotationSet.empty) stack w
    = Returned
        ([Ref x] ++ map Chr text ++ [Ref (length (heap w))],
         mkWorld (heap w ++ [closeElement (String.append "/" (type e))]) (store w)).
Proof.
    intros He Hcontent Hsig.
    unfold getDataFromDomSubtree. cbn [height Nat.max getDataFromDomSubtreeWithin childNodesOf].
    unfold convertSubtree. cbv zeta. cbn [mbind option_bind length].
    rewrite He. cbn [fmap option_fmap option_map]. unfold initialContext.
    rewrite Hcontent. cbn [orb].
    cbn [convertChildren convertChild].
    set (cx := mkContext _ _ _ _ _ _ _).
    set (l0 := mkLocals _ _ _ _ _ _ _ _).
    assert (Htext : convertText (Some x) 0 1 text l0 w
                    = Returned (tt, set_data (data l0 ++ map Chr text) l0, w)).
    { unfold convertText. destruct text as [|c0 text0].
      - run. subst l0. cbn. done.
      - run. subst l0 cx. fields. cbn [negb]. unfold wrapperType, readElement. run.
        rewrite He. change (default "" (type <$> Some e)) with (type e).
        rewrite Hsig. cbn [negb andb]. rewrite !andb_false_r. run.
        rewrite He. change (default "" (type <$> Some e)) with (type e).
        rewrite Hsig. cbn [negb andb]. rewrite !andb_false_r. run. reflexivity. }
    rewrite (run_bind _ _ _ _ _ _ _ (run_bind _ _ _ _ _ _ _ Htext)).
    run.
    rewrite (closeSubtree_content x e _ (set_data (data l0 ++ map Chr text) l0) w
               eq_refl Hcontent eq_refl He).
    subst l0. cbn [data set_data allocated heap store]. by rewrite <- app_assoc.
Qed.

  (** The text of an annotation: characters that carry the annotation
      set. *)
Lemma convertSubtree_annotated_text (recurse : Recursion) (text : JsString)
      (a : AnnotationSet.t) (stack : list Context) (w : World) :
    a <> [] -> text <> [] ->
    convertSubtree recurse [TextNode text] None (Some a) stack w
    = Returned (map (fun ch => AnnChr ch a) text, w).
Proof.
    intros Ha Htext. unfold convertSubtree. cbv zeta. cbn [mbind option_bind length].
    unfold initialContext.
    assert (Hne : AnnotationSet.isEmpty a = false) by (by destruct a).
    rewrite Hne. cbn [negb]. rewrite orb_true_r.
    cbn [convertChildren convertChild].
    destruct text as [|c0 text0]; [done|].
    unfold convertText. run. fields. cbn [negb].
    unfold closeSubtree. run. fields. rewrite ?andb_false_r. run. fields.
    rewrite ?andb_false_r. unfold getDataContentFromText. rewrite Hne. reflexivity.
Qed.

Lemma storeIndex_run a l w :
    storeIndex a l w
    = Returned (default (length (store w)) (indexOf a (store w) 0), l, indexed a w).
Proof.
    unfold storeIndex, indexed. run. by destruct (indexOf a (store w) 0).
Qed.

  (** The branch of an annotation where content is expected: the data
      of the recursive call are appended as they are. *)
Lemma convertAnnotation_data (recurse : Recursion) stack child nodes n e' l w
      items w2 :
    heap w !! n = Some e' ->
    expectingContent (context l) = true ->
    wrappedMetaItems l = [] ->
    recurse child None
      (Some (AnnotationSet.pushIndex (cx_annotations (context l))
               (default (length (store w))
                  (indexOf (createFromElement e') (store w) 0))))
      (stack ++ [context l]) (indexed (createFromElement e') w)
    = Returned (items, w2) ->
    items <> [] ->
    isAllInstanceOf w2 items (className AlienMetaItem) = false ->
    convertAnnotation recurse stack child nodes [Ref n] l w
    = Returned (O, set_wrappedWhitespace [] (set_data (data l ++ items) l), w2).
Proof.
    intros He Hexp Hq Hrec Hne Hall.
    unfold convertAnnotation. cbn [head]. run. rewrite He. run.
    rewrite Hexp, andb_false_r. run. rewrite storeIndex_run.
    unfold callRecurse. rewrite Hrec. run.
    destruct items as [|it items']; [done|]. cbn [length Nat.eqb orb].
    rewrite Hall. run.
    rewrite outputWrappedMetaItems_restore_empty by done. reflexivity.
Qed.

  (** X22. Text inside an annotation element, in an element that takes
      content: every character of the text is data that carries the
      index the annotation has in the store, where it is added if it is
      not there; the data element of the annotation is made and is not
      part of the data. *)
Theorem annotated_text_carries_index ptag pattrs tag attrs (text : JsString) (x : nat)
      (p e : Element) (c c' : ModelClass) (stack : list Context) (w : World) :
    let child := ElementNode tag attrs [TextNode text] in
    heap w !! x = Some p ->
    canNodeContainContent (type p) = true ->
    ignored child = false ->
    text <> [] ->
    lookup (matchElement child (1 <? length (getAboutGroup child []))%nat) = Some c ->
    extends c AnnotationClass = true ->
    (forall stack', toDataElement c [child] stack' = TdOne e) ->
    lookup (Some (type e)) = Some c' ->
    extends c' AnnotationClass = true ->
    let annotation := createFromElement (withOriginalDomElements [child] e) in
    let index := default (length (store w)) (indexOf annotation (store w) 0) in
    getDataFromDomSubtree (ElementNode ptag pattrs [child]) (Some x)
      (Some AnnotationSet.empty) stack w
    = Returned
        ([Ref x] ++ map (fun ch => AnnChr ch [index]) text
         ++ [Ref (S (length (heap w)))],
         mkWorld
           (heap w ++ [withOriginalDomElements [child] e;
                       closeElement (String.append "/" (type p))])
           (store (indexed annotation w))).
Proof.
    intros child Hp Hcontent Hign Htext Hc Hann Hdata Hc' Hann' annotation index.
    unfold getDataFromDomSubtree.
    change (height (ElementNode ptag pattrs [child])) with 3%nat.
    cbn [getDataFromDomSubtreeWithin childNodesOf].
    unfold convertSubtree at 1. cbv zeta. cbn [mbind option_bind length].
    rewrite Hp. cbn [fmap option_fmap option_map]. unfold initialContext at 1.
    rewrite Hcontent. cbn [orb].
    change (AnnotationSet.isEmpty AnnotationSet.empty) with true. cbn [negb orb].
    set (cx := mkContext _ _ _ _ _ _ _).
    set (l0 := mkLocals _ _ _ _ _ _ _ _).
    cbn [convertChildren].
    set (recurse := fun (domElement : DomNode) (wrapperElement : option nat) _ _ _ => _).
    set (e' := withOriginalDomElements [child] e) in *.
    set (w1 := mkWorld (heap w ++ [e']) (store w)).
    assert (He' : heap w1 !! length (heap w) = Some e').
    { subst w1. cbn [heap]. by rewrite lookup_app_r, Nat.sub_diag. }
    assert (Hchild : convertChild recurse (Some x) stack 0 1 child [] l0 w
                     = Returned
                         (O,
                          set_wrappedWhitespace []
                            (set_data (data l0 ++ map (fun ch => AnnChr ch [index]) text) l0),
                          indexed annotation w1)).
    { unfold convertChild, child at 1. fold child. unfold convertElement.
      unfold ignored in Hign. rewrite Hign. cbv zeta. rewrite Hc.
      change (default AlienNode (Some c)) with c. rewrite Hann. run. rewrite createDataElements_run, Hdata.
      cbn [valuesOf markFirst itemsFor elementsOf]. fold e'. fold w1.
      rewrite (firstType_ref _ _ e') by done. run.
      change (type e') with (type e). rewrite Hc', Hann'.
      apply (convertAnnotation_data recurse stack child [child] (length (heap w)) e');
        try done.
      - subst recurse. cbv beta. unfold child at 1. cbn [childNodesOf].
        subst l0 cx. fields.
        rewrite convertSubtree_annotated_text; [|done|done].
        unfold AnnotationSet.pushIndex, AnnotationSet.empty. cbn [app].
        subst index annotation w1. cbn [store]. reflexivity.
      - by destruct text.
      - destruct text; [done|]. reflexivity. }
    rewrite (run_bind _ _ _ _ _ _ _ Hchild). run.
    assert (Hheap : heap (indexed annotation w1) = heap w ++ [e']).
    { unfold indexed. subst w1. by destruct (indexOf _ _ _). }
    assert (Hp' : heap (indexed annotation w1) !! x = Some p).
    { rewrite Hheap. rewrite lookup_app_l; [done|]. by eapply lookup_lt_Some. }
    rewrite (closeSubtree_content x p _
               (set_wrappedWhitespace []
                  (set_data (data l0 ++ map (fun ch => AnnChr ch [index]) text) l0))
               _ eq_refl Hcontent eq_refl Hp').
    subst l0. fields. unfold allocated. rewrite Hheap.
    rewrite length_app, Nat.add_1_r, <- !app_assoc. cbn [length app].
    do 3 f_equal. unfold indexed. subst w1. cbn [store].
    by destruct (indexOf _ _ _).
Qed.

End More.

(** *** The further properties on the small registry *)

Lemma bare_text_is_wrapped_witness :
  [32] ++ [97; 98] ++ [32] = [32; 97; 98; 32]
  /\ getDataFromDomSubtree (H := ToyHtml.registry)
       (ElementNode "body" [] [TextNode [32; 97; 98; 32]]) None None [] ToyHtml.emptyWorld
     = Returned
         ([Ref 0%nat; Chr 97; Chr 98; Ref 1%nat],
          mkWorld
            [withWhitespace 3 [32] (withWhitespace 0 [32] wrapperParagraphElement);
             closeElement "/paragraph"]
            []).
Proof.
  exact (bare_text_is_wrapped (H := ToyHtml.registry) "body" [] [32; 97; 98; 32]
           ToyHtml.emptyWorld eq_refl ltac:(discriminate) eq_refl).
Defined.

Lemma inner_whitespace_is_stored_witness :
  [32] ++ [97; 98] ++ [10] = [32; 97; 98; 10]
  /\ getDataFromDomSubtree (H := ToyHtml.registry)
       (ElementNode "p" [] [TextNode [32; 97; 98; 10]]) (Some 0%nat)
       (Some AnnotationSet.empty) [] (mkWorld [ToyHtml.plain "paragraph"] [])
     = Returned
         ([Ref 0%nat; Chr 97; Chr 98; Ref 1%nat],
          mkWorld
            [withWhitespace 2 [10] (withWhitespace 1 [32] (ToyHtml.plain "paragraph"));
             closeElement "/paragraph"]
            []).
Proof.
  exact (inner_whitespace_is_stored (H := ToyHtml.registry) "p" [] [32; 97; 98; 10]
           0%nat (ToyHtml.plain "paragraph") [] (mkWorld [ToyHtml.plain "paragraph"] [])
           eq_refl eq_refl eq_refl).
Defined.

Lemma passed_over_children_leave_no_trace_witness :
  getDataFromDomSubtree (H := ToyHtml.registry)
    (ElementNode "div" []
       [TextNode []; ElementNode "span" [("data-ve-ignore", "1")] [ToyHtml.text "x"];
        OtherNode 7])
    None None [] ToyHtml.emptyWorld
  = getDataFromDomSubtree (H := ToyHtml.registry) (ElementNode "div" [] [])
      None None [] ToyHtml.emptyWorld.
Proof.
  exact (passed_over_children_leave_no_trace (H := ToyHtml.registry) "div" []
           [TextNode []; ElementNode "span" [("data-ve-ignore", "1")] [ToyHtml.text "x"];
            OtherNode 7]
           None None [] ToyHtml.emptyWorld eq_refl).
Defined.

Lemma lone_whitespace_is_kept_witness :
  getDataFromDomSubtree (H := ToyHtml.registry)
    (ElementNode "body" [] [TextNode [10; 32]]) None None [] ToyHtml.emptyWorld
  = Returned
      ([Ref 0%nat; Ref 1%nat],
       mkWorld [addWhitespaceTo 0 [10; 32] emptyParagraphElement;
                closeElement "/paragraph"] []).
Proof.
  exact (lone_whitespace_is_kept (H := ToyHtml.registry) "body" [] [10; 32]
           ToyHtml.emptyWorld eq_refl eq_refl).
Defined.

Lemma empty_element_is_filled_witness :
  getDataFromDomSubtree (H := ToyHtml.registry) (ElementNode "li" [] []) (Some 0%nat)
    (Some AnnotationSet.empty) [] (mkWorld [ToyHtml.plain "listItem"] [])
  = Returned
      ([Ref 0%nat; Ref 1%nat; Ref 2%nat; Ref 3%nat],
       mkWorld
         [ToyHtml.plain "listItem"; emptyParagraphElement; closeElement "/paragraph";
          closeElement "/listItem"]
         []).
Proof.
  exact (empty_element_is_filled (H := ToyHtml.registry) "li" [] 0%nat
           (ToyHtml.plain "listItem") AnnotationSet.empty []
           (mkWorld [ToyHtml.plain "listItem"] []) eq_refl).
Defined.

Lemma document_is_never_empty_witness :
  [Ref 0%nat; Ref 1%nat] <> @nil Item.
Proof.
  apply (document_is_never_empty (H := ToyHtml.registry) (ElementNode "body" [] [])
           ToyHtml.emptyWorld [Ref 0%nat; Ref 1%nat]
           (mkWorld [emptyParagraphElement; closeElement "/paragraph"] [])).
  reflexivity.
Defined.

Lemma existing_elements_are_kept_witness :
  let w : World (H := ToyHtml.registry) :=
    mkWorld [ToyHtml.plain "list"; ToyHtml.plain "div"] [] in
  exists items w',
    getDataFromDomSubtree ToyHtml.sample (Some 1%nat) (Some AnnotationSet.empty) [] w
    = Returned (items, w')
    /\ (forall x e, heap w !! x = Some e -> Some 1%nat <> Some x -> heap w' !! x = Some e)
    /\ (forall x e, heap w !! x = Some e ->
                    exists e', heap w' !! x = Some e' /\ type e' = type e).
Proof.
  apply (existing_elements_are_kept (H := ToyHtml.registry) ToyHtml.sample (Some 1%nat)
           (Some AnnotationSet.empty) []
           (mkWorld [ToyHtml.plain "list"; ToyHtml.plain "div"] [])).
  - exact ToyHtml_contract.
  - exists (ToyHtml.plain "div"). split; reflexivity.
Defined.

Lemma openAndCloseAnnotations_reaches_target_witness :
  (openAndCloseAnnotations (H := ToyHtml.registry) [1; 2; 1]%nat [1; 1; 3]%nat).2
  ≡ₚ [1; 1; 3]%nat.
Proof.
  apply (openAndCloseAnnotations_reaches_target (H := ToyHtml.registry)
           [1; 2; 1]%nat [1; 1; 3]%nat).
  intros a b Hab. apply Nat.eqb_eq. exact Hab.
Defined.

Lemma openAndCloseAnnotations_same_annotations_witness :
  openAndCloseAnnotations (H := ToyHtml.registry) [1; 2]%nat [2; 1]%nat
  = ([], [1; 2]%nat).
Proof.
  apply (openAndCloseAnnotations_same_annotations (H := ToyHtml.registry)
           [1; 2]%nat [2; 1]%nat).
  apply perm_swap.
Defined.

Lemma significant_whitespace_is_data_witness :
  getDataFromDomSubtree (H := ToyHtml.withPreformatted)
    (ElementNode "pre" [] [TextNode [32; 97; 10]]) (Some 0%nat)
    (Some AnnotationSet.empty) [] (mkWorld [ToyHtml.plain "preformatted"] [])
  = Returned
      ([Ref 0%nat; Chr 32; Chr 97; Chr 10; Ref 1%nat],
       mkWorld [ToyHtml.plain "preformatted"; closeElement "/preformatted"] []).
Proof.
  exact (significant_whitespace_is_data (H := ToyHtml.withPreformatted) "pre" []
           [32; 97; 10] 0%nat (ToyHtml.plain "preformatted") []
           (mkWorld [ToyHtml.plain "preformatted"] []) eq_refl eq_refl eq_refl).
Defined.

Lemma annotated_text_carries_index_witness :
  getDataFromDomSubtree (H := ToyHtml.registry)
    (ElementNode "p" [] [ElementNode "b" [] [TextNode [97; 32]]]) (Some 0%nat)
    (Some AnnotationSet.empty) [] (mkWorld [ToyHtml.plain "paragraph"] [])
  = Returned
      ([Ref 0%nat; AnnChr 97 [0%nat]; AnnChr 32 [0%nat]; Ref 2%nat],
       mkWorld (H := ToyHtml.registry)
         [ToyHtml.plain "paragraph";
          withOriginalDomElements [ElementNode "b" [] [TextNode [97; 32]]]
            (ToyHtml.plain "textStyle/bold");
          closeElement "/paragraph"]
         ["textStyle/bold"%string]).
Proof.
  exact (annotated_text_carries_index (H := ToyHtml.registry) "p" [] "b" [] [97; 32]
           0%nat (ToyHtml.plain "paragraph") (ToyHtml.plain "textStyle/bold")
           ToyHtml.bold ToyHtml.bold [] (mkWorld [ToyHtml.plain "paragraph"] [])
           eq_refl eq_refl eq_refl ltac:(discriminate) eq_refl eq_refl
           (fun _ => eq_refl) eq_refl eq_refl).
Defined.

(** ** Properties of [renderHtmlAttributeList] *)

Import Render.

Section Rendering.
Variable domProperty : DomNode -> string -> string.

Lemma DomNode_nested_ind (P : DomNode -> Prop) :
    (forall tag attrs children, Forall P children -> P (ElementNode tag attrs children)) ->
    (forall c, P (CommentNode c)) ->
    (forall t, P (TextNode t)) ->
    (forall k, P (OtherNode k)) ->
    forall n, P n.
Proof.
    intros He Hc Ht Ho. fix IH 1. intros [tag attrs children|c|t|k].
    - apply He. induction children as [|child rest IHrest].
      + constructor.
      + constructor; [apply IH|exact IHrest].
    - apply Hc.
    - apply Ht.
    - apply Ho.
Qed.

Lemma putElements_nil childNodes : putElements childNodes [] = childNodes.
Proof.
    induction childNodes as [|n rest IH]; [done|]. cbn.
    destruct (isElementNode n); [done|]. by rewrite IH.
Qed.

Lemma putElements_same childNodes :
    putElements childNodes (elementChildren childNodes) = childNodes.
Proof.
    induction childNodes as [|n rest IH]; [done|].
    unfold elementChildren in *. cbn [List.filter putElements].
    destruct (isElementNode n) eqn:Hn; cbn [putElements]; rewrite ?Hn; by rewrite IH.
Qed.

Lemma nextElement_Some childNodes before t after :
    nextElement childNodes = Some (before, t, after) ->
    childNodes = before ++ t :: after
    /\ isElementNode t = true
    /\ elementChildren before = []
    /\ forall elements, putElements (before ++ t :: after) elements
                        = before ++ putElements (t :: after) elements.
Proof.
    revert before. induction childNodes as [|n rest IH]; intros before; [done|].
    cbn [nextElement]. destruct (isElementNode n) eqn:Hn.
    - intros [= <- <- <-]. done.
    - destruct (nextElement rest) as [[[b t'] a]|]; [|done].
      intros [= <- <- <-]. destruct (IH b eq_refl) as (-> & Ht & Hb & Hput).
      repeat split; try done.
      + cbn. by rewrite Hn.
      + intros elements. cbn [app putElements]. rewrite Hn. by rewrite Hput.
Qed.

Lemma nextElement_None childNodes :
    nextElement childNodes = None -> elementChildren childNodes = [].
Proof.
    induction childNodes as [|n rest IH]; [done|].
    cbn [nextElement]. destruct (isElementNode n) eqn:Hn; [done|].
    destruct (nextElement rest) as [[[b t'] a]|]; [done|].
    intros _. cbn. rewrite Hn. by apply IH.
Qed.

Lemma elementChildren_app a b :
    elementChildren (a ++ b) = elementChildren a ++ elementChildren b.
Proof. apply List.filter_app. Qed.

  (** The recursive call on the [children] of two elements, as the
      source has it: the loop on the child elements of the one and of the
      other. *)
Lemma renderNode_element filter computed deep tag attrs children ttag tattrs tchildren :
    renderNode domProperty filter computed deep (ElementNode tag attrs children)
      (ElementNode ttag tattrs tchildren)
    = let tattrs' :=
        copyAttributes domProperty filter computed (ElementNode tag attrs children)
          attrs tattrs in
      if deep && (0 <? length (elementChildren children))%nat
      then
        match renderAll domProperty filter computed true (elementChildren children)
                (elementChildren tchildren) with
        | Done elements => Done (ElementNode ttag tattrs' (putElements tchildren elements))
        | Thrown m => Thrown m
        end
      else Done (ElementNode ttag tattrs' tchildren).
Proof.
    cbn [renderNode]. cbv zeta.
    destruct (deep && _); [|done].
    set (walk := fix children (originals targets : list DomNode) {struct originals}
                   : Outcome (list DomNode) := _).
    assert (Hwalk : forall os ts,
               walk os ts
               = match renderAll domProperty filter computed true (elementChildren os)
                         (elementChildren ts) with
                 | Done elements => Done (putElements ts elements)
                 | Thrown m => Thrown m
                 end).
    { induction os as [|o os IH]; intros ts.
      - cbn. by rewrite putElements_same.
      - cbn [walk]. fold walk. cbn [elementChildren List.filter].
        destruct (isElementNode o) eqn:Ho; [|apply IH].
        fold (elementChildren os).
        destruct (nextElement ts) as [[[before t] after]|] eqn:Hnext.
        + destruct (nextElement_Some _ _ _ _ Hnext) as (-> & Ht & Hb & Hput).
          rewrite elementChildren_app, Hb. cbn [app elementChildren List.filter].
          rewrite Ht. fold (elementChildren after). cbn [renderAll].
          destruct (renderNode _ _ _ _ o t) as [t'|m]; [|done].
          rewrite IH.
          destruct (renderAll _ _ _ _ _ _) as [els|m]; [|done].
          rewrite Hput. cbn [putElements]. by rewrite Ht.
        + rewrite (nextElement_None _ Hnext). cbn [renderAll].
          by rewrite putElements_nil. }
    rewrite Hwalk. by destruct (renderAll _ _ _ _ _ _).
Qed.

Lemma hasAttribute_app a b name :
    hasAttribute (a ++ b) name = hasAttribute a name || hasAttribute b name.
Proof.
    unfold hasAttribute. induction a as [|[k v] a IH]; [done|]. cbn.
    by destruct (String.eqb k name).
Qed.

Lemma hasAttribute_one k v name :
    hasAttribute [(k, v)] name = String.eqb k name.
Proof. unfold hasAttribute. cbn. by destruct (String.eqb k name). Qed.

Lemma attributeOf_app a b name :
    attributeOf (a ++ b) name
    = match attributeOf a name with
      | Some v => Some v
      | None => attributeOf b name
      end.
Proof.
    induction a as [|[k v] a IH]; [done|]. cbn. by destruct (String.eqb k name).
Qed.

  (** The attribute loop adds attributes the target does not have, after
      those it has. *)
Lemma copyAttributes_adds filter computed original attrs : forall targetAttrs,
    exists more,
      copyAttributes domProperty filter computed original attrs targetAttrs
      = targetAttrs ++ more
      /\ (forall name, hasAttribute targetAttrs name = true ->
                       hasAttribute more name = false).
Proof.
    induction attrs as [|[name value] rest IH]; intros tattrs; cbn [copyAttributes].
    - exists []. by rewrite app_nil_r.
    - cbv zeta. destruct (negb (hasAttribute tattrs name) && filterPasses filter name)
        eqn:Hadd.
      + apply andb_prop in Hadd as [Hno _]. apply negb_true_iff in Hno.
        destruct (IH (tattrs ++
                        [(name,
                          if computed && existsb (String.eqb name) computedAttributes
                          then domProperty original name else value)]))
          as (more & -> & Hmore).
        eexists. rewrite <- app_assoc. split; [reflexivity|].
        intros n Hn. rewrite hasAttribute_app, hasAttribute_one.
        rewrite Hmore by (by rewrite hasAttribute_app, Hn).
        rewrite orb_false_r. apply String.eqb_neq. intros ->. congruence.
      + apply IH.
Qed.

Lemma Enriched_refl n : Enriched n n.
Proof.
    induction n as [tag attrs children IH|c|t|k] using DomNode_nested_ind;
      try constructor.
    rewrite <- (app_nil_r attrs) at 2. constructor; [|done].
    induction IH; by constructor.
Qed.

Lemma Enriched_isElementNode n n' : Enriched n n' -> isElementNode n' = isElementNode n.
Proof. by intros []. Qed.

Lemma Forall2_Enriched_refl l : Forall2 Enriched l l.
Proof. induction l; constructor; [apply Enriched_refl|done]. Qed.

Lemma putElements_enriched childNodes : forall elements,
    Forall2 Enriched (elementChildren childNodes) elements ->
    Forall2 Enriched childNodes (putElements childNodes elements).
Proof.
    induction childNodes as [|n rest IH]; intros elements Hall; [constructor|].
    unfold elementChildren in *. cbn [List.filter putElements] in *.
    destruct (isElementNode n) eqn:Hn.
    - inversion Hall; subst. constructor; [done|]. by apply IH.
    - constructor; [apply Enriched_refl|]. by apply IH.
Qed.

Lemma renderAll_enriched filter computed deep originals :
    Forall (fun o => forall deep t t',
              renderNode domProperty filter computed deep o t = Done t' ->
              Enriched t t') originals ->
    forall targets targets',
      renderAll domProperty filter computed deep originals targets = Done targets' ->
      Forall2 Enriched targets targets'.
Proof.
    induction 1 as [|o os Ho Hos IH]; intros ts ts'; cbn [renderAll].
    - intros [= <-]. apply Forall2_Enriched_refl.
    - destruct ts as [|t ts]; [intros [= <-]; constructor|].
      destruct (renderNode _ _ _ _ o t) as [t'|m] eqn:Hnode; [|done].
      destruct (renderAll _ _ _ _ os ts) as [ts''|m] eqn:Hall; [|done].
      intros [= <-]. constructor; [by eapply Ho|by apply IH].
Qed.

Lemma Forall_elementChildren (P : DomNode -> Prop) l :
    Forall P l -> Forall P (elementChildren l).
Proof.
    unfold elementChildren. induction 1 as [|n l Hn Hl IH]; [constructor|].
    cbn. destruct (isElementNode n); [by constructor|done].
Qed.

Lemma renderNode_enriched filter computed original :
    forall deep target target',
      renderNode domProperty filter computed deep original target = Done target' ->
      Enriched target target'.
Proof.
    induction original as [tag attrs children IH|c|t|k] using DomNode_nested_ind;
      intros deep target target'; try (intros [= <-]; apply Enriched_refl).
    destruct target as [ttag tattrs tchildren|c|t|k].
    - rewrite renderNode_element. cbv zeta.
      destruct (copyAttributes_adds filter computed (ElementNode tag attrs children)
                  attrs tattrs) as (more & -> & Hmore).
      destruct (deep && _).
      + destruct (renderAll _ _ _ _ _ _) as [els|m] eqn:Hall; [|done].
        intros [= <-]. constructor; [|done].
        apply putElements_enriched.
        eapply renderAll_enriched; [|exact Hall].
        by apply Forall_elementChildren.
      + intros [= <-]. constructor; [apply Forall2_Enriched_refl|done].
    - cbn. destruct attrs; [|done]. destruct (deep && _); [done|].
      intros [= <-]. constructor.
    - cbn. destruct attrs; [|done]. destruct (deep && _); [done|].
      intros [= <-]. constructor.
    - cbn. destruct attrs; [|done]. destruct (deep && _); [done|].
      intros [= <-]. constructor.
Qed.

  (** X23. [renderHtmlAttributeList] only adds attributes: a target
      element keeps its tag and the attributes it has, with their values,
      new attributes come after them under names it did not have, and its
      child nodes are kept, the child elements changed in the same way;
      nodes that are not elements are left as they are, and no target is
      added or dropped. *)
Theorem renderHtmlAttributeList_only_adds
      (originalDomElements targetDomElements targetDomElements' : list DomNode)
      (filter : AttributeFilter) (computed deep : bool) :
    renderHtmlAttributeList domProperty originalDomElements targetDomElements
      filter computed deep
    = Done targetDomElements' ->
    Forall2 Enriched targetDomElements targetDomElements'.
Proof.
    unfold renderHtmlAttributeList.
    assert (Hall : renderAll domProperty filter computed deep originalDomElements
                     targetDomElements = Done targetDomElements' ->
                   Forall2 Enriched targetDomElements targetDomElements').
    { apply renderAll_enriched. apply Forall_forall. intros o _.
      apply renderNode_enriched. }
    destruct filter as [|[|]|f]; try exact Hall.
    intros [= <-]. apply Forall2_Enriched_refl.
Qed.

Lemma hasAttribute_attributeOf attrs name :
    hasAttribute attrs name = true <-> attributeOf attrs name <> None.
Proof. unfold hasAttribute. by destruct (attributeOf attrs name). Qed.

Lemma copyAttributes_kept filter computed original attrs targetAttrs name v :
    attributeOf targetAttrs name = Some v ->
    attributeOf (copyAttributes domProperty filter computed original attrs targetAttrs)
      name
    = Some v.
Proof.
    intros Hv.
    destruct (copyAttributes_adds filter computed original attrs targetAttrs)
      as (more & -> & _).
    by rewrite attributeOf_app, Hv.
Qed.

  (** An attribute of the original that passes the filter and that the
      target does not have is copied, with the value of the first
      attribute of that name. *)
Lemma copyAttributes_value filter computed original attrs : forall targetAttrs name v,
    attributeOf attrs name = Some v ->
    filterPasses filter name = true ->
    attributeOf targetAttrs name = None ->
    attributeOf (copyAttributes domProperty filter computed original attrs targetAttrs)
      name
    = Some (if computed && existsb (String.eqb name) computedAttributes
            then domProperty original name else v).
Proof.
    induction attrs as [|[k v0] rest IH]; intros tattrs name v Hv Hpass Hno; [done|].
    cbn [copyAttributes attributeOf] in *. cbv zeta.
    destruct (String.eqb k name) eqn:Hk.
    - apply String.eqb_eq in Hk. subst k. injection Hv as ->.
      unfold hasAttribute. rewrite Hno, Hpass. cbn [negb andb].
      apply copyAttributes_kept. rewrite attributeOf_app, Hno. cbn.
      by rewrite String.eqb_refl.
    - apply IH; try done.
      destruct (negb (hasAttribute tattrs k) && filterPasses filter k); [|done].
      rewrite attributeOf_app, Hno. cbn. by rewrite Hk.
Qed.

  (** Nothing is copied to a target that has every attribute that
      passes. *)
Lemma copyAttributes_nothing filter computed original attrs targetAttrs :
    (forall name, hasAttribute attrs name = true -> filterPasses filter name = true ->
                  hasAttribute targetAttrs name = true) ->
    copyAttributes domProperty filter computed original attrs targetAttrs = targetAttrs.
Proof.
    induction attrs as [|[k v] rest IH]; intros Hall; [done|].
    cbn [copyAttributes]. cbv zeta.
    assert (Hk : negb (hasAttribute targetAttrs k) && filterPasses filter k = false).
    { destruct (filterPasses filter k) eqn:Hpass; [|by rewrite andb_false_r].
      rewrite Hall; [done| |done]. unfold hasAttribute. cbn. by rewrite String.eqb_refl. }
    rewrite Hk. apply IH. intros name Hn Hpass. apply Hall; [|done].
    unfold hasAttribute in *. cbn. by destruct (String.eqb k name).
Qed.

Lemma copyAttributes_idempotent filter computed original attrs targetAttrs :
    let copied := copyAttributes domProperty filter computed original attrs targetAttrs in
    copyAttributes domProperty filter computed original attrs copied = copied.
Proof.
    cbv zeta. apply copyAttributes_nothing. intros name Hn Hpass.
    apply hasAttribute_attributeOf in Hn.
    destruct (attributeOf attrs name) as [v|] eqn:Hv; [|done].
    apply hasAttribute_attributeOf.
    destruct (attributeOf targetAttrs name) as [v0|] eqn:Hv0.
    - by rewrite (copyAttributes_kept _ _ _ _ _ _ _ Hv0).
    - by rewrite (copyAttributes_value _ _ _ _ _ _ _ Hv Hpass Hv0).
Qed.

Lemma elementChildren_putElements childNodes : forall elements,
    Forall2 Enriched (elementChildren childNodes) elements ->
    elementChildren (putElements childNodes elements) = elements
    /\ putElements (putElements childNodes elements) elements
       = putElements childNodes elements.
Proof.
    induction childNodes as [|n rest IH]; intros elements Hall.
    - by inversion Hall.
    - unfold elementChildren in *. cbn [List.filter putElements] in *.
      destruct (isElementNode n) eqn:Hn.
      + inversion Hall as [|? e ? els He Hels]; subst.
        pose proof (Enriched_isElementNode _ _ He) as Hel. rewrite Hn in Hel.
        destruct (IH els Hels) as (IH1 & IH2).
        cbn [List.filter putElements]. rewrite Hel. by rewrite IH1, IH2.
      + destruct (IH elements Hall) as (IH1 & IH2).
        cbn [List.filter putElements]. rewrite Hn. by rewrite IH1, IH2.
Qed.

Lemma renderAll_idempotent filter computed deep originals :
    Forall (fun o => forall deep t t',
              renderNode domProperty filter computed deep o t = Done t' ->
              renderNode domProperty filter computed deep o t' = Done t') originals ->
    forall targets targets',
      renderAll domProperty filter computed deep originals targets = Done targets' ->
      renderAll domProperty filter computed deep originals targets' = Done targets'.
Proof.
    induction 1 as [|o os Ho Hos IH]; intros ts ts'; cbn [renderAll].
    - by intros [= <-].
    - destruct ts as [|t ts]; [by intros [= <-]|].
      destruct (renderNode _ _ _ _ o t) as [t'|m] eqn:Hnode; [|done].
      destruct (renderAll _ _ _ _ os ts) as [ts''|m] eqn:Hall; [|done].
      intros [= <-]. cbn [renderAll]. by rewrite (Ho _ _ _ Hnode), (IH _ _ Hall).
Qed.

Lemma renderNode_idempotent filter computed original :
    forall deep target target',
      renderNode domProperty filter computed deep original target = Done target' ->
      renderNode domProperty filter computed deep original target' = Done target'.
Proof.
    induction original as [tag attrs children IH|c|t|k] using DomNode_nested_ind;
      intros deep target target'; try (by intros [= <-]).
    destruct target as [ttag tattrs tchildren|c|t|k].
    - rewrite renderNode_element. cbv zeta.
      destruct (deep && _) eqn:Hdeep.
      + destruct (renderAll _ _ _ _ _ _) as [els|m] eqn:Hall; [|done].
        intros [= <-]. rewrite renderNode_element. cbv zeta. rewrite Hdeep.
        rewrite copyAttributes_idempotent.
        assert (Hen : Forall2 Enriched (elementChildren tchildren) els).
        { eapply renderAll_enriched; [|exact Hall].
          apply Forall_forall. intros o _. apply renderNode_enriched. }
        destruct (elementChildren_putElements tchildren els Hen) as (-> & Hput).
        rewrite (renderAll_idempotent filter computed true (elementChildren children)
                   (Forall_elementChildren _ _ IH) _ _ Hall).
        by rewrite Hput.
      + intros [= <-]. rewrite renderNode_element. cbv zeta. rewrite Hdeep.
        by rewrite copyAttributes_idempotent.
    - cbn [renderNode]. destruct attrs; [|done].
      destruct (deep && _) eqn:Hdeep; [done|].
      intros [= <-]. cbn [renderNode]. by rewrite ?Hdeep.
    - cbn [renderNode]. destruct attrs; [|done].
      destruct (deep && _) eqn:Hdeep; [done|].
      intros [= <-]. cbn [renderNode]. by rewrite ?Hdeep.
    - cbn [renderNode]. destruct attrs; [|done].
      destruct (deep && _) eqn:Hdeep; [done|].
      intros [= <-]. cbn [renderNode]. by rewrite ?Hdeep.
Qed.

  (** X24. [renderHtmlAttributeList] is idempotent: a second call with
      the same original elements on the targets the first one left finds
      nothing to add. *)
Theorem renderHtmlAttributeList_idempotent
      (originalDomElements targetDomElements targetDomElements' : list DomNode)
      (filter : AttributeFilter) (computed deep : bool) :
    renderHtmlAttributeList domProperty originalDomElements targetDomElements
      filter computed deep
    = Done targetDomElements' ->
    renderHtmlAttributeList domProperty originalDomElements targetDomElements'
      filter computed deep
    = Done targetDomElements'.
Proof.
    unfold renderHtmlAttributeList.
    assert (Hall : renderAll domProperty filter computed deep originalDomElements
                     targetDomElements = Done targetDomElements' ->
                   renderAll domProperty filter computed deep originalDomElements
                     targetDomElements' = Done targetDomElements').
    { apply renderAll_idempotent. apply Forall_forall. intros o _.
      apply renderNode_idempotent. }
    destruct filter as [|[|]|f]; try exact Hall.
    by intros [= <-].
Qed.

Lemma renderAll_lookup filter computed deep originals : forall targets targets' i o t,
    renderAll domProperty filter computed deep originals targets = Done targets' ->
    originals !! i = Some o ->
    targets !! i = Some t ->
    exists t', targets' !! i = Some t'
               /\ renderNode domProperty filter computed deep o t = Done t'.
Proof.
    induction originals as [|o0 os IH]; intros ts ts' i o t; [done|].
    destruct ts as [|t0 ts]; [done|]. cbn [renderAll].
    destruct (renderNode _ _ _ _ o0 t0) as [t0'|m] eqn:Hnode; [|done].
    destruct (renderAll _ _ _ _ os ts) as [ts''|m] eqn:Hall; [|done].
    intros [= <-]. destruct i as [|i]; cbn.
    - intros [= <-] [= <-]. by exists t0'.
    - intros Ho Ht. by eapply IH.
Qed.

  (** X25. After [renderHtmlAttributeList], a target has every attribute
      of the original at its index that passes the filter: with the value
      it had when it had the attribute, and otherwise with the value of
      the original, or with its DOM property for a computed attribute. *)
Theorem renderHtmlAttributeList_copies_missing
      (originalDomElements targetDomElements targetDomElements' : list DomNode)
      (filter : AttributeFilter) (computed deep : bool)
      (i : nat) (original target : DomNode) (name value : string) :
    renderHtmlAttributeList domProperty originalDomElements targetDomElements
      filter computed deep
    = Done targetDomElements' ->
    originalDomElements !! i = Some original ->
    targetDomElements !! i = Some target ->
    getAttribute original name = Some value ->
    filterPasses filter name = true ->
    (targetDomElements' !! i) ≫= (fun target' => getAttribute target' name)
    = Some (match getAttribute target name with
            | Some own => own
            | None =>
                if computed && existsb (String.eqb name) computedAttributes
                then domProperty original name
                else value
            end).
Proof.
    intros Hrun Ho Ht Hv Hpass. unfold renderHtmlAttributeList in Hrun.
    assert (Hall : renderAll domProperty filter computed deep originalDomElements
                     targetDomElements = Done targetDomElements').
    { destruct filter as [|[|]|f]; done. }
    destruct (renderAll_lookup _ _ _ _ _ _ _ _ _ Hall Ho Ht) as (t' & -> & Hnode).
    cbn [mbind option_bind].
    destruct original as [tag attrs children| | |]; try done. cbn [getAttribute] in Hv.
    destruct target as [ttag tattrs tchildren|c|t|k];
      try (cbn in Hnode; by destruct attrs).
    rewrite renderNode_element in Hnode. cbv zeta in Hnode. cbn [getAttribute].
    assert (Hattrs : getAttribute t' name
                     = attributeOf
                         (copyAttributes domProperty filter computed
                            (ElementNode tag attrs children) attrs tattrs) name).
    { revert Hnode. clear Hall Hrun.
      destruct (deep && _); [destruct (renderAll _ _ _ _ _ _); [|done]|];
        by intros [= <-]. }
    rewrite Hattrs. destruct (attributeOf tattrs name) as [own|] eqn:Hown.
    - by apply copyAttributes_kept.
    - by apply copyAttributes_value.
Qed.

Lemma renderAll_elements filter computed deep originals :
    Forall (fun o => forall deep t, isElementNode t = true ->
              exists t', renderNode domProperty filter computed deep o t = Done t')
      originals ->
    forall targets,
      Forall (fun t => isElementNode t = true) targets ->
      exists targets',
        renderAll domProperty filter computed deep originals targets = Done targets'.
Proof.
    induction 1 as [|o os Ho Hos IH]; intros ts Hts; cbn [renderAll]; [by eexists|].
    destruct Hts as [|t ts Ht Hts]; [by eexists|].
    destruct (Ho deep t Ht) as (t' & ->). destruct (IH ts Hts) as (ts' & ->).
    by eexists.
Qed.

Lemma elementChildren_elements l :
    Forall (fun t => isElementNode t = true) (elementChildren l).
Proof.
    unfold elementChildren. induction l as [|n l IH]; [constructor|].
    cbn. destruct (isElementNode n) eqn:Hn; [by constructor|done].
Qed.

Lemma renderNode_elements filter computed original :
    forall deep target,
      isElementNode target = true ->
      exists target',
        renderNode domProperty filter computed deep original target = Done target'.
Proof.
    induction original as [tag attrs children IH|c|t|k] using DomNode_nested_ind;
      intros deep target Ht; try (by eexists).
    destruct target as [ttag tattrs tchildren| | |]; try done.
    rewrite renderNode_element. cbv zeta.
    destruct (deep && _); [|by eexists].
    destruct (renderAll_elements filter computed true (elementChildren children)
                (Forall_elementChildren _ _ IH) (elementChildren tchildren)
                (elementChildren_elements tchildren)) as (els & ->).
    by eexists.
Qed.


End Rendering.

(** *** The properties on a small example *)

Lemma renderHtmlAttributeList_only_adds_witness :
  Forall2 Enriched
    [ElementNode "a" [("class", "d")] [TextNode [32]; ElementNode "b" [] []]]
    [ElementNode "a" [("class", "d"); ("href", "resolved")]
       [TextNode [32]; ElementNode "b" [("id", "1")] []]].
Proof.
  apply (renderHtmlAttributeList_only_adds (fun _ _ => "resolved"%string)
           [ElementNode "a" [("href", "x"); ("class", "c")]
              [ElementNode "b" [("id", "1")] []]]
           [ElementNode "a" [("class", "d")] [TextNode [32]; ElementNode "b" [] []]]
           _ FilterUndefined true true).
  reflexivity.
Defined.

Lemma renderHtmlAttributeList_idempotent_witness :
  renderHtmlAttributeList (fun _ _ => "resolved"%string)
    [ElementNode "a" [("href", "x"); ("class", "c")] [ElementNode "b" [("id", "1")] []]]
    [ElementNode "a" [("class", "d"); ("href", "resolved")]
       [TextNode [32]; ElementNode "b" [("id", "1")] []]]
    FilterUndefined true true
  = Done
      [ElementNode "a" [("class", "d"); ("href", "resolved")]
         [TextNode [32]; ElementNode "b" [("id", "1")] []]].
Proof.
  apply (renderHtmlAttributeList_idempotent (fun _ _ => "resolved"%string)
           [ElementNode "a" [("href", "x"); ("class", "c")]
              [ElementNode "b" [("id", "1")] []]]
           [ElementNode "a" [("class", "d")] [TextNode [32]; ElementNode "b" [] []]]
           _ FilterUndefined true true).
  reflexivity.
Defined.

Lemma renderHtmlAttributeList_copies_missing_witness :
  getAttribute (ElementNode "a" [("class", "d"); ("href", "x")] []) "href" = Some "x"%string.
Proof.
  exact (renderHtmlAttributeList_copies_missing (fun _ _ => "resolved"%string)
           [ElementNode "a" [("href", "x"); ("class", "c")] []]
           [ElementNode "a" [("class", "d")] []]
           [ElementNode "a" [("class", "d"); ("href", "x")] []]
           (FilterFunction (fun name => negb (String.eqb name "style"))) false false
           0%nat
           (ElementNode "a" [("href", "x"); ("class", "c")] [])
           (ElementNode "a" [("class", "d")] [])
           "href" "x"
           eq_refl eq_refl eq_refl eq_refl eq_refl).
Defined.


End ConverterProofs.
